(** * Entrance animations of amp-story pages (extensions/amp-story/0.1/animation.js)

    A shallow embedding of the coordination logic of [animation.js]: the
    [AnimationSequence] bus, the per-element [AnimationRunner] playback
    state machine and the [AnimationManager] fan-out, over an explicit
    model of the JavaScript promise store and microtask queue. *)

From stdpp Require Import base numbers strings list gmap.

Open Scope string_scope.
Open Scope Z_scope.
Open Scope list_scope.

(** ** Data model *)

(** [PlaybackActivity = {START: 0, FINISH: 1}]: the enum values are numbers,
    and [START] is the falsy number 0. *)
Inductive PlaybackActivity := START | FINISH.

Definition activity_value (a : PlaybackActivity) : Z :=
  match a with START => 0 | FINISH => 1 end.

#[global] Instance PlaybackActivity_eq_dec : EqDecision PlaybackActivity.
Proof. solve_decision. Defined.

(** [WebAnimationPlayState] of amp-animation (web-animation-types). *)
Inductive WebAnimationPlayState := IDLE | PENDING | RUNNING | PAUSED | FINISHED.

#[global] Instance WebAnimationPlayState_eq_dec : EqDecision WebAnimationPlayState.
Proof. solve_decision. Defined.

(** A keyframe property value: a number (a fraction [num/den]) or a string. *)
Inductive Value :=
| VNumber (num : Z) (den : positive)
| VString (s : string).

#[global] Instance Value_eq_dec : EqDecision Value.
Proof. solve_decision. Defined.

(** JavaScript truthiness of a value. *)
Definition truthy (v : Value) : bool :=
  match v with
  | VNumber n _ => bool_decide (n ≠ 0)
  | VString s => bool_decide (s ≠ "")
  end.

(** A keyframe is an object from property names to values, in key order. *)
Definition KeyframeDef := list (string * Value).
Definition KeyframesDef := list KeyframeDef.

Record StoryAnimationDimsDef := {
  pageWidth : Z; pageHeight : Z;
  targetWidth : Z; targetHeight : Z;
  targetX : Z; targetY : Z }.

(** [KeyframesOrFilterFnDef]: an array, or a function of the dimensions. *)
Inductive KeyframesOrFilterFnDef :=
| KeyframesArray (k : KeyframesDef)
| KeyframesFn (f : StoryAnimationDimsDef -> KeyframesDef).

(** A JS number-or-undefined field: [None] is [undefined]. Durations and
    delays are whole milliseconds. *)
Record StoryAnimationPresetDef := {
  preset_keyframes : KeyframesOrFilterFnDef;
  preset_duration : option Z;
  preset_delay : option Z;
  preset_easing : string }.

(** The part of a DOM element the module reads. *)
Record Element := {
  tagName : string;
  el_id : string;
  attributes : list (string * string) }.

Record StoryAnimationDef := {
  target : Element;
  preset : StoryAnimationPresetDef;
  duration : option Z;
  delay : option Z;
  startAfterId : option string }.

(** [function getCssProps(frameDef)]:
    [Object.keys(frameDef).filter(k => k != 'offset')]. *)
Definition getCssProps (frameDef : KeyframeDef) : list string :=
  filter (fun k => k ≠ "offset") (fst <$> frameDef).

(** ** Promises and microtasks *)

(** The closures the module hands to [then]. Each names the arrow function
    of the source it stands for; [i] is the runner ([this]) it closes over. *)
Inductive Callback :=
| CbFilterKeyframes (i : nat)   (* getDims().then(keyframesArrayOrFn) *)
| CbWebAnimationDef (i : nat)   (* keyframes => ({keyframes, target, ...}) *)
| CbAwaitBuilder (i : nat)      (* webAnimDef => webAnimationBuilderPromise.then(...) *)
| CbCreateRunner (i : nat)      (* builder => builder.createRunner(webAnimDef) *)
| CbAssertOffset (i : nat)      (* keyframes => dev().assert(!keyframes[0].offset, ...) *)
| CbRunnerReady (i : nat)       (* runner => this.onRunnerReady_(runner) *)
| CbApplyFirstFrame (i : nat)   (* the arrow of applyFirstFrame *)
| CbResetFirstFrame (i : nat)   (* the arrow of resetFirstFrame_ *)
| CbWaitFor (i : nat)           (* () => this.sequence_.waitFor(startAfterId) *)
| CbTimer (i : nat)             (* () => this.timer_.promise(this.delay_) *)
| CbPlayback (i : nat) (a : PlaybackActivity). (* the arrow of playbackWhenReady_ *)

#[global] Instance Callback_eq_dec : EqDecision Callback.
Proof. solve_decision. Defined.

(** What is registered on a pending promise: [p.then(cb)] with its derived
    promise [out], or the resolving function of a promise [out] that has
    adopted [p] (a callback returned [p]). *)
Inductive Reaction :=
| RThen (cb : Callback) (out : nat)
| RAdopt (out : nat).

Inductive PromiseState :=
| Pending (reactions : list Reaction)
| Resolved.

(** Jobs of the microtask queue: a reaction of a settled promise, or the
    job that calls [p.then] for a promise [out] resolved with the promise
    [p]. *)
Inductive Job :=
| JReact (r : Reaction)
| JThenable (p out : nat).

(** ** The runner object, the sequence bus and the world *)

(** The host [WebAnimationRunner] built by amp-animation's builder: its play
    state and whether [onPlayStateChanged] has a handler of this module. *)
Record WebAnimationRunner := {
  playState : WebAnimationPlayState;
  subscribed : bool }.

(** Fields of [class AnimationRunner]. Promises are indices into the promise
    store; [keyframes_value] is the value [keyframes_] resolves with, once
    known, and [dims] the measured dimensions; [host] is the host runner object once the builder created it, and
    [runner_] tells whether [this.runner_] refers to it or is still [null]. *)
Record AnimationRunner := {
  target_ : Element;
  animationDef_ : StoryAnimationDef;
  presetDef_ : StoryAnimationPresetDef;
  keyframes_ : nat;
  keyframes_value : option KeyframesDef;
  dims : option StoryAnimationDimsDef;
  delay_ : Z;
  duration_ : Z;
  runnerPromise_ : nat;
  host : option WebAnimationRunner;
  runner_ : bool;
  scheduledActivity_ : option PlaybackActivity;
  scheduledWait_ : option nat;
  runnerReset_ : bool;
  firstFrameApplied_ : bool }.

(** Fields of [class AnimationSequence]; [map()] of src/utils/object makes
    an object without prototype, so [id in obj] is exactly key membership.
    A resolver is identified with the promise it resolves. *)
Record AnimationSequence := {
  subscriptionPromises_ : gmap string nat;
  subscriptionResolvers_ : gmap string nat }.

Inductive Mutation :=
| SetStyles (styles : list (string * Value))
| ResetStyles (props : list string).

#[global] Instance Mutation_eq_dec : EqDecision Mutation.
Proof. solve_decision. Defined.

(** The calls the properties below speak of, recorded in the order they are
    made (newest first): calls on the host runner, on the bus, on vsync and
    on the timer. *)
Inductive Effect :=
| HostStart (i : nat)
| HostResume (i : nat)
| HostFinish (i : nat)
| HostCancel (i : nat)
| SeqNotifyFinish (id : string)  (* sequence_.notifyFinish(id) is entered *)
| SeqResolve (id : string)       (* the resolver of the in-flight wait runs *)
| VsyncMeasure (i : nat)
| VsyncMutate (i : nat) (m : Mutation)
| TimerPromise (i : nat) (ms : Z).

#[global] Instance Effect_eq_dec : EqDecision Effect.
Proof. solve_decision. Defined.

Inductive Error :=
| UserError (msg : string)
| DevError (msg : string)
| TypeError (msg : string).

Record World := {
  promises : list PromiseState;
  microtasks : list Job;
  timers : list nat;
  measures : list (nat * nat);
  mutates : list nat;
  objs : list AnimationRunner;
  sequence_ : AnimationSequence;
  builderPromise_ : nat;
  runners_ : option (list nat);
  trace : list Effect }.

Definition set_promises (f : list PromiseState -> list PromiseState) (w : World) : World :=
  {| promises := f (promises w); microtasks := microtasks w; timers := timers w;
     measures := measures w; mutates := mutates w; objs := objs w; sequence_ := sequence_ w;
     builderPromise_ := builderPromise_ w; runners_ := runners_ w; trace := trace w |}.

Definition set_microtasks (f : list Job -> list Job) (w : World) : World :=
  {| promises := promises w; microtasks := f (microtasks w); timers := timers w;
     measures := measures w; mutates := mutates w; objs := objs w; sequence_ := sequence_ w;
     builderPromise_ := builderPromise_ w; runners_ := runners_ w; trace := trace w |}.

Definition set_timers (f : list nat -> list nat) (w : World) : World :=
  {| promises := promises w; microtasks := microtasks w; timers := f (timers w);
     measures := measures w; mutates := mutates w; objs := objs w; sequence_ := sequence_ w;
     builderPromise_ := builderPromise_ w; runners_ := runners_ w; trace := trace w |}.

Definition set_measures (f : list (nat * nat) -> list (nat * nat)) (w : World) : World :=
  {| promises := promises w; microtasks := microtasks w; timers := timers w;
     measures := f (measures w); mutates := mutates w; objs := objs w; sequence_ := sequence_ w;
     builderPromise_ := builderPromise_ w; runners_ := runners_ w; trace := trace w |}.

Definition set_mutates (f : list nat -> list nat) (w : World) : World :=
  {| promises := promises w; microtasks := microtasks w; timers := timers w;
     measures := measures w; mutates := f (mutates w); objs := objs w; sequence_ := sequence_ w;
     builderPromise_ := builderPromise_ w; runners_ := runners_ w; trace := trace w |}.

Definition set_objs (f : list AnimationRunner -> list AnimationRunner) (w : World) : World :=
  {| promises := promises w; microtasks := microtasks w; timers := timers w;
     measures := measures w; mutates := mutates w; objs := f (objs w); sequence_ := sequence_ w;
     builderPromise_ := builderPromise_ w; runners_ := runners_ w; trace := trace w |}.

Definition set_sequence (f : AnimationSequence -> AnimationSequence) (w : World) : World :=
  {| promises := promises w; microtasks := microtasks w; timers := timers w;
     measures := measures w; mutates := mutates w; objs := objs w; sequence_ := f (sequence_ w);
     builderPromise_ := builderPromise_ w; runners_ := runners_ w; trace := trace w |}.

Definition set_runners (v : option (list nat)) (w : World) : World :=
  {| promises := promises w; microtasks := microtasks w; timers := timers w;
     measures := measures w; mutates := mutates w; objs := objs w; sequence_ := sequence_ w;
     builderPromise_ := builderPromise_ w; runners_ := v; trace := trace w |}.

Definition emit (e : Effect) (w : World) : World :=
  {| promises := promises w; microtasks := microtasks w; timers := timers w;
     measures := measures w; mutates := mutates w; objs := objs w; sequence_ := sequence_ w;
     builderPromise_ := builderPromise_ w; runners_ := runners_ w; trace := e :: trace w |}.

(** ** A state monad with exceptions

    A [throw] aborts the rest of the computation and keeps the mutations
    made so far, as a JavaScript exception does. *)
Inductive Res (A : Type) :=
| Ok (a : A)
| Throw (e : Error).
Arguments Ok {A} a.
Arguments Throw {A} e.

Definition M (A : Type) : Type := World -> Res A * World.

Definition ret {A} (a : A) : M A := fun w => (Ok a, w).
Definition throw {A} (e : Error) : M A := fun w => (Throw e, w).
Definition bind {A B} (m : M A) (k : A -> M B) : M B :=
  fun w => match m w with
           | (Ok a, w') => k a w'
           | (Throw e, w') => (Throw e, w')
           end.
Definition get : M World := fun w => (Ok w, w).
Definition modify (f : World -> World) : M unit := fun w => (Ok tt, f w).

Notation "'let!' x ':=' m 'in' k" := (bind m (fun x => k))
  (at level 10, x name, m at level 100, k at level 200).
Notation "m '>>' k" := (bind m (fun _ => k))
  (at level 90, right associativity).

Definition when (b : bool) (m : M unit) : M unit := if b then m else ret tt.

(** The world a computation leaves, and whether it threw. *)
Definition exec {A} (m : M A) (w : World) : World := snd (m w).
Definition throws {A} (m : M A) (w : World) : bool :=
  match fst (m w) with Ok _ => false | Throw _ => true end.

(** ** Promise primitives *)

(** [new Promise(...)] in state [st]; the new promise is the next index. *)
Definition newPromise (st : PromiseState) : M nat :=
  fun w => (Ok (length (promises w)), set_promises (fun ps => ps ++ [st]) w).

Definition enqueue (js : list Job) : M unit :=
  modify (set_microtasks (fun q => q ++ js)).

(** The resolving function of [p], called with a value that is no promise:
    a pending promise settles and its reactions become microtasks, a
    settled one is left alone. *)
Definition resolvePromise (p : nat) : M unit :=
  fun w => match promises w !! p with
           | Some (Pending rs) =>
               (Ok tt, set_microtasks (fun q => q ++ (JReact <$> rs))
                         (set_promises (<[p := Resolved]>) w))
           | _ => (Ok tt, w)
           end.

(** Registering a reaction on [p]. *)
Definition react (p : nat) (r : Reaction) : M unit :=
  let! w := get in
  match promises w !! p with
  | Some (Pending rs) => modify (set_promises (<[p := Pending (rs ++ [r])]>))
  | Some Resolved => enqueue [JReact r]
  | None => ret tt
  end.

(** [p.then(cb)]: the derived promise is returned. *)
Definition then_ (p : nat) (cb : Callback) : M nat :=
  let! out := newPromise (Pending []) in
  react p (RThen cb out) >> ret out.

(** ** AnimationSequence *)

Definition set_subscriptionPromises (f : gmap string nat -> gmap string nat)
    (s : AnimationSequence) : AnimationSequence :=
  {| subscriptionPromises_ := f (subscriptionPromises_ s);
     subscriptionResolvers_ := subscriptionResolvers_ s |}.

Definition set_subscriptionResolvers (f : gmap string nat -> gmap string nat)
    (s : AnimationSequence) : AnimationSequence :=
  {| subscriptionPromises_ := subscriptionPromises_ s;
     subscriptionResolvers_ := f (subscriptionResolvers_ s) |}.

(** [AnimationSequence.create()]. *)
Definition AnimationSequence_create : AnimationSequence :=
  {| subscriptionPromises_ := ∅; subscriptionResolvers_ := ∅ |}.

(** [notifyFinish(id)]. *)
Definition notifyFinish (id : string) : M unit :=
  modify (emit (SeqNotifyFinish id)) >>
  let! w := get in
  match subscriptionPromises_ (sequence_ w) !! id with
  | Some _ =>
      match subscriptionResolvers_ (sequence_ w) !! id with
      | Some r =>
          modify (emit (SeqResolve id)) >>
          resolvePromise r >>
          modify (set_sequence (set_subscriptionPromises (delete id)))
      | None => throw (DevError "Assertion failed")
      end
  | None => ret tt
  end.

(** [waitFor(id)]: the executor stores the resolver, then the promise is
    stored. *)
Definition waitFor (id : string) : M nat :=
  let! w := get in
  match subscriptionPromises_ (sequence_ w) !! id with
  | Some p => ret p
  | None =>
      let! p := newPromise (Pending []) in
      modify (set_sequence (set_subscriptionResolvers (<[id := p]>))) >>
      modify (set_sequence (set_subscriptionPromises (<[id := p]>))) >>
      ret p
  end.

(** ** Field updates of a runner *)

Definition set_keyframes_value (v : option KeyframesDef) (r : AnimationRunner) : AnimationRunner :=
  {| target_ := target_ r; animationDef_ := animationDef_ r;
     presetDef_ := presetDef_ r; keyframes_ := keyframes_ r;
     keyframes_value := v; dims := dims r; delay_ := delay_ r;
     duration_ := duration_ r; runnerPromise_ := runnerPromise_ r;
     host := host r; runner_ := runner_ r;
     scheduledActivity_ := scheduledActivity_ r;
     scheduledWait_ := scheduledWait_ r; runnerReset_ := runnerReset_ r;
     firstFrameApplied_ := firstFrameApplied_ r |}.

Definition set_dims (v : option StoryAnimationDimsDef) (r : AnimationRunner) : AnimationRunner :=
  {| target_ := target_ r; animationDef_ := animationDef_ r;
     presetDef_ := presetDef_ r; keyframes_ := keyframes_ r;
     keyframes_value := keyframes_value r; dims := v; delay_ := delay_ r;
     duration_ := duration_ r; runnerPromise_ := runnerPromise_ r;
     host := host r; runner_ := runner_ r;
     scheduledActivity_ := scheduledActivity_ r;
     scheduledWait_ := scheduledWait_ r; runnerReset_ := runnerReset_ r;
     firstFrameApplied_ := firstFrameApplied_ r |}.

Definition set_host (v : option WebAnimationRunner) (r : AnimationRunner) : AnimationRunner :=
  {| target_ := target_ r; animationDef_ := animationDef_ r;
     presetDef_ := presetDef_ r; keyframes_ := keyframes_ r;
     keyframes_value := keyframes_value r; dims := dims r;
     delay_ := delay_ r; duration_ := duration_ r;
     runnerPromise_ := runnerPromise_ r; host := v; runner_ := runner_ r;
     scheduledActivity_ := scheduledActivity_ r;
     scheduledWait_ := scheduledWait_ r; runnerReset_ := runnerReset_ r;
     firstFrameApplied_ := firstFrameApplied_ r |}.

Definition set_runner (v : bool) (r : AnimationRunner) : AnimationRunner :=
  {| target_ := target_ r; animationDef_ := animationDef_ r;
     presetDef_ := presetDef_ r; keyframes_ := keyframes_ r;
     keyframes_value := keyframes_value r; dims := dims r;
     delay_ := delay_ r; duration_ := duration_ r;
     runnerPromise_ := runnerPromise_ r; host := host r; runner_ := v;
     scheduledActivity_ := scheduledActivity_ r;
     scheduledWait_ := scheduledWait_ r; runnerReset_ := runnerReset_ r;
     firstFrameApplied_ := firstFrameApplied_ r |}.

Definition set_scheduledActivity (v : option PlaybackActivity) (r : AnimationRunner) : AnimationRunner :=
  {| target_ := target_ r; animationDef_ := animationDef_ r;
     presetDef_ := presetDef_ r; keyframes_ := keyframes_ r;
     keyframes_value := keyframes_value r; dims := dims r;
     delay_ := delay_ r; duration_ := duration_ r;
     runnerPromise_ := runnerPromise_ r; host := host r;
     runner_ := runner_ r; scheduledActivity_ := v;
     scheduledWait_ := scheduledWait_ r; runnerReset_ := runnerReset_ r;
     firstFrameApplied_ := firstFrameApplied_ r |}.

Definition set_scheduledWait (v : option nat) (r : AnimationRunner) : AnimationRunner :=
  {| target_ := target_ r; animationDef_ := animationDef_ r;
     presetDef_ := presetDef_ r; keyframes_ := keyframes_ r;
     keyframes_value := keyframes_value r; dims := dims r;
     delay_ := delay_ r; duration_ := duration_ r;
     runnerPromise_ := runnerPromise_ r; host := host r;
     runner_ := runner_ r; scheduledActivity_ := scheduledActivity_ r;
     scheduledWait_ := v; runnerReset_ := runnerReset_ r;
     firstFrameApplied_ := firstFrameApplied_ r |}.

Definition set_runnerReset (v : bool) (r : AnimationRunner) : AnimationRunner :=
  {| target_ := target_ r; animationDef_ := animationDef_ r;
     presetDef_ := presetDef_ r; keyframes_ := keyframes_ r;
     keyframes_value := keyframes_value r; dims := dims r;
     delay_ := delay_ r; duration_ := duration_ r;
     runnerPromise_ := runnerPromise_ r; host := host r;
     runner_ := runner_ r; scheduledActivity_ := scheduledActivity_ r;
     scheduledWait_ := scheduledWait_ r; runnerReset_ := v;
     firstFrameApplied_ := firstFrameApplied_ r |}.

Definition set_firstFrameApplied (v : bool) (r : AnimationRunner) : AnimationRunner :=
  {| target_ := target_ r; animationDef_ := animationDef_ r;
     presetDef_ := presetDef_ r; keyframes_ := keyframes_ r;
     keyframes_value := keyframes_value r; dims := dims r;
     delay_ := delay_ r; duration_ := duration_ r;
     runnerPromise_ := runnerPromise_ r; host := host r;
     runner_ := runner_ r; scheduledActivity_ := scheduledActivity_ r;
     scheduledWait_ := scheduledWait_ r; runnerReset_ := runnerReset_ r;
     firstFrameApplied_ := v |}.

Definition getRunner (i : nat) : M AnimationRunner :=
  fun w => match objs w !! i with
           | Some r => (Ok r, w)
           | None => (Throw (TypeError "not an AnimationRunner"), w)
           end.

Definition updRunner (i : nat) (f : AnimationRunner -> AnimationRunner) : M unit :=
  modify (set_objs (alter f i)).

(** Modelled from the spec: [dev().assert] and [user().assert] of src/log,
    which is not part of the sources at hand. A failed developer assertion is
    fatal in development builds; a failed user assertion reports a
    user-facing error naming the offending configuration. Both raise. *)
Definition dev_assert (c : bool) (msg : string) : M unit :=
  if c then ret tt else throw (DevError msg).

Definition user_assert (c : bool) (msg : string) : M unit :=
  if c then ret tt else throw (UserError msg).

(** ** AnimationRunner *)

Inductive HostCall := CallStart | CallResume | CallFinish | CallCancel.

Definition effect_of (c : HostCall) (i : nat) : Effect :=
  match c with
  | CallStart => HostStart i
  | CallResume => HostResume i
  | CallFinish => HostFinish i
  | CallCancel => HostCancel i
  end.

Section Machine.

(** The host runner of amp-animation is not part of this module: what a call
    does to its play state, and which play states it reports to the
    [onPlayStateChanged] handlers during the call, is a parameter. *)
Variable host_call :
  HostCall -> WebAnimationPlayState ->
  WebAnimationPlayState * list WebAnimationPlayState.

(** The preset table of ./animation-presets. *)
Variable PRESETS : gmap string StoryAnimationPresetDef.

(** [isActivityScheduled_(opt_activity)]; [!opt_activity] holds for
    [undefined] and for the number 0. *)
Definition isActivityScheduled_ (r : AnimationRunner)
    (opt_activity : option PlaybackActivity) : bool :=
  let not_opt_activity :=
    match opt_activity with
    | None => true
    | Some a => bool_decide (activity_value a = 0)
    end in
  if not_opt_activity
  then bool_decide (scheduledActivity_ r ≠ None)
  else bool_decide (scheduledActivity_ r = opt_activity).

(** [hasStarted()]. *)
Definition hasStarted (r : AnimationRunner) : bool :=
  isActivityScheduled_ r (Some START)
  || (runner_ r && bool_decide (playState <$> host r = Some RUNNING)).

(** [notifyFinish_()]. *)
Definition notifyFinish_ (i : nat) : M unit :=
  let! r := getRunner i in
  if bool_decide (el_id (target_ r) ≠ "")
  then notifyFinish (el_id (target_ r))
  else ret tt.

(** The handler given to [runner.onPlayStateChanged] in [onRunnerReady_]. *)
Definition playStateChanged (i : nat) (state : WebAnimationPlayState) : M unit :=
  if bool_decide (state = FINISHED) then notifyFinish_ i else ret tt.

Fixpoint fire (i : nat) (states : list WebAnimationPlayState) : M unit :=
  match states with
  | [] => ret tt
  | s :: rest => playStateChanged i s >> fire i rest
  end.

(** A call of a method of the host runner of runner [i]. *)
Definition hostInvoke (i : nat) (c : HostCall) : M unit :=
  let! r := getRunner i in
  match host r with
  | None => throw (TypeError "runner is null")
  | Some h =>
      modify (emit (effect_of c i)) >>
      let next := host_call c (playState h) in
      updRunner i (set_host (Some {| playState := fst next;
                                     subscribed := subscribed h |})) >>
      if subscribed h then fire i (snd next) else ret tt
  end.

(** [resetFirstFrame_()]. *)
Definition resetFirstFrame_ (i : nat) : M unit :=
  let! r := getRunner i in
  if negb (firstFrameApplied_ r) then ret tt
  else
    updRunner i (set_firstFrameApplied false) >>
    let! _ := then_ (keyframes_ r) (CbResetFirstFrame i) in
    ret tt.

(** [applyFirstFrame()]. *)
Definition applyFirstFrame (i : nat) : M nat :=
  let! r := getRunner i in
  if firstFrameApplied_ r then newPromise Resolved
  else
    updRunner i (set_firstFrameApplied true) >>
    then_ (keyframes_ r) (CbApplyFirstFrame i).

(** [startWhenReady_(runner)]. *)
Definition startWhenReady_ (i : nat) : M unit :=
  let! r := getRunner i in
  let shouldStart := runnerReset_ r in
  updRunner i (set_runnerReset false) >>
  resetFirstFrame_ i >>
  if shouldStart then hostInvoke i CallStart else hostInvoke i CallResume.

(** [finishWhenReady_(runner)]. *)
Definition finishWhenReady_ (i : nat) : M unit :=
  let! r := getRunner i in
  match host r with
  | None => throw (TypeError "runner is null")
  | Some h =>
      if bool_decide (playState h = RUNNING)
      then hostInvoke i CallFinish >> updRunner i (set_runnerReset true)
      else ret tt
  end.

(** [playbackWhenReady_(activity, wait)]. *)
Definition playbackWhenReady_ (i : nat) (activity : PlaybackActivity)
    (wait : option nat) : M unit :=
  let! r := getRunner i in
  dev_assert (runner_ r)
    "Tried to execute playbackWhenReady_ before runner was resolved." >>
  let! p := match wait with Some p => ret p | None => newPromise Resolved end in
  let! _ := then_ p (CbPlayback i activity) in
  ret tt.

(** The arrow function of [playbackWhenReady_], run when the wait resolves. *)
Definition playbackFire (i : nat) (activity : PlaybackActivity) : M unit :=
  let! r := getRunner i in
  if negb (isActivityScheduled_ r (Some activity)) then ret tt
  else
    updRunner i (set_scheduledActivity None) >>
    updRunner i (set_scheduledWait None) >>
    match activity with
    | START => startWhenReady_ i
    | FINISH => finishWhenReady_ i
    end.

(** [playback_(activity, opt_wait)]. *)
Definition playback_ (i : nat) (activity : PlaybackActivity)
    (opt_wait : option nat) : M unit :=
  updRunner i (set_scheduledActivity (Some activity)) >>
  updRunner i (set_scheduledWait opt_wait) >>
  let! r := getRunner i in
  if runner_ r then playbackWhenReady_ i activity opt_wait else ret tt.

(** [getStartWaitPromise_()]. *)
Definition getStartWaitPromise_ (i : nat) : M nat :=
  let! r := getRunner i in
  let! p0 := newPromise Resolved in
  let! p1 :=
    match startAfterId (animationDef_ r) with
    | Some id => if bool_decide (id ≠ "") then then_ p0 (CbWaitFor i) else ret p0
    | None => ret p0
    end in
  if bool_decide (delay_ r ≠ 0) then then_ p1 (CbTimer i) else ret p1.

(** [start()]. *)
Definition start (i : nat) : M unit :=
  let! r := getRunner i in
  if hasStarted r then ret tt
  else
    let! wait := getStartWaitPromise_ i in
    playback_ i START (Some wait).

(** [finish()]. *)
Definition finish (i : nat) : M unit :=
  let! r := getRunner i in
  when (firstFrameApplied_ r) (notifyFinish_ i) >>
  resetFirstFrame_ i >>
  playback_ i FINISH None.

(** [cancel()]. *)
Definition cancel (i : nat) : M unit :=
  updRunner i (set_scheduledActivity None) >>
  updRunner i (set_scheduledWait None) >>
  let! r := getRunner i in
  if hasStarted r then
    dev_assert (runner_ r) "Assertion failed" >>
    hostInvoke i CallCancel >>
    updRunner i (set_runnerReset true)
  else ret tt.

(** [onRunnerReady_(runner)]. *)
Definition onRunnerReady_ (i : nat) : M unit :=
  updRunner i (set_runner true) >>
  updRunner i (fun r => set_host
    ((fun h => {| playState := playState h; subscribed := true |}) <$> host r) r) >>
  let! r := getRunner i in
  if negb (isActivityScheduled_ r None) then ret tt
  else
    match scheduledActivity_ r with
    | Some a => playbackWhenReady_ i a (scheduledWait_ r)
    | None => ret tt
    end.

(** [a || b] on numbers that may be [undefined]: [a] when it is a nonzero
    number, else [b]. *)
Definition or_else (a : option Z) (b : Z) : Z :=
  match a with
  | Some n => if bool_decide (n = 0) then b else n
  | None => b
  end.

(** [animationDef.delay || this.presetDef_.delay || 0]. *)
Definition effective_delay (animationDef : StoryAnimationDef) : Z :=
  or_else (delay animationDef) (or_else (preset_delay (preset animationDef)) 0).

(** [animationDef.duration || this.presetDef_.duration || 0]. *)
Definition effective_duration (animationDef : StoryAnimationDef) : Z :=
  or_else (duration animationDef)
          (or_else (preset_duration (preset animationDef)) 0).

(** [filterKeyframes_(keyframesArrayOrFn)] with [getDims()] inlined: the
    promise, and its value when it is known at once. *)
Definition filterKeyframes_ (i : nat) (k : KeyframesOrFilterFnDef)
    : M (nat * option KeyframesDef) :=
  match k with
  | KeyframesArray a =>
      let! p := newPromise Resolved in
      ret (p, Some a)
  | KeyframesFn _ =>
      modify (emit (VsyncMeasure i)) >>
      let! pm := newPromise (Pending []) in
      modify (set_measures (fun l => l ++ [(pm, i)])) >>
      let! p := then_ pm (CbFilterKeyframes i) in
      ret (p, None)
  end.

Definition negative_delay_msg : string :=
  "Negative delays are not allowed in amp-story entrance animations.".

(** The play state of a host runner the builder has just created. *)
Variable host_initial : WebAnimationPlayState.

(** [new AnimationRunner(page, animationDef, builderPromise, vsync, timer,
    sequence)]; the result is the index of the new object. *)
Definition AnimationRunner_new (animationDef : StoryAnimationDef) : M nat :=
  let! w := get in
  let i := length (objs w) in
  let! kf := filterKeyframes_ i (preset_keyframes (preset animationDef)) in
  let! webAnimDef := then_ (fst kf) (CbWebAnimationDef i) in
  let! runnerPromise := then_ webAnimDef (CbAwaitBuilder i) in
  modify (set_objs (fun os => os ++ [
    {| target_ := target animationDef;
       animationDef_ := animationDef;
       presetDef_ := preset animationDef;
       keyframes_ := fst kf;
       keyframes_value := snd kf;
       dims := None;
       delay_ := effective_delay animationDef;
       duration_ := effective_duration animationDef;
       runnerPromise_ := runnerPromise;
       host := None;
       runner_ := false;
       scheduledActivity_ := None;
       scheduledWait_ := None;
       runnerReset_ := true;
       firstFrameApplied_ := false |}])) >>
  let! _ := then_ (fst kf) (CbAssertOffset i) in
  user_assert (bool_decide (0 <= effective_delay animationDef))
    negative_delay_msg >>
  let! _ := then_ runnerPromise (CbRunnerReady i) in
  ret i.

(** [frameDef[k]]. *)
Definition prop (frameDef : KeyframeDef) (k : string) : option Value :=
  match list_find (fun kv => fst kv = k) frameDef with
  | Some (_, kv) => Some (snd kv)
  | None => None
  end.

(** [keyframes[0]] of runner [r]; reading a property of [undefined] raises. *)
Definition firstFrame (r : AnimationRunner) : M KeyframeDef :=
  match keyframes_value r with
  | Some (f0 :: _) => ret f0
  | _ => throw (TypeError "Cannot read property of undefined")
  end.

(** What a callback does, and the promise it returns if it returns one. *)
Definition runCallback (cb : Callback) : M (option nat) :=
  match cb with
  | CbFilterKeyframes i =>
      let! r := getRunner i in
      match preset_keyframes (presetDef_ r), dims r with
      | KeyframesFn f, Some d =>
          updRunner i (set_keyframes_value (Some (f d))) >> ret None
      | _, _ => throw (TypeError "keyframesArrayOrFn is not a function")
      end
  | CbWebAnimationDef i => ret None
  | CbAwaitBuilder i =>
      let! w := get in
      let! p := then_ (builderPromise_ w) (CbCreateRunner i) in
      ret (Some p)
  | CbCreateRunner i =>
      updRunner i (set_host (Some {| playState := host_initial;
                                     subscribed := false |})) >>
      ret None
  | CbAssertOffset i =>
      let! r := getRunner i in
      let! f0 := firstFrame r in
      dev_assert (negb (from_option truthy false (prop f0 "offset")))
        "First keyframe offset for animation preset should be 0 or undefined" >>
      ret None
  | CbRunnerReady i => onRunnerReady_ i >> ret None
  | CbApplyFirstFrame i =>
      let! r := getRunner i in
      let! f0 := firstFrame r in
      modify (emit (VsyncMutate i
        (SetStyles (filter (fun kv => fst kv ≠ "offset") f0)))) >>
      let! pm := newPromise (Pending []) in
      modify (set_mutates (fun l => l ++ [pm])) >>
      ret (Some pm)
  | CbResetFirstFrame i =>
      let! r := getRunner i in
      let! f0 := firstFrame r in
      modify (emit (VsyncMutate i (ResetStyles (getCssProps f0)))) >>
      ret None
  | CbWaitFor i =>
      let! r := getRunner i in
      match startAfterId (animationDef_ r) with
      | Some id => let! p := waitFor id in ret (Some p)
      | None => throw (TypeError "startAfterId is undefined")
      end
  | CbTimer i =>
      let! r := getRunner i in
      modify (emit (TimerPromise i (delay_ r))) >>
      let! p := newPromise (Pending []) in
      modify (set_timers (fun l => l ++ [p])) >>
      ret (Some p)
  | CbPlayback i a => playbackFire i a >> ret None
  end.

(** One microtask. A callback that raises leaves its derived promise
    unresolved: nothing in the module handles rejections. *)
Definition runJob (j : Job) : M unit :=
  match j with
  | JReact (RThen cb out) =>
      let! v := runCallback cb in
      match v with
      | None => resolvePromise out
      | Some q => enqueue [JThenable q out]
      end
  | JReact (RAdopt out) => resolvePromise out
  | JThenable q out => react q (RAdopt out)
  end.

(** ** AnimationManager *)

Definition ANIMATE_IN_ATTRIBUTE_NAME : string := "animate-in".
Definition ANIMATE_IN_DURATION_ATTRIBUTE_NAME : string := "animate-in-duration".
Definition ANIMATE_IN_DELAY_ATTRIBUTE_NAME : string := "animate-in-delay".
Definition ANIMATE_IN_AFTER_ATTRIBUTE_NAME : string := "animate-in-after".

Definition getAttribute (el : Element) (name : string) : option string :=
  match list_find (fun kv => fst kv = name) (attributes el) with
  | Some (_, kv) => Some (snd kv)
  | None => None
  end.

Definition hasAttribute (el : Element) (name : string) : bool :=
  bool_decide (is_Some (getAttribute el name)).

(** [timeStrToMillis] of ./utils; [None] when it yields no number. *)
Variable timeStrToMillis : string -> option Z.

(** The elements below the page element [root_], in document order. *)
Variable root_ : list Element.

Definition dquote : string := String (Ascii.ascii_of_nat 34) "".

Definition invalid_preset_msg (name : string) (el : Element) : string :=
  "Invalid " +:+ ANIMATE_IN_ATTRIBUTE_NAME +:+ " preset " +:+
  dquote +:+ name +:+ dquote +:+ " for element " +:+ tagName el.

Definition invalid_after_msg (dependencyId : string) (el : Element) : string :=
  "The attribute '" +:+ ANIMATE_IN_AFTER_ATTRIBUTE_NAME +:+ "' in tag '" +:+
  tagName el +:+ "' is set to the invalid value '" +:+ dependencyId +:+
  "'. No children of parenting 'amp-story-page' exist with id " +:+
  dependencyId +:+ ".".

(** [getPreset_(el)]; a missing attribute reads as [null]. *)
Definition getPreset_ (el : Element) : M StoryAnimationPresetDef :=
  let name := default "null" (getAttribute el ANIMATE_IN_ATTRIBUTE_NAME) in
  match PRESETS !! name with
  | Some p => ret p
  | None => throw (UserError (invalid_preset_msg name el))
  end.

(** [createAnimationDef(el, preset)]. *)
Definition createAnimationDef (el : Element) (p : StoryAnimationPresetDef)
    : M StoryAnimationDef :=
  let dur := getAttribute el ANIMATE_IN_DURATION_ATTRIBUTE_NAME ≫= timeStrToMillis in
  let del := getAttribute el ANIMATE_IN_DELAY_ATTRIBUTE_NAME ≫= timeStrToMillis in
  let! after :=
    match getAttribute el ANIMATE_IN_AFTER_ATTRIBUTE_NAME with
    | Some dependencyId =>
        user_assert
          (bool_decide (Exists (fun e => el_id e = dependencyId) root_))
          (invalid_after_msg dependencyId el) >>
        ret (Some dependencyId)
    | None => ret None
    end in
  ret {| target := el; preset := p; duration := dur; delay := del;
         startAfterId := after |}.

(** [createRunner_(el)]. *)
Definition createRunner_ (el : Element) : M nat :=
  let! p := getPreset_ el in
  let! animationDef := createAnimationDef el p in
  AnimationRunner_new animationDef.

(** [Array.prototype.map] and [forEach] with a callback that may raise. *)
Fixpoint mapM {A B} (f : A -> M B) (l : list A) : M (list B) :=
  match l with
  | [] => ret []
  | x :: rest =>
      let! y := f x in
      let! ys := mapM f rest in
      ret (y :: ys)
  end.

Definition forEach {A} (f : A -> M unit) (l : list A) : M unit :=
  let! _ := mapM f l in ret tt.

(** [scopedQuerySelectorAll(root_, '[animate-in]')]. *)
Definition animatable : list Element :=
  filter (fun el => hasAttribute el ANIMATE_IN_ATTRIBUTE_NAME = true) root_.

(** [getOrCreateRunners_()]. *)
Definition getOrCreateRunners_ : M (list nat) :=
  let! w := get in
  match runners_ w with
  | Some rs => ret rs
  | None =>
      let! rs := mapM createRunner_ animatable in
      modify (set_runners (Some rs)) >>
      ret rs
  end.

(** [getRunners_()]. *)
Definition getRunners_ : M (list nat) :=
  let! w := get in
  match runners_ w with
  | Some rs => ret rs
  | None => throw (DevError "Executed before applyFirstFrame")
  end.

(** [AnimationManager.applyFirstFrame()]; the promises [Promise.all] is
    given are returned. *)
Definition Manager_applyFirstFrame : M (list nat) :=
  let! rs := getOrCreateRunners_ in
  mapM applyFirstFrame rs.

Definition animateIn : M unit :=
  let! rs := getRunners_ in forEach start rs.

Definition finishAll : M unit :=
  let! rs := getRunners_ in forEach finish rs.

Definition cancelAll : M unit :=
  let! w := get in
  match runners_ w with
  | None => ret tt
  | Some _ => let! rs := getRunners_ in forEach cancel rs
  end.

Definition hasAnimationStarted : M bool :=
  let! rs := getRunners_ in
  let! w := get in
  ret (existsb (fun i => from_option hasStarted false (objs w !! i)) rs).

(** [new AnimationManager(root, ampdoc)]: the builder promise is pending,
    nothing else exists yet. *)
Definition AnimationManager_new : World :=
  {| promises := [Pending []]; microtasks := []; timers := []; measures := [];
     mutates := []; objs := []; sequence_ := AnimationSequence_create;
     builderPromise_ := 0%nat; runners_ := None; trace := [] |}.

(** ** The event loop *)

(** What can happen next: the oldest microtask runs, the host environment
    completes something the module waits for, or a method is called. *)
Inductive Event :=
| Tick
| TimerFires (p : nat)
| MeasureDone (p : nat) (d : StoryAnimationDimsDef)
| MutateDone (p : nat)
| BuilderReady
| PlayStateChanges (i : nat) (s : WebAnimationPlayState)
| CallApplyFirstFrame (i : nat)
| CallStart_ (i : nat)
| CallFinish_ (i : nat)
| CallCancel_ (i : nat)
| CallManagerApplyFirstFrame
| CallAnimateIn
| CallFinishAll
| CallCancelAll.

Definition tick : M unit :=
  let! w := get in
  match microtasks w with
  | [] => ret tt
  | j :: _ => modify (set_microtasks (drop 1)) >> runJob j
  end.

Definition timerFires (p : nat) : M unit :=
  let! w := get in
  if bool_decide (p ∈ timers w)
  then modify (set_timers (filter (fun q => q ≠ p))) >> resolvePromise p
  else ret tt.

Definition measureDone (p : nat) (d : StoryAnimationDimsDef) : M unit :=
  let! w := get in
  match list_find (fun m => fst m = p) (measures w) with
  | Some (_, (_, i)) =>
      modify (set_measures (filter (fun m => fst m ≠ p))) >>
      updRunner i (set_dims (Some d)) >>
      resolvePromise p
  | None => ret tt
  end.

Definition mutateDone (p : nat) : M unit :=
  let! w := get in
  if bool_decide (p ∈ mutates w)
  then modify (set_mutates (filter (fun q => q ≠ p))) >> resolvePromise p
  else ret tt.

Definition builderReady : M unit :=
  let! w := get in resolvePromise (builderPromise_ w).

(** The host runner changes its play state by itself (the animation ends). *)
Definition playStateChanges (i : nat) (s : WebAnimationPlayState) : M unit :=
  let! r := getRunner i in
  match host r with
  | Some h =>
      updRunner i (set_host (Some {| playState := s; subscribed := subscribed h |})) >>
      if subscribed h then playStateChanged i s else ret tt
  | None => ret tt
  end.

Definition step (e : Event) : M unit :=
  match e with
  | Tick => tick
  | TimerFires p => timerFires p
  | MeasureDone p d => measureDone p d
  | MutateDone p => mutateDone p
  | BuilderReady => builderReady
  | PlayStateChanges i s => playStateChanges i s
  | CallApplyFirstFrame i => let! _ := applyFirstFrame i in ret tt
  | CallStart_ i => start i
  | CallFinish_ i => finish i
  | CallCancel_ i => cancel i
  | CallManagerApplyFirstFrame => let! _ := Manager_applyFirstFrame in ret tt
  | CallAnimateIn => animateIn
  | CallFinishAll => finishAll
  | CallCancelAll => cancelAll
  end.

(** A run of the event loop; an exception ends the event that raised it. *)
Definition run (es : list Event) (w : World) : World :=
  foldl (fun w e => exec (step e) w) w es.

(** ** Reasoning about computations *)

(** Weakest precondition: [Q] for a result, [E] for an exception. *)
Definition wp {A} (m : M A) (Q : A -> World -> Prop) (E : World -> Prop)
    (w : World) : Prop :=
  match m w with
  | (Ok a, w') => Q a w'
  | (Throw _, w') => E w'
  end.

(** The trace only grows, and [m] run in [w] adds effects in [S] only. *)
Definition emits_at {A} (S : Effect -> Prop) (m : M A) (w : World) : Prop :=
  exists new, trace (snd (m w)) = new ++ trace w /\ Forall S new.

Inductive emits {A} (S : Effect -> Prop) (m : M A) : Prop :=
| Emits (H : forall w, emits_at S m w).

(** Effects on the bus. *)
Definition seqE (e : Effect) : Prop :=
  exists id, e = SeqNotifyFinish id \/ e = SeqResolve id.

Definition noE (e : Effect) : Prop := False.

(** Effects of the arrow of [playbackWhenReady_]. *)
Definition playbackE (i : nat) (a : PlaybackActivity) (e : Effect) : Prop :=
  match a with
  | START => e = HostStart i \/ e = HostResume i
  | FINISH => e = HostFinish i
  end \/ seqE e.

Definition callbackE (cb : Callback) (e : Effect) : Prop :=
  match cb with
  | CbPlayback i a => playbackE i a e
  | CbApplyFirstFrame i | CbResetFirstFrame i => exists m, e = VsyncMutate i m
  | CbTimer i => exists ms, e = TimerPromise i ms
  | _ => False
  end.

Definition jobE (j : Job) (e : Effect) : Prop :=
  match j with
  | JReact (RThen cb _) => callbackE cb e
  | _ => False
  end.

(** Effects an event can have in world [w]. *)
Definition eventE (w : World) (ev : Event) (e : Effect) : Prop :=
  match ev with
  | Tick => match microtasks w with j :: _ => jobE j e | [] => False end
  | PlayStateChanges _ _ | CallFinish_ _ | CallFinishAll => seqE e
  | CallCancel_ i => e = HostCancel i \/ seqE e
  | CallCancelAll => (exists i, e = HostCancel i) \/ seqE e
  | CallManagerApplyFirstFrame => exists i, e = VsyncMeasure i
  | _ => False
  end.

(** ** Effects of each operation *)

Lemma emits_run {A} (S : Effect -> Prop) (m : M A) w :
  emits S m -> emits_at S m w.
Proof. intros [H]. apply H. Qed.

Lemma emits_nil {A} (S : Effect -> Prop) (m : M A) :
  (forall w, trace (snd (m w)) = trace w) -> emits S m.
Proof. intros H. constructor. intros w. exists []. split; [apply H|constructor]. Qed.

Lemma emits_weaken {A} (S S' : Effect -> Prop) (m : M A) :
  (forall e, S e -> S' e) -> emits S m -> emits S' m.
Proof.
  intros HS [Hm]. constructor. intros w. destruct (Hm w) as (new & Ht & Hall).
  exists new. split; [exact Ht|]. eapply Forall_impl; eauto.
Qed.

Lemma emits_ret {A} S (a : A) : emits S (ret a).
Proof. apply emits_nil. reflexivity. Qed.

Lemma emits_throw {A} S e : emits S (@throw A e).
Proof. apply emits_nil. reflexivity. Qed.

Lemma emits_get S : emits S get.
Proof. apply emits_nil. reflexivity. Qed.

Lemma emits_modify S f :
  (forall w, trace (f w) = trace w) -> emits S (modify f).
Proof. intros Hf. apply emits_nil. exact Hf. Qed.

Lemma emits_emit (S : Effect -> Prop) e : S e -> emits S (modify (emit e)).
Proof.
  intros He. constructor. intros w. exists [e]. split; [reflexivity|].
  repeat constructor. exact He.
Qed.

Lemma emits_bind {A B} S (m : M A) (k : A -> M B) :
  emits S m -> (forall a, emits S (k a)) -> emits S (bind m k).
Proof.
  intros [Hm] Hk. constructor. intros w. destruct (Hm w) as (n1 & Ht1 & H1).
  unfold emits_at, bind. destruct (m w) as [[a|e] w1]; simpl in *.
  - destruct (Hk a) as [Hka]. destruct (Hka w1) as (n2 & Ht2 & H2).
    exists (n2 ++ n1). split.
    + rewrite Ht2, Ht1. apply app_assoc.
    + apply Forall_app. split; assumption.
  - exists n1. split; assumption.
Qed.

Lemma emits_newPromise S st : emits S (newPromise st).
Proof. apply emits_nil. reflexivity. Qed.

Lemma emits_resolvePromise S p : emits S (resolvePromise p).
Proof.
  apply emits_nil. intros w. unfold resolvePromise.
  destruct (promises w !! p) as [[rs|]|]; reflexivity.
Qed.

Lemma emits_getRunner S i : emits S (getRunner i).
Proof.
  apply emits_nil. intros w. unfold getRunner.
  destruct (objs w !! i); reflexivity.
Qed.

Create HintDb emits.

Ltac emits_step :=
  lazymatch goal with
  | |- emits _ (bind _ _) => apply emits_bind; [|intros]
  | |- emits _ (ret _) => apply emits_ret
  | |- emits _ (throw _) => apply emits_throw
  | |- emits _ get => apply emits_get
  | |- emits _ (modify (emit _)) => apply emits_emit
  | |- emits _ (modify _) => apply emits_modify; reflexivity
  | |- emits _ (newPromise _) => apply emits_newPromise
  | |- emits _ (resolvePromise _) => apply emits_resolvePromise
  | |- emits _ (getRunner _) => apply emits_getRunner
  | |- emits _ (if ?b then _ else _) => destruct b
  | |- emits _ (match ?x with _ => _ end) => destruct x
  | |- emits _ (let (_, _) := ?x in _) => destruct x
  end.

Ltac emits_auto := repeat first [solve [eauto with emits] | emits_step].

Lemma emits_enqueue S js : emits S (enqueue js).
Proof. unfold enqueue. emits_auto. Qed.

Lemma emits_updRunner S i f : emits S (updRunner i f).
Proof. unfold updRunner. emits_auto. Qed.

Lemma emits_react S p r : emits S (react p r).
Proof. unfold react. pose proof (emits_enqueue S). emits_auto. Qed.

Lemma emits_then S p cb : emits S (then_ p cb).
Proof. unfold then_. pose proof (emits_react S). emits_auto. Qed.

Lemma emits_dev_assert S c msg : emits S (dev_assert c msg).
Proof. unfold dev_assert. emits_auto. Qed.

Lemma emits_user_assert S c msg : emits S (user_assert c msg).
Proof. unfold user_assert. emits_auto. Qed.

Lemma emits_waitFor S id : emits S (waitFor id).
Proof. unfold waitFor. emits_auto. Qed.

#[local] Hint Resolve emits_enqueue emits_updRunner emits_react emits_then
  emits_dev_assert emits_user_assert emits_waitFor : emits.

Lemma seqE_notify id : seqE (SeqNotifyFinish id).
Proof. exists id. left. reflexivity. Qed.

Lemma seqE_resolve id : seqE (SeqResolve id).
Proof. exists id. right. reflexivity. Qed.

#[local] Hint Resolve seqE_notify seqE_resolve : emits.

Lemma emits_notifyFinish id : emits seqE (notifyFinish id).
Proof. unfold notifyFinish. emits_auto. Qed.

Lemma emits_notifyFinish_ i : emits seqE (notifyFinish_ i).
Proof. unfold notifyFinish_. pose proof emits_notifyFinish. emits_auto. Qed.

Lemma emits_playStateChanged i s : emits seqE (playStateChanged i s).
Proof. unfold playStateChanged. pose proof emits_notifyFinish_. emits_auto. Qed.

Lemma emits_fire i l : emits seqE (fire i l).
Proof.
  induction l as [|s l IH]; simpl.
  - apply emits_ret.
  - apply emits_bind; [apply emits_playStateChanged|intros; exact IH].
Qed.

Ltac effects :=
  let e := fresh "e" in
  let He := fresh "He" in
  intros e He; unfold playbackE, noE in *;
  try solve [destruct He]; try solve [intuition (subst; eauto with emits)].

Ltac emits_sub :=
  first [ solve [eauto with emits]
        | solve [eapply emits_weaken; [|solve [eauto with emits]]; effects] ].

Ltac emits_go := repeat first [emits_sub | emits_step].

#[local] Hint Resolve emits_notifyFinish emits_notifyFinish_
  emits_playStateChanged emits_fire : emits.

Lemma emits_hostInvoke i c :
  emits (fun e => e = effect_of c i \/ seqE e) (hostInvoke i c).
Proof. unfold hostInvoke. emits_go. Qed.

Lemma emits_resetFirstFrame_ S i : emits S (resetFirstFrame_ i).
Proof. unfold resetFirstFrame_. emits_go. Qed.

Lemma emits_applyFirstFrame S i : emits S (applyFirstFrame i).
Proof. unfold applyFirstFrame. emits_go. Qed.

#[local] Hint Resolve emits_hostInvoke emits_resetFirstFrame_
  emits_applyFirstFrame : emits.

Lemma emits_startWhenReady_ i : emits (playbackE i START) (startWhenReady_ i).
Proof. unfold startWhenReady_. emits_go. Qed.

Lemma emits_finishWhenReady_ i : emits (playbackE i FINISH) (finishWhenReady_ i).
Proof. unfold finishWhenReady_. emits_go. Qed.

#[local] Hint Resolve emits_startWhenReady_ emits_finishWhenReady_ : emits.

Lemma emits_playbackFire i a : emits (playbackE i a) (playbackFire i a).
Proof. unfold playbackFire. emits_go. Qed.

Lemma emits_playbackWhenReady_ S i a wait : emits S (playbackWhenReady_ i a wait).
Proof. unfold playbackWhenReady_. emits_go. Qed.

#[local] Hint Resolve emits_playbackFire emits_playbackWhenReady_ : emits.

Lemma emits_playback_ S i a wait : emits S (playback_ i a wait).
Proof. unfold playback_. emits_go. Qed.

Lemma emits_getStartWaitPromise_ S i : emits S (getStartWaitPromise_ i).
Proof. unfold getStartWaitPromise_. emits_go. Qed.

#[local] Hint Resolve emits_playback_ emits_getStartWaitPromise_ : emits.

Lemma emits_start S i : emits S (start i).
Proof. unfold start. emits_go. Qed.

Lemma emits_finish i : emits seqE (finish i).
Proof. unfold finish, when. emits_go. Qed.

Lemma emits_cancel i : emits (fun e => e = HostCancel i \/ seqE e) (cancel i).
Proof. unfold cancel. emits_go. Qed.

Lemma emits_onRunnerReady_ S i : emits S (onRunnerReady_ i).
Proof. unfold onRunnerReady_. emits_go. Qed.

#[local] Hint Resolve emits_start emits_finish emits_cancel
  emits_onRunnerReady_ : emits.

Lemma emits_firstFrame S r : emits S (firstFrame r).
Proof. unfold firstFrame. emits_go. Qed.

#[local] Hint Resolve emits_firstFrame : emits.

Lemma emits_runCallback cb : emits (callbackE cb) (runCallback cb).
Proof.
  destruct cb; simpl; emits_go.
  all: try (simpl; eexists; reflexivity).
  apply emits_playbackFire.
Qed.

Lemma emits_runJob j : emits (jobE j) (runJob j).
Proof.
  destruct j as [[cb out|out]|q out]; simpl.
  - pose proof (emits_runCallback cb). emits_go.
  - emits_go.
  - emits_go.
Qed.

Lemma emits_mapM {A B} S (f : A -> M B) l :
  (forall x, emits S (f x)) -> emits S (mapM f l).
Proof.
  intros Hf. induction l as [|x l IH]; simpl; emits_go.
Qed.

Lemma emits_forEach {A} S (f : A -> M unit) l :
  (forall x, emits S (f x)) -> emits S (forEach f l).
Proof.
  intros Hf. unfold forEach. pose proof (emits_mapM S f l Hf). emits_go.
Qed.

Definition measureE (e : Effect) : Prop := exists i, e = VsyncMeasure i.

Lemma emits_filterKeyframes_ i k : emits measureE (filterKeyframes_ i k).
Proof. unfold filterKeyframes_. emits_go. exists i. reflexivity. Qed.

#[local] Hint Resolve emits_filterKeyframes_ : emits.

Lemma emits_AnimationRunner_new def : emits measureE (AnimationRunner_new def).
Proof. unfold AnimationRunner_new. emits_go. Qed.

#[local] Hint Resolve emits_AnimationRunner_new : emits.

Lemma emits_createRunner_ el : emits measureE (createRunner_ el).
Proof. unfold createRunner_, getPreset_, createAnimationDef. emits_go. Qed.

Lemma emits_getRunners_ S : emits S getRunners_.
Proof. unfold getRunners_. emits_go. Qed.

#[local] Hint Resolve emits_createRunner_ emits_getRunners_ : emits.

Lemma emits_getOrCreateRunners_ : emits measureE getOrCreateRunners_.
Proof.
  unfold getOrCreateRunners_.
  pose proof (emits_mapM measureE createRunner_ animatable emits_createRunner_).
  emits_go.
Qed.

(** Every event adds to the trace only what [eventE] allows. *)
Lemma emits_step_event w ev : emits_at (eventE w ev) (step ev) w.
Proof.
  destruct ev; simpl.
  - unfold emits_at, eventE, tick, bind, get, modify. simpl.
    destruct (microtasks w) as [|j q].
    + exists []. split; [reflexivity|constructor].
    + destruct (emits_run _ _ (set_microtasks (drop 1) w) (emits_runJob j))
        as (new & Ht & Hall).
      exists new. split; [exact Ht|exact Hall].
  - apply emits_run. unfold timerFires. emits_go.
  - apply emits_run. unfold measureDone. emits_go.
  - apply emits_run. unfold mutateDone. emits_go.
  - apply emits_run. unfold builderReady. emits_go.
  - apply emits_run. unfold playStateChanges. emits_go.
  - apply emits_run. emits_go.
  - apply emits_run. emits_go.
  - apply emits_run. emits_go.
  - apply emits_run. emits_go.
  - apply emits_run. unfold Manager_applyFirstFrame.
    pose proof emits_getOrCreateRunners_.
    pose proof (fun l => emits_mapM measureE applyFirstFrame l
                  (emits_applyFirstFrame measureE)).
    emits_go.
  - apply emits_run. unfold animateIn.
    pose proof (fun l => emits_forEach noE start l (emits_start noE)).
    emits_go.
  - apply emits_run. unfold finishAll.
    pose proof (fun l => emits_forEach seqE finish l emits_finish).
    emits_go.
  - apply emits_run. unfold cancelAll.
    assert (forall l, emits (fun e => (exists i, e = HostCancel i) \/ seqE e)
                        (forEach cancel l)).
    { intros l. apply emits_forEach. intros i.
      eapply emits_weaken; [|apply emits_cancel].
      intros e [->|He]; eauto. }
    emits_go.
Qed.

(** ** The sequence bus on its own *)

Definition is_pending (w : World) (p : nat) : Prop :=
  exists rs, promises w !! p = Some (Pending rs).

(** The in-flight wait of [id], if there is one. *)
Definition inflight (w : World) (id : string) : option nat :=
  subscriptionPromises_ (sequence_ w) !! id.

(** What [waitFor] and [notifyFinish] maintain: an in-flight wait is a
    pending promise, its resolver is the stored one, and no two ids share a
    promise. *)
Definition SeqWF (w : World) : Prop :=
  forall id p, inflight w id = Some p ->
    is_pending w p /\
    subscriptionResolvers_ (sequence_ w) !! id = Some p /\
    (forall id', inflight w id' = Some p -> id' = id).

Inductive BusOp :=
| BusWaitFor (id : string)
| BusNotifyFinish (id : string).

Definition busStep (op : BusOp) : M unit :=
  match op with
  | BusWaitFor id => let! _ := waitFor id in ret tt
  | BusNotifyFinish id => notifyFinish id
  end.

Definition runBus (ops : list BusOp) (w : World) : World :=
  foldl (fun w op => exec (busStep op) w) w ops.

Lemma waitFor_inflight w id p :
  inflight w id = Some p -> waitFor id w = (Ok p, w).
Proof. unfold inflight, waitFor, bind, get. simpl. intros ->. reflexivity. Qed.

Lemma waitFor_fresh w id :
  inflight w id = None ->
  waitFor id w =
    (Ok (length (promises w)),
     set_sequence (set_subscriptionPromises (<[id := length (promises w)]>))
       (set_sequence (set_subscriptionResolvers (<[id := length (promises w)]>))
          (set_promises (fun ps => ps ++ [Pending []]) w))).
Proof. unfold inflight, waitFor, bind, get. simpl. intros ->. reflexivity. Qed.

Lemma notifyFinish_idle w id :
  inflight w id = None ->
  notifyFinish id w = (Ok tt, emit (SeqNotifyFinish id) w).
Proof. unfold inflight, notifyFinish, bind, get, modify. simpl. intros ->. reflexivity. Qed.

Lemma notifyFinish_inflight w id p rs :
  inflight w id = Some p ->
  subscriptionResolvers_ (sequence_ w) !! id = Some p ->
  promises w !! p = Some (Pending rs) ->
  notifyFinish id w =
    (Ok tt,
     set_sequence (set_subscriptionPromises (delete id))
       (set_microtasks (fun q => q ++ (JReact <$> rs))
          (set_promises (<[p := Resolved]>)
             (emit (SeqResolve id) (emit (SeqNotifyFinish id) w))))).
Proof.
  unfold inflight. intros H1 H2 H3.
  unfold notifyFinish, bind, get, modify. simpl. rewrite H1, H2. simpl.
  unfold resolvePromise. simpl. rewrite H3. reflexivity.
Qed.

Lemma is_pending_lt w p : is_pending w p -> (p < length (promises w))%nat.
Proof. intros [rs H]. eapply lookup_lt_Some; eauto. Qed.

Lemma SeqWF_waitFor w id : SeqWF w -> SeqWF (exec (waitFor id) w).
Proof.
  intros Hwf. unfold exec. destruct (inflight w id) as [p|] eqn:Hin.
  - rewrite (waitFor_inflight _ _ _ Hin). exact Hwf.
  - rewrite (waitFor_fresh _ _ Hin). simpl.
    intros id' p'. unfold inflight, is_pending. simpl.
    destruct (decide (id = id')) as [->|Hne].
    + rewrite lookup_insert_eq. intros [= <-]. split; [|split].
      * exists []. rewrite lookup_app_r by lia.
        replace (_ - _)%nat with 0%nat by lia. reflexivity.
      * apply lookup_insert_eq.
      * intros id''. destruct (decide (id' = id'')) as [->|Hne']; [auto|].
        rewrite lookup_insert_ne by done. intros H.
        apply Hwf in H as (Hp & _). apply is_pending_lt in Hp. lia.
    + rewrite !lookup_insert_ne by done. intros H.
      destruct (Hwf _ _ H) as (Hp & Hr & Hinj). split; [|split].
      * destruct Hp as [rs Hp]. exists rs. apply lookup_app_l_Some. exact Hp.
      * exact Hr.
      * intros id''. destruct (decide (id = id'')) as [->|Hne'].
        -- rewrite lookup_insert_eq. intros [= <-].
           apply is_pending_lt in Hp. lia.
        -- rewrite lookup_insert_ne by done. apply Hinj.
Qed.

Lemma SeqWF_notifyFinish w id : SeqWF w -> SeqWF (exec (notifyFinish id) w).
Proof.
  intros Hwf. unfold exec. destruct (inflight w id) as [p|] eqn:Hin.
  - destruct (Hwf _ _ Hin) as ([rs Hp] & Hr & Hinj).
    rewrite (notifyFinish_inflight _ _ _ _ Hin Hr Hp). simpl.
    intros id' p'. unfold inflight, is_pending. simpl.
    destruct (decide (id = id')) as [->|Hne].
    + rewrite lookup_delete_eq. discriminate.
    + rewrite lookup_delete_ne by done. intros H.
      destruct (Hwf _ _ H) as ([rs' Hp'] & Hr' & Hinj').
      assert (p' <> p) as Hpp.
      { intros ->. apply Hne. apply Hinj'. exact Hin. }
      split; [|split].
      * exists rs'. rewrite list_lookup_insert_ne by done. exact Hp'.
      * exact Hr'.
      * intros id''. destruct (decide (id = id'')) as [->|Hne'].
        -- rewrite lookup_delete_eq. discriminate.
        -- rewrite lookup_delete_ne by done. apply Hinj'.
  - rewrite (notifyFinish_idle _ _ Hin). exact Hwf.
Qed.

Lemma exec_busStep_waitFor w id : exec (busStep (BusWaitFor id)) w = exec (waitFor id) w.
Proof.
  unfold exec, busStep, bind, ret. destruct (waitFor id w) as [[p|e] w']; reflexivity.
Qed.

Lemma SeqWF_busStep w op : SeqWF w -> SeqWF (exec (busStep op) w).
Proof.
  destruct op as [id|id].
  - rewrite exec_busStep_waitFor. apply SeqWF_waitFor.
  - apply SeqWF_notifyFinish.
Qed.

Lemma busStep_keeps w op id p :
  SeqWF w -> inflight w id = Some p -> op <> BusNotifyFinish id ->
  inflight (exec (busStep op) w) id = Some p.
Proof.
  intros Hwf Hin Hop. destruct op as [id'|id'].
  - rewrite exec_busStep_waitFor. unfold exec.
    destruct (inflight w id') as [p'|] eqn:Hin'.
    + rewrite (waitFor_inflight _ _ _ Hin'). exact Hin.
    + rewrite (waitFor_fresh _ _ Hin'). unfold inflight. simpl.
      rewrite lookup_insert_ne; [exact Hin|]. intros ->. congruence.
  - assert (id' <> id) by congruence. simpl. unfold exec.
    destruct (inflight w id') as [p'|] eqn:Hin'.
    + destruct (Hwf _ _ Hin') as ([rs Hp] & Hr & _).
      rewrite (notifyFinish_inflight _ _ _ _ Hin' Hr Hp). unfold inflight. simpl.
      rewrite lookup_delete_ne by done. exact Hin.
    + rewrite (notifyFinish_idle _ _ Hin'). exact Hin.
Qed.

Lemma runBus_keeps ops : forall w id p,
  SeqWF w -> inflight w id = Some p -> BusNotifyFinish id ∉ ops ->
  SeqWF (runBus ops w) /\ inflight (runBus ops w) id = Some p.
Proof.
  induction ops as [|op ops IH]; intros w id p Hwf Hin Hno; simpl.
  - split; assumption.
  - apply not_elem_of_cons in Hno as [Hop Hno].
    apply IH; [apply SeqWF_busStep; exact Hwf| |exact Hno].
    apply busStep_keeps; auto.
Qed.

Lemma SeqWF_new : SeqWF AnimationManager_new.
Proof. intros id p. unfold inflight. simpl. rewrite lookup_empty. discriminate. Qed.

(** C3. [waitFor(id)] returns an unresolved promise that stays unresolved,
    and is returned again by every further [waitFor(id)], through any calls
    on the bus other than [notifyFinish(id)]; [notifyFinish(id)] then
    resolves it and deletes the in-flight wait, so that the next
    [waitFor(id)] makes a fresh unresolved promise; and [notifyFinish(id)]
    without an in-flight wait for [id] changes nothing (but for the record
    of the call in the trace). *)
Theorem waitFor_notifyFinish_contract (w : World) (id : string) :
  SeqWF w ->
  exists p w1,
    waitFor id w = (Ok p, w1) /\
    is_pending w1 p /\
    waitFor id w1 = (Ok p, w1) /\
    (forall ops, BusNotifyFinish id ∉ ops ->
       let w2 := runBus ops w1 in
       let w3 := exec (notifyFinish id) w2 in
       is_pending w2 p /\
       waitFor id w2 = (Ok p, w2) /\
       throws (notifyFinish id) w2 = false /\
       promises w3 !! p = Some Resolved /\
       inflight w3 id = None /\
       (exists p', fst (waitFor id w3) = Ok p' /\ p' <> p /\
                   is_pending (exec (waitFor id) w3) p')) /\
    (forall w0 id0, inflight w0 id0 = None ->
       notifyFinish id0 w0 = (Ok tt, emit (SeqNotifyFinish id0) w0)).
Proof.
  intros Hwf.
  assert (Hwf1 : SeqWF (exec (waitFor id) w)) by (apply SeqWF_waitFor; exact Hwf).
  assert (exists p, waitFor id w = (Ok p, exec (waitFor id) w) /\
                    inflight (exec (waitFor id) w) id = Some p) as (p & Hw & Hin1).
  { unfold exec. destruct (inflight w id) as [p|] eqn:Hin.
    - exists p. rewrite (waitFor_inflight _ _ _ Hin). split; [reflexivity|exact Hin].
    - exists (length (promises w)). rewrite (waitFor_fresh _ _ Hin).
      split; [reflexivity|]. unfold inflight. simpl. apply lookup_insert_eq. }
  exists p, (exec (waitFor id) w). split; [exact Hw|].
  split; [apply (Hwf1 _ _ Hin1)|].
  split; [apply waitFor_inflight; exact Hin1|].
  split; [|intros w0 id0; apply notifyFinish_idle].
  intros ops Hno. simpl.
  destruct (runBus_keeps ops _ _ _ Hwf1 Hin1 Hno) as (Hwf2 & Hin2).
  set (w2 := runBus ops (exec (waitFor id) w)) in *.
  destruct (Hwf2 _ _ Hin2) as ([rs Hp] & Hr & _).
  split; [exists rs; exact Hp|].
  split; [apply waitFor_inflight; exact Hin2|].
  unfold throws, exec. rewrite (notifyFinish_inflight _ _ _ _ Hin2 Hr Hp). simpl.
  split; [reflexivity|].
  split; [apply list_lookup_insert_eq; eapply lookup_lt_Some; exact Hp|].
  split; [unfold inflight; simpl; apply lookup_delete_eq|].
  match goal with |- context [waitFor id ?x] => set (w3 := x) end.
  assert (Hin3 : inflight w3 id = None) by (unfold inflight; simpl; apply lookup_delete_eq).
  rewrite (waitFor_fresh _ _ Hin3). simpl.
  exists (length (<[p:=Resolved]> (promises w2))). split; [reflexivity|].
  rewrite length_insert. split.
  - apply lookup_lt_Some in Hp. lia.
  - exists []. simpl. rewrite lookup_app_r by (rewrite length_insert; lia).
    rewrite length_insert. replace (_ - _)%nat with 0%nat by lia. reflexivity.
Qed.

(** ** Construction of a runner *)

Lemma bind_ok {A B} (m : M A) (k : A -> M B) w a :
  fst (m w) = Ok a -> bind m k w = k a (snd (m w)).
Proof. unfold bind. destruct (m w) as [[x|e] w']; simpl; congruence. Qed.

Lemma react_ok p r w : fst (react p r w) = Ok tt.
Proof.
  unfold react, bind, get. simpl.
  destruct (promises w !! p) as [[rs|]|]; reflexivity.
Qed.

Lemma then_ok p cb w : fst (then_ p cb w) = Ok (length (promises w)).
Proof.
  unfold then_, bind, newPromise. simpl.
  pose proof (react_ok p (RThen cb (length (promises w)))
    (set_promises (fun ps => ps ++ [Pending []]) w)) as H.
  destruct (react _ _ _) as [[[]|e] w']; simpl in *; congruence.
Qed.

Lemma filterKeyframes_ok i k w : exists r, fst (filterKeyframes_ i k w) = Ok r.
Proof.
  destruct k; simpl.
  - unfold bind, newPromise; simpl; eauto.
  - do 3 (erewrite bind_ok by reflexivity).
    erewrite bind_ok by apply then_ok. simpl. eauto.
Qed.

(** C8. The constructor raises the user error about negative delays exactly
    when the effective delay is negative; with any other effective delay it
    returns the new runner. *)
Theorem constructor_rejects_negative_delay_only (animationDef : StoryAnimationDef)
    (w : World) :
  fst (AnimationRunner_new animationDef w) =
  if bool_decide (0 <= effective_delay animationDef)
  then Ok (length (objs w))
  else Throw (UserError negative_delay_msg).
Proof.
  unfold AnimationRunner_new.
  rewrite (bind_ok get _ w w) by reflexivity. simpl.
  destruct (filterKeyframes_ok (length (objs w))
              (preset_keyframes (preset animationDef)) w) as [kf Hkf].
  rewrite (bind_ok _ _ _ _ Hkf).
  erewrite bind_ok by apply then_ok.
  erewrite bind_ok by apply then_ok.
  erewrite bind_ok by reflexivity.
  erewrite bind_ok by apply then_ok.
  unfold user_assert. case_bool_decide.
  - erewrite bind_ok by reflexivity. erewrite bind_ok by apply then_ok. reflexivity.
  - reflexivity.
Qed.

(** ** Single calls on a runner *)

Lemma getRunner_Some i r w : objs w !! i = Some r -> getRunner i w = (Ok r, w).
Proof. intros H. unfold getRunner. rewrite H. reflexivity. Qed.

Lemma objs_alter f i w r :
  objs w !! i = Some r -> objs (set_objs (alter f i) w) !! i = Some (f r).
Proof. intros H. simpl. rewrite list_lookup_alter_eq, H. reflexivity. Qed.

(** The host runner is resolved and reports RUNNING. *)
Definition host_running (r : AnimationRunner) : bool :=
  runner_ r && bool_decide (playState <$> host r = Some RUNNING).

(** The world [cancel] leaves when it does not reach the host runner. *)
Definition slot_cleared (i : nat) (w : World) : World :=
  set_objs (alter (set_scheduledWait None) i)
    (set_objs (alter (set_scheduledActivity None) i) w).

Lemma cancel_cases (w : World) (i : nat) (r : AnimationRunner) :
  objs w !! i = Some r ->
  if host_running r
  then exists l, trace (exec (cancel i) w) = l ++ HostCancel i :: trace w
                 /\ Forall seqE l
  else cancel i w = (Ok tt, slot_cleared i w)
       /\ trace (slot_cleared i w) = trace w
       /\ runnerReset_ <$> objs (slot_cleared i w) !! i = Some (runnerReset_ r)
       /\ scheduledActivity_ <$> objs (slot_cleared i w) !! i = Some None.
Proof.
  intros Hr.
  assert (Hr2 : objs (slot_cleared i w) !! i =
                Some (set_scheduledWait None (set_scheduledActivity None r))).
  { unfold slot_cleared. apply objs_alter. apply objs_alter. exact Hr. }
  destruct (host_running r) eqn:Hh.
  - unfold exec, cancel, bind, updRunner, modify. simpl.
    fold (slot_cleared i w). rewrite (getRunner_Some _ _ _ Hr2).
    unfold hasStarted, isActivityScheduled_. simpl.
    unfold host_running in Hh. rewrite Hh. simpl.
    apply andb_true_iff in Hh as [Hrun Hst]. rewrite Hrun. simpl.
    unfold hostInvoke, bind. rewrite (getRunner_Some _ _ _ Hr2). simpl.
    destruct (host r) as [h|] eqn:Hhost; [|discriminate]. simpl.
    match goal with
    | |- context [(if subscribed h then ?m1 else ?m2) ?w0] =>
        assert (emits_at seqE (if subscribed h then m1 else m2) w0) as (l & Ht & Hl)
          by (apply emits_run; destruct (subscribed h); emits_go);
        destruct ((if subscribed h then m1 else m2) w0) as [[[]|e] w1]
    end; simpl in *; exists l; split; auto.
  - split; [|split; [|split]].
    + unfold cancel, bind, updRunner, modify. simpl.
      fold (slot_cleared i w). rewrite (getRunner_Some _ _ _ Hr2).
      unfold hasStarted, isActivityScheduled_. simpl.
      unfold host_running in Hh. rewrite Hh. reflexivity.
    + reflexivity.
    + rewrite Hr2. reflexivity.
    + rewrite Hr2. reflexivity.
Qed.

(** C10. [cancel()] empties the slot first, so whether it calls the host
    runner depends on the host runner alone: if that is resolved and
    RUNNING, [cancel] is called on it; otherwise, whatever was scheduled,
    nothing but the slot changes: no host call, [runnerReset_] as it was. *)
Theorem cancel_reaches_host_only_when_running (w : World) (i : nat)
    (r : AnimationRunner) :
  objs w !! i = Some r ->
  if host_running r
  then exists l, trace (exec (cancel i) w) = l ++ HostCancel i :: trace w
                 /\ Forall seqE l
  else cancel i w = (Ok tt, slot_cleared i w)
       /\ trace (slot_cleared i w) = trace w
       /\ runnerReset_ <$> objs (slot_cleared i w) !! i = Some (runnerReset_ r)
       /\ scheduledActivity_ <$> objs (slot_cleared i w) !! i = Some None.
Proof. apply cancel_cases. Qed.

Lemma then_pending p cb w rs :
  promises w !! p = Some (Pending rs) ->
  then_ p cb w =
    (Ok (length (promises w)),
     set_promises (<[p := Pending (rs ++ [RThen cb (length (promises w))])]>)
       (set_promises (fun ps => ps ++ [Pending []]) w)).
Proof.
  intros Hp. unfold then_, react. unfold bind, newPromise, get. simpl.
  rewrite (lookup_app_l_Some _ _ _ _ Hp). reflexivity.
Qed.

Lemma then_resolved p cb w :
  promises w !! p = Some Resolved ->
  then_ p cb w =
    (Ok (length (promises w)),
     set_microtasks (fun q => q ++ [JReact (RThen cb (length (promises w)))])
       (set_promises (fun ps => ps ++ [Pending []]) w)).
Proof.
  intros Hp. unfold then_, react. unfold bind, newPromise, get. simpl.
  rewrite (lookup_app_l_Some _ _ _ _ Hp). reflexivity.
Qed.

(** The reactions waiting on a promise, as the jobs they will become. *)
Definition waiting (st : PromiseState) : list Job :=
  match st with Pending rs => JReact <$> rs | Resolved => [] end.

(** All jobs that are queued or will be once their promise settles. *)
Definition all_jobs (w : World) : list Job :=
  microtasks w ++ (promises w ≫= waiting).

Definition job_callback (j : Job) : option Callback :=
  match j with JReact (RThen cb _) => Some cb | _ => None end.

(** How many times callback [cb] is registered and has yet to run. *)
Definition registered (cb : Callback) (w : World) : nat :=
  length (filter (fun j => job_callback j = Some cb) (all_jobs w)).

Lemma bind_waiting_insert (ps : list PromiseState) p rs r :
  ps !! p = Some (Pending rs) ->
  exists l1 l2,
    ps ≫= waiting = l1 ++ (JReact <$> rs) ++ l2 /\
    <[p := Pending (rs ++ [r])]> ps ≫= waiting =
      l1 ++ (JReact <$> rs) ++ [JReact r] ++ l2.
Proof.
  intros Hp. exists (take p ps ≫= waiting), (drop (S p) ps ≫= waiting).
  pose proof (take_drop_middle ps p _ Hp) as Hmid.
  split.
  - rewrite <- Hmid at 1. rewrite bind_app. simpl. reflexivity.
  - rewrite <- Hmid at 1.
    rewrite insert_app_r_alt by (rewrite length_take; lia).
    rewrite length_take.
    replace (p - p `min` length ps)%nat with 0%nat
      by (apply lookup_lt_Some in Hp; lia).
    simpl. rewrite bind_app. simpl. rewrite fmap_app. simpl.
    rewrite <- !app_assoc. reflexivity.
Qed.

Lemma registered_then p cb cb' w :
  is_Some (promises w !! p) ->
  registered cb' (exec (then_ p cb) w) =
  (registered cb' w + if decide (cb = cb') then 1 else 0)%nat.
Proof.
  intros [st Hp]. unfold exec, registered, all_jobs. destruct st as [rs|].
  - rewrite (then_pending _ _ _ _ Hp). simpl.
    assert ((promises w ++ [Pending []]) !! p = Some (Pending rs)) as Hp'
      by (apply lookup_app_l_Some; exact Hp).
    destruct (bind_waiting_insert _ _ _ (RThen cb (length (promises w))) Hp')
      as (l1 & l2 & H1 & H2).
    rewrite H2. rewrite bind_app in H1. simpl in H1. rewrite app_nil_r in H1.
    rewrite H1. rewrite !filter_app, !length_app. simpl.
    rewrite filter_cons. simpl.
    destruct (decide (Some cb = Some cb')) as [Heq|Hne];
      destruct (decide (cb = cb')) as [Heq'|Hne']; simpl; try congruence; lia.
  - rewrite (then_resolved _ _ _ Hp). simpl.
    rewrite bind_app. simpl. rewrite app_nil_r.
    rewrite !filter_app, !length_app. simpl.
    rewrite filter_cons. simpl.
    destruct (decide (Some cb = Some cb')) as [Heq|Hne];
      destruct (decide (cb = cb')) as [Heq'|Hne']; simpl; try congruence; lia.
Qed.

(** C7. After a first [applyFirstFrame()] the flag is set, and the call has
    registered the style-writing callback once if the flag was clear (not
    at all if it was set); a second call only makes the resolved promise it
    returns: nothing else in the world changes, so the callback is not
    registered again and the flag stays set. *)
Theorem applyFirstFrame_idempotent (w : World) (i : nat) (r : AnimationRunner) :
  objs w !! i = Some r ->
  is_Some (promises w !! keyframes_ r) ->
  let w1 := exec (applyFirstFrame i) w in
  let w2 := exec (applyFirstFrame i) w1 in
  firstFrameApplied_ <$> objs w1 !! i = Some true /\
  registered (CbApplyFirstFrame i) w1 =
    (registered (CbApplyFirstFrame i) w +
     if firstFrameApplied_ r then 0 else 1)%nat /\
  applyFirstFrame i w1 =
    (Ok (length (promises w1)), set_promises (fun ps => ps ++ [Resolved]) w1) /\
  registered (CbApplyFirstFrame i) w2 = registered (CbApplyFirstFrame i) w1 /\
  trace w2 = trace w1 /\
  firstFrameApplied_ <$> objs w2 !! i = Some true.
Proof.
  intros Hr Hk. simpl.
  assert (Hset : forall w0 r0, objs w0 !! i = Some r0 ->
            firstFrameApplied_ r0 = true ->
            applyFirstFrame i w0 =
              (Ok (length (promises w0)),
               set_promises (fun ps => ps ++ [Resolved]) w0)).
  { intros w0 r0 H0 Hf. unfold applyFirstFrame, bind.
    rewrite (getRunner_Some _ _ _ H0), Hf. reflexivity. }
  assert (Hreg : forall w0, registered (CbApplyFirstFrame i)
                   (set_promises (fun ps => ps ++ [Resolved]) w0) =
                 registered (CbApplyFirstFrame i) w0).
  { intros w0. unfold registered, all_jobs. simpl.
    rewrite bind_app. simpl. rewrite app_nil_r. reflexivity. }
  assert (exists r1, objs (exec (applyFirstFrame i) w) !! i = Some r1 /\
            firstFrameApplied_ r1 = true /\
            registered (CbApplyFirstFrame i) (exec (applyFirstFrame i) w) =
              (registered (CbApplyFirstFrame i) w +
               if firstFrameApplied_ r then 0 else 1)%nat) as (r1 & Hr1 & Hf1 & Hc1).
  { destruct (firstFrameApplied_ r) eqn:Hf.
    - exists r. unfold exec. rewrite (Hset _ _ Hr Hf). simpl.
      split; [exact Hr|]. split; [exact Hf|]. rewrite Hreg. lia.
    - exists (set_firstFrameApplied true r).
      assert (exec (applyFirstFrame i) w =
              exec (then_ (keyframes_ r) (CbApplyFirstFrame i))
                (set_objs (alter (set_firstFrameApplied true) i) w)) as ->.
      { unfold exec, applyFirstFrame, bind.
        rewrite (getRunner_Some _ _ _ Hr), Hf. reflexivity. }
      split; [|split; [reflexivity|]].
      + pose proof (objs_alter (set_firstFrameApplied true) i w r Hr) as Ha.
        destruct Hk as [st Hk]. unfold exec.
        destruct st; [erewrite then_pending by exact Hk
                     |erewrite then_resolved by exact Hk]; exact Ha.
      + rewrite registered_then by exact Hk.
        rewrite decide_True by reflexivity. reflexivity. }
  rewrite Hr1. simpl. rewrite Hf1. split; [reflexivity|]. split; [exact Hc1|].
  split; [apply (Hset _ _ Hr1 Hf1)|].
  assert (exec (applyFirstFrame i) (exec (applyFirstFrame i) w) =
          set_promises (fun ps => ps ++ [Resolved]) (exec (applyFirstFrame i) w))
    as ->.
  { unfold exec at 1. rewrite (Hset _ _ Hr1 Hf1). reflexivity. }
  rewrite Hreg. simpl. rewrite Hr1. simpl. rewrite Hf1. auto.
Qed.

Lemma then_dangling p cb w :
  promises w !! p = None -> p <> length (promises w) ->
  then_ p cb w =
    (Ok (length (promises w)), set_promises (fun ps => ps ++ [Pending []]) w).
Proof.
  intros Hp Hne. unfold then_, react. unfold bind, newPromise, get. simpl.
  rewrite lookup_app_r by (apply lookup_ge_None_1; exact Hp).
  apply lookup_ge_None_1 in Hp.
  destruct (p - length (promises w))%nat as [|k] eqn:Hk; [lia|]. reflexivity.
Qed.

(** [then_] never raises; what it leaves untouched. *)
Lemma then_total p cb w :
  then_ p cb w = (Ok (length (promises w)), exec (then_ p cb) w).
Proof.
  unfold exec. pose proof (then_ok p cb w) as H.
  destruct (then_ p cb w) as [[n|e] w']; simpl in *; congruence.
Qed.

Lemma then_frame p cb w :
  trace (exec (then_ p cb) w) = trace w /\
  objs (exec (then_ p cb) w) = objs w /\
  sequence_ (exec (then_ p cb) w) = sequence_ w /\
  (forall q, promises w !! q = Some Resolved ->
             promises (exec (then_ p cb) w) !! q = Some Resolved).
Proof.
  unfold exec, then_, react. unfold bind, newPromise, get. simpl.
  destruct ((promises w ++ [Pending []]) !! p) as [[rs|]|] eqn:Hp; simpl.
  - repeat split. intros q Hq. rewrite list_lookup_insert_ne.
    + apply lookup_app_l_Some. exact Hq.
    + intros ->. rewrite (lookup_app_l_Some _ _ _ _ Hq) in Hp. discriminate.
  - repeat split. intros q Hq. apply lookup_app_l_Some. exact Hq.
  - repeat split. intros q Hq. apply lookup_app_l_Some. exact Hq.
Qed.

Lemma playbackWhenReady_ready i a wait w r :
  objs w !! i = Some r -> runner_ r = true ->
  exists w',
    playbackWhenReady_ i a wait w = (Ok tt, w') /\
    trace w' = trace w /\ objs w' = objs w /\ sequence_ w' = sequence_ w /\
    (forall q, promises w !! q = Some Resolved -> promises w' !! q = Some Resolved).
Proof.
  intros Hr Hrun. unfold playbackWhenReady_, bind.
  rewrite (getRunner_Some _ _ _ Hr), Hrun. simpl.
  destruct wait as [p|]; simpl.
  - rewrite then_total. eexists. split; [reflexivity|].
    apply then_frame.
  - rewrite then_total. eexists. split; [reflexivity|].
    match goal with |- context [exec (then_ ?p ?cb) ?w0] =>
      destruct (then_frame p cb w0) as (H1 & H2 & H3 & H4) end.
    rewrite H1, H2, H3. repeat split. intros q Hq. apply H4. simpl.
    apply lookup_app_l_Some. exact Hq.
Qed.

Lemma playback_total i a wait w r :
  objs w !! i = Some r ->
  exists w',
    playback_ i a wait w = (Ok tt, w') /\
    trace w' = trace w /\ sequence_ w' = sequence_ w /\
    (forall q, promises w !! q = Some Resolved -> promises w' !! q = Some Resolved).
Proof.
  intros Hr. unfold playback_, bind, updRunner, modify. simpl.
  erewrite getRunner_Some by (apply objs_alter, objs_alter; exact Hr). simpl.
  destruct (runner_ r) eqn:Hrun.
  - edestruct playbackWhenReady_ready as (w' & -> & H1 & H2 & H3 & H4);
      [apply objs_alter, objs_alter; exact Hr|exact Hrun|].
    exists w'. repeat split; auto.
  - eexists. split; [reflexivity|]. repeat split; auto.
Qed.

Lemma resetFirstFrame_total i w r :
  objs w !! i = Some r ->
  exists w',
    resetFirstFrame_ i w = (Ok tt, w') /\
    trace w' = trace w /\ sequence_ w' = sequence_ w /\
    (exists r', objs w' !! i = Some r') /\
    (forall q, promises w !! q = Some Resolved -> promises w' !! q = Some Resolved).
Proof.
  intros Hr. unfold resetFirstFrame_, bind, updRunner, modify.
  rewrite (getRunner_Some _ _ _ Hr). destruct (firstFrameApplied_ r); simpl.
  - rewrite then_total. eexists. split; [reflexivity|].
    match goal with |- context [exec (then_ ?p ?cb) ?w0] =>
      destruct (then_frame p cb w0) as (H1 & H2 & H3 & H4) end.
    rewrite H1, H2, H3. repeat split; auto.
    eexists. apply objs_alter. exact Hr.
  - eexists. split; [reflexivity|]. repeat split; eauto.
Qed.

(** [finish()] on a runner whose first frame is applied and whose target
    has an id: the bus is notified first, and nothing else is added to the
    trace. *)
Lemma finish_notifying (w : World) (i : nat)
    (r : AnimationRunner) :
  SeqWF w ->
  objs w !! i = Some r ->
  firstFrameApplied_ r = true ->
  el_id (target_ r) <> "" ->
  let id := el_id (target_ r) in
  let w' := exec (finish i) w in
  throws (finish i) w = false /\
  trace w' =
    match inflight w id with
    | Some _ => [SeqResolve id; SeqNotifyFinish id]
    | None => [SeqNotifyFinish id]
    end ++ trace w /\
  (forall p, inflight w id = Some p ->
     promises w' !! p = Some Resolved /\ inflight w' id = None).
Proof.
  intros Hwf Hr Hf Hid. simpl.
  assert (exists w1,
    notifyFinish (el_id (target_ r)) w = (Ok tt, w1) /\
    objs w1 = objs w /\
    trace w1 = match inflight w (el_id (target_ r)) with
               | Some _ => [SeqResolve (el_id (target_ r));
                            SeqNotifyFinish (el_id (target_ r))]
               | None => [SeqNotifyFinish (el_id (target_ r))]
               end ++ trace w /\
    (forall p, inflight w (el_id (target_ r)) = Some p ->
       promises w1 !! p = Some Resolved /\
       inflight w1 (el_id (target_ r)) = None))
    as (w1 & Hn & Ho1 & Ht1 & Hp1).
  { destruct (inflight w (el_id (target_ r))) as [p|] eqn:Hin.
    - destruct (Hwf _ _ Hin) as ([rs Hp] & Hres & _).
      rewrite (notifyFinish_inflight _ _ _ _ Hin Hres Hp).
      eexists. split; [reflexivity|].
      split; [reflexivity|]. split; [reflexivity|].
      intros q [= <-]. split.
      + simpl. apply list_lookup_insert_eq. eapply lookup_lt_Some; exact Hp.
      + unfold inflight. simpl. apply lookup_delete_eq.
    - rewrite (notifyFinish_idle _ _ Hin).
      eexists. split; [reflexivity|].
      split; [reflexivity|]. split; [reflexivity|]. discriminate. }
  assert (Hr1 : objs w1 !! i = Some r) by (rewrite Ho1; exact Hr).
  destruct (resetFirstFrame_total i w1 r Hr1)
    as (w2 & Hrs & Ht2 & Hs2 & (r2 & Hr2) & Hp2).
  destruct (playback_total i FINISH None w2 r2 Hr2) as (w3 & Hpb & Ht3 & Hs3 & Hp3).
  assert (Hfin : finish i w = (Ok tt, w3)).
  { unfold finish, bind, when. rewrite (getRunner_Some _ _ _ Hr), Hf.
    unfold notifyFinish_, bind. rewrite (getRunner_Some _ _ _ Hr).
    rewrite bool_decide_eq_true_2 by exact Hid. rewrite Hn, Hrs. exact Hpb. }
  unfold throws, exec. rewrite Hfin. simpl.
  split; [reflexivity|]. split; [rewrite Ht3, Ht2; exact Ht1|].
  intros p Hin. destruct (Hp1 p Hin) as [Hres Hnone]. split.
  - apply Hp3, Hp2, Hres.
  - unfold inflight in *. rewrite Hs3, Hs2. exact Hnone.
Qed.

(** ** Creation of the runners by the manager *)

Lemma then_runners p cb w :
  runners_ (exec (then_ p cb) w) = runners_ w /\
  objs (exec (then_ p cb) w) = objs w.
Proof.
  unfold exec, then_, react. unfold bind, newPromise, get. simpl.
  destruct ((promises w ++ [Pending []]) !! p) as [[rs|]|]; simpl; auto.
Qed.

(** A computation leaves [runners_] alone and makes at most [n] objects. *)
Definition makes {A} (n : nat) (m : M A) : Prop :=
  forall w, runners_ (snd (m w)) = runners_ w /\
            (length (objs (snd (m w))) <= length (objs w) + n)%nat.

Lemma makes_bind {A B} n1 n2 (m : M A) (k : A -> M B) :
  makes n1 m -> (forall a, makes n2 (k a)) -> makes (n1 + n2) (bind m k).
Proof.
  intros Hm Hk w. unfold bind. destruct (Hm w) as [H1 H2].
  destruct (m w) as [[a|e] w1]; simpl in *.
  - destruct (Hk a w1) as [H3 H4]. split; [congruence|lia].
  - split; [congruence|lia].
Qed.

Lemma makes_then p cb : makes 0 (then_ p cb).
Proof.
  intros w. destruct (then_runners p cb w) as [H1 H2].
  unfold exec in *. rewrite H1, H2. split; [reflexivity|lia].
Qed.

Lemma makes_filterKeyframes_ i k : makes 0 (filterKeyframes_ i k).
Proof.
  intros w. destruct k; simpl.
  - split; [reflexivity|lia].
  - unfold bind, modify, newPromise. simpl.
    match goal with |- context [then_ ?p ?cb ?w0] =>
      destruct (then_runners p cb w0) as [H1 H2];
      unfold exec in H1, H2; destruct (then_ p cb w0) as [[x|e] w1] end;
    simpl in *; rewrite H1, H2; (split; [reflexivity|lia]).
Qed.

Lemma makes_AnimationRunner_new def : makes 1 (AnimationRunner_new def).
Proof.
  unfold AnimationRunner_new.
  apply (makes_bind 0 1); [intros w; simpl; split; [reflexivity|lia]|intros w0].
  apply (makes_bind 0 1); [apply makes_filterKeyframes_|intros kf].
  apply (makes_bind 0 1); [apply makes_then|intros p1].
  apply (makes_bind 0 1); [apply makes_then|intros p2].
  apply (makes_bind 1 0).
  { intros w. simpl. rewrite length_app. simpl. split; [reflexivity|lia]. }
  intros _.
  apply (makes_bind 0 0); [apply makes_then|intros p3].
  apply (makes_bind 0 0).
  { intros w. unfold user_assert. destruct (bool_decide _); simpl; (split; [reflexivity|lia]). }
  intros _.
  apply (makes_bind 0 0); [apply makes_then|intros p4].
  intros w. simpl. split; [reflexivity|lia].
Qed.

Lemma makes_createRunner_ el : makes 1 (createRunner_ el).
Proof.
  unfold createRunner_.
  apply (makes_bind 0 1).
  { intros w. unfold getPreset_. destruct (PRESETS !! _); simpl; (split; [reflexivity|lia]). }
  intros p.
  apply (makes_bind 0 1); [|intros def; apply makes_AnimationRunner_new].
  unfold createAnimationDef.
  apply (makes_bind 0 0); [|intros a w; simpl; (split; [reflexivity|lia])].
  destruct (getAttribute el ANIMATE_IN_AFTER_ATTRIBUTE_NAME).
  - apply (makes_bind 0 0); [|intros a w; simpl; (split; [reflexivity|lia])].
    intros w. unfold user_assert.
    destruct (bool_decide _); simpl; (split; [reflexivity|lia]).
  - intros w; simpl; (split; [reflexivity|lia]).
Qed.

Lemma makes_mapM_createRunner_ l : makes (length l) (mapM createRunner_ l).
Proof.
  induction l as [|x l IH]; simpl.
  - intros w. simpl. split; [reflexivity|lia].
  - apply (makes_bind 1 (length l)); [apply makes_createRunner_|intros y].
    replace (length l) with (length l + 0)%nat by lia.
    apply makes_bind; [exact IH|]. intros ys w. simpl. split; [reflexivity|lia].
Qed.

Definition preset_name (el : Element) : string :=
  default "null" (getAttribute el ANIMATE_IN_ATTRIBUTE_NAME).

Lemma createRunner_unknown el w :
  PRESETS !! preset_name el = None ->
  createRunner_ el w = (Throw (UserError (invalid_preset_msg (preset_name el) el)), w).
Proof.
  intros H. unfold createRunner_, getPreset_, bind. fold (preset_name el).
  rewrite H. reflexivity.
Qed.

Lemma mapM_createRunner_unknown l1 el l2 : forall w,
  PRESETS !! preset_name el = None ->
  exists e w',
    mapM createRunner_ (l1 ++ el :: l2) w = (Throw e, w') /\
    runners_ w' = runners_ w /\
    (length (objs w') <= length (objs w) + length l1)%nat /\
    ((forall w0 x, x ∈ l1 -> throws (createRunner_ x) w0 = false) ->
     e = UserError (invalid_preset_msg (preset_name el) el)).
Proof.
  induction l1 as [|x l1 IH]; intros w Hun; simpl.
  - unfold bind. rewrite (createRunner_unknown _ _ Hun).
    eexists _, w. split; [reflexivity|]. split; [reflexivity|].
    split; [lia|]. reflexivity.
  - unfold bind at 1. destruct (makes_createRunner_ x w) as [H1 H2].
    destruct (createRunner_ x w) as [[y|e] w1] eqn:Hx; simpl in *.
    + destruct (IH w1 Hun) as (e & w' & Hm & Hru & Hlen & He).
      unfold bind at 1. rewrite Hm. exists e, w'.
      split; [reflexivity|]. split; [congruence|]. split; [lia|].
      intros Hok. apply He. intros w0 x0 Hx0. apply Hok. right. exact Hx0.
    + exists e, w1. split; [reflexivity|]. split; [exact H1|]. split; [lia|].
      intros Hok. specialize (Hok w x (list_elem_of_here _ _)).
      unfold throws in Hok. rewrite Hx in Hok. discriminate.
Qed.

(** C5 (amended). If an animatable element names a preset that is not in the
    table, creating the runners raises and stores no runner list: no
    element after the offending one gets a runner, and the runners made for
    the elements before it are dropped. The error is the user error naming
    the attribute, the invalid value and the element, unless an earlier
    element already failed. *)
Theorem unknown_preset_aborts_runner_creation (w : World)
    (l1 l2 : list Element) (el : Element) :
  runners_ w = None ->
  animatable = l1 ++ el :: l2 ->
  PRESETS !! preset_name el = None ->
  exists e w',
    getOrCreateRunners_ w = (Throw e, w') /\
    runners_ w' = None /\
    (length (objs w') <= length (objs w) + length l1)%nat /\
    ((forall w0 x, x ∈ l1 -> throws (createRunner_ x) w0 = false) ->
     e = UserError (invalid_preset_msg (preset_name el) el)).
Proof.
  intros Hnone Han Hun.
  destruct (mapM_createRunner_unknown l1 el l2 w Hun) as (e & w' & Hm & Hru & Hlen & He).
  exists e, w'. unfold getOrCreateRunners_, bind, get. rewrite Hnone, Han, Hm.
  split; [reflexivity|]. split; [congruence|]. split; assumption.
Qed.

(** ** What no operation undoes *)

(** From [w] to [w']: the trace is extended, no promise disappears or
    becomes pending again, and an object keeps its definition, its target
    and, once set, its host runner. *)
Record extends (w w' : World) : Prop := {
  ext_trace : exists new, trace w' = new ++ trace w;
  ext_length : (length (promises w) <= length (promises w'))%nat;
  ext_resolved : forall p, promises w !! p = Some Resolved ->
                           promises w' !! p = Some Resolved;
  ext_objs : forall j r, objs w !! j = Some r ->
      exists r', objs w' !! j = Some r' /\
                 animationDef_ r' = animationDef_ r /\
                 target_ r' = target_ r /\
                 (runner_ r = true -> runner_ r' = true) }.

Lemma extends_refl w : extends w w.
Proof.
  constructor; auto.
  - exists []. reflexivity.
  - intros j r Hr. exists r. auto.
Qed.

Lemma extends_trans w1 w2 w3 : extends w1 w2 -> extends w2 w3 -> extends w1 w3.
Proof.
  intros [[n1 H1] L1 R1 O1] [[n2 H2] L2 R2 O2]. constructor.
  - exists (n2 ++ n1). rewrite H2, H1. apply app_assoc.
  - lia.
  - auto.
  - intros j r Hr. destruct (O1 j r Hr) as (r' & Hr' & Hd & Ht & Hu).
    destruct (O2 j r' Hr') as (r'' & Hr'' & Hd' & Ht' & Hu').
    exists r''. repeat split; [assumption|congruence|congruence|auto].
Qed.

Inductive benign {A} (m : M A) : Prop :=
| Benign (H : forall w, extends w (snd (m w))).

Lemma benign_run {A} (m : M A) w : benign m -> extends w (snd (m w)).
Proof. intros [H]. apply H. Qed.

Lemma benign_ret {A} (a : A) : benign (ret a).
Proof. constructor. intros w. apply extends_refl. Qed.

Lemma benign_throw {A} e : benign (@throw A e).
Proof. constructor. intros w. apply extends_refl. Qed.

Lemma benign_get : benign get.
Proof. constructor. intros w. apply extends_refl. Qed.

Lemma benign_modify f : (forall w, extends w (f w)) -> benign (modify f).
Proof. intros H. constructor. exact H. Qed.

Lemma benign_bind {A B} (m : M A) (k : A -> M B) :
  benign m -> (forall a, benign (k a)) -> benign (bind m k).
Proof.
  intros [Hm] Hk. constructor. intros w. unfold bind.
  specialize (Hm w). destruct (m w) as [[a|e] w1]; simpl in *.
  - destruct (Hk a) as [Hka]. eapply extends_trans; [exact Hm|apply Hka].
  - exact Hm.
Qed.

(** The field updates the operations are made of. *)
Lemma extends_emit e w : extends w (emit e w).
Proof.
  constructor; simpl; auto.
  - exists [e]. reflexivity.
  - intros j r Hr. exists r. auto.
Qed.

Lemma extends_same w w' :
  trace w' = trace w -> promises w' = promises w -> objs w' = objs w ->
  extends w w'.
Proof.
  intros Ht Hp Ho. constructor.
  - exists []. exact Ht.
  - rewrite Hp. lia.
  - rewrite Hp. auto.
  - rewrite Ho. intros j r Hr. exists r. auto.
Qed.

Lemma extends_alloc st w : extends w (set_promises (fun ps => ps ++ [st]) w).
Proof.
  constructor; simpl.
  - exists []. reflexivity.
  - rewrite length_app. lia.
  - intros p Hp. apply lookup_app_l_Some. exact Hp.
  - intros j r Hr. exists r. auto.
Qed.

Lemma extends_settle p w :
  is_pending w p -> extends w (set_promises (<[p := Resolved]>) w).
Proof.
  intros [rs Hp]. constructor; simpl.
  - exists []. reflexivity.
  - rewrite length_insert. lia.
  - intros q Hq. rewrite list_lookup_insert_ne; [exact Hq|]. congruence.
  - intros j r Hr. exists r. auto.
Qed.

Lemma extends_register p rs rs' w :
  promises w !! p = Some (Pending rs) ->
  extends w (set_promises (<[p := Pending rs']>) w).
Proof.
  intros Hp. constructor; simpl.
  - exists []. reflexivity.
  - rewrite length_insert. lia.
  - intros q Hq. rewrite list_lookup_insert_ne; [exact Hq|]. congruence.
  - intros j r Hr. exists r. auto.
Qed.

(** An update of one object that keeps what [extends] protects. *)
Definition keeps_identity (f : AnimationRunner -> AnimationRunner) : Prop :=
  forall r, animationDef_ (f r) = animationDef_ r /\
            target_ (f r) = target_ r /\
            (runner_ r = true -> runner_ (f r) = true).

Lemma extends_alter f j w :
  keeps_identity f -> extends w (set_objs (alter f j) w).
Proof.
  intros Hf. constructor; simpl; auto.
  - exists []. reflexivity.
  - intros k r Hr. destruct (decide (j = k)) as [->|Hne].
    + exists (f r). rewrite list_lookup_alter_eq, Hr. split; [reflexivity|apply Hf].
    + exists r. rewrite list_lookup_alter_ne by done. auto.
Qed.

Lemma extends_new_object r0 w : extends w (set_objs (fun os => os ++ [r0]) w).
Proof.
  constructor; simpl; auto.
  - exists []. reflexivity.
  - intros k r Hr. exists r. split; [apply lookup_app_l_Some; exact Hr|auto].
Qed.

Create HintDb benign.

Ltac keeps_id := let r := fresh "r" in intros r; simpl; auto.

Ltac extends_field :=
  let w := fresh "w" in
  intros w;
  first [ apply extends_emit
        | apply extends_alloc
        | apply extends_new_object
        | apply extends_alter; keeps_id
        | apply extends_same; reflexivity ].

Lemma benign_newPromise st : benign (newPromise st).
Proof. constructor. intros w. apply extends_alloc. Qed.

Lemma benign_resolvePromise p : benign (resolvePromise p).
Proof.
  constructor. intros w. unfold resolvePromise.
  destruct (promises w !! p) as [[rs|]|] eqn:Hp; simpl; try apply extends_refl.
  eapply extends_trans; [apply (extends_settle p); exists rs; exact Hp|].
  apply extends_same; reflexivity.
Qed.

Lemma benign_getRunner i : benign (getRunner i).
Proof.
  constructor. intros w. unfold getRunner.
  destruct (objs w !! i); apply extends_refl.
Qed.

Lemma benign_react p r : benign (react p r).
Proof.
  constructor. intros w. unfold react. unfold bind, get, modify, enqueue. simpl.
  destruct (promises w !! p) as [[rs|]|] eqn:Hp; simpl; try apply extends_refl.
  - eapply extends_register. exact Hp.
  - apply extends_same; reflexivity.
Qed.

Ltac benign_step :=
  lazymatch goal with
  | |- benign (bind _ _) => apply benign_bind; [|intros]
  | |- benign (ret _) => apply benign_ret
  | |- benign (throw _) => apply benign_throw
  | |- benign get => apply benign_get
  | |- benign (modify _) => apply benign_modify; extends_field
  | |- benign (newPromise _) => apply benign_newPromise
  | |- benign (resolvePromise _) => apply benign_resolvePromise
  | |- benign (getRunner _) => apply benign_getRunner
  | |- benign (react _ _) => apply benign_react
  | |- benign (when _ _) => unfold when
  | |- benign (if ?b then _ else _) => destruct b
  | |- benign (match ?x with _ => _ end) => destruct x
  end.

Ltac benign_go := repeat first [solve [eauto with benign] | benign_step].

Lemma benign_enqueue js : benign (enqueue js).
Proof. unfold enqueue. benign_go. Qed.

Lemma benign_updRunner i f : keeps_identity f -> benign (updRunner i f).
Proof. intros Hf. apply benign_modify. intros w. apply extends_alter. exact Hf. Qed.

Lemma benign_then p cb : benign (then_ p cb).
Proof. unfold then_. benign_go. Qed.

Lemma benign_dev_assert c msg : benign (dev_assert c msg).
Proof. unfold dev_assert. benign_go. Qed.

Lemma benign_user_assert c msg : benign (user_assert c msg).
Proof. unfold user_assert. benign_go. Qed.

Lemma benign_waitFor id : benign (waitFor id).
Proof. unfold waitFor. benign_go. Qed.

Lemma benign_notifyFinish id : benign (notifyFinish id).
Proof. unfold notifyFinish. benign_go. Qed.

#[local] Hint Resolve benign_enqueue benign_then benign_dev_assert
  benign_user_assert benign_waitFor benign_notifyFinish : benign.

#[local] Hint Extern 1 (benign (updRunner _ _)) =>
  apply benign_updRunner; keeps_id : benign.

Lemma benign_notifyFinish_ i : benign (notifyFinish_ i).
Proof. unfold notifyFinish_. benign_go. Qed.

#[local] Hint Resolve benign_notifyFinish_ : benign.

Lemma benign_playStateChanged i s : benign (playStateChanged i s).
Proof. unfold playStateChanged. benign_go. Qed.

#[local] Hint Resolve benign_playStateChanged : benign.

Lemma benign_fire i l : benign (fire i l).
Proof. induction l as [|s l IH]; simpl; benign_go. Qed.

#[local] Hint Resolve benign_fire : benign.

Lemma benign_hostInvoke i c : benign (hostInvoke i c).
Proof. unfold hostInvoke. benign_go. Qed.

Lemma benign_resetFirstFrame_ i : benign (resetFirstFrame_ i).
Proof. unfold resetFirstFrame_. benign_go. Qed.

Lemma benign_applyFirstFrame i : benign (applyFirstFrame i).
Proof. unfold applyFirstFrame. benign_go. Qed.

#[local] Hint Resolve benign_hostInvoke benign_resetFirstFrame_
  benign_applyFirstFrame : benign.

Lemma benign_startWhenReady_ i : benign (startWhenReady_ i).
Proof. unfold startWhenReady_. benign_go. Qed.

Lemma benign_finishWhenReady_ i : benign (finishWhenReady_ i).
Proof. unfold finishWhenReady_. benign_go. Qed.

#[local] Hint Resolve benign_startWhenReady_ benign_finishWhenReady_ : benign.

Lemma benign_playbackFire i a : benign (playbackFire i a).
Proof. unfold playbackFire. benign_go. Qed.

Lemma benign_playbackWhenReady_ i a wait : benign (playbackWhenReady_ i a wait).
Proof. unfold playbackWhenReady_. benign_go. Qed.

#[local] Hint Resolve benign_playbackFire benign_playbackWhenReady_ : benign.

Lemma benign_playback_ i a wait : benign (playback_ i a wait).
Proof. unfold playback_. benign_go. Qed.

Lemma benign_getStartWaitPromise_ i : benign (getStartWaitPromise_ i).
Proof. unfold getStartWaitPromise_. benign_go. Qed.

#[local] Hint Resolve benign_playback_ benign_getStartWaitPromise_ : benign.

Lemma benign_start i : benign (start i).
Proof. unfold start. benign_go. Qed.

Lemma benign_finish i : benign (finish i).
Proof. unfold finish, when. benign_go. Qed.

Lemma benign_cancel i : benign (cancel i).
Proof. unfold cancel. benign_go. Qed.

Lemma benign_onRunnerReady_ i : benign (onRunnerReady_ i).
Proof. unfold onRunnerReady_. benign_go. Qed.

#[local] Hint Resolve benign_start benign_finish benign_cancel
  benign_onRunnerReady_ : benign.

Lemma benign_firstFrame r : benign (firstFrame r).
Proof. unfold firstFrame. benign_go. Qed.

#[local] Hint Resolve benign_firstFrame : benign.

Lemma benign_runCallback cb : benign (runCallback cb).
Proof. destruct cb; simpl; benign_go. Qed.

#[local] Hint Resolve benign_runCallback : benign.

Lemma benign_runJob j : benign (runJob j).
Proof. destruct j as [[cb out|out]|q out]; simpl; benign_go. Qed.

Lemma benign_mapM {A B} (f : A -> M B) l :
  (forall x, benign (f x)) -> benign (mapM f l).
Proof. intros Hf. induction l as [|x l IH]; simpl; benign_go. Qed.

Lemma benign_forEach {A} (f : A -> M unit) l :
  (forall x, benign (f x)) -> benign (forEach f l).
Proof. intros Hf. unfold forEach. pose proof (benign_mapM f l Hf). benign_go. Qed.

#[local] Hint Extern 2 (benign (mapM _ _)) =>
  apply benign_mapM; intros : benign.
#[local] Hint Extern 2 (benign (forEach _ _)) =>
  apply benign_forEach; intros : benign.

Lemma benign_filterKeyframes_ i k : benign (filterKeyframes_ i k).
Proof. unfold filterKeyframes_. benign_go. Qed.

#[local] Hint Resolve benign_runJob benign_filterKeyframes_ : benign.

Lemma benign_AnimationRunner_new def : benign (AnimationRunner_new def).
Proof. unfold AnimationRunner_new. benign_go. Qed.

#[local] Hint Resolve benign_AnimationRunner_new : benign.

Lemma benign_getPreset_ el : benign (getPreset_ el).
Proof. unfold getPreset_. benign_go. Qed.

Lemma benign_createAnimationDef el p : benign (createAnimationDef el p).
Proof. unfold createAnimationDef. benign_go. Qed.

#[local] Hint Resolve benign_getPreset_ benign_createAnimationDef : benign.

Lemma benign_createRunner_ el : benign (createRunner_ el).
Proof. unfold createRunner_. benign_go. Qed.

Lemma benign_getRunners_ : benign getRunners_.
Proof. unfold getRunners_. benign_go. Qed.

#[local] Hint Resolve benign_createRunner_ benign_getRunners_ : benign.

Lemma benign_step_event ev : benign (step ev).
Proof.
  pose proof (benign_mapM createRunner_ animatable benign_createRunner_).
  pose proof (fun l => benign_mapM applyFirstFrame l benign_applyFirstFrame).
  pose proof (fun l => benign_forEach start l benign_start).
  pose proof (fun l => benign_forEach finish l benign_finish).
  pose proof (fun l => benign_forEach cancel l benign_cancel).
  destruct ev; simpl;
    unfold tick, timerFires, measureDone, mutateDone, builderReady,
      playStateChanges, Manager_applyFirstFrame, getOrCreateRunners_,
      animateIn, finishAll, cancelAll;
    benign_go.
Qed.

Lemma extends_run es : forall w, extends w (run es w).
Proof.
  induction es as [|ev es IH]; intros w; simpl.
  - apply extends_refl.
  - eapply extends_trans; [|apply IH]. apply benign_run, benign_step_event.
Qed.

(** ** Specifications relative to an invariant

    [Inv x] is an invariant indexed by some bookkeeping [x], and [Esc] a
    condition that, once true, stays true and ends all obligations. A
    computation meets its specification at [w] if it ends in a world that
    has escaped, or where the invariant holds for an index that [post]
    describes; an exception must leave the invariant standing. *)
Section SpecRules.

Context {X : Type} (Esc : World -> Prop) (Inv : X -> World -> Prop).
Hypothesis Esc_stays : forall w w', extends w w' -> Esc w -> Esc w'.

Definition spec_of {A} (m : M A) (post : A -> X -> World -> Prop)
    (w : World) : Prop :=
  wp m (fun a w' => Esc w' \/ exists x', Inv x' w' /\ post a x' w')
       (fun w' => Esc w' \/ exists x', Inv x' w') w.

Lemma rule_ret {A} (a : A) (post : A -> X -> World -> Prop) x w :
  Inv x w -> post a x w -> spec_of (ret a) post w.
Proof. intros HI Hp. right. exists x. auto. Qed.

Lemma rule_throw {A} e (post : A -> X -> World -> Prop) x w :
  Inv x w -> spec_of (throw e) post w.
Proof. intros HI. right. exists x. auto. Qed.

Lemma rule_get (post : World -> X -> World -> Prop) x w :
  Inv x w -> post w x w -> spec_of get post w.
Proof. intros HI Hp. right. exists x. auto. Qed.

Lemma rule_modify f (post : unit -> X -> World -> Prop) x w :
  Inv x (f w) -> post tt x (f w) -> spec_of (modify f) post w.
Proof. intros HI Hp. right. exists x. auto. Qed.

Lemma rule_bind {A C} (m : M A) (k : A -> M C) Q R w :
  spec_of m Q w ->
  (forall a, benign (k a)) ->
  (forall a x' w', Inv x' w' -> Q a x' w' -> spec_of (k a) R w') ->
  spec_of (bind m k) R w.
Proof.
  unfold spec_of, wp, bind. intros Hm Hb Hk.
  destruct (m w) as [[a|e] w1]; [|exact Hm].
  destruct Hm as [He|(x' & HI & HQ)].
  - pose proof (Esc_stays _ _ (benign_run (k a) w1 (Hb a)) He) as He'.
    destruct (k a w1) as [[c|e] w2]; left; exact He'.
  - apply (Hk a x' w1 HI HQ).
Qed.

Lemma rule_weaken {A} (m : M A) (Q R : A -> X -> World -> Prop) w :
  spec_of m Q w ->
  (forall a x' w', Inv x' w' -> Q a x' w' -> R a x' w') ->
  spec_of m R w.
Proof.
  unfold spec_of, wp. intros Hm HQR. destruct (m w) as [[a|e] w1]; [|exact Hm].
  destruct Hm as [He|(x' & HI & HQ)]; [left; exact He|].
  right. exists x'. split; [exact HI|]. apply HQR; assumption.
Qed.

Lemma rule_esc {A} (m : M A) (R : A -> X -> World -> Prop) w :
  benign m -> Esc w -> spec_of m R w.
Proof.
  intros Hb He. unfold spec_of, wp.
  pose proof (Esc_stays _ _ (benign_run m w Hb) He) as He'.
  destruct (m w) as [[a|e] w1]; left; exact He'.
Qed.

Lemma rule_getRunner j (post : AnimationRunner -> X -> World -> Prop) x w :
  Inv x w ->
  (forall r, objs w !! j = Some r -> post r x w) ->
  spec_of (getRunner j) post w.
Proof.
  intros HI Hp. unfold spec_of, wp, getRunner.
  destruct (objs w !! j) as [r|] eqn:Hr; right; exists x; auto.
Qed.

Lemma rule_extends {A} (m : M A) (post : A -> X -> World -> Prop) w :
  benign m -> spec_of m post w ->
  spec_of m (fun a x' w' => post a x' w' /\ extends w w') w.
Proof.
  intros Hb Hm. pose proof (benign_run m w Hb) as Hext.
  unfold spec_of, wp in *. destruct (m w) as [[a|e] w1]; [|exact Hm].
  destruct Hm as [He|(x' & HI & HQ)]; [left; exact He|].
  right. exists x'. auto.
Qed.

Lemma rule_eq {A} (m m' : M A) post w :
  m w = m' w -> spec_of m' post w -> spec_of m post w.
Proof. unfold spec_of, wp. intros ->. auto. Qed.

Lemma rule_modify_bind {A} f (k : unit -> M A) post w :
  spec_of (k tt) post (f w) -> spec_of (modify f >> k tt) post w.
Proof. intros H. exact H. Qed.

End SpecRules.

(** ** A start that waits for another animation *)

Section StartAfter.

(** Runner [i] declares that it starts after the element with id [dep]. *)
Variables (i : nat) (dep : string).

Definition declares (r : AnimationRunner) : Prop :=
  startAfterId (animationDef_ r) = Some dep /\ dep <> "".

(** [B] is the set of blocked promises: those that cannot settle before the
    in-flight wait for [dep] is resolved. A promise is free when it exists
    and is not blocked. *)
Definition free (B : gset nat) (n : nat) (p : nat) : Prop :=
  (p < n)%nat /\ p ∉ B.

(** The callbacks of [i] that must not run before the wait for [dep] is
    resolved: its START playback and the start of its delay timer. *)
Definition gated (cb : Callback) : Prop :=
  cb = CbPlayback i START \/ cb = CbTimer i.

(** Reactions that may sit on a free promise or in the queue: no gated
    callback, and the only one that may settle a blocked promise is the
    callback that goes on to wait for [dep]. *)
Definition okReaction (B : gset nat) (n : nat) (r : Reaction) : Prop :=
  match r with
  | RThen cb out =>
      (out < n)%nat /\ ~ gated cb /\ (out ∈ B -> cb = CbWaitFor i)
  | RAdopt out => free B n out
  end.

Definition okJob (B : gset nat) (n : nat) (j : Job) : Prop :=
  match j with
  | JReact r => okReaction B n r
  | JThenable q out => (out < n)%nat /\ (out ∈ B -> q ∈ B)
  end.

Record Inv (B : gset nat) (w : World) : Prop := {
  inv_blocked : forall p, p ∈ B -> is_pending w p;
  inv_queue : Forall (okJob B (length (promises w))) (microtasks w);
  inv_store : forall p rs, promises w !! p = Some (Pending rs) -> p ∉ B ->
                Forall (okReaction B (length (promises w))) rs;
  inv_timers : Forall (free B (length (promises w))) (timers w);
  inv_measures : Forall (fun m => free B (length (promises w)) (fst m)) (measures w);
  inv_mutates : Forall (free B (length (promises w))) (mutates w);
  inv_builder : free B (length (promises w)) (builderPromise_ w);
  inv_seq : forall id p, inflight w id = Some p ->
              (id = dep -> p ∈ B) /\
              (id <> dep -> free B (length (promises w)) p /\
                            subscriptionResolvers_ (sequence_ w) !! id = Some p);
  inv_obj : forall r, objs w !! i = Some r ->
              declares r /\
              (scheduledActivity_ r = Some START ->
               exists p, scheduledWait_ r = Some p /\ p ∈ B) }.

(** Nothing is claimed once the wait for [dep] has been resolved, or if
    object [i] turns out not to declare [dep]. Both are for good. *)
Definition Esc (w : World) : Prop :=
  SeqResolve dep ∈ trace w \/
  exists r, objs w !! i = Some r /\ ~ declares r.

Definition good (B : gset nat) (w : World) : Prop := Esc w \/ Inv B w.

Lemma Esc_extends w w' : extends w w' -> Esc w -> Esc w'.
Proof.
  intros Hext [HN|(r & Hr & Hd)].
  - left. destruct (ext_trace _ _ Hext) as [new ->].
    apply elem_of_app. right. exact HN.
  - right. destruct (ext_objs _ _ Hext _ _ Hr) as (r' & Hr' & Hdef & _).
    exists r'. split; [exact Hr'|]. unfold declares in *. rewrite Hdef. exact Hd.
Qed.

Lemma free_mono B n n' p : (n <= n')%nat -> free B n p -> free B n' p.
Proof. intros Hn [H1 H2]. split; [lia|exact H2]. Qed.

Lemma okReaction_mono B n n' r :
  (n <= n')%nat -> okReaction B n r -> okReaction B n' r.
Proof.
  intros Hn. destruct r as [cb out|out]; simpl.
  - intros (H1 & H2 & H3). repeat split; [lia|exact H2|exact H3].
  - apply free_mono. exact Hn.
Qed.

Lemma okJob_mono B n n' j : (n <= n')%nat -> okJob B n j -> okJob B n' j.
Proof.
  intros Hn. destruct j as [r|q out]; simpl.
  - apply okReaction_mono. exact Hn.
  - intros [H1 H2]. split; [lia|exact H2].
Qed.

Lemma free_grow B n p : free B n p -> free (B ∪ {[n]}) (S n) p.
Proof. intros [H1 H2]. split; [lia|]. set_solver by lia. Qed.

Lemma okReaction_grow B n r : okReaction B n r -> okReaction (B ∪ {[n]}) (S n) r.
Proof.
  destruct r as [cb out|out]; simpl.
  - intros (H1 & H2 & H3). repeat split; [lia|exact H2|].
    intros Hin. apply H3. set_solver by lia.
  - apply free_grow.
Qed.

Lemma okJob_grow B n j : okJob B n j -> okJob (B ∪ {[n]}) (S n) j.
Proof.
  destruct j as [r|q out]; simpl.
  - apply okReaction_grow.
  - intros [H1 H2]. split; [lia|]. intros Hin.
    assert (out ∈ B) by set_solver by lia. set_solver.
Qed.

Lemma Inv_bound B w p : Inv B w -> p ∈ B -> (p < length (promises w))%nat.
Proof. intros HI Hp. apply is_pending_lt. apply (inv_blocked _ _ HI). exact Hp. Qed.

(** The invariant under each field update. *)

Ltac inv_fields HI :=
  destruct HI as [Hblocked Hqueue Hstore Htimers Hmeasures Hmutates Hbuilder Hseq Hobj];
  constructor; simpl; auto.

Lemma Inv_emit B e w : Inv B w -> Inv B (emit e w).
Proof. intros HI. inv_fields HI. Qed.

Lemma Inv_set_runners B v w : Inv B w -> Inv B (set_runners v w).
Proof. intros HI. inv_fields HI. Qed.

Lemma Inv_pop B w : Inv B w -> Inv B (set_microtasks (drop 1) w).
Proof. intros HI. inv_fields HI. apply Forall_drop. exact Hqueue. Qed.

Lemma Inv_enqueue B js w :
  Inv B w -> Forall (okJob B (length (promises w))) js ->
  Inv B (set_microtasks (fun q => q ++ js) w).
Proof. intros HI Hjs. inv_fields HI. apply Forall_app. split; assumption. Qed.

Lemma pending_alloc st w p :
  is_pending w p -> is_pending (set_promises (fun ps => ps ++ [st]) w) p.
Proof. intros [rs Hp]. exists rs. simpl. apply lookup_app_l_Some. exact Hp. Qed.

Lemma lookup_alloc (ps : list PromiseState) st p x :
  (ps ++ [st]) !! p = Some x ->
  ps !! p = Some x \/ (p = length ps /\ x = st).
Proof.
  intros H. apply lookup_app_Some in H as [H|[Hge H]]; [left; exact H|right].
  destruct (p - length ps)%nat as [|k] eqn:Hk; simpl in H; [|discriminate].
  split; [lia|congruence].
Qed.

Lemma Inv_alloc B st w :
  st = Resolved \/ st = Pending [] ->
  Inv B w -> Inv B (set_promises (fun ps => ps ++ [st]) w).
Proof.
  intros Hst HI. inv_fields HI; rewrite ?length_app; simpl.
  - intros p Hp. apply pending_alloc. auto.
  - eapply Forall_impl; [exact Hqueue|]. intros j. apply okJob_mono. lia.
  - intros p rs Hp HpB. apply lookup_alloc in Hp as [Hp|[-> Hx]].
    + eapply Forall_impl; [apply (Hstore p rs Hp HpB)|].
      intros r. apply okReaction_mono. lia.
    + destruct Hst as [->| ->]; [discriminate|]. injection Hx as ->. constructor.
  - eapply Forall_impl; [exact Htimers|]. intros p. apply free_mono. lia.
  - eapply Forall_impl; [exact Hmeasures|]. intros p. apply free_mono. lia.
  - eapply Forall_impl; [exact Hmutates|]. intros p. apply free_mono. lia.
  - eapply free_mono; [|exact Hbuilder]. lia.
  - intros id p Hin. destruct (Hseq id p Hin) as [H1 H2]. split; [exact H1|].
    intros Hne. destruct (H2 Hne) as [H3 H4]. split; [|exact H4].
    eapply free_mono; [|exact H3]. lia.
Qed.

Lemma Inv_alloc_blocked B w :
  Inv B w ->
  Inv (B ∪ {[length (promises w)]}) (set_promises (fun ps => ps ++ [Pending []]) w).
Proof.
  intros HI. pose proof (fun p => Inv_bound B w p HI) as Hbound.
  inv_fields HI; rewrite ?length_app; simpl;
    replace (length (promises w) + 1)%nat with (S (length (promises w))) by lia.
  - intros p Hp. apply elem_of_union in Hp as [Hp|Hp].
    + apply pending_alloc. auto.
    + apply elem_of_singleton in Hp as ->. exists []. simpl.
      rewrite lookup_app_r by lia. replace (_ - _)%nat with 0%nat by lia. reflexivity.
  - eapply Forall_impl; [exact Hqueue|]. intros j. apply okJob_grow.
  - intros p rs Hp HpB. apply lookup_alloc in Hp as [Hp|[-> Hx]].
    + eapply Forall_impl; [apply (Hstore p rs Hp); set_solver|].
      intros r. apply okReaction_grow.
    + injection Hx as ->. constructor.
  - eapply Forall_impl; [exact Htimers|]. intros p. apply free_grow.
  - eapply Forall_impl; [exact Hmeasures|]. intros p. apply free_grow.
  - eapply Forall_impl; [exact Hmutates|]. intros p. apply free_grow.
  - apply free_grow. exact Hbuilder.
  - intros id p Hin. destruct (Hseq id p Hin) as [H1 H2]. split.
    + intros Hd. apply elem_of_union. left. auto.
    + intros Hne. destruct (H2 Hne) as [H3 H4]. split; [|exact H4].
      apply free_grow. exact H3.
  - intros r Hr. destruct (Hobj r Hr) as [H1 H2]. split; [exact H1|].
    intros Hs. destruct (H2 Hs) as (p & Hw & Hp). exists p. split; [exact Hw|].
    apply elem_of_union. left. exact Hp.
Qed.

Lemma Inv_settle B w p rs :
  Inv B w -> promises w !! p = Some (Pending rs) -> p ∉ B ->
  Inv B (set_microtasks (fun q => q ++ (JReact <$> rs))
           (set_promises (<[p := Resolved]>) w)).
Proof.
  intros HI Hp HpB. pose proof (inv_store _ _ HI p rs Hp HpB) as Hrs.
  inv_fields HI; rewrite ?length_insert; auto.
  - intros q Hq. destruct (Hblocked q Hq) as [rs' Hq']. exists rs'. simpl.
    rewrite list_lookup_insert_ne; [exact Hq'|]. intros ->. contradiction.
  - apply Forall_app. split; [exact Hqueue|].
    apply Forall_fmap. eapply Forall_impl; [exact Hrs|]. intros r Hr. exact Hr.
  - intros q rs' Hq HqB. destruct (decide (p = q)) as [->|Hne].
    + rewrite list_lookup_insert_eq in Hq by (eapply lookup_lt_Some; exact Hp).
      discriminate.
    + rewrite list_lookup_insert_ne in Hq by done. eauto.
Qed.

Lemma Inv_register B w p rs r :
  Inv B w -> promises w !! p = Some (Pending rs) ->
  (p ∉ B -> okReaction B (length (promises w)) r) ->
  Inv B (set_promises (<[p := Pending (rs ++ [r])]>) w).
Proof.
  intros HI Hp Hr.
  inv_fields HI; rewrite ?length_insert; auto.
  - intros q Hq. destruct (decide (p = q)) as [->|Hne].
    + exists (rs ++ [r]). simpl. apply list_lookup_insert_eq.
      eapply lookup_lt_Some; exact Hp.
    + destruct (Hblocked q Hq) as [rs' Hq']. exists rs'. simpl.
      rewrite list_lookup_insert_ne by done. exact Hq'.
  - intros q rs' Hq HqB. destruct (decide (p = q)) as [->|Hne].
    + rewrite list_lookup_insert_eq in Hq by (eapply lookup_lt_Some; exact Hp).
      injection Hq as <-. apply Forall_app. split; [eauto|].
      constructor; [auto|constructor].
    + rewrite list_lookup_insert_ne in Hq by done. eauto.
Qed.

Lemma Forall_filter_keep {A} (Q P : A -> Prop) `{forall x, Decision (P x)} l :
  Forall Q l -> Forall Q (filter P l).
Proof.
  rewrite !Forall_forall. intros HQ x Hx.
  apply list_elem_of_filter in Hx as [_ Hx]. auto.
Qed.

Lemma Inv_timers_add B p w :
  Inv B w -> free B (length (promises w)) p ->
  Inv B (set_timers (fun l => l ++ [p]) w).
Proof.
  intros HI Hp. inv_fields HI. apply Forall_app. split; [exact Htimers|].
  constructor; [exact Hp|constructor].
Qed.

Lemma Inv_timers_filter B (P : nat -> Prop) `{forall x, Decision (P x)} w :
  Inv B w -> Inv B (set_timers (filter P) w).
Proof. intros HI. inv_fields HI. apply Forall_filter_keep. exact Htimers. Qed.

Lemma Inv_mutates_add B p w :
  Inv B w -> free B (length (promises w)) p ->
  Inv B (set_mutates (fun l => l ++ [p]) w).
Proof.
  intros HI Hp. inv_fields HI. apply Forall_app. split; [exact Hmutates|].
  constructor; [exact Hp|constructor].
Qed.

Lemma Inv_mutates_filter B (P : nat -> Prop) `{forall x, Decision (P x)} w :
  Inv B w -> Inv B (set_mutates (filter P) w).
Proof. intros HI. inv_fields HI. apply Forall_filter_keep. exact Hmutates. Qed.

Lemma Inv_measures_add B m w :
  Inv B w -> free B (length (promises w)) (fst m) ->
  Inv B (set_measures (fun l => l ++ [m]) w).
Proof.
  intros HI Hp. inv_fields HI. apply Forall_app. split; [exact Hmeasures|].
  constructor; [exact Hp|constructor].
Qed.

Lemma Inv_measures_filter B (P : nat * nat -> Prop) `{forall x, Decision (P x)} w :
  Inv B w -> Inv B (set_measures (filter P) w).
Proof. intros HI. inv_fields HI. apply Forall_filter_keep. exact Hmeasures. Qed.

(** The slot of [i] holds a START only together with a blocked wait. *)
Definition slot_ok (B : gset nat) (r : AnimationRunner) : Prop :=
  scheduledActivity_ r = Some START ->
  exists p, scheduledWait_ r = Some p /\ p ∈ B.

Lemma Inv_alter B f j w :
  Inv B w ->
  (j = i -> forall r, objs w !! i = Some r ->
     animationDef_ (f r) = animationDef_ r /\ slot_ok B (f r)) ->
  Inv B (set_objs (alter f j) w).
Proof.
  intros HI Hf. inv_fields HI. intros r Hr.
  destruct (decide (j = i)) as [->|Hne].
  - rewrite list_lookup_alter_eq in Hr.
    destruct (objs w !! i) as [r0|] eqn:Hr0; [|discriminate].
    injection Hr as <-. destruct (Hf eq_refl r0 eq_refl) as [Hd Hs].
    split; [|exact Hs]. unfold declares. rewrite Hd. apply (Hobj r0 eq_refl).
  - rewrite list_lookup_alter_ne in Hr by done. auto.
Qed.

(** Updates that leave the definition and the slot alone. *)
Definition keeps_slot (f : AnimationRunner -> AnimationRunner) : Prop :=
  forall r, animationDef_ (f r) = animationDef_ r /\
            scheduledActivity_ (f r) = scheduledActivity_ r /\
            scheduledWait_ (f r) = scheduledWait_ r.

Lemma Inv_alter_keeps B f j w :
  Inv B w -> keeps_slot f -> Inv B (set_objs (alter f j) w).
Proof.
  intros HI Hf. apply Inv_alter; [exact HI|]. intros _ r Hr.
  destruct (Hf r) as (Hd & Ha & Hw). split; [exact Hd|].
  unfold slot_ok. rewrite Ha, Hw. apply (inv_obj _ _ HI r Hr).
Qed.

Lemma Inv_new_object B r0 w :
  Inv B w ->
  (length (objs w) = i -> declares r0 /\ slot_ok B r0) ->
  Inv B (set_objs (fun os => os ++ [r0]) w).
Proof.
  intros HI H0. inv_fields HI. intros r Hr.
  apply lookup_app_Some in Hr as [Hr|[Hge Hr]]; [auto|].
  destruct (i - length (objs w))%nat as [|k] eqn:Hk; simpl in Hr; [|discriminate].
  injection Hr as <-. apply H0. lia.
Qed.

(** The two stores of [waitFor], for a promise that has just been made. *)
Lemma Inv_subscribe B id p w :
  Inv B w -> inflight w id = None ->
  (id = dep -> p ∈ B) ->
  (id <> dep -> free B (length (promises w)) p) ->
  Inv B (set_sequence (set_subscriptionPromises (<[id := p]>))
           (set_sequence (set_subscriptionResolvers (<[id := p]>)) w)).
Proof.
  intros HI Hnone Hd Hf. inv_fields HI. intros id' p'. unfold inflight in *. simpl.
  destruct (decide (id = id')) as [->|Hne].
  - rewrite lookup_insert_eq. intros [= <-]. split; [exact Hd|].
    intros Hne. split; [auto|]. apply lookup_insert_eq.
  - rewrite !lookup_insert_ne by done. apply Hseq.
Qed.

(** The deletion at the end of [notifyFinish]. *)
Lemma Inv_unsubscribe B id w :
  Inv B w -> Inv B (set_sequence (set_subscriptionPromises (delete id)) w).
Proof.
  intros HI. inv_fields HI. intros id' p'. unfold inflight in *. simpl.
  destruct (decide (id = id')) as [->|Hne].
  - rewrite lookup_delete_eq. discriminate.
  - rewrite lookup_delete_ne by done. apply Hseq.
Qed.

(** Specifications relative to [Inv] and [Esc]. *)
Definition gspec {A} (m : M A) (post : A -> gset nat -> World -> Prop)
    (w : World) : Prop :=
  spec_of Esc Inv m post w.

Lemma gspec_ret {A} (a : A) (post : A -> gset nat -> World -> Prop) B w :
  Inv B w -> post a B w -> gspec (ret a) post w.
Proof. apply rule_ret. Qed.

Lemma gspec_throw {A} e (post : A -> gset nat -> World -> Prop) B w :
  Inv B w -> gspec (throw e) post w.
Proof. apply rule_throw. Qed.

Lemma gspec_get (post : World -> gset nat -> World -> Prop) B w :
  Inv B w -> post w B w -> gspec get post w.
Proof. apply rule_get. Qed.

Lemma gspec_modify f (post : unit -> gset nat -> World -> Prop) B w :
  Inv B (f w) -> post tt B (f w) -> gspec (modify f) post w.
Proof. apply rule_modify. Qed.

Lemma gspec_bind {A C} (m : M A) (k : A -> M C) Q R w :
  gspec m Q w ->
  (forall a, benign (k a)) ->
  (forall a B' w', Inv B' w' -> Q a B' w' -> gspec (k a) R w') ->
  gspec (bind m k) R w.
Proof. apply rule_bind. exact Esc_extends. Qed.

Lemma gspec_weaken {A} (m : M A) (Q R : A -> gset nat -> World -> Prop) w :
  gspec m Q w ->
  (forall a B' w', Inv B' w' -> Q a B' w' -> R a B' w') ->
  gspec m R w.
Proof. apply rule_weaken. Qed.

Lemma gspec_getRunner j (post : AnimationRunner -> gset nat -> World -> Prop) B w :
  Inv B w ->
  (forall r, objs w !! j = Some r -> post r B w) ->
  gspec (getRunner j) post w.
Proof. apply rule_getRunner. Qed.

(** The post-condition of an operation that leaves [B] as it is. *)
Definition same {A} (B : gset nat) (a : A) (B' : gset nat) (w' : World) : Prop :=
  B' = B.

Lemma spec_newPromise B st w :
  st = Resolved \/ st = Pending [] ->
  Inv B w ->
  gspec (newPromise st)
    (fun p B' w' => B' = B /\ free B (length (promises w')) p /\
                    promises w' !! p = Some st) w.
Proof.
  intros Hst HI. right. exists B. split; [apply Inv_alloc; assumption|].
  simpl. split; [reflexivity|]. rewrite length_app. simpl. split.
  - split; [lia|]. intros Hin. apply (Inv_bound _ _ _ HI) in Hin. lia.
  - rewrite lookup_app_r by lia. replace (_ - _)%nat with 0%nat by lia. reflexivity.
Qed.

Lemma spec_enqueue B js w :
  Inv B w -> Forall (okJob B (length (promises w))) js ->
  gspec (enqueue js) (same B) w.
Proof.
  intros HI Hjs. apply (gspec_modify _ _ B); [|reflexivity].
  apply Inv_enqueue; assumption.
Qed.

Lemma spec_resolvePromise B p w :
  Inv B w -> p ∉ B -> gspec (resolvePromise p) (same B) w.
Proof.
  intros HI Hp. unfold gspec, spec_of, wp, resolvePromise.
  destruct (promises w !! p) as [[rs|]|] eqn:Hl; right; exists B;
    (split; [|reflexivity]); auto.
  apply Inv_settle; assumption.
Qed.

Lemma blocked_not_resolved B w p :
  Inv B w -> promises w !! p = Some Resolved -> p ∉ B.
Proof.
  intros HI Hp Hin. destruct (inv_blocked _ _ HI p Hin) as [rs Hrs]. congruence.
Qed.

Lemma spec_react B p r w :
  Inv B w -> (p ∉ B -> okReaction B (length (promises w)) r) ->
  gspec (react p r) (same B) w.
Proof.
  intros HI Hr. unfold gspec, spec_of, wp, react. unfold bind, get, modify, enqueue. simpl.
  destruct (promises w !! p) as [[rs|]|] eqn:Hl; right; exists B;
    (split; [|reflexivity]); auto.
  - eapply Inv_register; eauto.
  - apply Inv_enqueue; [exact HI|]. constructor; [|constructor].
    apply Hr. eapply blocked_not_resolved; eauto.
Qed.

Ltac gs_with spec :=
  eapply gspec_bind; [eapply spec; eauto|intros; benign_go|].

Lemma gspec_extends {A} (m : M A) (post : A -> gset nat -> World -> Prop) w :
  benign m -> gspec m post w ->
  gspec m (fun a B' w' => post a B' w' /\ extends w w') w.
Proof. apply rule_extends. Qed.

Lemma spec_then B p cb w :
  Inv B w -> (gated cb -> p ∈ B) ->
  gspec (then_ p cb) (same B) w.
Proof.
  intros HI Hcb. unfold then_.
  gs_with (spec_newPromise B (Pending [])).
  intros out B' w' HI' (-> & [Hlt Hout] & _).
  gs_with (spec_react B p (RThen cb out)).
  - intros Hp. simpl. split; [exact Hlt|]. split; [|contradiction].
    intros Hg. apply Hp. auto.
  - intros [] B' w'' HI'' ->. apply (gspec_ret _ _ B); [exact HI''|reflexivity].
Qed.

Lemma spec_then_blocked B p cb w :
  Inv B w -> (p ∈ B \/ cb = CbWaitFor i) ->
  gspec (then_ p cb) (fun out B' w' => B' = B ∪ {[out]}) w.
Proof.
  intros HI Hp. unfold then_.
  apply (gspec_bind _ _ (fun out B' w' =>
      B' = B ∪ {[out]} /\
      (p ∉ B' -> okReaction B' (length (promises w')) (RThen cb out)))).
  - right. exists (B ∪ {[length (promises w)]}).
    split; [apply Inv_alloc_blocked; exact HI|]. split; [reflexivity|].
    simpl. rewrite length_app. simpl. intros HpB.
    assert (cb = CbWaitFor i) as ->.
    { destruct Hp as [Hp|Hp]; [|exact Hp]. exfalso. apply HpB.
      apply elem_of_union. left. exact Hp. }
    split; [lia|]. split; [|reflexivity]. intros [Hg|Hg]; discriminate Hg.
  - intros; benign_go.
  - intros out B' w' HI' [HB Hok]. apply (gspec_bind _ _ (same B')).
    + apply spec_react; assumption.
    + intros; benign_go.
    + intros [] B'' w'' HI'' ->. apply (gspec_ret _ _ B'); assumption.
Qed.

Lemma spec_updRunner B j f w :
  Inv B w ->
  (j = i -> forall r, objs w !! i = Some r ->
     animationDef_ (f r) = animationDef_ r /\ slot_ok B (f r)) ->
  gspec (updRunner j f) (same B) w.
Proof.
  intros HI Hf. apply (gspec_modify _ _ B); [|reflexivity].
  apply Inv_alter; assumption.
Qed.

Lemma spec_updRunner_keeps B j f w :
  Inv B w -> keeps_slot f -> gspec (updRunner j f) (same B) w.
Proof.
  intros HI Hf. apply (gspec_modify _ _ B); [|reflexivity].
  apply Inv_alter_keeps; assumption.
Qed.

Lemma spec_emit B e w : Inv B w -> gspec (modify (emit e)) (same B) w.
Proof.
  intros HI. apply (gspec_modify _ _ B); [|reflexivity]. apply Inv_emit. exact HI.
Qed.

Lemma spec_dev_assert B c msg w : Inv B w -> gspec (dev_assert c msg) (same B) w.
Proof.
  intros HI. unfold dev_assert. destruct c.
  - apply (gspec_ret _ _ B); [exact HI|reflexivity].
  - apply (gspec_throw _ _ B). exact HI.
Qed.

Lemma spec_user_assert B c msg w : Inv B w -> gspec (user_assert c msg) (same B) w.
Proof.
  intros HI. unfold user_assert. destruct c.
  - apply (gspec_ret _ _ B); [exact HI|reflexivity].
  - apply (gspec_throw _ _ B). exact HI.
Qed.

(** [waitFor]: the promise is blocked exactly when the id is [dep], and only
    a promise made now can have joined [B]. *)
Lemma spec_waitFor B id w :
  Inv B w ->
  gspec (waitFor id)
    (fun q B' w' =>
       (id = dep -> q ∈ B') /\
       (id <> dep -> B' = B) /\
       B ⊆ B' /\
       (forall x, x ∈ B' -> x ∈ B \/ (length (promises w) <= x)%nat)) w.
Proof.
  intros HI. unfold gspec, spec_of, wp.
  destruct (inflight w id) as [p|] eqn:Hin.
  - rewrite (waitFor_inflight _ _ _ Hin). right. exists B. split; [exact HI|].
    split; [apply (inv_seq _ _ HI id p Hin)|]. split; [reflexivity|].
    split; [reflexivity|]. auto.
  - rewrite (waitFor_fresh _ _ Hin). right.
    destruct (decide (id = dep)) as [->|Hne].
    + exists (B ∪ {[length (promises w)]}). split.
      * apply Inv_subscribe; [apply Inv_alloc_blocked; exact HI|exact Hin| |done].
        intros _. apply elem_of_union. right. apply elem_of_singleton. reflexivity.
      * split; [intros _; set_solver|]. split; [done|]. split; [set_solver|].
        intros x Hx. apply elem_of_union in Hx as [Hx|Hx]; [left; exact Hx|].
        right. apply elem_of_singleton in Hx. lia.
    + exists B. split.
      * apply Inv_subscribe; [apply Inv_alloc; [right; reflexivity|exact HI]
                             |exact Hin|done|].
        intros _. simpl. rewrite length_app. simpl. split; [lia|].
        intros Hx. apply (Inv_bound _ _ _ HI) in Hx. lia.
      * split; [done|]. split; [reflexivity|]. split; [reflexivity|]. auto.
Qed.

Lemma spec_notifyFinish B id w :
  Inv B w -> gspec (notifyFinish id) (same B) w.
Proof.
  intros HI. unfold gspec, spec_of, wp.
  destruct (inflight w id) as [p|] eqn:Hin.
  - unfold notifyFinish, bind, get, modify. simpl. unfold inflight in Hin. rewrite Hin.
    destruct (subscriptionResolvers_ (sequence_ w) !! id) as [r|] eqn:Hres; simpl.
    + destruct (decide (id = dep)) as [->|Hne].
      * unfold resolvePromise. simpl.
        destruct (promises w !! r) as [[rs|]|]; simpl; left; left; simpl; set_solver.
      * destruct (inv_seq _ _ HI id p Hin) as [_ H2].
        destruct (H2 Hne) as [[Hlt HpB] Hres']. rewrite Hres in Hres'.
        injection Hres' as ->. unfold resolvePromise. simpl.
        destruct (promises w !! p) as [[rs|]|] eqn:Hp; simpl; right; exists B;
          (split; [|reflexivity]); apply Inv_unsubscribe.
        -- apply (Inv_settle B (emit (SeqResolve id) (emit (SeqNotifyFinish id) w)));
             [do 2 apply Inv_emit; exact HI|exact Hp|exact HpB].
        -- do 2 apply Inv_emit. exact HI.
        -- do 2 apply Inv_emit. exact HI.
    + right. exists B. apply Inv_emit. exact HI.
  - rewrite (notifyFinish_idle _ _ Hin). right. exists B.
    split; [apply Inv_emit; exact HI|reflexivity].
Qed.

(** Reading object [j]: the world is as it was. *)
Ltac gs_runner r Hr :=
  lazymatch goal with
  | |- gspec (bind (getRunner ?j) _) _ ?w =>
      match goal with
      | H : Inv ?B w |- _ =>
          eapply gspec_bind;
          [ apply (gspec_getRunner j
                     (fun rx Bx wx => Bx = B /\ wx = w /\ objs w !! j = Some rx)
                     B w H);
            intros; split; [reflexivity|split; [reflexivity|assumption]]
          | intros; benign_go
          | let HI := fresh "HI" in
            let HB := fresh "HB" in
            let Hw := fresh "Hw" in
            let Bx := fresh "Bx" in
            let wx := fresh "wx" in
            intros r Bx wx HI (HB & Hw & Hr); subst; clear HI ]
      end
  end.

(** A step that leaves [B] as it is. *)
Ltac gs_same spec :=
  eapply gspec_bind;
  [ eapply spec; eauto
  | intros; benign_go
  | let HI := fresh "HI" in
    let HB := fresh "HB" in
    let x := fresh "x" in
    let Bx := fresh "Bx" in
    let wx := fresh "wx" in
    intros x Bx wx HI HB; unfold same in HB; subst ].

Ltac gs_done := eapply gspec_ret; [eassumption|reflexivity].

Ltac not_gated :=
  let H := fresh "H" in
  intros [H|H]; first [discriminate H | injection H; intros; congruence].

Ltac keeps_slot_tac := let r := fresh "r" in intros r; simpl; auto.

Lemma spec_notifyFinish_ B j w : Inv B w -> gspec (notifyFinish_ j) (same B) w.
Proof.
  intros HI. unfold notifyFinish_. gs_runner r Hr.
  destruct (bool_decide _).
  - apply spec_notifyFinish. assumption.
  - gs_done.
Qed.

Lemma spec_playStateChanged B j s w :
  Inv B w -> gspec (playStateChanged j s) (same B) w.
Proof.
  intros HI. unfold playStateChanged. destruct (bool_decide _).
  - apply spec_notifyFinish_. exact HI.
  - gs_done.
Qed.

Lemma spec_fire B j l : forall w, Inv B w -> gspec (fire j l) (same B) w.
Proof.
  induction l as [|s l IH]; intros w HI; simpl.
  - gs_done.
  - gs_same spec_playStateChanged. apply IH. assumption.
Qed.

Lemma spec_hostInvoke B j c w : Inv B w -> gspec (hostInvoke j c) (same B) w.
Proof.
  intros HI. unfold hostInvoke. gs_runner r Hr.
  destruct (host r) as [h|].
  - gs_same spec_emit.
    gs_same spec_updRunner_keeps; [keeps_slot_tac|].
    destruct (subscribed h).
    + apply spec_fire. assumption.
    + gs_done.
  - eapply gspec_throw. eassumption.
Qed.

Lemma spec_resetFirstFrame_ B j w :
  Inv B w -> gspec (resetFirstFrame_ j) (same B) w.
Proof.
  intros HI. unfold resetFirstFrame_. gs_runner r Hr.
  destruct (negb _).
  - gs_done.
  - gs_same spec_updRunner_keeps; [keeps_slot_tac|].
    gs_same spec_then; [not_gated|]. gs_done.
Qed.

Lemma spec_applyFirstFrame B j w :
  Inv B w -> gspec (applyFirstFrame j) (same B) w.
Proof.
  intros HI. unfold applyFirstFrame. gs_runner r Hr.
  destruct (firstFrameApplied_ r).
  - eapply gspec_weaken; [apply (spec_newPromise B Resolved); auto|].
    intros a B2 w2 _ (-> & _). reflexivity.
  - gs_same spec_updRunner_keeps; [keeps_slot_tac|].
    apply spec_then; [assumption|not_gated].
Qed.

Lemma spec_startWhenReady_ B j w :
  Inv B w -> gspec (startWhenReady_ j) (same B) w.
Proof.
  intros HI. unfold startWhenReady_. gs_runner r Hr.
  gs_same spec_updRunner_keeps; [keeps_slot_tac|].
  gs_same spec_resetFirstFrame_.
  destruct (runnerReset_ r); apply spec_hostInvoke; assumption.
Qed.

Lemma spec_finishWhenReady_ B j w :
  Inv B w -> gspec (finishWhenReady_ j) (same B) w.
Proof.
  intros HI. unfold finishWhenReady_. gs_runner r Hr.
  destruct (host r) as [h|]; [|eapply gspec_throw; eassumption].
  destruct (bool_decide _); [|gs_done].
  gs_same spec_hostInvoke.
  apply spec_updRunner_keeps; [assumption|keeps_slot_tac].
Qed.

(** The two assignments to the slot, taken together. *)
Lemma updRunner_twice {A} j f g (k : M A) w :
  (updRunner j f >> updRunner j g >> k) w = (updRunner j (g ∘ f) >> k) w.
Proof.
  unfold bind, updRunner, modify. simpl.
  replace (set_objs (alter g j) (set_objs (alter f j) w))
    with (set_objs (alter (g ∘ f) j) w); [reflexivity|].
  destruct w. unfold set_objs. simpl. f_equal. symmetry. apply list_alter_alter_eq.
Qed.

Lemma gspec_eq {A} (m m' : M A) post w :
  m w = m' w -> gspec m' post w -> gspec m post w.
Proof. apply rule_eq. Qed.

Lemma spec_clear_slot B j w :
  Inv B w ->
  gspec (updRunner j (set_scheduledWait None ∘ set_scheduledActivity None))
    (same B) w.
Proof.
  intros HI. apply spec_updRunner; [exact HI|]. intros _ r Hr. simpl.
  split; [reflexivity|]. unfold slot_ok. simpl. discriminate.
Qed.

Lemma spec_set_slot B j a wait w :
  Inv B w ->
  (j = i -> a = START -> exists p, wait = Some p /\ p ∈ B) ->
  gspec (updRunner j (set_scheduledWait wait ∘ set_scheduledActivity (Some a)))
    (same B) w.
Proof.
  intros HI Hw. apply spec_updRunner; [exact HI|]. intros Hj r Hr. simpl.
  split; [reflexivity|]. unfold slot_ok. simpl. intros [= ->]. auto.
Qed.

Lemma spec_playbackWhenReady_ B j a wait w :
  Inv B w ->
  (j = i -> a = START -> exists p, wait = Some p /\ p ∈ B) ->
  gspec (playbackWhenReady_ j a wait) (same B) w.
Proof.
  intros HI Hw. unfold playbackWhenReady_. gs_runner r Hr.
  gs_same spec_dev_assert.
  destruct wait as [p|].
  - eapply gspec_bind; [eapply (gspec_ret p (fun x Bx wx => Bx = B /\ x = p)); eauto
                       |intros; benign_go|].
    intros y B2 w2 HI2 [-> ->].
    gs_same spec_then.
    + intros [[= -> ->]|[=]].
      destruct (Hw eq_refl eq_refl) as (q & [= <-] & Hq). exact Hq.
    + gs_done.
  - eapply gspec_bind; [apply (spec_newPromise B Resolved); auto|intros; benign_go|].
    intros y B2 w2 HI2 (-> & _ & _).
    gs_same spec_then.
    + intros [[= -> ->]|[=]]. destruct (Hw eq_refl eq_refl) as (q & [=] & _).
    + gs_done.
Qed.

Lemma spec_playbackFire B j a w :
  Inv B w -> gspec (playbackFire j a) (same B) w.
Proof.
  intros HI. unfold playbackFire. gs_runner r Hr.
  destruct (negb _); [gs_done|].
  eapply gspec_eq; [apply updRunner_twice|].
  gs_same spec_clear_slot.
  destruct a; [apply spec_startWhenReady_|apply spec_finishWhenReady_]; assumption.
Qed.

Lemma spec_playback_ B j a wait w :
  Inv B w ->
  (j = i -> a = START -> exists p, wait = Some p /\ p ∈ B) ->
  gspec (playback_ j a wait) (same B) w.
Proof.
  intros HI Hw. unfold playback_.
  eapply gspec_eq; [apply updRunner_twice|].
  gs_same spec_set_slot. gs_runner r Hr.
  destruct (runner_ r); [|gs_done].
  apply spec_playbackWhenReady_; assumption.
Qed.

Lemma spec_cancel B j w : Inv B w -> gspec (cancel j) (same B) w.
Proof.
  intros HI. unfold cancel.
  eapply gspec_eq; [apply updRunner_twice|].
  gs_same spec_clear_slot. gs_runner r Hr.
  destruct (hasStarted r); [|gs_done].
  gs_same spec_dev_assert. gs_same spec_hostInvoke.
  apply spec_updRunner_keeps; [assumption|keeps_slot_tac].
Qed.

Lemma spec_finish B j w : Inv B w -> gspec (finish j) (same B) w.
Proof.
  intros HI. unfold finish. gs_runner r Hr.
  eapply gspec_bind; [|intros; benign_go|].
  - unfold when. destruct (firstFrameApplied_ r).
    + apply spec_notifyFinish_. eassumption.
    + gs_done.
  - intros [] B2 w2 HI2 HB. unfold same in HB. subst.
    gs_same spec_resetFirstFrame_.
    apply spec_playback_; [assumption|discriminate].
Qed.

Lemma spec_onRunnerReady_ B j w : Inv B w -> gspec (onRunnerReady_ j) (same B) w.
Proof.
  intros HI. unfold onRunnerReady_.
  gs_same spec_updRunner_keeps; [keeps_slot_tac|].
  gs_same spec_updRunner_keeps; [keeps_slot_tac|].
  gs_runner r Hr.
  destruct (negb _); [gs_done|].
  destruct (scheduledActivity_ r) as [a|] eqn:Ha; [|gs_done].
  apply spec_playbackWhenReady_; [assumption|].
  intros -> ->. match goal with H : Inv B _ |- _ => apply (inv_obj _ _ H r Hr) end.
  exact Ha.
Qed.

Lemma spec_getStartWaitPromise_ B j w :
  Inv B w ->
  gspec (getStartWaitPromise_ j) (fun p B' w' => j = i -> p ∈ B') w.
Proof.
  intros HI. unfold getStartWaitPromise_. gs_runner r Hr.
  eapply gspec_bind; [apply (spec_newPromise B Resolved); auto|intros; benign_go|].
  intros p0 B2 w2 HI2 (-> & _ & _).
  destruct (decide (j = i)) as [->|Hne].
  - match goal with H : Inv B ?w0, H' : objs ?w0 !! i = Some r |- _ =>
      destruct (proj1 (inv_obj _ _ H r H')) as [Hdep Hnz] end.
    rewrite Hdep. rewrite bool_decide_eq_true_2 by exact Hnz.
    eapply gspec_bind;
      [apply (spec_then_blocked B p0 (CbWaitFor i)); [exact HI2|auto]
      |intros; benign_go|].
    intros p1 B3 w3 HI3 ->.
    destruct (bool_decide _).
    + eapply gspec_weaken;
        [apply (spec_then_blocked (B ∪ {[p1]}) p1 (CbTimer i)); [exact HI3|]|].
      * left. set_solver.
      * intros p2 B4 w4 _ -> _. set_solver.
    + eapply gspec_ret; [exact HI3|]. intros _. set_solver.
  - eapply gspec_bind; [|intros; benign_go|].
    + instantiate (1 := fun _ Bx _ => Bx = B).
      destruct (startAfterId (animationDef_ r)) as [id|].
      * destruct (bool_decide _).
        -- apply spec_then; [exact HI2|not_gated].
        -- eapply gspec_ret; [exact HI2|reflexivity].
      * eapply gspec_ret; [exact HI2|reflexivity].
    + intros p1 B3 w3 HI3 ->. simpl.
      destruct (bool_decide _).
      * eapply gspec_weaken; [apply spec_then; [exact HI3|not_gated]|].
        intros. contradiction.
      * eapply gspec_ret; [exact HI3|]. intros. contradiction.
Qed.

Lemma spec_start B j w :
  Inv B w -> gspec (start j) (fun _ _ _ => True) w.
Proof.
  intros HI. unfold start. gs_runner r Hr.
  destruct (hasStarted r).
  - eapply gspec_ret; [eassumption|exact I].
  - eapply gspec_bind; [eapply spec_getStartWaitPromise_; eassumption
                       |intros; benign_go|].
    intros p B2 w2 HI2 Hp.
    eapply gspec_weaken; [apply (spec_playback_ B2); [exact HI2|]|auto].
    intros -> _. exists p. auto.
Qed.

Lemma spec_firstFrame B r w : Inv B w -> gspec (firstFrame r) (same B) w.
Proof.
  intros HI. unfold firstFrame.
  destruct (keyframes_value r) as [[|f0 l]|];
    first [eapply gspec_throw; eassumption | gs_done].
Qed.

Lemma spec_timer_promise B w :
  Inv B w ->
  gspec (let! p := newPromise (Pending []) in
         modify (set_timers (fun l => l ++ [p])) >> ret (Some p)) (same B) w.
Proof.
  intros HI.
  eapply gspec_bind; [apply (spec_newPromise B (Pending [])); auto|intros; benign_go|].
  intros p B2 w2 HI2 (-> & Hfree & _).
  eapply gspec_bind; [apply (gspec_modify _ (same B) B); [|reflexivity]
                     |intros; benign_go|].
  - apply Inv_timers_add; assumption.
  - intros [] B3 w3 HI3 ->. gs_done.
Qed.

Lemma spec_mutate_promise B w :
  Inv B w ->
  gspec (let! p := newPromise (Pending []) in
         modify (set_mutates (fun l => l ++ [p])) >> ret (Some p)) (same B) w.
Proof.
  intros HI.
  eapply gspec_bind; [apply (spec_newPromise B (Pending [])); auto|intros; benign_go|].
  intros p B2 w2 HI2 (-> & Hfree & _).
  eapply gspec_bind; [apply (gspec_modify _ (same B) B); [|reflexivity]
                     |intros; benign_go|].
  - apply Inv_mutates_add; assumption.
  - intros [] B3 w3 HI3 ->. gs_done.
Qed.

Definition waits_for (cb : Callback) : bool :=
  match cb with CbWaitFor _ => true | _ => false end.

Lemma spec_runCallback_same B cb w :
  Inv B w -> waits_for cb = false ->
  gspec (runCallback cb) (same B) w.
Proof.
  intros HI Hw. destruct cb as [j|j|j|j|j|j|j|j|j|j|j a]; simpl;
    try discriminate Hw.
  - gs_runner r Hr.
    destruct (preset_keyframes (presetDef_ r)) as [k|f];
      [eapply gspec_throw; eassumption|].
    destruct (dims r) as [d|]; [|eapply gspec_throw; eassumption].
    gs_same spec_updRunner_keeps; [keeps_slot_tac|]. gs_done.
  - gs_done.
  - eapply gspec_bind;
      [apply (gspec_get (fun w0 Bx wx => Bx = B /\ w0 = wx) B); auto
      |intros; benign_go|].
    intros w0 B2 w2 HI2 [-> ->].
    gs_same spec_then; [not_gated|]. gs_done.
  - gs_same spec_updRunner_keeps; [keeps_slot_tac|]. gs_done.
  - gs_runner r Hr. gs_same spec_firstFrame. gs_same spec_dev_assert. gs_done.
  - gs_same spec_onRunnerReady_. gs_done.
  - gs_runner r Hr. gs_same spec_firstFrame. gs_same spec_emit.
    apply spec_mutate_promise. assumption.
  - gs_runner r Hr. gs_same spec_firstFrame. gs_same spec_emit. gs_done.
  - gs_runner r Hr. gs_same spec_emit. apply spec_timer_promise. assumption.
  - gs_same spec_playbackFire. gs_done.
Qed.

(** Running the callback of a reaction [RThen cb out] that was allowed in
    the queue: what is done with [out] next is allowed too. *)
Lemma spec_runCallback B cb out w :
  Inv B w -> okReaction B (length (promises w)) (RThen cb out) ->
  gspec (runCallback cb)
    (fun v B' w' =>
       match v with
       | None => out ∉ B'
       | Some q => okJob B' (length (promises w')) (JThenable q out)
       end) w.
Proof.
  intros HI (Hlt & Hcb & Hout).
  destruct (waits_for cb) eqn:Hw.
  - destruct cb as [j|j|j|j|j|j|j|j|j|j|j a]; try discriminate Hw. simpl.
    gs_runner r Hr.
    destruct (startAfterId (animationDef_ r)) as [id|] eqn:Hid;
      [|eapply gspec_throw; eassumption].
    match goal with H : Inv B ?w0 |- gspec _ _ ?w0 =>
      apply (gspec_bind _ _ _ _ _
               (gspec_extends _ _ _ (benign_waitFor id) (spec_waitFor B id w0 H)))
    end; [intros; benign_go|].
    intros q B2 w2 HI2 ((Hdep & Hsame & Hsub & Hfresh) & Hext).
    eapply gspec_ret; [exact HI2|]. simpl.
    split; [pose proof (ext_length _ _ Hext); lia|].
    intros HoutB. destruct (decide (j = i)) as [->|Hne].
    + apply Hdep.
      match goal with H : Inv B ?w0, H' : objs ?w0 !! i = Some r |- _ =>
        destruct (proj1 (inv_obj _ _ H r H')) as [Hd _] end.
      congruence.
    + exfalso. destruct (Hfresh _ HoutB) as [Hin|Hge]; [|lia].
      apply Hout in Hin. congruence.
  - assert (out ∉ B) as HoutB.
    { intros Hin. apply Hout in Hin. subst cb. discriminate. }
    eapply gspec_weaken;
      [apply (gspec_extends _ _ _ (benign_runCallback cb)
                (spec_runCallback_same B cb w HI Hw))|].
    intros v B2 w2 _ [HB Hext]. unfold same in HB. subst B2.
    destruct v as [q|]; [|exact HoutB].
    simpl. split; [pose proof (ext_length _ _ Hext); lia|]. contradiction.
Qed.

Lemma spec_runJob B j w :
  Inv B w -> okJob B (length (promises w)) j ->
  gspec (runJob j) (fun _ _ _ => True) w.
Proof.
  intros HI Hj. destruct j as [[cb out|out]|q out]; simpl in *.
  - eapply gspec_bind; [apply (spec_runCallback B cb out); assumption
                       |intros; benign_go|].
    intros v B2 w2 HI2 Hv. destruct v as [q|].
    + eapply gspec_weaken; [apply (spec_enqueue B2); [exact HI2|]|auto].
      constructor; [exact Hv|constructor].
    + eapply gspec_weaken; [apply (spec_resolvePromise B2); assumption|auto].
  - eapply gspec_weaken; [apply (spec_resolvePromise B); [exact HI|apply Hj]|auto].
  - eapply gspec_weaken; [apply (spec_react B); [exact HI|]|auto].
    intros HqB. simpl. destruct Hj as [Hlt Himp]. split; [exact Hlt|].
    intros Hin. apply HqB, Himp, Hin.
Qed.

(** Reading the world. *)
Ltac gs_get :=
  lazymatch goal with
  | |- gspec (bind get _) _ ?w =>
      match goal with
      | H : Inv ?B w |- _ =>
          eapply gspec_bind;
          [ apply (gspec_get (fun ax Bx wx => Bx = B /\ wx = w /\ ax = w) B w H);
            auto
          | intros; benign_go
          | let HI := fresh "HI" in
            let HB := fresh "HB" in
            let Hw := fresh "Hw" in
            let Ha := fresh "Ha" in
            let ax := fresh "ax" in
            let Bx := fresh "Bx" in
            let wx := fresh "wx" in
            intros ax Bx wx HI (HB & Hw & Ha); subst; clear HI ]
      end
  end.

Ltac gs_true spec :=
  eapply gspec_weaken; [eapply spec; eauto|intros; exact I].

Lemma spec_filterKeyframes_ B j k w :
  Inv B w -> gspec (filterKeyframes_ j k) (same B) w.
Proof.
  intros HI. destruct k as [a|f]; simpl.
  - eapply gspec_bind; [apply (spec_newPromise B Resolved); auto|intros; benign_go|].
    intros p B2 w2 HI2 (-> & _ & _). gs_done.
  - gs_same spec_emit.
    eapply gspec_bind; [apply (spec_newPromise B (Pending [])); auto|intros; benign_go|].
    intros pm B2 w2 HI2 (-> & Hfree & _).
    eapply gspec_bind; [apply (gspec_modify _ (same B) B); [|reflexivity]
                       |intros; benign_go|].
    + apply Inv_measures_add; assumption.
    + intros [] B3 w3 HI3 ->. gs_same spec_then; [not_gated|]. gs_done.
Qed.

#[local] Instance declares_dec r : Decision (declares r).
Proof. unfold declares. apply _. Defined.

Lemma spec_new_object B r0 w :
  Inv B w -> scheduledActivity_ r0 = None ->
  gspec (modify (set_objs (fun os => os ++ [r0]))) (same B) w.
Proof.
  intros HI Hslot.
  destruct (decide (length (objs w) = i /\ ~ declares r0)) as [[Hlen Hnd]|Hok].
  - left. right. exists r0. split; [|exact Hnd]. simpl.
    rewrite lookup_app_r by lia. replace (_ - _)%nat with 0%nat by lia. reflexivity.
  - apply (gspec_modify _ _ B); [|reflexivity]. apply Inv_new_object; [exact HI|].
    intros Hlen. split.
    + destruct (decide (declares r0)); [assumption|]. exfalso. apply Hok. auto.
    + unfold slot_ok. rewrite Hslot. discriminate.
Qed.

Lemma spec_AnimationRunner_new B def w :
  Inv B w -> gspec (AnimationRunner_new def) (same B) w.
Proof.
  intros HI. unfold AnimationRunner_new. gs_get.
  gs_same spec_filterKeyframes_.
  gs_same spec_then; [not_gated|].
  gs_same spec_then; [not_gated|].
  gs_same spec_new_object.
  gs_same spec_then; [not_gated|].
  gs_same spec_user_assert.
  gs_same spec_then; [not_gated|].
  gs_done.
Qed.

Lemma spec_createRunner_ B el w :
  Inv B w -> gspec (createRunner_ el) (same B) w.
Proof.
  intros HI. unfold createRunner_.
  eapply gspec_bind; [|intros; benign_go|].
  - instantiate (1 := fun _ Bx _ => Bx = B). unfold getPreset_.
    destruct (PRESETS !! _); [gs_done|eapply gspec_throw; eassumption].
  - intros p B2 w2 HI2 ->.
    eapply gspec_bind; [|intros; benign_go|].
    + instantiate (1 := fun _ Bx _ => Bx = B). unfold createAnimationDef.
      eapply gspec_bind; [|intros; benign_go|].
      * instantiate (1 := fun _ Bx _ => Bx = B).
        destruct (getAttribute el ANIMATE_IN_AFTER_ATTRIBUTE_NAME); [|gs_done].
        gs_same spec_user_assert. gs_done.
      * intros a B3 w3 HI3 ->. gs_done.
    + intros def B3 w3 HI3 ->. apply spec_AnimationRunner_new. assumption.
Qed.

Lemma spec_mapM {A C} (f : A -> M C) l :
  (forall x, benign (f x)) ->
  (forall x B w, Inv B w -> gspec (f x) (fun _ _ _ => True) w) ->
  forall B w, Inv B w -> gspec (mapM f l) (fun _ _ _ => True) w.
Proof.
  intros Hb Hf. induction l as [|x l IH]; intros B w HI; simpl.
  - eapply gspec_ret; [exact HI|exact I].
  - eapply gspec_bind; [apply (Hf x B w HI)| |].
    + intros y. pose proof (benign_mapM f l Hb). benign_go.
    + intros y B2 w2 HI2 _.
      eapply gspec_bind; [apply (IH B2 w2 HI2)|intros; benign_go|].
      intros ys B3 w3 HI3 _. eapply gspec_ret; [exact HI3|exact I].
Qed.

Lemma spec_forEach {A} (f : A -> M unit) l :
  (forall x, benign (f x)) ->
  (forall x B w, Inv B w -> gspec (f x) (fun _ _ _ => True) w) ->
  forall B w, Inv B w -> gspec (forEach f l) (fun _ _ _ => True) w.
Proof.
  intros Hb Hf B w HI. unfold forEach.
  eapply gspec_bind; [apply (spec_mapM f l Hb Hf B w HI)|intros; benign_go|].
  intros ys B2 w2 HI2 _. eapply gspec_ret; [exact HI2|exact I].
Qed.

Lemma gspec_modify_bind {A} f (k : unit -> M A) post w :
  gspec (k tt) post (f w) -> gspec (modify f >> k tt) post w.
Proof. intros H. exact H. Qed.

Lemma spec_tick B w : Inv B w -> gspec tick (fun _ _ _ => True) w.
Proof.
  intros HI. unfold tick. gs_get.
  destruct (microtasks w) as [|j q] eqn:Hq.
  - eapply gspec_ret; [exact HI|exact I].
  - pose proof (inv_queue _ _ HI) as Hall. rewrite Hq in Hall.
    apply Forall_cons in Hall as [Hj _].
    apply (gspec_modify_bind _ (fun _ => runJob j)).
    apply (spec_runJob B); [apply Inv_pop; exact HI|exact Hj].
Qed.

Lemma spec_timerFires B p w : Inv B w -> gspec (timerFires p) (fun _ _ _ => True) w.
Proof.
  intros HI. unfold timerFires. gs_get.
  case_bool_decide as Hin; [|eapply gspec_ret; [exact HI|exact I]].
  pose proof (inv_timers _ _ HI) as Hall. rewrite Forall_forall in Hall.
  destruct (Hall p Hin) as [_ HpB].
  apply (gspec_modify_bind _ (fun _ => resolvePromise p)).
  gs_true (spec_resolvePromise B). apply Inv_timers_filter. exact HI.
Qed.

Lemma spec_mutateDone B p w : Inv B w -> gspec (mutateDone p) (fun _ _ _ => True) w.
Proof.
  intros HI. unfold mutateDone. gs_get.
  case_bool_decide as Hin; [|eapply gspec_ret; [exact HI|exact I]].
  pose proof (inv_mutates _ _ HI) as Hall. rewrite Forall_forall in Hall.
  destruct (Hall p Hin) as [_ HpB].
  apply (gspec_modify_bind _ (fun _ => resolvePromise p)).
  gs_true (spec_resolvePromise B). apply Inv_mutates_filter. exact HI.
Qed.

Lemma spec_measureDone B p d w :
  Inv B w -> gspec (measureDone p d) (fun _ _ _ => True) w.
Proof.
  intros HI. unfold measureDone. gs_get.
  destruct (list_find _ (measures w)) as [[k [p' j]]|] eqn:Hfind;
    [|eapply gspec_ret; [exact HI|exact I]].
  apply list_find_Some in Hfind as (Hk & Hp & _). simpl in Hp. subst p'.
  pose proof (inv_measures _ _ HI) as Hall. rewrite Forall_forall in Hall.
  destruct (Hall (p, j)) as [_ HpB]; [eapply list_elem_of_lookup_2; exact Hk|].
  simpl in HpB.
  apply (gspec_modify_bind _
           (fun _ => updRunner j (set_dims (Some d)) >> resolvePromise p)).
  gs_same spec_updRunner_keeps.
  - apply Inv_measures_filter. exact HI.
  - keeps_slot_tac.
  - gs_true (spec_resolvePromise B).
Qed.

Lemma spec_builderReady B w : Inv B w -> gspec builderReady (fun _ _ _ => True) w.
Proof.
  intros HI. unfold builderReady. gs_get.
  gs_true (spec_resolvePromise B). apply (inv_builder _ _ HI).
Qed.

Lemma spec_playStateChanges B j s w :
  Inv B w -> gspec (playStateChanges j s) (fun _ _ _ => True) w.
Proof.
  intros HI. unfold playStateChanges. gs_runner r Hr.
  destruct (host r) as [h|]; [|eapply gspec_ret; [exact HI|exact I]].
  gs_same spec_updRunner_keeps; [keeps_slot_tac|].
  destruct (subscribed h); [|eapply gspec_ret; [eassumption|exact I]].
  gs_true spec_playStateChanged.
Qed.

Lemma spec_getOrCreateRunners_ B w :
  Inv B w -> gspec getOrCreateRunners_ (fun _ _ _ => True) w.
Proof.
  intros HI. unfold getOrCreateRunners_. gs_get.
  destruct (runners_ w); [eapply gspec_ret; [exact HI|exact I]|].
  eapply gspec_bind; [eapply (spec_mapM createRunner_ animatable); [| |exact HI]
                     |intros; benign_go|].
  - apply benign_createRunner_.
  - intros x B2 w2 HI2. gs_true spec_createRunner_.
  - intros rs B2 w2 HI2 _.
    eapply gspec_bind; [apply (gspec_modify _ (same B2) B2); [|reflexivity]
                       |intros; benign_go|].
    + apply Inv_set_runners. exact HI2.
    + intros [] B3 w3 HI3 ->. eapply gspec_ret; [exact HI3|exact I].
Qed.

Lemma spec_getRunners_ B w : Inv B w -> gspec getRunners_ (same B) w.
Proof.
  intros HI. unfold getRunners_. gs_get.
  destruct (runners_ w); [gs_done|eapply gspec_throw; eassumption].
Qed.

Lemma spec_Manager_applyFirstFrame B w :
  Inv B w -> gspec Manager_applyFirstFrame (fun _ _ _ => True) w.
Proof.
  intros HI. unfold Manager_applyFirstFrame.
  eapply gspec_bind; [eapply spec_getOrCreateRunners_; exact HI
                     |intros; benign_go|].
  intros rs B2 w2 HI2 _.
  eapply (spec_mapM applyFirstFrame rs benign_applyFirstFrame); [|exact HI2].
  intros y B3 w3 HI3. gs_true spec_applyFirstFrame.
Qed.

Lemma spec_animateIn B w : Inv B w -> gspec animateIn (fun _ _ _ => True) w.
Proof.
  intros HI. unfold animateIn.
  eapply gspec_bind; [eapply spec_getRunners_; exact HI|intros; benign_go|].
  intros rs B2 w2 HI2 ->.
  eapply (spec_forEach start rs benign_start); [|exact HI2].
  intros y B3 w3 HI3. eapply spec_start. exact HI3.
Qed.

Lemma spec_finishAll B w : Inv B w -> gspec finishAll (fun _ _ _ => True) w.
Proof.
  intros HI. unfold finishAll.
  eapply gspec_bind; [eapply spec_getRunners_; exact HI|intros; benign_go|].
  intros rs B2 w2 HI2 ->.
  eapply (spec_forEach finish rs benign_finish); [|exact HI2].
  intros y B3 w3 HI3. gs_true spec_finish.
Qed.

Lemma spec_cancelAll B w : Inv B w -> gspec cancelAll (fun _ _ _ => True) w.
Proof.
  intros HI. unfold cancelAll. gs_get.
  destruct (runners_ w); [|eapply gspec_ret; [exact HI|exact I]].
  eapply gspec_bind; [eapply spec_getRunners_; exact HI|intros; benign_go|].
  intros rs B2 w2 HI2 ->.
  eapply (spec_forEach cancel rs benign_cancel); [|exact HI2].
  intros y B3 w3 HI3. gs_true spec_cancel.
Qed.

(** Every event keeps the invariant, or the run has escaped. *)
Lemma spec_step B ev w : Inv B w -> gspec (step ev) (fun _ _ _ => True) w.
Proof.
  intros HI. destruct ev; simpl.
  - eapply spec_tick. exact HI.
  - eapply spec_timerFires. exact HI.
  - eapply spec_measureDone. exact HI.
  - eapply spec_mutateDone. exact HI.
  - eapply spec_builderReady. exact HI.
  - eapply spec_playStateChanges. exact HI.
  - gs_same spec_applyFirstFrame. eapply gspec_ret; [eassumption|exact I].
  - eapply spec_start. exact HI.
  - gs_true spec_finish.
  - gs_true spec_cancel.
  - eapply gspec_bind; [eapply spec_Manager_applyFirstFrame; exact HI
                       |intros; benign_go|].
    intros ps B2 w2 HI2 _. eapply gspec_ret; [exact HI2|exact I].
  - eapply spec_animateIn. exact HI.
  - eapply spec_finishAll. exact HI.
  - eapply spec_cancelAll. exact HI.
Qed.

(** The effects that wait for the dependency: the host runner of [i] is
    started or resumed, or the delay timer of [i] is started. *)
Definition gatedE (e : Effect) : Prop :=
  e = HostStart i \/ e = HostResume i \/ exists ms, e = TimerPromise i ms.

(** In a trace (newest first) every gated effect comes after the resolution
    of the wait for [dep]. *)
Fixpoint traceOK (t : list Effect) : Prop :=
  match t with
  | [] => True
  | e :: t' => (gatedE e -> SeqResolve dep ∈ t') /\ traceOK t'
  end.

Lemma traceOK_split t l1 e l2 :
  traceOK t -> t = l1 ++ e :: l2 -> gatedE e -> SeqResolve dep ∈ l2.
Proof.
  revert t. induction l1 as [|x l1 IH]; intros t Hok -> He; simpl in Hok.
  - apply Hok. exact He.
  - eapply IH; [apply Hok|reflexivity|exact He].
Qed.

Lemma traceOK_quiet t : Forall (fun e => ~ gatedE e) t -> traceOK t.
Proof.
  induction 1 as [|e t He Ht IH]; simpl; [exact I|].
  split; [intros Hg; contradiction|exact IH].
Qed.

Lemma traceOK_after new t :
  traceOK t -> SeqResolve dep ∈ t -> traceOK (new ++ t).
Proof.
  intros Hok HN. induction new as [|e new IH]; simpl; [exact Hok|].
  split; [|exact IH]. intros _. apply elem_of_app. right. exact HN.
Qed.

Lemma okJob_not_gated B n j e : okJob B n j -> jobE j e -> ~ gatedE e.
Proof.
  destruct j as [[cb out|out]|q out]; simpl; try contradiction.
  intros (_ & Hg & _) He Hge. apply Hg. unfold gated.
  destruct cb as [j|j|j|j|j|j|j|j|j|j|j a]; simpl in He; try contradiction.
  - destruct He as [m ->]. destruct Hge as [H|[H|[ms H]]]; discriminate H.
  - destruct He as [m ->]. destruct Hge as [H|[H|[ms H]]]; discriminate H.
  - destruct He as [ms ->]. destruct Hge as [H|[H|[ms' H]]]; try discriminate H.
    injection H as -> _. right. reflexivity.
  - destruct He as [He|[id [-> | ->]]].
    + destruct a.
      * destruct He as [-> | ->];
          destruct Hge as [H|[H|[ms H]]]; try discriminate H;
          injection H as ->; left; reflexivity.
      * subst e. destruct Hge as [H|[H|[ms H]]]; discriminate H.
    + destruct Hge as [H|[H|[ms H]]]; discriminate H.
    + destruct Hge as [H|[H|[ms H]]]; discriminate H.
Qed.

Lemma eventE_not_gated B w ev e : Inv B w -> eventE w ev e -> ~ gatedE e.
Proof.
  intros HI He Hge. destruct ev; simpl in He; try contradiction.
  - destruct (microtasks w) as [|j q] eqn:Hq; [contradiction|].
    pose proof (inv_queue _ _ HI) as Hall. rewrite Hq in Hall.
    apply Forall_cons in Hall as [Hj _].
    exact (okJob_not_gated _ _ _ _ Hj He Hge).
  - destruct He as [id [-> | ->]]; destruct Hge as [H|[H|[ms H]]]; discriminate H.
  - destruct He as [id [-> | ->]]; destruct Hge as [H|[H|[ms H]]]; discriminate H.
  - destruct He as [->|[id [-> | ->]]];
      destruct Hge as [H|[H|[ms H]]]; discriminate H.
  - destruct He as [j ->]; destruct Hge as [H|[H|[ms H]]]; discriminate H.
  - destruct He as [id [-> | ->]]; destruct Hge as [H|[H|[ms H]]]; discriminate H.
  - destruct He as [[j ->]|[id [-> | ->]]];
      destruct Hge as [H|[H|[ms H]]]; discriminate H.
Qed.

Lemma Inv_new : Inv ∅ AnimationManager_new.
Proof.
  constructor; simpl.
  - intros p Hp. set_solver.
  - constructor.
  - intros [|p] rs Hp _; simpl in Hp; [|discriminate]. injection Hp as <-. constructor.
  - constructor.
  - constructor.
  - constructor.
  - split; [lia|set_solver].
  - intros id p. unfold inflight. simpl. rewrite lookup_empty. discriminate.
  - intros r. rewrite lookup_nil. discriminate.
Qed.

(** What holds of every world of a run. *)
Definition run_ok (w : World) : Prop :=
  (exists r, objs w !! i = Some r /\ ~ declares r) \/
  (traceOK (trace w) /\
   (SeqResolve dep ∈ trace w \/
    (Forall (fun e => ~ gatedE e) (trace w) /\ exists B, Inv B w))).

Lemma run_ok_step ev w : run_ok w -> run_ok (exec (step ev) w).
Proof.
  pose proof (benign_run _ w (benign_step_event ev)) as Hext.
  intros [HD|[Hok [HN|[Hq [B HI]]]]].
  - left. destruct HD as (r & Hr & Hd).
    destruct (ext_objs _ _ Hext _ _ Hr) as (r' & Hr' & Hdef & _).
    exists r'. split; [exact Hr'|]. unfold declares in *. rewrite Hdef. exact Hd.
  - right. destruct (ext_trace _ _ Hext) as [new Hnew]. unfold exec. rewrite Hnew.
    split; [apply traceOK_after; assumption|]. left.
    apply elem_of_app. right. exact HN.
  - destruct (emits_step_event w ev) as (new & Hnew & Hall).
    assert (Forall (fun e => ~ gatedE e) (trace (exec (step ev) w))) as Hq'.
    { unfold exec. rewrite Hnew. apply Forall_app. split; [|exact Hq].
      eapply Forall_impl; [exact Hall|]. intros e He.
      exact (eventE_not_gated _ _ _ _ HI He). }
    pose proof (spec_step B ev w HI) as Hs. unfold gspec, spec_of, wp, exec in *.
    destruct (step ev w) as [[[]|err] w']; simpl in *.
    + destruct Hs as [[HN'|HD']|(B' & HI' & _)].
      * right. split; [apply traceOK_quiet; exact Hq'|]. left. exact HN'.
      * left. exact HD'.
      * right. split; [apply traceOK_quiet; exact Hq'|]. right. eauto.
    + destruct Hs as [[HN'|HD']|(B' & HI')].
      * right. split; [apply traceOK_quiet; exact Hq'|]. left. exact HN'.
      * left. exact HD'.
      * right. split; [apply traceOK_quiet; exact Hq'|]. right. eauto.
Qed.

Lemma run_ok_run es : forall w, run_ok w -> run_ok (run es w).
Proof.
  induction es as [|ev es IH]; intros w Hw; simpl; [exact Hw|].
  apply IH. apply run_ok_step. exact Hw.
Qed.

Lemma run_ok_new : run_ok AnimationManager_new.
Proof.
  right. split; [exact I|]. right. split; [constructor|].
  exists ∅. apply Inv_new.
Qed.

Lemma run_gated_after_resolve (es : list Event) (r : AnimationRunner)
    (l1 l2 : list Effect) (e : Effect) :
  objs (run es AnimationManager_new) !! i = Some r ->
  declares r ->
  trace (run es AnimationManager_new) = l1 ++ e :: l2 ->
  gatedE e ->
  SeqResolve dep ∈ l2.
Proof.
  intros Hr Hdec Ht He.
  destruct (run_ok_run es _ run_ok_new) as [(r' & Hr' & Hd)|[Hok _]].
  - exfalso. apply Hd. rewrite Hr in Hr'. injection Hr' as <-. exact Hdec.
  - exact (traceOK_split _ _ _ _ Hok Ht He).
Qed.

End StartAfter.

(** ** A start that waits for its delay *)

Section TimerGate.

(** Runner [i] is configured with the delay [d], which is not 0. *)
Variables (i : nat) (d : Z).
Hypothesis d_configured : d <> 0.

Definition declaresD (r : AnimationRunner) : Prop :=
  effective_delay (animationDef_ r) = d.

(** [B] is the set of blocked promises: those that cannot settle before a
    delay timer of [i] has fired. The callback of [i] that must not run
    before that is its START playback. *)
Definition gatedD (cb : Callback) : Prop := cb = CbPlayback i START.

(** Reactions that may sit on a free promise or in the queue: no gated
    callback, and the only one that may settle a blocked promise is the
    callback that starts the delay timer of [i]. *)
Definition okReactionD (B : gset nat) (n : nat) (r : Reaction) : Prop :=
  match r with
  | RThen cb out =>
      (out < n)%nat /\ ~ gatedD cb /\ (out ∈ B -> cb = CbTimer i)
  | RAdopt out => free B n out
  end.

Definition okJobD (B : gset nat) (n : nat) (j : Job) : Prop :=
  match j with
  | JReact r => okReactionD B n r
  | JThenable q out => (out < n)%nat /\ (out ∈ B -> q ∈ B)
  end.

(** A timer that is running: it may be blocked only if the delay timer of
    [i] has been started. *)
Definition okTimerD (B : gset nat) (n : nat) (t : list Effect) (p : nat) : Prop :=
  (p < n)%nat /\ (p ∈ B -> TimerPromise i d ∈ t).

Record InvD (B : gset nat) (w : World) : Prop := {
  invD_blocked : forall p, p ∈ B -> is_pending w p;
  invD_queue : Forall (okJobD B (length (promises w))) (microtasks w);
  invD_store : forall p rs, promises w !! p = Some (Pending rs) -> p ∉ B ->
                Forall (okReactionD B (length (promises w))) rs;
  invD_timers : Forall (okTimerD B (length (promises w)) (trace w)) (timers w);
  invD_measures : Forall (fun m => free B (length (promises w)) (fst m)) (measures w);
  invD_mutates : Forall (free B (length (promises w))) (mutates w);
  invD_builder : free B (length (promises w)) (builderPromise_ w);
  invD_seq : forall id p, inflight w id = Some p ->
              free B (length (promises w)) p /\
              subscriptionResolvers_ (sequence_ w) !! id = Some p;
  invD_delay : forall r, objs w !! i = Some r -> delay_ r = d;
  invD_obj : forall r, objs w !! i = Some r ->
              declaresD r /\
              (scheduledActivity_ r = Some START ->
               exists p, scheduledWait_ r = Some p /\ p ∈ B) }.

(** Nothing is claimed if object [i] turns out to be configured with
    another delay. *)
Definition EscD (w : World) : Prop :=
  exists r, objs w !! i = Some r /\ ~ declaresD r.

Lemma EscD_extends w w' : extends w w' -> EscD w -> EscD w'.
Proof.
  intros Hext (r & Hr & Hd).
  destruct (ext_objs _ _ Hext _ _ Hr) as (r' & Hr' & Hdef & _).
  exists r'. split; [exact Hr'|]. unfold declaresD in *. rewrite Hdef. exact Hd.
Qed.

Lemma free_mono_d B n n' p : (n <= n')%nat -> free B n p -> free B n' p.
Proof. intros Hn [H1 H2]. split; [lia|exact H2]. Qed.

Lemma okReactionD_mono B n n' r :
  (n <= n')%nat -> okReactionD B n r -> okReactionD B n' r.
Proof.
  intros Hn. destruct r as [cb out|out]; simpl.
  - intros (H1 & H2 & H3). repeat split; [lia|exact H2|exact H3].
  - apply free_mono_d. exact Hn.
Qed.

Lemma okJobD_mono B n n' j : (n <= n')%nat -> okJobD B n j -> okJobD B n' j.
Proof.
  intros Hn. destruct j as [r|q out]; simpl.
  - apply okReactionD_mono. exact Hn.
  - intros [H1 H2]. split; [lia|exact H2].
Qed.

Lemma free_grow_d B n p : free B n p -> free (B ∪ {[n]}) (S n) p.
Proof. intros [H1 H2]. split; [lia|]. set_solver by lia. Qed.

Lemma okReactionD_grow B n r : okReactionD B n r -> okReactionD (B ∪ {[n]}) (S n) r.
Proof.
  destruct r as [cb out|out]; simpl.
  - intros (H1 & H2 & H3). repeat split; [lia|exact H2|].
    intros Hin. apply H3. set_solver by lia.
  - apply free_grow_d.
Qed.

Lemma okJobD_grow B n j : okJobD B n j -> okJobD (B ∪ {[n]}) (S n) j.
Proof.
  destruct j as [r|q out]; simpl.
  - apply okReactionD_grow.
  - intros [H1 H2]. split; [lia|]. intros Hin.
    assert (out ∈ B) by set_solver by lia. set_solver.
Qed.

Lemma InvD_bound B w p : InvD B w -> p ∈ B -> (p < length (promises w))%nat.
Proof. intros HI Hp. apply is_pending_lt. apply (invD_blocked _ _ HI). exact Hp. Qed.

(** The invariant under each field update. *)

Ltac invD_fields HI :=
  destruct HI as [Hblocked Hqueue Hstore Htimers Hmeasures Hmutates Hbuilder Hseq
                  Hdelay Hobj];
  constructor; simpl; auto.

Lemma okTimerD_emit B e n t p : okTimerD B n t p -> okTimerD B n (e :: t) p.
Proof.
  intros [H1 H2]. split; [exact H1|]. intros Hp.
  apply elem_of_cons. right. auto.
Qed.

Lemma InvD_emit B e w : InvD B w -> InvD B (emit e w).
Proof.
  intros HI. invD_fields HI.
  eapply Forall_impl; [exact Htimers|]. intros p. apply okTimerD_emit.
Qed.

Lemma InvD_set_runners B v w : InvD B w -> InvD B (set_runners v w).
Proof. intros HI. invD_fields HI. Qed.

Lemma InvD_pop B w : InvD B w -> InvD B (set_microtasks (drop 1) w).
Proof. intros HI. invD_fields HI. apply Forall_drop. exact Hqueue. Qed.

Lemma InvD_enqueue B js w :
  InvD B w -> Forall (okJobD B (length (promises w))) js ->
  InvD B (set_microtasks (fun q => q ++ js) w).
Proof. intros HI Hjs. invD_fields HI. apply Forall_app. split; assumption. Qed.

Lemma pending_alloc_d st w p :
  is_pending w p -> is_pending (set_promises (fun ps => ps ++ [st]) w) p.
Proof. intros [rs Hp]. exists rs. simpl. apply lookup_app_l_Some. exact Hp. Qed.

Lemma lookup_alloc_d (ps : list PromiseState) st p x :
  (ps ++ [st]) !! p = Some x ->
  ps !! p = Some x \/ (p = length ps /\ x = st).
Proof.
  intros H. apply lookup_app_Some in H as [H|[Hge H]]; [left; exact H|right].
  destruct (p - length ps)%nat as [|k] eqn:Hk; simpl in H; [|discriminate].
  split; [lia|congruence].
Qed.

Lemma InvD_alloc B st w :
  st = Resolved \/ st = Pending [] ->
  InvD B w -> InvD B (set_promises (fun ps => ps ++ [st]) w).
Proof.
  intros Hst HI. invD_fields HI; rewrite ?length_app; simpl.
  - intros p Hp. apply pending_alloc_d. auto.
  - eapply Forall_impl; [exact Hqueue|]. intros j. apply okJobD_mono. lia.
  - intros p rs Hp HpB. apply lookup_alloc_d in Hp as [Hp|[-> Hx]].
    + eapply Forall_impl; [apply (Hstore p rs Hp HpB)|].
      intros r. apply okReactionD_mono. lia.
    + destruct Hst as [->| ->]; [discriminate|]. injection Hx as ->. constructor.
  - eapply Forall_impl; [exact Htimers|]. intros p [H1 H2].
    split; [lia|exact H2].
  - eapply Forall_impl; [exact Hmeasures|]. intros p. apply free_mono_d. lia.
  - eapply Forall_impl; [exact Hmutates|]. intros p. apply free_mono_d. lia.
  - eapply free_mono_d; [|exact Hbuilder]. lia.
  - intros id p Hin. destruct (Hseq id p Hin) as [H3 H4]. split; [|exact H4].
    eapply free_mono_d; [|exact H3]. lia.
Qed.

Lemma InvD_alloc_blocked B w :
  InvD B w ->
  InvD (B ∪ {[length (promises w)]}) (set_promises (fun ps => ps ++ [Pending []]) w).
Proof.
  intros HI. pose proof (fun p => InvD_bound B w p HI) as Hbound.
  invD_fields HI; rewrite ?length_app; simpl;
    replace (length (promises w) + 1)%nat with (S (length (promises w))) by lia.
  - intros p Hp. apply elem_of_union in Hp as [Hp|Hp].
    + apply pending_alloc_d. auto.
    + apply elem_of_singleton in Hp as ->. exists []. simpl.
      rewrite lookup_app_r by lia. replace (_ - _)%nat with 0%nat by lia. reflexivity.
  - eapply Forall_impl; [exact Hqueue|]. intros j. apply okJobD_grow.
  - intros p rs Hp HpB. apply lookup_alloc_d in Hp as [Hp|[-> Hx]].
    + eapply Forall_impl; [apply (Hstore p rs Hp); set_solver|].
      intros r. apply okReactionD_grow.
    + injection Hx as ->. constructor.
  - eapply Forall_impl; [exact Htimers|]. intros p [H1 H2].
    split; [lia|].
    intros Hp. apply H2. apply elem_of_union in Hp as [Hp|Hp]; [exact Hp|].
    apply elem_of_singleton in Hp. lia.
  - eapply Forall_impl; [exact Hmeasures|]. intros p. apply free_grow_d.
  - eapply Forall_impl; [exact Hmutates|]. intros p. apply free_grow_d.
  - apply free_grow_d. exact Hbuilder.
  - intros id p Hin. destruct (Hseq id p Hin) as [H3 H4]. split; [|exact H4].
    apply free_grow_d. exact H3.
  - intros r Hr. destruct (Hobj r Hr) as [H1 H2]. split; [exact H1|].
    intros Hs. destruct (H2 Hs) as (p & Hw & Hp). exists p. split; [exact Hw|].
    apply elem_of_union. left. exact Hp.
Qed.

Lemma InvD_settle B w p rs :
  InvD B w -> promises w !! p = Some (Pending rs) -> p ∉ B ->
  InvD B (set_microtasks (fun q => q ++ (JReact <$> rs))
           (set_promises (<[p := Resolved]>) w)).
Proof.
  intros HI Hp HpB. pose proof (invD_store _ _ HI p rs Hp HpB) as Hrs.
  invD_fields HI; rewrite ?length_insert; auto.
  - intros q Hq. destruct (Hblocked q Hq) as [rs' Hq']. exists rs'. simpl.
    rewrite list_lookup_insert_ne; [exact Hq'|]. intros ->. contradiction.
  - apply Forall_app. split; [exact Hqueue|].
    apply Forall_fmap. eapply Forall_impl; [exact Hrs|]. intros r Hr. exact Hr.
  - intros q rs' Hq HqB. destruct (decide (p = q)) as [->|Hne].
    + rewrite list_lookup_insert_eq in Hq by (eapply lookup_lt_Some; exact Hp).
      discriminate.
    + rewrite list_lookup_insert_ne in Hq by done. eauto.
Qed.

Lemma InvD_register B w p rs r :
  InvD B w -> promises w !! p = Some (Pending rs) ->
  (p ∉ B -> okReactionD B (length (promises w)) r) ->
  InvD B (set_promises (<[p := Pending (rs ++ [r])]>) w).
Proof.
  intros HI Hp Hr.
  invD_fields HI; rewrite ?length_insert; auto.
  - intros q Hq. destruct (decide (p = q)) as [->|Hne].
    + exists (rs ++ [r]). simpl. apply list_lookup_insert_eq.
      eapply lookup_lt_Some; exact Hp.
    + destruct (Hblocked q Hq) as [rs' Hq']. exists rs'. simpl.
      rewrite list_lookup_insert_ne by done. exact Hq'.
  - intros q rs' Hq HqB. destruct (decide (p = q)) as [->|Hne].
    + rewrite list_lookup_insert_eq in Hq by (eapply lookup_lt_Some; exact Hp).
      injection Hq as <-. apply Forall_app. split; [eauto|].
      constructor; [auto|constructor].
    + rewrite list_lookup_insert_ne in Hq by done. eauto.
Qed.

Lemma Forall_filter_keep_d {A} (Q P : A -> Prop) `{forall x, Decision (P x)} l :
  Forall Q l -> Forall Q (filter P l).
Proof.
  rewrite !Forall_forall. intros HQ x Hx.
  apply list_elem_of_filter in Hx as [_ Hx]. auto.
Qed.

Lemma InvD_timers_add B p w :
  InvD B w -> okTimerD B (length (promises w)) (trace w) p ->
  InvD B (set_timers (fun l => l ++ [p]) w).
Proof.
  intros HI Hp. invD_fields HI. apply Forall_app. split; [exact Htimers|].
  constructor; [exact Hp|constructor].
Qed.

Lemma InvD_timers_filter B (P : nat -> Prop) `{forall x, Decision (P x)} w :
  InvD B w -> InvD B (set_timers (filter P) w).
Proof. intros HI. invD_fields HI. apply Forall_filter_keep_d. exact Htimers. Qed.

Lemma InvD_mutates_add B p w :
  InvD B w -> free B (length (promises w)) p ->
  InvD B (set_mutates (fun l => l ++ [p]) w).
Proof.
  intros HI Hp. invD_fields HI. apply Forall_app. split; [exact Hmutates|].
  constructor; [exact Hp|constructor].
Qed.

Lemma InvD_mutates_filter B (P : nat -> Prop) `{forall x, Decision (P x)} w :
  InvD B w -> InvD B (set_mutates (filter P) w).
Proof. intros HI. invD_fields HI. apply Forall_filter_keep_d. exact Hmutates. Qed.

Lemma InvD_measures_add B m w :
  InvD B w -> free B (length (promises w)) (fst m) ->
  InvD B (set_measures (fun l => l ++ [m]) w).
Proof.
  intros HI Hp. invD_fields HI. apply Forall_app. split; [exact Hmeasures|].
  constructor; [exact Hp|constructor].
Qed.

Lemma InvD_measures_filter B (P : nat * nat -> Prop) `{forall x, Decision (P x)} w :
  InvD B w -> InvD B (set_measures (filter P) w).
Proof. intros HI. invD_fields HI. apply Forall_filter_keep_d. exact Hmeasures. Qed.

Lemma InvD_alter B f j w :
  InvD B w ->
  (j = i -> forall r, objs w !! i = Some r ->
     animationDef_ (f r) = animationDef_ r /\ delay_ (f r) = delay_ r /\
     slot_ok B (f r)) ->
  InvD B (set_objs (alter f j) w).
Proof.
  intros HI Hf. invD_fields HI.
  - intros r Hr. destruct (decide (j = i)) as [->|Hne].
    + rewrite list_lookup_alter_eq in Hr.
      destruct (objs w !! i) as [r0|] eqn:Hr0; [|discriminate].
      injection Hr as <-. destruct (Hf eq_refl r0 eq_refl) as (_ & -> & _).
      apply (Hdelay r0 eq_refl).
    + rewrite list_lookup_alter_ne in Hr by done. auto.
  - intros r Hr. destruct (decide (j = i)) as [->|Hne].
    + rewrite list_lookup_alter_eq in Hr.
      destruct (objs w !! i) as [r0|] eqn:Hr0; [|discriminate].
      injection Hr as <-. destruct (Hf eq_refl r0 eq_refl) as (Hd & _ & Hs).
      split; [|exact Hs]. unfold declaresD. rewrite Hd. apply (Hobj r0 eq_refl).
    + rewrite list_lookup_alter_ne in Hr by done. auto.
Qed.

(** Updates that leave the definition and the slot alone. *)
Definition keeps_slot_d (f : AnimationRunner -> AnimationRunner) : Prop :=
  forall r, animationDef_ (f r) = animationDef_ r /\
            delay_ (f r) = delay_ r /\
            scheduledActivity_ (f r) = scheduledActivity_ r /\
            scheduledWait_ (f r) = scheduledWait_ r.

Lemma InvD_alter_keeps B f j w :
  InvD B w -> keeps_slot_d f -> InvD B (set_objs (alter f j) w).
Proof.
  intros HI Hf. apply InvD_alter; [exact HI|]. intros _ r Hr.
  destruct (Hf r) as (Hd & Hdl & Ha & Hw). split; [exact Hd|]. split; [exact Hdl|].
  unfold slot_ok. rewrite Ha, Hw. apply (invD_obj _ _ HI r Hr).
Qed.

Lemma InvD_new_object B r0 w :
  InvD B w ->
  (length (objs w) = i -> declaresD r0 /\ delay_ r0 = d /\ slot_ok B r0) ->
  InvD B (set_objs (fun os => os ++ [r0]) w).
Proof.
  intros HI H0. invD_fields HI.
  - intros r Hr.
    apply lookup_app_Some in Hr as [Hr|[Hge Hr]]; [auto|].
    destruct (i - length (objs w))%nat as [|k] eqn:Hk; simpl in Hr; [|discriminate].
    injection Hr as <-. apply H0. lia.
  - intros r Hr.
    apply lookup_app_Some in Hr as [Hr|[Hge Hr]]; [auto|].
    destruct (i - length (objs w))%nat as [|k] eqn:Hk; simpl in Hr; [|discriminate].
    injection Hr as <-. destruct H0 as (H1 & _ & H3); [lia|]. auto.
Qed.

(** The two stores of [waitFor], for a promise that has just been made. *)
Lemma InvD_subscribe B id p w :
  InvD B w -> inflight w id = None ->
  free B (length (promises w)) p ->
  InvD B (set_sequence (set_subscriptionPromises (<[id := p]>))
           (set_sequence (set_subscriptionResolvers (<[id := p]>)) w)).
Proof.
  intros HI Hnone Hf. invD_fields HI. intros id' p'. unfold inflight in *. simpl.
  destruct (decide (id = id')) as [->|Hne].
  - rewrite lookup_insert_eq. intros [= <-]. split; [exact Hf|].
    apply lookup_insert_eq.
  - rewrite !lookup_insert_ne by done. apply Hseq.
Qed.

(** The deletion at the end of [notifyFinish]. *)
Lemma InvD_unsubscribe B id w :
  InvD B w -> InvD B (set_sequence (set_subscriptionPromises (delete id)) w).
Proof.
  intros HI. invD_fields HI. intros id' p'. unfold inflight in *. simpl.
  destruct (decide (id = id')) as [->|Hne].
  - rewrite lookup_delete_eq. discriminate.
  - rewrite lookup_delete_ne by done. apply Hseq.
Qed.

(** Specifications relative to [InvD] and [EscD]. *)
Definition gspecD {A} (m : M A) (post : A -> gset nat -> World -> Prop)
    (w : World) : Prop :=
  spec_of EscD InvD m post w.

Lemma gspecD_ret {A} (a : A) (post : A -> gset nat -> World -> Prop) B w :
  InvD B w -> post a B w -> gspecD (ret a) post w.
Proof. apply rule_ret. Qed.

Lemma gspecD_throw {A} e (post : A -> gset nat -> World -> Prop) B w :
  InvD B w -> gspecD (throw e) post w.
Proof. apply rule_throw. Qed.

Lemma gspecD_get (post : World -> gset nat -> World -> Prop) B w :
  InvD B w -> post w B w -> gspecD get post w.
Proof. apply rule_get. Qed.

Lemma gspecD_modify f (post : unit -> gset nat -> World -> Prop) B w :
  InvD B (f w) -> post tt B (f w) -> gspecD (modify f) post w.
Proof. apply rule_modify. Qed.

Lemma gspecD_bind {A C} (m : M A) (k : A -> M C) Q R w :
  gspecD m Q w ->
  (forall a, benign (k a)) ->
  (forall a B' w', InvD B' w' -> Q a B' w' -> gspecD (k a) R w') ->
  gspecD (bind m k) R w.
Proof. apply rule_bind. exact EscD_extends. Qed.

Lemma gspecD_weaken {A} (m : M A) (Q R : A -> gset nat -> World -> Prop) w :
  gspecD m Q w ->
  (forall a B' w', InvD B' w' -> Q a B' w' -> R a B' w') ->
  gspecD m R w.
Proof. apply rule_weaken. Qed.

Lemma gspecD_getRunner j (post : AnimationRunner -> gset nat -> World -> Prop) B w :
  InvD B w ->
  (forall r, objs w !! j = Some r -> post r B w) ->
  gspecD (getRunner j) post w.
Proof. apply rule_getRunner. Qed.

Lemma d_newPromise B st w :
  st = Resolved \/ st = Pending [] ->
  InvD B w ->
  gspecD (newPromise st)
    (fun p B' w' => B' = B /\ free B (length (promises w')) p /\
                    promises w' !! p = Some st) w.
Proof.
  intros Hst HI. right. exists B. split; [apply InvD_alloc; assumption|].
  simpl. split; [reflexivity|]. rewrite length_app. simpl. split.
  - split; [lia|]. intros Hin. apply (InvD_bound _ _ _ HI) in Hin. lia.
  - rewrite lookup_app_r by lia. replace (_ - _)%nat with 0%nat by lia. reflexivity.
Qed.

Lemma d_enqueue B js w :
  InvD B w -> Forall (okJobD B (length (promises w))) js ->
  gspecD (enqueue js) (same B) w.
Proof.
  intros HI Hjs. apply (gspecD_modify _ _ B); [|reflexivity].
  apply InvD_enqueue; assumption.
Qed.

Lemma d_resolvePromise B p w :
  InvD B w -> p ∉ B -> gspecD (resolvePromise p) (same B) w.
Proof.
  intros HI Hp. unfold gspecD, spec_of, wp, resolvePromise.
  destruct (promises w !! p) as [[rs|]|] eqn:Hl; right; exists B;
    (split; [|reflexivity]); auto.
  apply InvD_settle; assumption.
Qed.

Lemma blocked_not_resolved_d B w p :
  InvD B w -> promises w !! p = Some Resolved -> p ∉ B.
Proof.
  intros HI Hp Hin. destruct (invD_blocked _ _ HI p Hin) as [rs Hrs]. congruence.
Qed.

Lemma d_react B p r w :
  InvD B w -> (p ∉ B -> okReactionD B (length (promises w)) r) ->
  gspecD (react p r) (same B) w.
Proof.
  intros HI Hr. unfold gspecD, spec_of, wp, react. unfold bind, get, modify, enqueue. simpl.
  destruct (promises w !! p) as [[rs|]|] eqn:Hl; right; exists B;
    (split; [|reflexivity]); auto.
  - eapply InvD_register; eauto.
  - apply InvD_enqueue; [exact HI|]. constructor; [|constructor].
    apply Hr. eapply blocked_not_resolved_d; eauto.
Qed.

Ltac gsD_with spec :=
  eapply gspecD_bind; [eapply spec; eauto|intros; benign_go|].

Lemma gspecD_extends {A} (m : M A) (post : A -> gset nat -> World -> Prop) w :
  benign m -> gspecD m post w ->
  gspecD m (fun a B' w' => post a B' w' /\ extends w w') w.
Proof. apply rule_extends. Qed.

Lemma d_then B p cb w :
  InvD B w -> (gatedD cb -> p ∈ B) ->
  gspecD (then_ p cb) (same B) w.
Proof.
  intros HI Hcb. unfold then_.
  gsD_with (d_newPromise B (Pending [])).
  intros out B' w' HI' (-> & [Hlt Hout] & _).
  gsD_with (d_react B p (RThen cb out)).
  - intros Hp. simpl. split; [exact Hlt|]. split; [|contradiction].
    intros Hg. apply Hp. auto.
  - intros [] B' w'' HI'' ->. apply (gspecD_ret _ _ B); [exact HI''|reflexivity].
Qed.

Lemma d_then_blocked B p cb w :
  InvD B w -> (p ∈ B \/ cb = CbTimer i) ->
  gspecD (then_ p cb) (fun out B' w' => B' = B ∪ {[out]}) w.
Proof.
  intros HI Hp. unfold then_.
  apply (gspecD_bind _ _ (fun out B' w' =>
      B' = B ∪ {[out]} /\
      (p ∉ B' -> okReactionD B' (length (promises w')) (RThen cb out)))).
  - right. exists (B ∪ {[length (promises w)]}).
    split; [apply InvD_alloc_blocked; exact HI|]. split; [reflexivity|].
    simpl. rewrite length_app. simpl. intros HpB.
    assert (cb = CbTimer i) as ->.
    { destruct Hp as [Hp|Hp]; [|exact Hp]. exfalso. apply HpB.
      apply elem_of_union. left. exact Hp. }
    split; [lia|]. split; [|reflexivity]. intros Hg; discriminate Hg.
  - intros; benign_go.
  - intros out B' w' HI' [HB Hok]. apply (gspecD_bind _ _ (same B')).
    + apply d_react; assumption.
    + intros; benign_go.
    + intros [] B'' w'' HI'' ->. apply (gspecD_ret _ _ B'); assumption.
Qed.

Lemma d_updRunner B j f w :
  InvD B w ->
  (j = i -> forall r, objs w !! i = Some r ->
     animationDef_ (f r) = animationDef_ r /\ delay_ (f r) = delay_ r /\
     slot_ok B (f r)) ->
  gspecD (updRunner j f) (same B) w.
Proof.
  intros HI Hf. apply (gspecD_modify _ _ B); [|reflexivity].
  apply InvD_alter; assumption.
Qed.

Lemma d_updRunner_keeps B j f w :
  InvD B w -> keeps_slot_d f -> gspecD (updRunner j f) (same B) w.
Proof.
  intros HI Hf. apply (gspecD_modify _ _ B); [|reflexivity].
  apply InvD_alter_keeps; assumption.
Qed.

Lemma d_emit B e w : InvD B w -> gspecD (modify (emit e)) (same B) w.
Proof.
  intros HI. apply (gspecD_modify _ _ B); [|reflexivity]. apply InvD_emit. exact HI.
Qed.

Lemma d_dev_assert B c msg w : InvD B w -> gspecD (dev_assert c msg) (same B) w.
Proof.
  intros HI. unfold dev_assert. destruct c.
  - apply (gspecD_ret _ _ B); [exact HI|reflexivity].
  - apply (gspecD_throw _ _ B). exact HI.
Qed.

Lemma d_user_assert B c msg w : InvD B w -> gspecD (user_assert c msg) (same B) w.
Proof.
  intros HI. unfold user_assert. destruct c.
  - apply (gspecD_ret _ _ B); [exact HI|reflexivity].
  - apply (gspecD_throw _ _ B). exact HI.
Qed.

(** [waitFor]: the promise is free. *)
Lemma d_waitFor B id w :
  InvD B w ->
  gspecD (waitFor id)
    (fun q B' w' => B' = B /\ free B (length (promises w')) q) w.
Proof.
  intros HI. unfold gspecD, spec_of, wp.
  destruct (inflight w id) as [p|] eqn:Hin.
  - rewrite (waitFor_inflight _ _ _ Hin). right. exists B. split; [exact HI|].
    split; [reflexivity|]. apply (invD_seq _ _ HI id p Hin).
  - rewrite (waitFor_fresh _ _ Hin). right. exists B.
    assert (free B (length (promises w ++ [Pending []])) (length (promises w)))
      as Hfree.
    { rewrite length_app. simpl. split; [lia|].
      intros Hx. apply (InvD_bound _ _ _ HI) in Hx. lia. }
    split.
    + apply InvD_subscribe; [apply InvD_alloc; [right; reflexivity|exact HI]
                            |exact Hin|exact Hfree].
    + split; [reflexivity|exact Hfree].
Qed.

Lemma d_notifyFinish B id w :
  InvD B w -> gspecD (notifyFinish id) (same B) w.
Proof.
  intros HI. unfold gspecD, spec_of, wp.
  destruct (inflight w id) as [p|] eqn:Hin.
  - unfold notifyFinish, bind, get, modify. simpl. unfold inflight in Hin. rewrite Hin.
    destruct (subscriptionResolvers_ (sequence_ w) !! id) as [r|] eqn:Hres; simpl.
    + destruct (invD_seq _ _ HI id p Hin) as [[Hlt HpB] Hres']. rewrite Hres in Hres'.
      injection Hres' as ->. unfold resolvePromise. simpl.
      destruct (promises w !! p) as [[rs|]|] eqn:Hp; simpl; right; exists B;
        (split; [|reflexivity]); apply InvD_unsubscribe.
      * apply (InvD_settle B (emit (SeqResolve id) (emit (SeqNotifyFinish id) w)));
          [do 2 apply InvD_emit; exact HI|exact Hp|exact HpB].
      * do 2 apply InvD_emit. exact HI.
      * do 2 apply InvD_emit. exact HI.
    + right. exists B. apply InvD_emit. exact HI.
  - rewrite (notifyFinish_idle _ _ Hin). right. exists B.
    split; [apply InvD_emit; exact HI|reflexivity].
Qed.

(** Reading object [j]: the world is as it was. *)
Ltac gsD_runner r Hr :=
  lazymatch goal with
  | |- gspecD (bind (getRunner ?j) _) _ ?w =>
      match goal with
      | H : InvD ?B w |- _ =>
          eapply gspecD_bind;
          [ apply (gspecD_getRunner j
                     (fun rx Bx wx => Bx = B /\ wx = w /\ objs w !! j = Some rx)
                     B w H);
            intros; split; [reflexivity|split; [reflexivity|assumption]]
          | intros; benign_go
          | let HI := fresh "HI" in
            let HB := fresh "HB" in
            let Hw := fresh "Hw" in
            let Bx := fresh "Bx" in
            let wx := fresh "wx" in
            intros r Bx wx HI (HB & Hw & Hr); subst; clear HI ]
      end
  end.

(** A step that leaves [B] as it is. *)
Ltac gsD_same spec :=
  eapply gspecD_bind;
  [ eapply spec; eauto
  | intros; benign_go
  | let HI := fresh "HI" in
    let HB := fresh "HB" in
    let x := fresh "x" in
    let Bx := fresh "Bx" in
    let wx := fresh "wx" in
    intros x Bx wx HI HB; unfold same in HB; subst ].

Ltac gsD_done := eapply gspecD_ret; [eassumption|reflexivity].

Ltac not_gated_d :=
  let H := fresh "H" in
  intros H; first [discriminate H | injection H; intros; congruence].

Ltac keeps_slot_tac_d := let r := fresh "r" in intros r; simpl; auto.

Lemma d_notifyFinish_ B j w : InvD B w -> gspecD (notifyFinish_ j) (same B) w.
Proof.
  intros HI. unfold notifyFinish_. gsD_runner r Hr.
  destruct (bool_decide _).
  - apply d_notifyFinish. assumption.
  - gsD_done.
Qed.

Lemma d_playStateChanged B j s w :
  InvD B w -> gspecD (playStateChanged j s) (same B) w.
Proof.
  intros HI. unfold playStateChanged. destruct (bool_decide _).
  - apply d_notifyFinish_. exact HI.
  - gsD_done.
Qed.

Lemma d_fire B j l : forall w, InvD B w -> gspecD (fire j l) (same B) w.
Proof.
  induction l as [|s l IH]; intros w HI; simpl.
  - gsD_done.
  - gsD_same d_playStateChanged. apply IH. assumption.
Qed.

Lemma d_hostInvoke B j c w : InvD B w -> gspecD (hostInvoke j c) (same B) w.
Proof.
  intros HI. unfold hostInvoke. gsD_runner r Hr.
  destruct (host r) as [h|].
  - gsD_same d_emit.
    gsD_same d_updRunner_keeps; [keeps_slot_tac_d|].
    destruct (subscribed h).
    + apply d_fire. assumption.
    + gsD_done.
  - eapply gspecD_throw. eassumption.
Qed.

Lemma d_resetFirstFrame_ B j w :
  InvD B w -> gspecD (resetFirstFrame_ j) (same B) w.
Proof.
  intros HI. unfold resetFirstFrame_. gsD_runner r Hr.
  destruct (negb _).
  - gsD_done.
  - gsD_same d_updRunner_keeps; [keeps_slot_tac_d|].
    gsD_same d_then; [not_gated_d|]. gsD_done.
Qed.

Lemma d_applyFirstFrame B j w :
  InvD B w -> gspecD (applyFirstFrame j) (same B) w.
Proof.
  intros HI. unfold applyFirstFrame. gsD_runner r Hr.
  destruct (firstFrameApplied_ r).
  - eapply gspecD_weaken; [apply (d_newPromise B Resolved); auto|].
    intros a B2 w2 _ (-> & _). reflexivity.
  - gsD_same d_updRunner_keeps; [keeps_slot_tac_d|].
    apply d_then; [assumption|not_gated_d].
Qed.

Lemma d_startWhenReady_ B j w :
  InvD B w -> gspecD (startWhenReady_ j) (same B) w.
Proof.
  intros HI. unfold startWhenReady_. gsD_runner r Hr.
  gsD_same d_updRunner_keeps; [keeps_slot_tac_d|].
  gsD_same d_resetFirstFrame_.
  destruct (runnerReset_ r); apply d_hostInvoke; assumption.
Qed.

Lemma d_finishWhenReady_ B j w :
  InvD B w -> gspecD (finishWhenReady_ j) (same B) w.
Proof.
  intros HI. unfold finishWhenReady_. gsD_runner r Hr.
  destruct (host r) as [h|]; [|eapply gspecD_throw; eassumption].
  destruct (bool_decide _); [|gsD_done].
  gsD_same d_hostInvoke.
  apply d_updRunner_keeps; [assumption|keeps_slot_tac_d].
Qed.

(** The two assignments to the slot, taken together. *)
Lemma updRunner_twice_d {A} j f g (k : M A) w :
  (updRunner j f >> updRunner j g >> k) w = (updRunner j (g ∘ f) >> k) w.
Proof.
  unfold bind, updRunner, modify. simpl.
  replace (set_objs (alter g j) (set_objs (alter f j) w))
    with (set_objs (alter (g ∘ f) j) w); [reflexivity|].
  destruct w. unfold set_objs. simpl. f_equal. symmetry. apply list_alter_alter_eq.
Qed.

Lemma gspecD_eq {A} (m m' : M A) post w :
  m w = m' w -> gspecD m' post w -> gspecD m post w.
Proof. apply rule_eq. Qed.

Lemma d_clear_slot B j w :
  InvD B w ->
  gspecD (updRunner j (set_scheduledWait None ∘ set_scheduledActivity None))
    (same B) w.
Proof.
  intros HI. apply d_updRunner; [exact HI|]. intros _ r Hr. simpl.
  split; [reflexivity|]. split; [reflexivity|]. unfold slot_ok. simpl. discriminate.
Qed.

Lemma d_set_slot B j a wait w :
  InvD B w ->
  (j = i -> a = START -> exists p, wait = Some p /\ p ∈ B) ->
  gspecD (updRunner j (set_scheduledWait wait ∘ set_scheduledActivity (Some a)))
    (same B) w.
Proof.
  intros HI Hw. apply d_updRunner; [exact HI|]. intros Hj r Hr. simpl.
  split; [reflexivity|]. split; [reflexivity|].
  unfold slot_ok. simpl. intros [= ->]. auto.
Qed.

Lemma d_playbackWhenReady_ B j a wait w :
  InvD B w ->
  (j = i -> a = START -> exists p, wait = Some p /\ p ∈ B) ->
  gspecD (playbackWhenReady_ j a wait) (same B) w.
Proof.
  intros HI Hw. unfold playbackWhenReady_. gsD_runner r Hr.
  gsD_same d_dev_assert.
  destruct wait as [p|].
  - eapply gspecD_bind; [eapply (gspecD_ret p (fun x Bx wx => Bx = B /\ x = p)); eauto
                       |intros; benign_go|].
    intros y B2 w2 HI2 [-> ->].
    gsD_same d_then.
    + intros [= -> ->].
      destruct (Hw eq_refl eq_refl) as (q & [= <-] & Hq). exact Hq.
    + gsD_done.
  - eapply gspecD_bind; [apply (d_newPromise B Resolved); auto|intros; benign_go|].
    intros y B2 w2 HI2 (-> & _ & _).
    gsD_same d_then.
    + intros [= -> ->]. destruct (Hw eq_refl eq_refl) as (q & [=] & _).
    + gsD_done.
Qed.

Lemma d_playbackFire B j a w :
  InvD B w -> gspecD (playbackFire j a) (same B) w.
Proof.
  intros HI. unfold playbackFire. gsD_runner r Hr.
  destruct (negb _); [gsD_done|].
  eapply gspecD_eq; [apply updRunner_twice_d|].
  gsD_same d_clear_slot.
  destruct a; [apply d_startWhenReady_|apply d_finishWhenReady_]; assumption.
Qed.

Lemma d_playback_ B j a wait w :
  InvD B w ->
  (j = i -> a = START -> exists p, wait = Some p /\ p ∈ B) ->
  gspecD (playback_ j a wait) (same B) w.
Proof.
  intros HI Hw. unfold playback_.
  eapply gspecD_eq; [apply updRunner_twice_d|].
  gsD_same d_set_slot. gsD_runner r Hr.
  destruct (runner_ r); [|gsD_done].
  apply d_playbackWhenReady_; assumption.
Qed.

Lemma d_cancel B j w : InvD B w -> gspecD (cancel j) (same B) w.
Proof.
  intros HI. unfold cancel.
  eapply gspecD_eq; [apply updRunner_twice_d|].
  gsD_same d_clear_slot. gsD_runner r Hr.
  destruct (hasStarted r); [|gsD_done].
  gsD_same d_dev_assert. gsD_same d_hostInvoke.
  apply d_updRunner_keeps; [assumption|keeps_slot_tac_d].
Qed.

Lemma d_finish B j w : InvD B w -> gspecD (finish j) (same B) w.
Proof.
  intros HI. unfold finish. gsD_runner r Hr.
  eapply gspecD_bind; [|intros; benign_go|].
  - unfold when. destruct (firstFrameApplied_ r).
    + apply d_notifyFinish_. eassumption.
    + gsD_done.
  - intros [] B2 w2 HI2 HB. unfold same in HB. subst.
    gsD_same d_resetFirstFrame_.
    apply d_playback_; [assumption|discriminate].
Qed.

Lemma d_onRunnerReady_ B j w : InvD B w -> gspecD (onRunnerReady_ j) (same B) w.
Proof.
  intros HI. unfold onRunnerReady_.
  gsD_same d_updRunner_keeps; [keeps_slot_tac_d|].
  gsD_same d_updRunner_keeps; [keeps_slot_tac_d|].
  gsD_runner r Hr.
  destruct (negb _); [gsD_done|].
  destruct (scheduledActivity_ r) as [a|] eqn:Ha; [|gsD_done].
  apply d_playbackWhenReady_; [assumption|].
  intros -> ->. match goal with H : InvD B _ |- _ => apply (invD_obj _ _ H r Hr) end.
  exact Ha.
Qed.

Lemma d_getStartWaitPromise_ B j w :
  InvD B w ->
  gspecD (getStartWaitPromise_ j) (fun p B' w' => j = i -> p ∈ B') w.
Proof.
  intros HI. unfold getStartWaitPromise_. gsD_runner r Hr.
  eapply gspecD_bind; [apply (d_newPromise B Resolved); auto|intros; benign_go|].
  intros p0 B2 w2 HI2 (-> & _ & _).
  eapply gspecD_bind; [|intros; benign_go|].
  - instantiate (1 := fun _ Bx _ => Bx = B).
    destruct (startAfterId (animationDef_ r)) as [id|].
    + destruct (bool_decide _).
      * apply d_then; [exact HI2|not_gated_d].
      * eapply gspecD_ret; [exact HI2|reflexivity].
    + eapply gspecD_ret; [exact HI2|reflexivity].
  - intros p1 B3 w3 HI3 ->. simpl.
    destruct (decide (j = i)) as [->|Hne].
    + match goal with H : InvD B ?w0, H' : objs ?w0 !! i = Some r |- _ =>
        rewrite (invD_delay _ _ H r H') end.
      rewrite bool_decide_eq_true_2 by exact d_configured.
      eapply gspecD_weaken;
        [apply (d_then_blocked B p1 (CbTimer i)); [exact HI3|right; reflexivity]|].
      intros p2 B4 w4 _ -> _. set_solver.
    + destruct (bool_decide _).
      * eapply gspecD_weaken; [apply d_then; [exact HI3|not_gated_d]|].
        intros. contradiction.
      * eapply gspecD_ret; [exact HI3|]. intros. contradiction.
Qed.

Lemma d_start B j w :
  InvD B w -> gspecD (start j) (fun _ _ _ => True) w.
Proof.
  intros HI. unfold start. gsD_runner r Hr.
  destruct (hasStarted r).
  - eapply gspecD_ret; [eassumption|exact I].
  - eapply gspecD_bind; [eapply d_getStartWaitPromise_; eassumption
                       |intros; benign_go|].
    intros p B2 w2 HI2 Hp.
    eapply gspecD_weaken; [apply (d_playback_ B2); [exact HI2|]|auto].
    intros -> _. exists p. auto.
Qed.

Lemma d_firstFrame B r w : InvD B w -> gspecD (firstFrame r) (same B) w.
Proof.
  intros HI. unfold firstFrame.
  destruct (keyframes_value r) as [[|f0 l]|];
    first [eapply gspecD_throw; eassumption | gsD_done].
Qed.

Lemma d_mutate_promise B w :
  InvD B w ->
  gspecD (let! p := newPromise (Pending []) in
         modify (set_mutates (fun l => l ++ [p])) >> ret (Some p)) (same B) w.
Proof.
  intros HI.
  eapply gspecD_bind; [apply (d_newPromise B (Pending [])); auto|intros; benign_go|].
  intros p B2 w2 HI2 (-> & Hfree & _).
  eapply gspecD_bind; [apply (gspecD_modify _ (same B) B); [|reflexivity]
                     |intros; benign_go|].
  - apply InvD_mutates_add; assumption.
  - intros [] B3 w3 HI3 ->. gsD_done.
Qed.

(** The callbacks that start a timer. *)
Definition starts_timer (cb : Callback) : bool :=
  match cb with CbTimer _ => true | _ => false end.

Lemma d_runCallback_same B cb w :
  InvD B w -> starts_timer cb = false ->
  gspecD (runCallback cb) (same B) w.
Proof.
  intros HI Hw. destruct cb as [j|j|j|j|j|j|j|j|j|j|j a]; simpl;
    try discriminate Hw.
  - gsD_runner r Hr.
    destruct (preset_keyframes (presetDef_ r)) as [k|f];
      [eapply gspecD_throw; eassumption|].
    destruct (dims r) as [dm|]; [|eapply gspecD_throw; eassumption].
    gsD_same d_updRunner_keeps; [keeps_slot_tac_d|]. gsD_done.
  - gsD_done.
  - eapply gspecD_bind;
      [apply (gspecD_get (fun w0 Bx wx => Bx = B /\ w0 = wx) B); auto
      |intros; benign_go|].
    intros w0 B2 w2 HI2 [-> ->].
    gsD_same d_then; [not_gated_d|]. gsD_done.
  - gsD_same d_updRunner_keeps; [keeps_slot_tac_d|]. gsD_done.
  - gsD_runner r Hr. gsD_same d_firstFrame. gsD_same d_dev_assert. gsD_done.
  - gsD_same d_onRunnerReady_. gsD_done.
  - gsD_runner r Hr. gsD_same d_firstFrame. gsD_same d_emit.
    apply d_mutate_promise. assumption.
  - gsD_runner r Hr. gsD_same d_firstFrame. gsD_same d_emit. gsD_done.
  - gsD_runner r Hr.
    destruct (startAfterId (animationDef_ r)) as [id|];
      [|eapply gspecD_throw; eassumption].
    eapply gspecD_bind; [eapply d_waitFor; eassumption|intros; benign_go|].
    intros q B2 w2 HI2 [-> _]. gsD_done.
  - gsD_same d_playbackFire. gsD_done.
Qed.

(** The delay timer is started: its promise joins [B] when the promise it
    will settle is blocked. *)
Lemma d_timer B j out w :
  InvD B w -> (out < length (promises w))%nat -> (out ∈ B -> j = i) ->
  gspecD (runCallback (CbTimer j))
    (fun v B' w' =>
       match v with
       | None => out ∉ B'
       | Some q => okJobD B' (length (promises w')) (JThenable q out)
       end) w.
Proof.
  intros HI Hlt Hout. unfold gspecD, spec_of, wp. simpl.
  unfold bind, getRunner, modify, newPromise. simpl.
  destruct (objs w !! j) as [r|] eqn:Hr; simpl; [|right; exists B; exact HI].
  right. destruct (decide (out ∈ B)) as [Hin|Hnin].
  - specialize (Hout Hin). subst j. rewrite (invD_delay _ _ HI r Hr).
    exists (B ∪ {[length (promises w)]}). split.
    + apply InvD_timers_add.
      * apply (InvD_alloc_blocked B (emit (TimerPromise i d) w)).
        apply InvD_emit. exact HI.
      * split; [simpl; rewrite length_app; simpl; lia|].
        intros _. simpl. apply elem_of_cons. left. reflexivity.
    + simpl. rewrite length_app. simpl. split; [lia|]. intros _.
      apply elem_of_union. right. apply elem_of_singleton. reflexivity.
  - exists B. split.
    + apply InvD_timers_add.
      * apply InvD_alloc; [right; reflexivity|]. apply InvD_emit. exact HI.
      * split; [simpl; rewrite length_app; simpl; lia|].
        intros Hx. apply (InvD_bound _ _ _ HI) in Hx. lia.
    + simpl. rewrite length_app. simpl. split; [lia|]. contradiction.
Qed.

(** Running the callback of a reaction [RThen cb out] that was allowed in
    the queue: what is done with [out] next is allowed too. *)
Lemma d_runCallback B cb out w :
  InvD B w -> okReactionD B (length (promises w)) (RThen cb out) ->
  gspecD (runCallback cb)
    (fun v B' w' =>
       match v with
       | None => out ∉ B'
       | Some q => okJobD B' (length (promises w')) (JThenable q out)
       end) w.
Proof.
  intros HI (Hlt & Hcb & Hout).
  destruct (starts_timer cb) eqn:Hw.
  - destruct cb as [j|j|j|j|j|j|j|j|j|j|j a]; try discriminate Hw.
    apply (d_timer B); [exact HI|exact Hlt|].
    intros Hin. specialize (Hout Hin). congruence.
  - assert (out ∉ B) as HoutB.
    { intros Hin. apply Hout in Hin. subst cb. discriminate. }
    eapply gspecD_weaken;
      [apply (gspecD_extends _ _ _ (benign_runCallback cb)
                (d_runCallback_same B cb w HI Hw))|].
    intros v B2 w2 _ [HB Hext]. unfold same in HB. subst B2.
    destruct v as [q|]; [|exact HoutB].
    simpl. split; [pose proof (ext_length _ _ Hext); lia|]. contradiction.
Qed.


Lemma d_runJob B j w :
  InvD B w -> okJobD B (length (promises w)) j ->
  gspecD (runJob j) (fun _ _ _ => True) w.
Proof.
  intros HI Hj. destruct j as [[cb out|out]|q out]; simpl in *.
  - eapply gspecD_bind; [apply (d_runCallback B cb out); assumption
                       |intros; benign_go|].
    intros v B2 w2 HI2 Hv. destruct v as [q|].
    + eapply gspecD_weaken; [apply (d_enqueue B2); [exact HI2|]|auto].
      constructor; [exact Hv|constructor].
    + eapply gspecD_weaken; [apply (d_resolvePromise B2); assumption|auto].
  - eapply gspecD_weaken; [apply (d_resolvePromise B); [exact HI|apply Hj]|auto].
  - eapply gspecD_weaken; [apply (d_react B); [exact HI|]|auto].
    intros HqB. simpl. destruct Hj as [Hlt Himp]. split; [exact Hlt|].
    intros Hin. apply HqB, Himp, Hin.
Qed.

(** Reading the world. *)
Ltac gsD_get :=
  lazymatch goal with
  | |- gspecD (bind get _) _ ?w =>
      match goal with
      | H : InvD ?B w |- _ =>
          eapply gspecD_bind;
          [ apply (gspecD_get (fun ax Bx wx => Bx = B /\ wx = w /\ ax = w) B w H);
            auto
          | intros; benign_go
          | let HI := fresh "HI" in
            let HB := fresh "HB" in
            let Hw := fresh "Hw" in
            let Ha := fresh "Ha" in
            let ax := fresh "ax" in
            let Bx := fresh "Bx" in
            let wx := fresh "wx" in
            intros ax Bx wx HI (HB & Hw & Ha); subst; clear HI ]
      end
  end.

Ltac gsD_true spec :=
  eapply gspecD_weaken; [eapply spec; eauto|intros; exact I].

Lemma d_filterKeyframes_ B j k w :
  InvD B w -> gspecD (filterKeyframes_ j k) (same B) w.
Proof.
  intros HI. destruct k as [a|f]; simpl.
  - eapply gspecD_bind; [apply (d_newPromise B Resolved); auto|intros; benign_go|].
    intros p B2 w2 HI2 (-> & _ & _). gsD_done.
  - gsD_same d_emit.
    eapply gspecD_bind; [apply (d_newPromise B (Pending [])); auto|intros; benign_go|].
    intros pm B2 w2 HI2 (-> & Hfree & _).
    eapply gspecD_bind; [apply (gspecD_modify _ (same B) B); [|reflexivity]
                       |intros; benign_go|].
    + apply InvD_measures_add; assumption.
    + intros [] B3 w3 HI3 ->. gsD_same d_then; [not_gated_d|]. gsD_done.
Qed.

#[local] Instance declaresD_dec r : Decision (declaresD r).
Proof. unfold declaresD. apply _. Defined.

Lemma d_new_object B r0 w :
  InvD B w -> scheduledActivity_ r0 = None ->
  delay_ r0 = effective_delay (animationDef_ r0) ->
  gspecD (modify (set_objs (fun os => os ++ [r0]))) (same B) w.
Proof.
  intros HI Hslot Hdl.
  destruct (decide (length (objs w) = i /\ ~ declaresD r0)) as [[Hlen Hnd]|Hok].
  - left. exists r0. split; [|exact Hnd]. simpl.
    rewrite lookup_app_r by lia. replace (_ - _)%nat with 0%nat by lia. reflexivity.
  - apply (gspecD_modify _ _ B); [|reflexivity]. apply InvD_new_object; [exact HI|].
    intros Hlen.
    assert (declaresD r0) as Hdec.
    { destruct (decide (declaresD r0)); [assumption|]. exfalso. apply Hok. auto. }
    split; [exact Hdec|]. split; [rewrite Hdl; exact Hdec|].
    unfold slot_ok. rewrite Hslot. discriminate.
Qed.

Lemma d_AnimationRunner_new B def w :
  InvD B w -> gspecD (AnimationRunner_new def) (same B) w.
Proof.
  intros HI. unfold AnimationRunner_new. gsD_get.
  gsD_same d_filterKeyframes_.
  gsD_same d_then; [not_gated_d|].
  gsD_same d_then; [not_gated_d|].
  gsD_same d_new_object.
  gsD_same d_then; [not_gated_d|].
  gsD_same d_user_assert.
  gsD_same d_then; [not_gated_d|].
  gsD_done.
Qed.

Lemma d_createRunner_ B el w :
  InvD B w -> gspecD (createRunner_ el) (same B) w.
Proof.
  intros HI. unfold createRunner_.
  eapply gspecD_bind; [|intros; benign_go|].
  - instantiate (1 := fun _ Bx _ => Bx = B). unfold getPreset_.
    destruct (PRESETS !! _); [gsD_done|eapply gspecD_throw; eassumption].
  - intros p B2 w2 HI2 ->.
    eapply gspecD_bind; [|intros; benign_go|].
    + instantiate (1 := fun _ Bx _ => Bx = B). unfold createAnimationDef.
      eapply gspecD_bind; [|intros; benign_go|].
      * instantiate (1 := fun _ Bx _ => Bx = B).
        destruct (getAttribute el ANIMATE_IN_AFTER_ATTRIBUTE_NAME); [|gsD_done].
        gsD_same d_user_assert. gsD_done.
      * intros a B3 w3 HI3 ->. gsD_done.
    + intros def B3 w3 HI3 ->. apply d_AnimationRunner_new. assumption.
Qed.

Lemma d_mapM {A C} (f : A -> M C) l :
  (forall x, benign (f x)) ->
  (forall x B w, InvD B w -> gspecD (f x) (fun _ _ _ => True) w) ->
  forall B w, InvD B w -> gspecD (mapM f l) (fun _ _ _ => True) w.
Proof.
  intros Hb Hf. induction l as [|x l IH]; intros B w HI; simpl.
  - eapply gspecD_ret; [exact HI|exact I].
  - eapply gspecD_bind; [apply (Hf x B w HI)| |].
    + intros y. pose proof (benign_mapM f l Hb). benign_go.
    + intros y B2 w2 HI2 _.
      eapply gspecD_bind; [apply (IH B2 w2 HI2)|intros; benign_go|].
      intros ys B3 w3 HI3 _. eapply gspecD_ret; [exact HI3|exact I].
Qed.

Lemma d_forEach {A} (f : A -> M unit) l :
  (forall x, benign (f x)) ->
  (forall x B w, InvD B w -> gspecD (f x) (fun _ _ _ => True) w) ->
  forall B w, InvD B w -> gspecD (forEach f l) (fun _ _ _ => True) w.
Proof.
  intros Hb Hf B w HI. unfold forEach.
  eapply gspecD_bind; [apply (d_mapM f l Hb Hf B w HI)|intros; benign_go|].
  intros ys B2 w2 HI2 _. eapply gspecD_ret; [exact HI2|exact I].
Qed.

Lemma gspecD_modify_bind {A} f (k : unit -> M A) post w :
  gspecD (k tt) post (f w) -> gspecD (modify f >> k tt) post w.
Proof. intros H. exact H. Qed.

Lemma d_tick B w : InvD B w -> gspecD tick (fun _ _ _ => True) w.
Proof.
  intros HI. unfold tick. gsD_get.
  destruct (microtasks w) as [|j q] eqn:Hq.
  - eapply gspecD_ret; [exact HI|exact I].
  - pose proof (invD_queue _ _ HI) as Hall. rewrite Hq in Hall.
    apply Forall_cons in Hall as [Hj _].
    apply (gspecD_modify_bind _ (fun _ => runJob j)).
    apply (d_runJob B); [apply InvD_pop; exact HI|exact Hj].
Qed.

(** A timer fires that is not blocked. *)
Lemma d_timerFires B p w :
  InvD B w -> (p ∈ timers w -> p ∉ B) ->
  gspecD (timerFires p) (fun _ _ _ => True) w.
Proof.
  intros HI HpB. unfold timerFires. gsD_get.
  case_bool_decide as Hin; [|eapply gspecD_ret; [exact HI|exact I]].
  apply (gspecD_modify_bind _ (fun _ => resolvePromise p)).
  gsD_true (d_resolvePromise B). apply InvD_timers_filter. exact HI.
Qed.

Lemma d_mutateDone B p w : InvD B w -> gspecD (mutateDone p) (fun _ _ _ => True) w.
Proof.
  intros HI. unfold mutateDone. gsD_get.
  case_bool_decide as Hin; [|eapply gspecD_ret; [exact HI|exact I]].
  pose proof (invD_mutates _ _ HI) as Hall. rewrite Forall_forall in Hall.
  destruct (Hall p Hin) as [_ HpB].
  apply (gspecD_modify_bind _ (fun _ => resolvePromise p)).
  gsD_true (d_resolvePromise B). apply InvD_mutates_filter. exact HI.
Qed.

Lemma d_measureDone B p dm w :
  InvD B w -> gspecD (measureDone p dm) (fun _ _ _ => True) w.
Proof.
  intros HI. unfold measureDone. gsD_get.
  destruct (list_find _ (measures w)) as [[k [p' j]]|] eqn:Hfind;
    [|eapply gspecD_ret; [exact HI|exact I]].
  apply list_find_Some in Hfind as (Hk & Hp & _). simpl in Hp. subst p'.
  pose proof (invD_measures _ _ HI) as Hall. rewrite Forall_forall in Hall.
  destruct (Hall (p, j)) as [_ HpB]; [eapply list_elem_of_lookup_2; exact Hk|].
  simpl in HpB.
  apply (gspecD_modify_bind _
           (fun _ => updRunner j (set_dims (Some dm)) >> resolvePromise p)).
  gsD_same d_updRunner_keeps.
  - apply InvD_measures_filter. exact HI.
  - keeps_slot_tac_d.
  - gsD_true (d_resolvePromise B).
Qed.

Lemma d_builderReady B w : InvD B w -> gspecD builderReady (fun _ _ _ => True) w.
Proof.
  intros HI. unfold builderReady. gsD_get.
  gsD_true (d_resolvePromise B). apply (invD_builder _ _ HI).
Qed.

Lemma d_playStateChanges B j s w :
  InvD B w -> gspecD (playStateChanges j s) (fun _ _ _ => True) w.
Proof.
  intros HI. unfold playStateChanges. gsD_runner r Hr.
  destruct (host r) as [h|]; [|eapply gspecD_ret; [exact HI|exact I]].
  gsD_same d_updRunner_keeps; [keeps_slot_tac_d|].
  destruct (subscribed h); [|eapply gspecD_ret; [eassumption|exact I]].
  gsD_true d_playStateChanged.
Qed.

Lemma d_getOrCreateRunners_ B w :
  InvD B w -> gspecD getOrCreateRunners_ (fun _ _ _ => True) w.
Proof.
  intros HI. unfold getOrCreateRunners_. gsD_get.
  destruct (runners_ w); [eapply gspecD_ret; [exact HI|exact I]|].
  eapply gspecD_bind; [eapply (d_mapM createRunner_ animatable); [| |exact HI]
                     |intros; benign_go|].
  - apply benign_createRunner_.
  - intros x B2 w2 HI2. gsD_true d_createRunner_.
  - intros rs B2 w2 HI2 _.
    eapply gspecD_bind; [apply (gspecD_modify _ (same B2) B2); [|reflexivity]
                       |intros; benign_go|].
    + apply InvD_set_runners. exact HI2.
    + intros [] B3 w3 HI3 ->. eapply gspecD_ret; [exact HI3|exact I].
Qed.

Lemma d_getRunners_ B w : InvD B w -> gspecD getRunners_ (same B) w.
Proof.
  intros HI. unfold getRunners_. gsD_get.
  destruct (runners_ w); [gsD_done|eapply gspecD_throw; eassumption].
Qed.

Lemma d_Manager_applyFirstFrame B w :
  InvD B w -> gspecD Manager_applyFirstFrame (fun _ _ _ => True) w.
Proof.
  intros HI. unfold Manager_applyFirstFrame.
  eapply gspecD_bind; [eapply d_getOrCreateRunners_; exact HI
                     |intros; benign_go|].
  intros rs B2 w2 HI2 _.
  eapply (d_mapM applyFirstFrame rs benign_applyFirstFrame); [|exact HI2].
  intros y B3 w3 HI3. gsD_true d_applyFirstFrame.
Qed.

Lemma d_animateIn B w : InvD B w -> gspecD animateIn (fun _ _ _ => True) w.
Proof.
  intros HI. unfold animateIn.
  eapply gspecD_bind; [eapply d_getRunners_; exact HI|intros; benign_go|].
  intros rs B2 w2 HI2 ->.
  eapply (d_forEach start rs benign_start); [|exact HI2].
  intros y B3 w3 HI3. eapply d_start. exact HI3.
Qed.

Lemma d_finishAll B w : InvD B w -> gspecD finishAll (fun _ _ _ => True) w.
Proof.
  intros HI. unfold finishAll.
  eapply gspecD_bind; [eapply d_getRunners_; exact HI|intros; benign_go|].
  intros rs B2 w2 HI2 ->.
  eapply (d_forEach finish rs benign_finish); [|exact HI2].
  intros y B3 w3 HI3. gsD_true d_finish.
Qed.

Lemma d_cancelAll B w : InvD B w -> gspecD cancelAll (fun _ _ _ => True) w.
Proof.
  intros HI. unfold cancelAll. gsD_get.
  destruct (runners_ w); [|eapply gspecD_ret; [exact HI|exact I]].
  eapply gspecD_bind; [eapply d_getRunners_; exact HI|intros; benign_go|].
  intros rs B2 w2 HI2 ->.
  eapply (d_forEach cancel rs benign_cancel); [|exact HI2].
  intros y B3 w3 HI3. gsD_true d_cancel.
Qed.

(** Every event but the firing of a blocked timer keeps the invariant, or
    the run has escaped. *)
Lemma d_step B ev w :
  InvD B w ->
  (forall p, ev = TimerFires p -> p ∈ timers w -> p ∉ B) ->
  gspecD (step ev) (fun _ _ _ => True) w.
Proof.
  intros HI Hev. destruct ev; simpl.
  - eapply d_tick. exact HI.
  - eapply d_timerFires; [exact HI|]. apply Hev. reflexivity.
  - eapply d_measureDone. exact HI.
  - eapply d_mutateDone. exact HI.
  - eapply d_builderReady. exact HI.
  - eapply d_playStateChanges. exact HI.
  - gsD_same d_applyFirstFrame. eapply gspecD_ret; [eassumption|exact I].
  - eapply d_start. exact HI.
  - gsD_true d_finish.
  - gsD_true d_cancel.
  - eapply gspecD_bind; [eapply d_Manager_applyFirstFrame; exact HI
                       |intros; benign_go|].
    intros ps B2 w2 HI2 _. eapply gspecD_ret; [exact HI2|exact I].
  - eapply d_animateIn. exact HI.
  - eapply d_finishAll. exact HI.
  - eapply d_cancelAll. exact HI.
Qed.

(** The effects that wait for the delay: the host runner of [i] is started
    or resumed. *)
Definition hostE (e : Effect) : Prop := e = HostStart i \/ e = HostResume i.

Lemma okJobD_not_host B n j e : okJobD B n j -> jobE j e -> ~ hostE e.
Proof.
  destruct j as [[cb out|out]|q out]; simpl; try contradiction.
  intros (_ & Hg & _) He Hge. apply Hg. unfold gatedD.
  destruct cb as [j|j|j|j|j|j|j|j|j|j|j a]; simpl in He; try contradiction.
  - destruct He as [m ->]. destruct Hge as [H|H]; discriminate H.
  - destruct He as [m ->]. destruct Hge as [H|H]; discriminate H.
  - destruct He as [ms ->]. destruct Hge as [H|H]; discriminate H.
  - destruct He as [He|[id [-> | ->]]].
    + destruct a.
      * destruct He as [-> | ->];
          destruct Hge as [H|H]; try discriminate H;
          injection H as ->; reflexivity.
      * subst e. destruct Hge as [H|H]; discriminate H.
    + destruct Hge as [H|H]; discriminate H.
    + destruct Hge as [H|H]; discriminate H.
Qed.

Lemma eventE_not_host B w ev e : InvD B w -> eventE w ev e -> ~ hostE e.
Proof.
  intros HI He Hge. destruct ev; simpl in He; try contradiction.
  - destruct (microtasks w) as [|j q] eqn:Hq; [contradiction|].
    pose proof (invD_queue _ _ HI) as Hall. rewrite Hq in Hall.
    apply Forall_cons in Hall as [Hj _].
    exact (okJobD_not_host _ _ _ _ Hj He Hge).
  - destruct He as [id [-> | ->]]; destruct Hge as [H|H]; discriminate H.
  - destruct He as [id [-> | ->]]; destruct Hge as [H|H]; discriminate H.
  - destruct He as [->|[id [-> | ->]]];
      destruct Hge as [H|H]; discriminate H.
  - destruct He as [j ->]; destruct Hge as [H|H]; discriminate H.
  - destruct He as [id [-> | ->]]; destruct Hge as [H|H]; discriminate H.
  - destruct He as [[j ->]|[id [-> | ->]]];
      destruct Hge as [H|H]; discriminate H.
Qed.

Lemma InvD_new : InvD ∅ AnimationManager_new.
Proof.
  constructor; simpl.
  - intros p Hp. set_solver.
  - constructor.
  - intros [|p] rs Hp _; simpl in Hp; [|discriminate]. injection Hp as <-. constructor.
  - constructor.
  - constructor.
  - constructor.
  - split; [lia|set_solver].
  - intros id p. unfold inflight. simpl. rewrite lookup_empty. discriminate.
  - intros r. rewrite lookup_nil. discriminate.
  - intros r. rewrite lookup_nil. discriminate.
Qed.

(** The delay still holds the host runner of [i] back: it has not been
    called, and the invariant stands. *)
Definition armed (w : World) : Prop :=
  EscD w \/ (Forall (fun e => ~ hostE e) (trace w) /\ exists B, InvD B w).

Lemma armed_new : armed AnimationManager_new.
Proof. right. split; [constructor|]. exists ∅. apply InvD_new. Qed.

(** An event leaves the run armed unless it is the firing of a timer, at a
    moment when the delay timer of [i] has been started. *)
Lemma armed_step ev w :
  armed w ->
  armed (exec (step ev) w) \/
  exists p, ev = TimerFires p /\ p ∈ timers w /\ TimerPromise i d ∈ trace w.
Proof.
  pose proof (benign_run _ w (benign_step_event ev)) as Hext.
  intros [HE|[Hq [B HI]]].
  - left. left. exact (EscD_extends _ _ Hext HE).
  - assert ((forall p, ev = TimerFires p -> p ∈ timers w -> p ∉ B) \/
            (exists p, ev = TimerFires p /\ p ∈ timers w /\ p ∈ B)) as [Hev|Hev].
    { destruct ev as [|p| | | | | | | | | | | |];
        try (left; intros p0 H0; discriminate H0).
      destruct (decide (p ∈ timers w)) as [Hin|Hnin];
        [|left; intros p0 [= <-] Hin; contradiction].
      destruct (decide (p ∈ B)) as [HpB|HpB].
      - right. exists p. auto.
      - left. intros p0 [= <-] _. exact HpB. }
    + left. destruct (emits_step_event w ev) as (new & Hnew & Hall).
      assert (Forall (fun e => ~ hostE e) (trace (exec (step ev) w))) as Hq'.
      { unfold exec. rewrite Hnew. apply Forall_app. split; [|exact Hq].
        eapply Forall_impl; [exact Hall|]. intros e He.
        exact (eventE_not_host _ _ _ _ HI He). }
      pose proof (d_step B ev w HI Hev) as Hs.
      unfold gspecD, spec_of, wp, exec in *.
      destruct (step ev w) as [[[]|err] w']; simpl in *.
      * destruct Hs as [HE'|(B' & HI' & _)]; [left; exact HE'|].
        right. split; [exact Hq'|]. eauto.
      * destruct Hs as [HE'|(B' & HI')]; [left; exact HE'|].
        right. split; [exact Hq'|]. eauto.
    + right. destruct Hev as (p & -> & Hin & HpB). exists p.
      split; [reflexivity|]. split; [exact Hin|].
      pose proof (invD_timers _ _ HI) as Hall. rewrite Forall_forall in Hall.
      exact (proj2 (Hall p Hin) HpB).
Qed.

(** A run stays armed up to the first firing of a timer that comes after
    the delay timer of [i] has been started. *)
Lemma armed_run es : forall w,
  armed w ->
  armed (run es w) \/
  exists es_a p es_b,
    es = es_a ++ TimerFires p :: es_b /\
    armed (run es_a w) /\
    p ∈ timers (run es_a w) /\
    TimerPromise i d ∈ trace (run es_a w).
Proof.
  induction es as [|ev es IH]; intros w Hw; simpl.
  - left. exact Hw.
  - destruct (armed_step ev w Hw) as [H1|(p & -> & Hin & Ht)].
    + destruct (IH _ H1) as [H2|(ea & p & eb & -> & Ha & Hin & Ht)];
        [left; exact H2|].
      right. exists (ev :: ea), p, eb. simpl. auto.
    + right. exists [], p, es. simpl. auto.
Qed.

(** In a trace (newest first) the host runner of [i] is started or resumed
    only after its delay timer has been started. *)
Fixpoint traceOKD (t : list Effect) : Prop :=
  match t with
  | [] => True
  | e :: t' => (hostE e -> TimerPromise i d ∈ t') /\ traceOKD t'
  end.

Lemma traceOKD_split t l1 e l2 :
  traceOKD t -> t = l1 ++ e :: l2 -> hostE e -> TimerPromise i d ∈ l2.
Proof.
  revert t. induction l1 as [|x l1 IH]; intros t Hok -> He; simpl in Hok.
  - apply Hok. exact He.
  - eapply IH; [apply Hok|reflexivity|exact He].
Qed.

Lemma traceOKD_quiet t : Forall (fun e => ~ hostE e) t -> traceOKD t.
Proof.
  induction 1 as [|e t He Ht IH]; simpl; [exact I|].
  split; [intros Hg; contradiction|exact IH].
Qed.

Lemma traceOKD_after new t :
  traceOKD t -> TimerPromise i d ∈ t -> traceOKD (new ++ t).
Proof.
  intros Hok HN. induction new as [|e new IH]; simpl; [exact Hok|].
  split; [|exact IH]. intros _. apply elem_of_app. right. exact HN.
Qed.

(** What holds of every world of a run. *)
Definition run_okD (w : World) : Prop :=
  EscD w \/
  (traceOKD (trace w) /\
   (TimerPromise i d ∈ trace w \/
    (Forall (fun e => ~ hostE e) (trace w) /\ exists B, InvD B w))).

Lemma run_okD_step ev w : run_okD w -> run_okD (exec (step ev) w).
Proof.
  pose proof (benign_run _ w (benign_step_event ev)) as Hext.
  intros [HD|[Hok [HN|[Hq [B HI]]]]].
  - left. exact (EscD_extends _ _ Hext HD).
  - right. destruct (ext_trace _ _ Hext) as [new Hnew]. unfold exec. rewrite Hnew.
    split; [apply traceOKD_after; assumption|]. left.
    apply elem_of_app. right. exact HN.
  - destruct (armed_step ev w (or_intror (conj Hq (ex_intro _ B HI))))
      as [[HE|[Hq' HB']]|(p & -> & Hin & Ht)].
    + left. exact HE.
    + right. split; [apply traceOKD_quiet; exact Hq'|]. right. auto.
    + right. destruct (ext_trace _ _ Hext) as [new Hnew]. unfold exec. rewrite Hnew.
      split; [apply traceOKD_after; assumption|]. left.
      apply elem_of_app. right. exact Ht.
Qed.

Lemma run_okD_run es : forall w, run_okD w -> run_okD (run es w).
Proof.
  induction es as [|ev es IH]; intros w Hw; simpl; [exact Hw|].
  apply IH. apply run_okD_step. exact Hw.
Qed.

Lemma run_okD_new : run_okD AnimationManager_new.
Proof.
  right. split; [exact I|]. right. split; [constructor|].
  exists ∅. apply InvD_new.
Qed.

(** In every run, a start or resume of the host runner of [i] comes after
    the start of its delay timer. *)
Lemma run_host_after_timer (es : list Event) (r : AnimationRunner)
    (l1 l2 : list Effect) (e : Effect) :
  objs (run es AnimationManager_new) !! i = Some r ->
  declaresD r ->
  trace (run es AnimationManager_new) = l1 ++ e :: l2 ->
  hostE e ->
  TimerPromise i d ∈ l2.
Proof.
  intros Hr Hdec Ht He.
  destruct (run_okD_run es _ run_okD_new) as [(r' & Hr' & Hd)|[Hok _]].
  - exfalso. apply Hd. rewrite Hr in Hr'. injection Hr' as <-. exact Hdec.
  - exact (traceOKD_split _ _ _ _ Hok Ht He).
Qed.

(** In every run, a start or resume of the host runner of [i] comes after a
    timer has fired at a moment when the delay timer of [i] had been started
    and the host runner had not been called. *)
Lemma run_host_after_firing (es1 es2 : list Event) (r : AnimationRunner) :
  let w1 := run es1 AnimationManager_new in
  let w2 := run es2 w1 in
  objs w2 !! i = Some r ->
  declaresD r ->
  TimerPromise i d ∉ trace w1 ->
  (HostStart i ∈ trace w2 \/ HostResume i ∈ trace w2) ->
  exists es_a p es_b,
    es2 = es_a ++ TimerFires p :: es_b /\
    p ∈ timers (run es_a w1) /\
    TimerPromise i d ∈ trace (run es_a w1) /\
    (HostStart i ∉ trace (run es_a w1)) /\
    (HostResume i ∉ trace (run es_a w1)).
Proof.
  intros w1 w2 Hr Hdec Hnot Hhost.
  assert (forall w, extends w w2 -> armed w -> False \/
            Forall (fun e => ~ hostE e) (trace w)) as Hno.
  { intros w Hext [HE|[Hq _]]; [left|right; exact Hq].
    destruct (EscD_extends _ _ Hext HE) as (r' & Hr' & Hd).
    apply Hd. rewrite Hr in Hr'. injection Hr' as <-. exact Hdec. }
  assert (armed w1) as Hw1.
  { destruct (armed_run es1 _ armed_new)
      as [H|(ea & p & eb & -> & _ & _ & Ht)]; [exact H|].
    exfalso. apply Hnot.
    assert (extends (run ea AnimationManager_new) w1) as Hext.
    { replace w1 with (run (TimerFires p :: eb) (run ea AnimationManager_new))
        by (unfold w1, run; rewrite foldl_app; reflexivity).
      apply extends_run. }
    destruct (ext_trace _ _ Hext) as [new Hnew]. rewrite Hnew.
    apply elem_of_app. right. exact Ht. }
  destruct (armed_run es2 w1 Hw1) as [H|(ea & p & eb & -> & Ha & Hin & Ht)].
  - exfalso. destruct (Hno w2 (extends_refl _) H) as [[]|Hq].
    rewrite Forall_forall in Hq.
    destruct Hhost as [Hh|Hh]; apply (Hq _ Hh); [left|right]; reflexivity.
  - exists ea, p, eb. split; [reflexivity|]. split; [exact Hin|].
    split; [exact Ht|].
    assert (extends (run ea w1) w2) as Hext.
    { replace w2 with (run (TimerFires p :: eb) (run ea w1))
        by (unfold w2, run; rewrite foldl_app; reflexivity).
      apply extends_run. }
    destruct (Hno _ Hext Ha) as [[]|Hq]. rewrite Forall_forall in Hq.
    split; intros Hh; apply (Hq _ Hh); [left|right]; reflexivity.
Qed.

End TimerGate.


(** ** The start of a runner that declares a dependency *)


(** ** Playback that has been called off *)

Section Suppress.

(** Runner [i]. With [strict] the slot of [i] is required to stay empty;
    without it the invariant is only about a runner whose host runner is
    not resolved yet. *)
Variables (i : nat) (strict : bool).

Definition is_playback (cb : Callback) : bool :=
  match cb with CbPlayback j _ => bool_decide (j = i) | _ => false end.

Definition quietR (r : Reaction) : Prop :=
  match r with RThen cb _ => is_playback cb = false | RAdopt _ => True end.

Definition quietJ (j : Job) : Prop :=
  match j with JReact r => quietR r | JThenable _ _ => True end.

(** No playback callback of [i] is registered anywhere and, when [strict],
    nothing is scheduled on [i]. *)
Record InvQ (u : unit) (w : World) : Prop := {
  q_queue : Forall quietJ (microtasks w);
  q_store : forall p rs, promises w !! p = Some (Pending rs) -> Forall quietR rs;
  q_idle : strict = true -> forall r, objs w !! i = Some r ->
             scheduledActivity_ r = None }.

Definition EscQ (w : World) : Prop :=
  strict = false /\ exists r, objs w !! i = Some r /\ runner_ r = true.

Lemma EscQ_extends w w' : extends w w' -> EscQ w -> EscQ w'.
Proof.
  intros Hext [Hs (r & Hr & Hrun)]. split; [exact Hs|].
  destruct (ext_objs _ _ Hext _ _ Hr) as (r' & Hr' & _ & _ & Hk).
  exists r'. auto.
Qed.

Local Abbreviation qspec := (spec_of EscQ InvQ).

Ltac q_fields HI := destruct HI as [Hq Hs Hi]; constructor; simpl; auto.

Lemma InvQ_alloc st w :
  st = Resolved \/ st = Pending [] ->
  InvQ tt w -> InvQ tt (set_promises (fun ps => ps ++ [st]) w).
Proof.
  intros Hst HI. q_fields HI. intros p rs Hp.
  apply lookup_alloc in Hp as [Hp|[-> Hx]]; [eauto|].
  destruct Hst as [->| ->]; [discriminate|]. injection Hx as ->. constructor.
Qed.

Lemma InvQ_settle p rs w :
  InvQ tt w -> promises w !! p = Some (Pending rs) ->
  InvQ tt (set_microtasks (fun q => q ++ (JReact <$> rs))
             (set_promises (<[p := Resolved]>) w)).
Proof.
  intros HI Hp. pose proof (q_store _ _ HI p rs Hp) as Hrs. q_fields HI.
  - apply Forall_app. split; [exact Hq|]. apply Forall_fmap.
    eapply Forall_impl; [exact Hrs|]. intros r Hr. exact Hr.
  - intros q rs' Hq'. destruct (decide (p = q)) as [->|Hne].
    + rewrite list_lookup_insert_eq in Hq' by (eapply lookup_lt_Some; exact Hp).
      discriminate.
    + rewrite list_lookup_insert_ne in Hq' by done. eauto.
Qed.

Lemma InvQ_register p rs r w :
  InvQ tt w -> promises w !! p = Some (Pending rs) -> quietR r ->
  InvQ tt (set_promises (<[p := Pending (rs ++ [r])]>) w).
Proof.
  intros HI Hp Hr. q_fields HI. intros q rs' Hq'.
  destruct (decide (p = q)) as [->|Hne].
  - rewrite list_lookup_insert_eq in Hq' by (eapply lookup_lt_Some; exact Hp).
    injection Hq' as <-. apply Forall_app. split; [eauto|].
    constructor; [exact Hr|constructor].
  - rewrite list_lookup_insert_ne in Hq' by done. eauto.
Qed.

Lemma InvQ_enqueue js w :
  InvQ tt w -> Forall quietJ js -> InvQ tt (set_microtasks (fun q => q ++ js) w).
Proof. intros HI Hjs. q_fields HI. apply Forall_app. split; assumption. Qed.

Lemma InvQ_pop w : InvQ tt w -> InvQ tt (set_microtasks (drop 1) w).
Proof. intros HI. q_fields HI. apply Forall_drop. exact Hq. Qed.

(** Updates that leave the scheduled activity alone, or empty the slot. *)
Definition slot_safe (f : AnimationRunner -> AnimationRunner) : Prop :=
  forall r, scheduledActivity_ (f r) = scheduledActivity_ r \/
            scheduledActivity_ (f r) = None.

Lemma InvQ_alter f j w :
  InvQ tt w -> (strict = true -> j = i -> slot_safe f) ->
  InvQ tt (set_objs (alter f j) w).
Proof.
  intros HI Hf. q_fields HI. intros Hst r Hr.
  destruct (decide (j = i)) as [->|Hne].
  - rewrite list_lookup_alter_eq in Hr.
    destruct (objs w !! i) as [r0|] eqn:Hr0; [|discriminate]. injection Hr as <-.
    destruct (Hf Hst eq_refl r0) as [->| ->]; auto.
  - rewrite list_lookup_alter_ne in Hr by done. auto.
Qed.

Lemma InvQ_new_object r0 w :
  InvQ tt w -> scheduledActivity_ r0 = None ->
  InvQ tt (set_objs (fun os => os ++ [r0]) w).
Proof.
  intros HI H0. q_fields HI. intros Hst r Hr.
  apply lookup_app_Some in Hr as [Hr|[Hge Hr]]; [auto|].
  destruct (i - length (objs w))%nat as [|k]; simpl in Hr; [|discriminate].
  congruence.
Qed.

(** Updates of fields the invariant does not read. *)
Lemma InvQ_other f w :
  microtasks (f w) = microtasks w -> promises (f w) = promises w ->
  objs (f w) = objs w -> InvQ tt w -> InvQ tt (f w).
Proof.
  intros H1 H2 H3 HI. destruct HI as [Hq Hs Hi].
  constructor; rewrite ?H1, ?H2, ?H3; auto.
Qed.

Definition any {A} (a : A) (u : unit) (w : World) : Prop := True.

Ltac qs_bind :=
  eapply (rule_bind EscQ InvQ EscQ_extends).

(** A step whose result does not matter. *)
Ltac qs_step spec :=
  qs_bind;
  [ eapply spec; eauto
  | intros; benign_go
  | let HI := fresh "HI" in
    let y := fresh "y" in
    let u := fresh "u" in
    let wy := fresh "wy" in
    intros y u wy HI _; destruct u ].

Ltac qs_runner r Hr :=
  lazymatch goal with
  | |- spec_of _ _ (bind (getRunner ?j) _) _ ?w =>
      match goal with
      | H : InvQ tt w |- _ =>
          qs_bind;
          [ apply (rule_getRunner EscQ InvQ j
                     (fun rx ux wx => wx = w /\ objs w !! j = Some rx) tt w H);
            intros; split; [reflexivity|assumption]
          | intros; benign_go
          | let HI := fresh "HI" in
            let Hw := fresh "Hw" in
            let u := fresh "u" in
            let wy := fresh "wy" in
            intros r u wy HI (Hw & Hr); destruct u; subst; clear HI ]
      end
  end.

Ltac qs_get :=
  lazymatch goal with
  | |- spec_of _ _ (bind get _) _ ?w =>
      match goal with
      | H : InvQ tt w |- _ =>
          qs_bind;
          [ apply (rule_get EscQ InvQ (fun ax ux wx => wx = w /\ ax = w) tt w H);
            auto
          | intros; benign_go
          | let HI := fresh "HI" in
            let Hw := fresh "Hw" in
            let Ha := fresh "Ha" in
            let ax := fresh "ax" in
            let u := fresh "u" in
            let wy := fresh "wy" in
            intros ax u wy HI (Hw & Ha); destruct u; subst; clear HI ]
      end
  end.

Ltac qs_done := eapply (rule_ret EscQ InvQ); [eassumption|exact I].
Ltac qs_throw := eapply (rule_throw EscQ InvQ); eassumption.
Ltac qs_any spec :=
  eapply (rule_weaken EscQ InvQ); [eapply spec; eauto|intros; exact I].

Lemma q_modify f w : InvQ tt (f w) -> qspec (modify f) any w.
Proof. intros HI. apply (rule_modify EscQ InvQ _ _ tt); [exact HI|exact I]. Qed.

Lemma q_newPromise st w :
  st = Resolved \/ st = Pending [] -> InvQ tt w -> qspec (newPromise st) any w.
Proof.
  intros Hst HI. right. exists tt. split; [apply InvQ_alloc; assumption|exact I].
Qed.

Lemma q_emit e w : InvQ tt w -> qspec (modify (emit e)) any w.
Proof. intros HI. apply q_modify. apply InvQ_other; auto. Qed.

Lemma q_enqueue js w : InvQ tt w -> Forall quietJ js -> qspec (enqueue js) any w.
Proof. intros HI Hjs. apply q_modify. apply InvQ_enqueue; assumption. Qed.

Lemma q_resolvePromise p w : InvQ tt w -> qspec (resolvePromise p) any w.
Proof.
  intros HI. unfold spec_of, wp, resolvePromise.
  destruct (promises w !! p) as [[rs|]|] eqn:Hl; right; exists tt;
    (split; [|exact I]); auto.
  apply InvQ_settle; assumption.
Qed.

Lemma q_react p r w : InvQ tt w -> quietR r -> qspec (react p r) any w.
Proof.
  intros HI Hr. unfold spec_of, wp, react. unfold bind, get, modify, enqueue. simpl.
  destruct (promises w !! p) as [[rs|]|] eqn:Hl; right; exists tt;
    (split; [|exact I]); auto.
  - eapply InvQ_register; eauto.
  - apply InvQ_enqueue; [exact HI|]. constructor; [exact Hr|constructor].
Qed.

Lemma q_then p cb w : InvQ tt w -> is_playback cb = false -> qspec (then_ p cb) any w.
Proof.
  intros HI Hcb. unfold then_.
  qs_step (q_newPromise (Pending [])). qs_step q_react. qs_done.
Qed.

Lemma q_updRunner j f w :
  InvQ tt w -> (strict = true -> j = i -> slot_safe f) ->
  qspec (updRunner j f) any w.
Proof. intros HI Hf. apply q_modify. apply InvQ_alter; assumption. Qed.

Ltac slot_safe_tac :=
  let r := fresh "r" in intros _ _ r; simpl; auto.

Lemma q_dev_assert c msg w : InvQ tt w -> qspec (dev_assert c msg) any w.
Proof. intros HI. unfold dev_assert. destruct c; [qs_done|qs_throw]. Qed.

Lemma q_user_assert c msg w : InvQ tt w -> qspec (user_assert c msg) any w.
Proof. intros HI. unfold user_assert. destruct c; [qs_done|qs_throw]. Qed.

Lemma q_waitFor id w : InvQ tt w -> qspec (waitFor id) any w.
Proof.
  intros HI. unfold waitFor. qs_get.
  destruct (subscriptionPromises_ (sequence_ w) !! id); [qs_done|].
  qs_step (q_newPromise (Pending [])).
  qs_step q_modify; [apply InvQ_other; auto|].
  qs_step q_modify; [apply InvQ_other; auto|].
  qs_done.
Qed.

Lemma q_notifyFinish id w : InvQ tt w -> qspec (notifyFinish id) any w.
Proof.
  intros HI. unfold notifyFinish. qs_step q_emit. qs_get.
  destruct (subscriptionPromises_ (sequence_ wy) !! id); [|qs_done].
  destruct (subscriptionResolvers_ (sequence_ wy) !! id); [|qs_throw].
  qs_step q_emit. qs_step q_resolvePromise.
  apply q_modify. apply InvQ_other; auto.
Qed.

Lemma q_notifyFinish_ j w : InvQ tt w -> qspec (notifyFinish_ j) any w.
Proof.
  intros HI. unfold notifyFinish_. qs_runner r Hr.
  destruct (bool_decide _); [apply q_notifyFinish; assumption|qs_done].
Qed.

Lemma q_playStateChanged j s w : InvQ tt w -> qspec (playStateChanged j s) any w.
Proof.
  intros HI. unfold playStateChanged.
  destruct (bool_decide _); [apply q_notifyFinish_; assumption|qs_done].
Qed.

Lemma q_fire j l : forall w, InvQ tt w -> qspec (fire j l) any w.
Proof.
  induction l as [|s l IH]; intros w HI; simpl; [qs_done|].
  qs_step q_playStateChanged. apply IH. assumption.
Qed.

Lemma q_hostInvoke j c w : InvQ tt w -> qspec (hostInvoke j c) any w.
Proof.
  intros HI. unfold hostInvoke. qs_runner r Hr.
  destruct (host r) as [h|]; [|qs_throw].
  qs_step q_emit. qs_step q_updRunner; [slot_safe_tac|].
  destruct (subscribed h); [apply q_fire; assumption|qs_done].
Qed.

Lemma q_resetFirstFrame_ j w : InvQ tt w -> qspec (resetFirstFrame_ j) any w.
Proof.
  intros HI. unfold resetFirstFrame_. qs_runner r Hr.
  destruct (negb _); [qs_done|].
  qs_step q_updRunner; [slot_safe_tac|]. qs_step q_then. qs_done.
Qed.

Lemma q_applyFirstFrame j w : InvQ tt w -> qspec (applyFirstFrame j) any w.
Proof.
  intros HI. unfold applyFirstFrame. qs_runner r Hr.
  destruct (firstFrameApplied_ r); [qs_any (q_newPromise Resolved)|].
  qs_step q_updRunner; [slot_safe_tac|]. qs_any q_then.
Qed.

Lemma q_startWhenReady_ j w : InvQ tt w -> qspec (startWhenReady_ j) any w.
Proof.
  intros HI. unfold startWhenReady_. qs_runner r Hr.
  qs_step q_updRunner; [slot_safe_tac|]. qs_step q_resetFirstFrame_.
  destruct (runnerReset_ r); apply q_hostInvoke; assumption.
Qed.

Lemma q_finishWhenReady_ j w : InvQ tt w -> qspec (finishWhenReady_ j) any w.
Proof.
  intros HI. unfold finishWhenReady_. qs_runner r Hr.
  destruct (host r) as [h|]; [|qs_throw].
  destruct (bool_decide _); [|qs_done].
  qs_step q_hostInvoke. apply q_updRunner; [assumption|slot_safe_tac].
Qed.

(** Runner [j] may be told to play: it is not [i], or we are not [strict]. *)
Definition allowed (j : nat) : Prop := j <> i \/ strict = false.

Lemma is_playback_other j a : j <> i -> is_playback (CbPlayback j a) = false.
Proof. intros H. simpl. apply bool_decide_eq_false_2. exact H. Qed.

Lemma q_playbackWhenReady_ j a wait w :
  InvQ tt w -> allowed j -> qspec (playbackWhenReady_ j a wait) any w.
Proof.
  intros HI Hal. unfold playbackWhenReady_. qs_runner r Hr.
  destruct (decide (j = i)) as [->|Hne].
  - destruct Hal as [Hal|Hst]; [contradiction|].
    destruct (runner_ r) eqn:Hrun.
    + apply (rule_esc EscQ InvQ EscQ_extends); [benign_go|].
      split; [exact Hst|]. exists r. auto.
    + qs_bind; [apply (rule_throw EscQ InvQ _ (fun _ _ _ => False) tt); exact HI
               |intros; benign_go|].
      intros ? ? ? _ [].
  - qs_step q_dev_assert.
    destruct wait as [p|].
    + qs_bind; [apply (rule_ret EscQ InvQ p any tt); [eassumption|exact I]
               |intros; benign_go|].
      intros p' [] w2 HI2 _. qs_step q_then; [apply is_playback_other; exact Hne|].
      qs_done.
    + qs_bind; [apply (q_newPromise Resolved); [auto|eassumption]
               |intros; benign_go|].
      intros p' [] w2 HI2 _. qs_step q_then; [apply is_playback_other; exact Hne|].
      qs_done.
Qed.

Lemma q_clear_slot j w :
  InvQ tt w ->
  qspec (updRunner j (set_scheduledWait None ∘ set_scheduledActivity None)) any w.
Proof. intros HI. apply q_updRunner; [exact HI|]. intros _ _ r. right. reflexivity. Qed.

Lemma q_playbackFire j a w : InvQ tt w -> qspec (playbackFire j a) any w.
Proof.
  intros HI. unfold playbackFire. qs_runner r Hr.
  destruct (negb _); [qs_done|].
  eapply (rule_eq EscQ InvQ); [apply updRunner_twice|].
  qs_step q_clear_slot.
  destruct a; [apply q_startWhenReady_|apply q_finishWhenReady_]; assumption.
Qed.

Lemma q_playback_ j a wait w :
  InvQ tt w -> allowed j -> qspec (playback_ j a wait) any w.
Proof.
  intros HI Hal. unfold playback_.
  eapply (rule_eq EscQ InvQ); [apply updRunner_twice|].
  qs_step q_updRunner.
  - intros Hst ->. destruct Hal as [Hal|Hal]; [contradiction|congruence].
  - qs_runner r Hr. destruct (runner_ r); [|qs_done].
    apply q_playbackWhenReady_; assumption.
Qed.

Lemma q_getStartWaitPromise_ j w :
  InvQ tt w -> qspec (getStartWaitPromise_ j) any w.
Proof.
  intros HI. unfold getStartWaitPromise_. qs_runner r Hr.
  qs_bind; [apply (q_newPromise Resolved); [auto|eassumption]|intros; benign_go|].
  intros p0 [] w2 HI2 _.
  qs_bind; [|intros; benign_go|].
  - instantiate (1 := any).
    destruct (startAfterId (animationDef_ r)) as [id|]; [|qs_done].
    destruct (bool_decide _); [apply q_then; auto|qs_done].
  - intros p1 [] w3 HI3 _.
    destruct (bool_decide _); [apply q_then; auto|qs_done].
Qed.

Lemma q_start j w : InvQ tt w -> allowed j -> qspec (start j) any w.
Proof.
  intros HI Hal. unfold start. qs_runner r Hr.
  destruct (hasStarted r); [qs_done|].
  qs_bind; [apply q_getStartWaitPromise_; eassumption|intros; benign_go|].
  intros p [] w2 HI2 _. apply q_playback_; assumption.
Qed.

Lemma q_finish j w : InvQ tt w -> allowed j -> qspec (finish j) any w.
Proof.
  intros HI Hal. unfold finish. qs_runner r Hr.
  qs_bind; [|intros; benign_go|].
  - instantiate (1 := any). unfold when.
    destruct (firstFrameApplied_ r); [apply q_notifyFinish_; eassumption|qs_done].
  - intros [] [] w2 HI2 _. qs_step q_resetFirstFrame_.
    apply q_playback_; assumption.
Qed.

Lemma q_cancel j w : InvQ tt w -> qspec (cancel j) any w.
Proof.
  intros HI. unfold cancel.
  eapply (rule_eq EscQ InvQ); [apply updRunner_twice|].
  qs_step q_clear_slot. qs_runner r Hr.
  destruct (hasStarted r); [|qs_done].
  qs_step q_dev_assert. qs_step q_hostInvoke.
  apply q_updRunner; [assumption|slot_safe_tac].
Qed.

Lemma q_onRunnerReady_ j w : InvQ tt w -> qspec (onRunnerReady_ j) any w.
Proof.
  intros HI. unfold onRunnerReady_.
  qs_step q_updRunner; [slot_safe_tac|].
  qs_step q_updRunner; [slot_safe_tac|].
  qs_runner r Hr.
  destruct (isActivityScheduled_ r None) eqn:Hsch; simpl; [|qs_done].
  destruct (scheduledActivity_ r) as [a|] eqn:Ha; [|qs_done].
  apply q_playbackWhenReady_; [assumption|].
  destruct (decide (j = i)) as [->|Hne]; [|left; exact Hne].
  right. destruct (Sumbool.sumbool_of_bool strict) as [Hst|Hst]; [|exact Hst].
  exfalso.
  match goal with H : InvQ tt _ |- _ =>
    pose proof (q_idle _ _ H Hst r Hr) as Hnone end.
  congruence.
Qed.

Lemma q_firstFrame r w : InvQ tt w -> qspec (firstFrame r) any w.
Proof.
  intros HI. unfold firstFrame.
  destruct (keyframes_value r) as [[|f0 l]|]; first [qs_throw | qs_done].
Qed.

Lemma q_runCallback cb w :
  InvQ tt w -> is_playback cb = false -> qspec (runCallback cb) any w.
Proof.
  intros HI Hcb. destruct cb as [j|j|j|j|j|j|j|j|j|j|j a]; simpl.
  - qs_runner r Hr.
    destruct (preset_keyframes (presetDef_ r)) as [k|f]; [qs_throw|].
    destruct (dims r) as [d|]; [|qs_throw].
    qs_step q_updRunner; [slot_safe_tac|]. qs_done.
  - qs_done.
  - qs_get. qs_step q_then. qs_done.
  - qs_step q_updRunner; [slot_safe_tac|]. qs_done.
  - qs_runner r Hr. qs_step q_firstFrame. qs_step q_dev_assert. qs_done.
  - qs_step q_onRunnerReady_. qs_done.
  - qs_runner r Hr. qs_step q_firstFrame. qs_step q_emit.
    qs_step (q_newPromise (Pending [])).
    qs_step q_modify; [apply InvQ_other; auto|]. qs_done.
  - qs_runner r Hr. qs_step q_firstFrame. qs_step q_emit. qs_done.
  - qs_runner r Hr.
    destruct (startAfterId (animationDef_ r)) as [id|]; [|qs_throw].
    qs_step q_waitFor. qs_done.
  - qs_runner r Hr. qs_step q_emit.
    qs_step (q_newPromise (Pending [])).
    qs_step q_modify; [apply InvQ_other; auto|]. qs_done.
  - qs_step q_playbackFire. qs_done.
Qed.

Lemma q_runJob j w : InvQ tt w -> quietJ j -> qspec (runJob j) any w.
Proof.
  intros HI Hj. destruct j as [[cb out|out]|q out]; simpl in *.
  - qs_bind; [apply q_runCallback; assumption|intros; benign_go|].
    intros v [] w2 HI2 _. destruct v as [q|].
    + apply q_enqueue; [exact HI2|]. constructor; [exact I|constructor].
    + apply q_resolvePromise. exact HI2.
  - apply q_resolvePromise. exact HI.
  - apply q_react; [exact HI|exact I].
Qed.

Lemma q_tick w : InvQ tt w -> qspec tick any w.
Proof.
  intros HI. unfold tick. qs_get.
  destruct (microtasks w) as [|j q] eqn:Hq; [qs_done|].
  pose proof (q_queue _ _ HI) as Hall. rewrite Hq in Hall.
  apply Forall_cons in Hall as [Hj _].
  apply (rule_modify_bind EscQ InvQ _ (fun _ => runJob j)).
  apply q_runJob; [apply InvQ_pop; exact HI|exact Hj].
Qed.

Lemma q_filterKeyframes_ j k w : InvQ tt w -> qspec (filterKeyframes_ j k) any w.
Proof.
  intros HI. destruct k as [a|f]; simpl.
  - qs_step (q_newPromise Resolved). qs_done.
  - qs_step q_emit. qs_step (q_newPromise (Pending [])).
    qs_step q_modify; [apply InvQ_other; auto|]. qs_step q_then. qs_done.
Qed.

Lemma q_AnimationRunner_new def w :
  InvQ tt w -> qspec (AnimationRunner_new def) any w.
Proof.
  intros HI. unfold AnimationRunner_new. qs_get.
  qs_step q_filterKeyframes_. qs_step q_then. qs_step q_then.
  qs_step q_modify; [apply InvQ_new_object; auto|].
  qs_step q_then. qs_step q_user_assert. qs_step q_then. qs_done.
Qed.

Lemma q_createRunner_ el w : InvQ tt w -> qspec (createRunner_ el) any w.
Proof.
  intros HI. unfold createRunner_.
  qs_bind; [|intros; benign_go|].
  - instantiate (1 := any). unfold getPreset_.
    destruct (PRESETS !! _); [qs_done|qs_throw].
  - intros p [] w2 HI2 _. qs_bind; [|intros; benign_go|].
    + instantiate (1 := any). unfold createAnimationDef.
      qs_bind; [|intros; benign_go|].
      * instantiate (1 := any).
        destruct (getAttribute el ANIMATE_IN_AFTER_ATTRIBUTE_NAME); [|qs_done].
        qs_step q_user_assert. qs_done.
      * intros a [] w3 HI3 _. qs_done.
    + intros def [] w3 HI3 _. apply q_AnimationRunner_new. assumption.
Qed.

Lemma q_mapM {A C} (f : A -> M C) l :
  (forall y, benign (f y)) ->
  (forall y w, InvQ tt w -> qspec (f y) any w) ->
  forall w, InvQ tt w -> qspec (mapM f l) any w.
Proof.
  intros Hb Hf. induction l as [|y l IH]; intros w HI; simpl; [qs_done|].
  qs_bind; [apply (Hf y w HI)| |].
  - intros z. pose proof (benign_mapM f l Hb). benign_go.
  - intros z [] w2 HI2 _. qs_bind; [apply (IH w2 HI2)|intros; benign_go|].
    intros zs [] w3 HI3 _. qs_done.
Qed.

Lemma q_forEach {A} (f : A -> M unit) l :
  (forall y, benign (f y)) ->
  (forall y w, InvQ tt w -> qspec (f y) any w) ->
  forall w, InvQ tt w -> qspec (forEach f l) any w.
Proof.
  intros Hb Hf w HI. unfold forEach.
  qs_bind; [apply (q_mapM f l Hb Hf w HI)|intros; benign_go|].
  intros zs [] w2 HI2 _. qs_done.
Qed.

Lemma q_getRunners_ w : InvQ tt w -> qspec getRunners_ any w.
Proof.
  intros HI. unfold getRunners_. qs_get. destruct (runners_ w); [qs_done|qs_throw].
Qed.

(** Events that call [start()] or [finish()]. *)
Definition calls_playback (ev : Event) : bool :=
  match ev with
  | CallStart_ j | CallFinish_ j => bool_decide (j = i)
  | CallAnimateIn | CallFinishAll => true
  | _ => false
  end.

Lemma q_step ev w :
  InvQ tt w -> (strict = true -> calls_playback ev = false) ->
  qspec (step ev) any w.
Proof.
  intros HI Hev.
  assert (Hall : calls_playback ev = true -> forall j, allowed j).
  { intros Hc j. right. destruct (Sumbool.sumbool_of_bool strict) as [Hs|Hs]; [|exact Hs].
    rewrite (Hev Hs) in Hc. discriminate. }
  destruct ev; simpl in *.
  - apply q_tick. exact HI.
  - unfold timerFires. qs_get. destruct (bool_decide _); [|qs_done].
    qs_step q_modify; [apply InvQ_other; auto|]. apply q_resolvePromise. assumption.
  - unfold measureDone. qs_get.
    destruct (list_find _ (measures w)) as [[k [p' j]]|]; [|qs_done].
    qs_step q_modify; [apply InvQ_other; auto|].
    qs_step q_updRunner; [slot_safe_tac|]. apply q_resolvePromise. assumption.
  - unfold mutateDone. qs_get. destruct (bool_decide _); [|qs_done].
    qs_step q_modify; [apply InvQ_other; auto|]. apply q_resolvePromise. assumption.
  - unfold builderReady. qs_get. apply q_resolvePromise. exact HI.
  - unfold playStateChanges. qs_runner r Hr.
    destruct (host r) as [h|]; [|qs_done].
    qs_step q_updRunner; [slot_safe_tac|].
    destruct (subscribed h); [apply q_playStateChanged; assumption|qs_done].
  - qs_step q_applyFirstFrame. qs_done.
  - apply q_start; [exact HI|].
    destruct (decide (i0 = i)) as [->|Hne]; [|left; exact Hne].
    apply Hall. apply bool_decide_eq_true_2. reflexivity.
  - apply q_finish; [exact HI|].
    destruct (decide (i0 = i)) as [->|Hne]; [|left; exact Hne].
    apply Hall. apply bool_decide_eq_true_2. reflexivity.
  - apply q_cancel. exact HI.
  - qs_bind; [|intros; benign_go|].
    + instantiate (1 := any). unfold Manager_applyFirstFrame.
      qs_bind; [|intros; benign_go|].
      * instantiate (1 := any). unfold getOrCreateRunners_. qs_get.
        destruct (runners_ w); [qs_done|].
        qs_bind; [apply (q_mapM createRunner_ animatable); [| |exact HI]
                 |intros; benign_go|].
        -- apply benign_createRunner_.
        -- intros y w2 HI2. apply q_createRunner_. exact HI2.
        -- intros rs [] w2 HI2 _.
           qs_step q_modify; [apply InvQ_other; auto|]. qs_done.
      * intros rs [] w2 HI2 _.
        apply (q_mapM applyFirstFrame rs benign_applyFirstFrame); [|exact HI2].
        intros y w3 HI3. apply q_applyFirstFrame. exact HI3.
    + intros ps [] w2 HI2 _. qs_done.
  - unfold animateIn. qs_step q_getRunners_.
    apply (q_forEach start _ benign_start); [|assumption].
    intros j w3 HI3. apply q_start; [exact HI3|]. apply Hall. reflexivity.
  - unfold finishAll. qs_step q_getRunners_.
    apply (q_forEach finish _ benign_finish); [|assumption].
    intros j w3 HI3. apply q_finish; [exact HI3|]. apply Hall. reflexivity.
  - unfold cancelAll. qs_get. destruct (runners_ w); [|qs_done].
    qs_step q_getRunners_.
    apply (q_forEach cancel _ benign_cancel); [|assumption].
    intros j w3 HI3. apply q_cancel. exact HI3.
Qed.

(** Calls that play or finish the host runner of [i]. *)
Definition playE (e : Effect) : Prop :=
  e = HostStart i \/ e = HostResume i \/ e = HostFinish i.

Lemma quietJ_not_play j e : quietJ j -> jobE j e -> ~ playE e.
Proof.
  destruct j as [[cb out|out]|q out]; simpl; try contradiction.
  intros Hq He Hp.
  destruct cb as [j|j|j|j|j|j|j|j|j|j|j a]; simpl in He, Hq; try contradiction.
  - destruct He as [m ->]. destruct Hp as [H|[H|H]]; discriminate H.
  - destruct He as [m ->]. destruct Hp as [H|[H|H]]; discriminate H.
  - destruct He as [ms ->]. destruct Hp as [H|[H|H]]; discriminate H.
  - apply bool_decide_eq_false in Hq.
    destruct He as [He|[id [-> | ->]]].
    + destruct a.
      * destruct He as [-> | ->]; destruct Hp as [H|[H|H]]; try discriminate H;
          injection H as ->; contradiction.
      * subst e. destruct Hp as [H|[H|H]]; try discriminate H.
        injection H as ->. contradiction.
    + destruct Hp as [H|[H|H]]; discriminate H.
    + destruct Hp as [H|[H|H]]; discriminate H.
Qed.

Lemma eventE_not_play w ev e : InvQ tt w -> eventE w ev e -> ~ playE e.
Proof.
  intros HI He Hp. destruct ev; simpl in He; try contradiction.
  - destruct (microtasks w) as [|j q] eqn:Hq; [contradiction|].
    pose proof (q_queue _ _ HI) as Hall. rewrite Hq in Hall.
    apply Forall_cons in Hall as [Hj _].
    exact (quietJ_not_play _ _ Hj He Hp).
  - destruct He as [id [-> | ->]]; destruct Hp as [H|[H|H]]; discriminate H.
  - destruct He as [id [-> | ->]]; destruct Hp as [H|[H|H]]; discriminate H.
  - destruct He as [->|[id [-> | ->]]]; destruct Hp as [H|[H|H]]; discriminate H.
  - destruct He as [j ->]; destruct Hp as [H|[H|H]]; discriminate H.
  - destruct He as [id [-> | ->]]; destruct Hp as [H|[H|H]]; discriminate H.
  - destruct He as [[j ->]|[id [-> | ->]]];
      destruct Hp as [H|[H|H]]; discriminate H.
Qed.

(** What holds of every world of a run that respects the restriction. *)
Definition holds (w : World) : Prop :=
  EscQ w \/ (InvQ tt w /\ Forall (fun e => ~ playE e) (trace w)).

Lemma holds_step ev w :
  (strict = true -> calls_playback ev = false) ->
  holds w -> holds (exec (step ev) w).
Proof.
  intros Hev [He|[HI Hq]].
  - left. eapply EscQ_extends; [|exact He]. apply benign_run, benign_step_event.
  - destruct (emits_step_event w ev) as (new & Hnew & Hall).
    assert (Forall (fun e => ~ playE e) (trace (exec (step ev) w))) as Hq'.
    { unfold exec. rewrite Hnew. apply Forall_app. split; [|exact Hq].
      eapply Forall_impl; [exact Hall|]. intros e He.
      exact (eventE_not_play _ _ _ HI He). }
    pose proof (q_step ev w HI Hev) as Hs. unfold spec_of, wp, exec in *.
    destruct (step ev w) as [[[]|err] w']; simpl in *.
    + destruct Hs as [He'|([] & HI' & _)]; [left; exact He'|right; auto].
    + destruct Hs as [He'|([] & HI')]; [left; exact He'|right; auto].
Qed.

Lemma holds_run es : forall w,
  (strict = true -> Forall (fun ev => calls_playback ev = false) es) ->
  holds w -> holds (run es w).
Proof.
  induction es as [|ev es IH]; intros w Hes Hw; simpl; [exact Hw|].
  apply IH.
  - intros Hs. specialize (Hes Hs). apply Forall_cons in Hes as [_ Hes]. exact Hes.
  - apply holds_step; [|exact Hw].
    intros Hs. specialize (Hes Hs). apply Forall_cons in Hes as [Hev _]. exact Hev.
Qed.

Lemma holds_new : strict = false -> holds AnimationManager_new.
Proof.
  intros Hs. right. split; [|constructor]. constructor; simpl.
  - constructor.
  - intros [|p] rs Hp; simpl in Hp; [|discriminate]. injection Hp as <-. constructor.
  - intros Hst. congruence.
Qed.

End Suppress.

(** C4. In any run, if [cancel()] is called on a runner whose host runner
    has not resolved yet, the call does not raise, and from then on, as
    long as [start()] and [finish()] are not called again, the host runner
    is never started, resumed or finished: not when it resolves, and not
    later. *)
Theorem cancel_before_ready_suppresses (es0 es : list Event) (i : nat)
    (r : AnimationRunner) :
  objs (run es0 AnimationManager_new) !! i = Some r ->
  runner_ r = false ->
  Forall (fun ev => calls_playback i ev = false) es ->
  throws (cancel i) (run es0 AnimationManager_new) = false /\
  forall e, e ∈ trace (run es (exec (cancel i) (run es0 AnimationManager_new))) ->
    e <> HostStart i /\ e <> HostResume i /\ e <> HostFinish i.
Proof.
  intros Hr Hrun Hes. set (w := run es0 AnimationManager_new) in *.
  assert (HA : holds i false w).
  { apply holds_run; [discriminate|]. apply holds_new. reflexivity. }
  destruct HA as [[_ (r' & Hr' & Hrun')]|[HI Hq]]; [congruence|].
  pose proof (cancel_cases w i r Hr) as Hc.
  unfold host_running in Hc. rewrite Hrun in Hc. simpl in Hc.
  destruct Hc as (Hc & Ht & _ & Hslot).
  split; [unfold throws; rewrite Hc; reflexivity|].
  assert (HC : holds i true (slot_cleared i w)).
  { right. split; [|exact Hq].
    destruct HI as [Hqueue Hstore _]. constructor; simpl; auto.
    intros _ r' Hr'. unfold slot_cleared in Hslot. simpl in Hslot.
    rewrite Hr' in Hslot. simpl in Hslot. congruence. }
  unfold exec. rewrite Hc. simpl.
  destruct (holds_run i true es _ (fun _ => Hes) HC) as [[Hf _]|[_ Hq']];
    [discriminate|].
  intros e He. rewrite Forall_forall in Hq'. specialize (Hq' e He).
  unfold playE in Hq'. repeat split; intros ->; apply Hq'; auto.
Qed.

(** ** The slot after an activity has been executed *)

Section Executed.

Variable i : nat.

(** Nothing is scheduled on runner [i]. *)
Definition slot_empty (u : unit) (w : World) : Prop :=
  forall r, objs w !! i = Some r -> scheduledActivity_ r = None.

Definition never (w : World) : Prop := False.

Lemma never_extends w w' : extends w w' -> never w -> never w'.
Proof. intros _ []. Qed.

Local Abbreviation sspec := (spec_of never slot_empty).

Ltac ss_bind := eapply (rule_bind never slot_empty never_extends).

Ltac ss_step spec :=
  ss_bind;
  [ eapply spec; eauto
  | intros; benign_go
  | let HI := fresh "HI" in
    let y := fresh "y" in
    let u := fresh "u" in
    let wy := fresh "wy" in
    intros y u wy HI _; destruct u ].

Ltac ss_done := eapply (rule_ret never slot_empty); [eassumption|exact I].
Ltac ss_throw := eapply (rule_throw never slot_empty); eassumption.

(** A computation that does not touch the objects. *)
Lemma s_frame {A} (m : M A) w :
  (forall w0, objs (snd (m w0)) = objs w0) ->
  slot_empty tt w -> sspec m any w.
Proof.
  intros Hm HI. unfold spec_of, wp. specialize (Hm w).
  destruct (m w) as [[a|e] w']; simpl in Hm; right; exists tt;
    [split; [|exact I]|]; unfold slot_empty in *; rewrite Hm; auto.
Qed.

Lemma s_updRunner j f w :
  slot_empty tt w ->
  (forall r, scheduledActivity_ (f r) = scheduledActivity_ r \/
             scheduledActivity_ (f r) = None) ->
  sspec (updRunner j f) any w.
Proof.
  intros HI Hf. apply (rule_modify never slot_empty _ _ tt); [|exact I].
  intros r Hr. simpl in Hr. destruct (decide (j = i)) as [->|Hne].
  - rewrite list_lookup_alter_eq in Hr.
    destruct (objs w !! i) as [r0|] eqn:Hr0; [|discriminate]. injection Hr as <-.
    destruct (Hf r0) as [->| ->]; auto.
  - rewrite list_lookup_alter_ne in Hr by done. auto.
Qed.

Lemma s_getRunner j w :
  slot_empty tt w -> sspec (getRunner j) any w.
Proof. intros HI. apply (rule_getRunner never slot_empty j any tt); [exact HI|]. intros; exact I. Qed.

Lemma s_then p cb w : slot_empty tt w -> sspec (then_ p cb) any w.
Proof. intros HI. apply s_frame; [|exact HI]. intros w0. apply then_runners. Qed.

Lemma s_emit e w : slot_empty tt w -> sspec (modify (emit e)) any w.
Proof. intros HI. apply s_frame; [|exact HI]. reflexivity. Qed.

Lemma objs_notifyFinish id w : objs (snd (notifyFinish id w)) = objs w.
Proof.
  unfold notifyFinish, bind, get, modify. simpl.
  destruct (subscriptionPromises_ (sequence_ w) !! id); [|reflexivity].
  destruct (subscriptionResolvers_ (sequence_ w) !! id) as [q|]; [|reflexivity].
  simpl. unfold resolvePromise. simpl.
  destruct (promises w !! q) as [[rs|]|]; reflexivity.
Qed.

Lemma s_notifyFinish_ j w : slot_empty tt w -> sspec (notifyFinish_ j) any w.
Proof.
  intros HI. apply s_frame; [|exact HI]. intros w0. unfold notifyFinish_, bind, getRunner.
  destruct (objs w0 !! j) as [r|]; [|reflexivity].
  destruct (bool_decide _); [apply objs_notifyFinish|reflexivity].
Qed.

Lemma s_fire j l : forall w, slot_empty tt w -> sspec (fire j l) any w.
Proof.
  induction l as [|s l IH]; intros w HI; simpl; [ss_done|].
  ss_bind; [|intros; benign_go|].
  - instantiate (1 := any). unfold playStateChanged.
    destruct (bool_decide _); [apply s_notifyFinish_; exact HI|ss_done].
  - intros [] [] w2 HI2 _. apply IH. exact HI2.
Qed.

Lemma s_hostInvoke j c w : slot_empty tt w -> sspec (hostInvoke j c) any w.
Proof.
  intros HI. unfold hostInvoke.
  ss_bind; [apply (rule_getRunner never slot_empty j any tt); [exact HI|intros; exact I]
           |intros; benign_go|].
  intros r [] w2 HI2 _. destruct (host r) as [h|]; [|ss_throw].
  ss_step s_emit. ss_step s_updRunner.
  destruct (subscribed h); [apply s_fire; assumption|ss_done].
Qed.

Lemma s_resetFirstFrame_ j w : slot_empty tt w -> sspec (resetFirstFrame_ j) any w.
Proof.
  intros HI. unfold resetFirstFrame_.
  ss_bind; [apply (rule_getRunner never slot_empty j any tt); [exact HI|intros; exact I]
           |intros; benign_go|].
  intros r [] w2 HI2 _. destruct (negb _); [ss_done|].
  ss_step s_updRunner. ss_step s_then. ss_done.
Qed.

Lemma s_startWhenReady_ j w : slot_empty tt w -> sspec (startWhenReady_ j) any w.
Proof.
  intros HI. unfold startWhenReady_.
  ss_bind; [apply (rule_getRunner never slot_empty j any tt); [exact HI|intros; exact I]
           |intros; benign_go|].
  intros r [] w2 HI2 _. ss_step s_updRunner. ss_step s_resetFirstFrame_.
  destruct (runnerReset_ r); apply s_hostInvoke; assumption.
Qed.

Lemma s_finishWhenReady_ j w : slot_empty tt w -> sspec (finishWhenReady_ j) any w.
Proof.
  intros HI. unfold finishWhenReady_.
  ss_bind; [apply (rule_getRunner never slot_empty j any tt); [exact HI|intros; exact I]
           |intros; benign_go|].
  intros r [] w2 HI2 _. destruct (host r) as [h|]; [|ss_throw].
  destruct (bool_decide _); [|ss_done].
  ss_step s_hostInvoke. apply s_updRunner; [assumption|auto].
Qed.

(** Executing an activity leaves the slot as empty as it found it. *)
Lemma executed_slot_empty a w :
  slot_empty tt w ->
  slot_empty tt (exec (match a with
                       | START => startWhenReady_ i
                       | FINISH => finishWhenReady_ i
                       end) w).
Proof.
  intros HI.
  assert (forall m : M unit, sspec m any w -> slot_empty tt (exec m w)) as Hany.
  { intros m Hs. unfold spec_of, wp, exec in *.
    destruct (m w) as [[[]|e] w']; simpl.
    - destruct Hs as [[]|([] & Hs & _)]. exact Hs.
    - destruct Hs as [[]|([] & Hs)]. exact Hs. }
  destruct a; apply Hany; [apply s_startWhenReady_|apply s_finishWhenReady_];
    exact HI.
Qed.

End Executed.

(** ** Firing of a scheduled activity *)

(** The world [playback_] leaves when the host runner is not resolved. *)
Definition slot_set (i : nat) (a : PlaybackActivity) (wait : option nat)
    (w : World) : World :=
  set_objs (alter (set_scheduledWait wait) i)
    (set_objs (alter (set_scheduledActivity (Some a)) i) w).

(** What executing activity [a] on runner [i] is. *)
Definition execute (i : nat) (a : PlaybackActivity) : M unit :=
  match a with
  | START => startWhenReady_ i
  | FINISH => finishWhenReady_ i
  end.

(** C2 (amended). The callback of a scheduled activity is registered only
    once the host runner is resolved, and then on the wait of the activity,
    so it cannot fire before both are resolved. When it fires with an empty
    slot (after [cancel()], or after another callback has executed) it does
    nothing, and so does a FINISH callback that finds a START in the slot.
    When it finds its own kind of activity in the slot it empties the slot,
    executes, and leaves the slot empty: callbacks of one kind are not told
    apart, the first to fire executes and the others find the slot empty. *)
Theorem playback_fires_by_kind_of_slot (w : World) (i : nat)
    (r : AnimationRunner) (a : PlaybackActivity) :
  objs w !! i = Some r ->
  (runner_ r = false -> forall wait,
     playback_ i a wait w = (Ok tt, slot_set i a wait w) /\
     registered (CbPlayback i a) (slot_set i a wait w) =
       registered (CbPlayback i a) w /\
     throws (playbackWhenReady_ i a wait) w = true) /\
  (runner_ r = true -> forall p rs, promises w !! p = Some (Pending rs) ->
     let w' := exec (playbackWhenReady_ i a (Some p)) w in
     promises w' !! p =
       Some (Pending (rs ++ [RThen (CbPlayback i a) (length (promises w))])) /\
     microtasks w' = microtasks w) /\
  (scheduledActivity_ r = None -> playbackFire i a w = (Ok tt, w)) /\
  (scheduledActivity_ r = Some START -> playbackFire i FINISH w = (Ok tt, w)) /\
  (scheduledActivity_ r = Some a ->
     playbackFire i a w = execute i a (slot_cleared i w) /\
     slot_empty i tt (exec (playbackFire i a) w)).
Proof.
  intros Hr. repeat split.
  - unfold playback_, bind, updRunner, modify. simpl. fold (slot_set i a wait w).
    erewrite getRunner_Some by (apply objs_alter, objs_alter; exact Hr).
    simpl. rewrite H. reflexivity.
  - unfold playbackWhenReady_, throws, bind.
    rewrite (getRunner_Some _ _ _ Hr), H. reflexivity.
  - unfold exec, playbackWhenReady_, bind.
    rewrite (getRunner_Some _ _ _ Hr), H. simpl.
    rewrite (then_pending _ _ _ _ H0). simpl.
    apply list_lookup_insert_eq. rewrite length_app.
    apply lookup_lt_Some in H0. lia.
  - unfold exec, playbackWhenReady_, bind.
    rewrite (getRunner_Some _ _ _ Hr), H. simpl.
    rewrite (then_pending _ _ _ _ H0). reflexivity.
  - intros Hs. unfold playbackFire, bind. rewrite (getRunner_Some _ _ _ Hr).
    unfold isActivityScheduled_. rewrite Hs. destruct a; reflexivity.
  - intros Hs. unfold playbackFire, bind. rewrite (getRunner_Some _ _ _ Hr).
    unfold isActivityScheduled_. rewrite Hs. reflexivity.
  - unfold playbackFire, bind. rewrite (getRunner_Some _ _ _ Hr).
    unfold isActivityScheduled_. rewrite H. destruct a; simpl;
      rewrite ?bool_decide_eq_true_2 by done; reflexivity.
  - assert (playbackFire i a w = execute i a (slot_cleared i w)) as Heq.
    { unfold playbackFire, bind. rewrite (getRunner_Some _ _ _ Hr).
      unfold isActivityScheduled_. rewrite H. destruct a; simpl;
        rewrite ?bool_decide_eq_true_2 by done; reflexivity. }
    unfold exec. rewrite Heq. apply (executed_slot_empty i a).
    intros r' Hr'. unfold slot_cleared in Hr'.
    erewrite objs_alter in Hr' by (apply objs_alter; exact Hr).
    injection Hr' as <-. reflexivity.
Qed.

(** * Further properties of the module *)

(** ** The bus over sequences of calls *)

(** The calls on the bus that concern [id]. *)
Definition concerns (id : string) (op : BusOp) : bool :=
  match op with
  | BusWaitFor id' | BusNotifyFinish id' => bool_decide (id' = id)
  end.

Lemma runBus_snoc ops op w :
  runBus (ops ++ [op]) w = exec (busStep op) (runBus ops w).
Proof. unfold runBus. rewrite foldl_app. reflexivity. Qed.

Lemma SeqWF_runBus ops : forall w, SeqWF w -> SeqWF (runBus ops w).
Proof.
  induction ops as [|op ops IH]; intros w Hwf; simpl; [exact Hwf|].
  apply IH, SeqWF_busStep, Hwf.
Qed.

Lemma inflight_waitFor w id id' :
  inflight (exec (waitFor id') w) id =
  if decide (id' = id)
  then Some (default (length (promises w)) (inflight w id))
  else inflight w id.
Proof.
  unfold exec. destruct (inflight w id') as [p|] eqn:Hin.
  - rewrite (waitFor_inflight _ _ _ Hin). simpl.
    destruct (decide (id' = id)) as [<-|Hne]; [rewrite Hin|]; reflexivity.
  - rewrite (waitFor_fresh _ _ Hin). unfold inflight. simpl.
    destruct (decide (id' = id)) as [<-|Hne].
    + rewrite lookup_insert_eq. unfold inflight in Hin. rewrite Hin. reflexivity.
    + rewrite lookup_insert_ne by done. reflexivity.
Qed.

Lemma inflight_notifyFinish w id id' :
  SeqWF w ->
  inflight (exec (notifyFinish id') w) id =
  if decide (id' = id) then None else inflight w id.
Proof.
  intros Hwf. unfold exec. destruct (inflight w id') as [p|] eqn:Hin.
  - destruct (Hwf _ _ Hin) as ([rs Hp] & Hr & _).
    rewrite (notifyFinish_inflight _ _ _ _ Hin Hr Hp). unfold inflight. simpl.
    destruct (decide (id' = id)) as [<-|Hne].
    + apply lookup_delete_eq.
    + apply lookup_delete_ne. exact Hne.
  - rewrite (notifyFinish_idle _ _ Hin). simpl.
    destruct (decide (id' = id)) as [<-|Hne]; [exact Hin|reflexivity].
Qed.

Lemma resolvers_waitFor w id id' :
  SeqWF w ->
  is_Some (subscriptionResolvers_ (sequence_ (exec (waitFor id') w)) !! id) <->
  is_Some (subscriptionResolvers_ (sequence_ w) !! id) \/ id' = id.
Proof.
  intros Hwf. unfold exec. destruct (inflight w id') as [p|] eqn:Hin.
  - rewrite (waitFor_inflight _ _ _ Hin). simpl. split; [auto|].
    intros [H| <-]; [exact H|].
    destruct (Hwf _ _ Hin) as (_ & Hr & _). rewrite Hr. eauto.
  - rewrite (waitFor_fresh _ _ Hin). simpl.
    destruct (decide (id' = id)) as [<-|Hne].
    + rewrite lookup_insert_eq. split; eauto.
    + rewrite lookup_insert_ne by done. split; [auto|]. intros [H|H]; [exact H|done].
Qed.

Lemma resolvers_notifyFinish w id id' :
  SeqWF w ->
  subscriptionResolvers_ (sequence_ (exec (notifyFinish id') w)) !! id =
  subscriptionResolvers_ (sequence_ w) !! id.
Proof.
  intros Hwf. unfold exec. destruct (inflight w id') as [p|] eqn:Hin.
  - destruct (Hwf _ _ Hin) as ([rs Hp] & Hr & _).
    rewrite (notifyFinish_inflight _ _ _ _ Hin Hr Hp). reflexivity.
  - rewrite (notifyFinish_idle _ _ Hin). reflexivity.
Qed.

Lemma busStep_total w op : SeqWF w -> throws (busStep op) w = false.
Proof.
  intros Hwf. destruct op as [id|id]; unfold throws; simpl.
  - unfold bind. destruct (inflight w id) as [p|] eqn:Hin.
    + rewrite (waitFor_inflight _ _ _ Hin). reflexivity.
    + rewrite (waitFor_fresh _ _ Hin). reflexivity.
  - destruct (inflight w id) as [p|] eqn:Hin.
    + destruct (Hwf _ _ Hin) as ([rs Hp] & Hr & _).
      rewrite (notifyFinish_inflight _ _ _ _ Hin Hr Hp). reflexivity.
    + rewrite (notifyFinish_idle _ _ Hin). reflexivity.
Qed.

(** X1. After any sequence of [waitFor] and [notifyFinish] calls on a new
    bus, an id has an in-flight wait exactly when the latest call that
    named it was [waitFor]; its resolver is stored exactly when [waitFor]
    was ever called for it ([notifyFinish] deletes the promise, never the
    resolver); and the next call, whichever it is, does not raise: the
    assertion of [notifyFinish] cannot fail. *)
Theorem bus_in_flight_iff_last_call_waits (ops : list BusOp) (id : string) :
  let w := runBus ops AnimationManager_new in
  (is_Some (inflight w id) <->
   last (filter (fun op => concerns id op = true) ops) = Some (BusWaitFor id)) /\
  (is_Some (subscriptionResolvers_ (sequence_ w) !! id) <-> BusWaitFor id ∈ ops) /\
  (forall op, throws (busStep op) w = false).
Proof.
  simpl. split; [|split].
  - induction ops as [|op ops IH] using rev_ind.
    + simpl. unfold inflight. simpl. rewrite lookup_empty.
      split; [intros [x H]; discriminate|discriminate].
    + pose proof (SeqWF_runBus ops _ SeqWF_new) as Hwf.
      rewrite runBus_snoc, filter_app.
      destruct op as [id'|id'].
      * rewrite exec_busStep_waitFor, inflight_waitFor.
        rewrite filter_cons, filter_nil. simpl.
        destruct (decide (id' = id)) as [->|Hne].
        -- rewrite bool_decide_eq_true_2 by done.
           rewrite decide_True by done. rewrite last_snoc. split; eauto.
        -- rewrite bool_decide_eq_false_2 by done.
           rewrite decide_False by (intros H; discriminate H).
           rewrite app_nil_r. exact IH.
      * change (busStep (BusNotifyFinish id')) with (notifyFinish id').
        rewrite inflight_notifyFinish by exact Hwf.
        rewrite filter_cons, filter_nil. simpl.
        destruct (decide (id' = id)) as [->|Hne].
        -- rewrite bool_decide_eq_true_2 by done.
           rewrite decide_True by done. rewrite last_snoc.
           split; [intros [x H]; discriminate|discriminate].
        -- rewrite bool_decide_eq_false_2 by done.
           rewrite decide_False by (intros H; discriminate H).
           rewrite app_nil_r. exact IH.
  - induction ops as [|op ops IH] using rev_ind.
    + simpl. rewrite lookup_empty. split; [intros [x H]; discriminate|].
      intros H. apply elem_of_nil in H. contradiction.
    + pose proof (SeqWF_runBus ops _ SeqWF_new) as Hwf.
      rewrite runBus_snoc, elem_of_app, list_elem_of_singleton.
      destruct op as [id'|id'].
      * rewrite exec_busStep_waitFor, resolvers_waitFor by exact Hwf.
        rewrite IH. split; (intros [H|H]; [left; exact H|right; congruence]).
      * simpl. rewrite resolvers_notifyFinish by exact Hwf. rewrite IH.
        split; [auto|]. intros [H|H]; [exact H|discriminate].
  - intros op. apply busStep_total, SeqWF_runBus, SeqWF_new.
Qed.

(** ** The play-state handler *)

(** X2. The handler that [onRunnerReady_] gives to [onPlayStateChanged]
    notifies the bus with the id of the target element when the state is
    FINISHED, which resolves and removes an in-flight wait for that id; for
    any other state, and for a target element without id, it does nothing
    at all. It never raises. *)
Theorem play_state_handler_notifies_on_finished (w : World) (i : nat)
    (r : AnimationRunner) (s : WebAnimationPlayState) :
  SeqWF w ->
  objs w !! i = Some r ->
  let id := el_id (target_ r) in
  let w' := exec (playStateChanged i s) w in
  throws (playStateChanged i s) w = false /\
  (s = FINISHED -> id <> "" ->
     trace w' =
       match inflight w id with
       | Some _ => [SeqResolve id; SeqNotifyFinish id]
       | None => [SeqNotifyFinish id]
       end ++ trace w /\
     inflight w' id = None /\
     (forall p, inflight w id = Some p -> promises w' !! p = Some Resolved) /\
     objs w' = objs w) /\
  (s <> FINISHED \/ id = "" -> playStateChanged i s w = (Ok tt, w)).
Proof.
  intros Hwf Hr id w'. subst w'. unfold throws, exec, playStateChanged.
  destruct (decide (s = FINISHED)) as [->|Hs].
  - rewrite bool_decide_eq_true_2 by done.
    unfold notifyFinish_, bind. rewrite (getRunner_Some _ _ _ Hr). fold id.
    destruct (decide (id = "")) as [Hid|Hid].
    + rewrite bool_decide_eq_false_2 by (intros H; exact (H Hid)).
      split; [reflexivity|]. split; [intros _ H; contradiction|reflexivity].
    + rewrite bool_decide_eq_true_2 by exact Hid.
      destruct (inflight w id) as [p|] eqn:Hin.
      * destruct (Hwf _ _ Hin) as ([rs Hp] & Hres & _).
        rewrite (notifyFinish_inflight _ _ _ _ Hin Hres Hp). simpl.
        split; [reflexivity|]. split.
        -- intros _ _. split; [reflexivity|]. split.
           ++ unfold inflight. simpl. apply lookup_delete_eq.
           ++ split; [|reflexivity]. intros p' [= <-].
              apply list_lookup_insert_eq. eapply lookup_lt_Some; eauto.
        -- intros [H|H]; contradiction.
      * rewrite (notifyFinish_idle _ _ Hin). simpl.
        split; [reflexivity|]. split.
        -- intros _ _. split; [reflexivity|]. split; [exact Hin|].
           split; [discriminate|reflexivity].
        -- intros [H|H]; contradiction.
  - rewrite bool_decide_eq_false_2 by exact Hs.
    split; [reflexivity|]. split; [intros H; contradiction|reflexivity].
Qed.

(** ** The styles of the first frame *)

Lemma prop_cons k v (f : KeyframeDef) k' :
  prop ((k, v) :: f) k' = if decide (k = k') then Some v else prop f k'.
Proof.
  unfold prop. simpl. destruct (decide (k = k')) as [->|Hne].
  - reflexivity.
  - destruct (list_find (fun kv => fst kv = k') f) as [[n kv]|]; reflexivity.
Qed.

Lemma prop_unique (f : KeyframeDef) k v :
  NoDup (fst <$> f) -> (k, v) ∈ f -> prop f k = Some v.
Proof.
  induction f as [|[k0 v0] f IH]; intros Hnd Hin.
  - apply elem_of_nil in Hin. contradiction.
  - simpl in Hnd. apply NoDup_cons in Hnd as [Hk0 Hnd].
    rewrite prop_cons. apply elem_of_cons in Hin as [[= -> ->]|Hin].
    + rewrite decide_True by done. reflexivity.
    + destruct (decide (k0 = k)) as [->|Hne]; [|auto].
      exfalso. apply Hk0. apply list_elem_of_fmap. exists (k, v). auto.
Qed.

(** [firstFrameProps.forEach(k => setStyle(this.target_, k, firstFrameDef[k]))]:
    the styles that are set, in order. *)
Definition styles_of (frameDef : KeyframeDef) : list (string * Value) :=
  omap (fun k => (fun v => (k, v)) <$> prop frameDef k) (getCssProps frameDef).

Lemma styles_of_filter (f : list (string * Value)) :
  NoDup (fst <$> f) ->
  styles_of f = filter (fun kv => fst kv ≠ "offset") f.
Proof.
  intros Hnd. unfold styles_of, getCssProps.
  assert (forall l : list (string * Value), (forall kv, kv ∈ l -> kv ∈ f) ->
    omap (fun k => (fun v => (k, v)) <$> prop f k)
         (filter (fun k => k ≠ "offset") (fst <$> l)) =
    filter (fun kv => fst kv ≠ "offset") l) as H.
  { induction l as [|[k v] l IH]; intros Hsub; [reflexivity|].
    assert (forall kv, kv ∈ l -> kv ∈ f) as Hsub'.
    { intros kv Hkv. apply Hsub. right. exact Hkv. }
    rewrite fmap_cons. change (fst (k, v)) with k.
    destruct (decide (k ≠ "offset")) as [Hk|Hk].
    - rewrite (filter_cons_True (fun k => k ≠ "offset")) by exact Hk.
      rewrite (filter_cons_True (fun kv => fst kv ≠ "offset")) by exact Hk.
      rewrite <- (IH Hsub'). simpl.
      rewrite (prop_unique f k v Hnd) by (apply Hsub; left). reflexivity.
    - rewrite (filter_cons_False (fun k => k ≠ "offset")) by exact Hk.
      rewrite (filter_cons_False (fun kv => fst kv ≠ "offset")) by exact Hk.
      apply IH. exact Hsub'. }
  apply H. auto.
Qed.

Lemma fst_filter_offset (f : list (string * Value)) :
  fst <$> filter (fun kv => fst kv ≠ "offset") f = getCssProps f.
Proof.
  unfold getCssProps. induction f as [|[k v] f IH]; [reflexivity|].
  rewrite fmap_cons. change (fst (k, v)) with k.
  destruct (decide (k ≠ "offset")) as [Hk|Hk].
  - rewrite (filter_cons_True (fun k => k ≠ "offset")) by exact Hk.
    rewrite (filter_cons_True (fun kv => fst kv ≠ "offset")) by exact Hk.
    rewrite fmap_cons, IH. reflexivity.
  - rewrite (filter_cons_False (fun k => k ≠ "offset")) by exact Hk.
    rewrite (filter_cons_False (fun kv => fst kv ≠ "offset")) by exact Hk.
    exact IH.
Qed.

(** X3. When the callback of [applyFirstFrame()] runs it asks vsync to set,
    and when the callback of [resetFirstFrame_()] runs it asks vsync to
    reset, the same properties: all properties of the first keyframe but
    [offset], in the order of the keyframe; each is set to the value the
    keyframe gives it. With an empty keyframes array both callbacks raise
    and ask vsync for nothing. *)
Theorem first_frame_styles_set_and_reset (w : World) (i : nat)
    (r : AnimationRunner) (keyframes : KeyframesDef) :
  objs w !! i = Some r ->
  keyframes_value r = Some keyframes ->
  match keyframes with
  | f0 :: _ =>
      exists s,
        trace (exec (runCallback (CbApplyFirstFrame i)) w) =
          VsyncMutate i (SetStyles s) :: trace w /\
        trace (exec (runCallback (CbResetFirstFrame i)) w) =
          VsyncMutate i (ResetStyles (fst <$> s)) :: trace w /\
        fst <$> s = getCssProps f0 /\
        ("offset" ∉ (fst <$> s)) /\
        (forall k v, (k, v) ∈ s <-> (k, v) ∈ f0 /\ k <> "offset") /\
        (NoDup (fst <$> f0) -> s = styles_of f0)
  | [] =>
      throws (runCallback (CbApplyFirstFrame i)) w = true /\
      throws (runCallback (CbResetFirstFrame i)) w = true /\
      exec (runCallback (CbApplyFirstFrame i)) w = w /\
      exec (runCallback (CbResetFirstFrame i)) w = w
  end.
Proof.
  intros Hr Hk. destruct keyframes as [|f0 rest].
  - unfold throws, exec, runCallback, bind, firstFrame.
    rewrite (getRunner_Some _ _ _ Hr), Hk. auto.
  - exists (filter (fun kv => fst kv ≠ "offset") f0).
    pose proof (fst_filter_offset f0) as Hfst.
    split; [|split; [|split; [|split; [|split]]]].
    + unfold exec, runCallback, bind, firstFrame.
      rewrite (getRunner_Some _ _ _ Hr), Hk. reflexivity.
    + unfold exec, runCallback, bind, firstFrame.
      rewrite (getRunner_Some _ _ _ Hr), Hk. simpl. do 3 f_equal.
      symmetry. exact Hfst.
    + exact Hfst.
    + intros H. assert ("offset" ∈ getCssProps f0) as H'.
      { rewrite <- Hfst. exact H. }
      unfold getCssProps in H'.
      apply list_elem_of_filter in H' as [H' _]. apply H'. reflexivity.
    + intros k v. rewrite list_elem_of_filter. simpl. tauto.
    + intros Hnd. symmetry. apply styles_of_filter. exact Hnd.
Qed.

(** ** Runners as the constructor and the manager make them *)

(** The state of a runner when its constructor is done with it. *)
Definition fresh_runner (animationDef : StoryAnimationDef)
    (r : AnimationRunner) : Prop :=
  target_ r = target animationDef /\
  animationDef_ r = animationDef /\
  presetDef_ r = preset animationDef /\
  delay_ r = effective_delay animationDef /\
  duration_ r = effective_duration animationDef /\
  host r = None /\ runner_ r = false /\
  scheduledActivity_ r = None /\ scheduledWait_ r = None /\
  runnerReset_ r = true /\ firstFrameApplied_ r = false.

(** What a computation leaves alone. *)
Definition same_page (w w' : World) : Prop :=
  runners_ w' = runners_ w /\ sequence_ w' = sequence_ w /\
  builderPromise_ w' = builderPromise_ w /\ timers w' = timers w /\
  mutates w' = mutates w.

Lemma then_same_page p cb w : same_page w (exec (then_ p cb) w).
Proof.
  unfold same_page, exec, then_, react. unfold bind, newPromise, get. simpl.
  destruct ((promises w ++ [Pending []]) !! p) as [[rs|]|]; simpl; auto.
Qed.

Lemma same_page_trans w1 w2 w3 :
  same_page w1 w2 -> same_page w2 w3 -> same_page w1 w3.
Proof.
  unfold same_page. intros (A1 & A2 & A3 & A4 & A5) (B1 & B2 & B3 & B4 & B5).
  repeat split; congruence.
Qed.

Lemma then_step {B} p cb (k : nat -> M B) w :
  bind (then_ p cb) k w = k (length (promises w)) (exec (then_ p cb) w).
Proof. unfold exec. apply bind_ok, then_ok. Qed.

Lemma AnimationRunner_new_makes (animationDef : StoryAnimationDef) (w : World) :
  let w' := exec (AnimationRunner_new animationDef) w in
  exists r,
    objs w' = objs w ++ [r] /\
    fresh_runner animationDef r /\
    same_page w w' /\
    trace w' =
      match preset_keyframes (preset animationDef) with
      | KeyframesFn _ => [VsyncMeasure (length (objs w))]
      | KeyframesArray _ => []
      end ++ trace w.
Proof.
  simpl. unfold exec, AnimationRunner_new.
  rewrite (bind_ok get _ w w) by reflexivity. simpl.
  assert (forall kf w1, objs w1 = objs w -> same_page w w1 ->
    let res := (let! webAnimDef := then_ (fst kf) (CbWebAnimationDef (length (objs w))) in
       let! runnerPromise := then_ webAnimDef (CbAwaitBuilder (length (objs w))) in
       modify (set_objs (fun os => os ++ [
         {| target_ := target animationDef;
            animationDef_ := animationDef;
            presetDef_ := preset animationDef;
            keyframes_ := fst kf;
            keyframes_value := snd kf;
            dims := None;
            delay_ := effective_delay animationDef;
            duration_ := effective_duration animationDef;
            runnerPromise_ := runnerPromise;
            host := None;
            runner_ := false;
            scheduledActivity_ := None;
            scheduledWait_ := None;
            runnerReset_ := true;
            firstFrameApplied_ := false |}])) >>
       let! _ := then_ (fst kf) (CbAssertOffset (length (objs w))) in
       user_assert (bool_decide (0 <= effective_delay animationDef))
         negative_delay_msg >>
       let! _ := then_ runnerPromise (CbRunnerReady (length (objs w))) in
       ret (length (objs w))) w1 in
    exists r, objs (snd res) = objs w ++ [r] /\ fresh_runner animationDef r /\
              same_page w (snd res) /\ trace (snd res) = trace w1) as Hrest.
  { intros kf w1 Ho Hs. simpl.
    rewrite then_step, then_step.
    rewrite (bind_ok (modify _) _ _ tt) by reflexivity.
    rewrite then_step.
    set (wa := exec (then_ (fst kf) _) w1).
    set (wb := exec (then_ _ _) wa).
    set (r0 := {| target_ := target animationDef; runner_ := false |}).
    set (wc := snd (modify (set_objs (fun os => os ++ [r0])) wb)).
    set (wd := exec (then_ (fst kf) (CbAssertOffset _)) wc).
    assert (objs wc = objs w ++ [r0]) as Hoc.
    { unfold wc, wb, wa. simpl.
      rewrite (proj2 (then_runners _ _ _)), (proj2 (then_runners _ _ _)), Ho.
      reflexivity. }
    assert (same_page w wc) as Hsc.
    { eapply same_page_trans; [exact Hs|].
      eapply same_page_trans; [apply then_same_page|].
      eapply same_page_trans; [apply then_same_page|].
      unfold wc. simpl. repeat split. }
    assert (trace wc = trace w1) as Htc.
    { unfold wc, wb, wa. simpl.
      rewrite (proj1 (then_frame _ _ _)), (proj1 (then_frame _ _ _)). reflexivity. }
    assert (objs wd = objs w ++ [r0] /\ same_page w wd /\ trace wd = trace w1)
      as (Hod & Hsd & Htd).
    { unfold wd. rewrite (proj2 (then_runners _ _ _)), (proj1 (then_frame _ _ _)).
      split; [exact Hoc|]. split; [|exact Htc].
      eapply same_page_trans; [exact Hsc|apply then_same_page]. }
    exists r0. unfold user_assert. destruct (bool_decide _).
    - rewrite (bind_ok (ret tt) _ _ tt) by reflexivity. rewrite then_step. simpl.
      rewrite (proj2 (then_runners _ _ _)), (proj1 (then_frame _ _ _)).
      split; [exact Hod|]. split; [repeat split|]. split; [|exact Htd].
      eapply same_page_trans; [exact Hsd|apply then_same_page].
    - simpl. split; [exact Hod|]. split; [repeat split|]. split; assumption. }
  destruct (preset_keyframes (preset animationDef)) as [a|f].
  - rewrite (bind_ok _ _ w (length (promises w), Some a)) by reflexivity.
    destruct (Hrest (length (promises w), Some a)
                (snd (filterKeyframes_ (length (objs w)) (KeyframesArray a) w)))
      as (r & H1 & H2 & H3 & H4); [reflexivity|repeat split|].
    exists r. split; [exact H1|]. split; [exact H2|]. split; [exact H3|].
    rewrite H4. reflexivity.
  - assert (fst (filterKeyframes_ (length (objs w)) (KeyframesFn f) w) =
            Ok (S (length (promises w)), None)) as Hfk.
    { simpl. do 3 (erewrite bind_ok by reflexivity).
      erewrite bind_ok by apply then_ok. simpl.
      rewrite length_app. simpl. do 3 f_equal. lia. }
    rewrite (bind_ok _ _ w _ Hfk).
    destruct (Hrest (S (length (promises w)), None)
                (snd (filterKeyframes_ (length (objs w)) (KeyframesFn f) w)))
      as (r & H1 & H2 & H3 & H4).
    + simpl. do 3 (erewrite bind_ok by reflexivity). rewrite then_step. simpl.
      rewrite (proj2 (then_runners _ _ _)). reflexivity.
    + simpl. do 3 (erewrite bind_ok by reflexivity). rewrite then_step. simpl.
      eapply same_page_trans; [|apply then_same_page]. repeat split.
    + exists r. split; [exact H1|]. split; [exact H2|]. split; [exact H3|].
      rewrite H4. simpl. do 3 (erewrite bind_ok by reflexivity).
      rewrite then_step. simpl. rewrite (proj1 (then_frame _ _ _)). reflexivity.
Qed.

Lemma AnimationRunner_new_result (animationDef : StoryAnimationDef) (w : World) i :
  fst (AnimationRunner_new animationDef w) = Ok i -> i = length (objs w).
Proof.
  unfold AnimationRunner_new.
  rewrite (bind_ok get _ w w) by reflexivity. simpl.
  destruct (filterKeyframes_ok (length (objs w))
              (preset_keyframes (preset animationDef)) w) as [kf Hkf].
  rewrite (bind_ok _ _ _ _ Hkf).
  erewrite bind_ok by apply then_ok.
  erewrite bind_ok by apply then_ok.
  erewrite bind_ok by reflexivity.
  erewrite bind_ok by apply then_ok.
  unfold user_assert. case_bool_decide.
  - erewrite bind_ok by reflexivity. erewrite bind_ok by apply then_ok.
    simpl. congruence.
  - discriminate.
Qed.

(** X4. The constructor leaves a runner that is idle, whether it returns or
    rejects the delay: host runner unresolved, nothing scheduled, not
    started, first frame not applied, and the next START will call [start]
    on the host runner. It asks vsync for one measurement when the keyframes
    of the preset are a function of the dimensions and for none when they
    are an array; it calls nothing else and leaves the bus, the runner list
    and the runners that exist alone. *)
Theorem constructor_leaves_idle_runner (animationDef : StoryAnimationDef)
    (w : World) :
  let w' := exec (AnimationRunner_new animationDef) w in
  exists r,
    objs w' = objs w ++ [r] /\
    fresh_runner animationDef r /\
    hasStarted r = false /\
    trace w' =
      match preset_keyframes (preset animationDef) with
      | KeyframesFn _ => [VsyncMeasure (length (objs w))]
      | KeyframesArray _ => []
      end ++ trace w /\
    sequence_ w' = sequence_ w /\
    runners_ w' = runners_ w.
Proof.
  destruct (AnimationRunner_new_makes animationDef w) as (r & H1 & H2 & H3 & H4).
  exists r. split; [exact H1|]. split; [exact H2|]. split.
  - destruct H2 as (_ & _ & _ & _ & _ & _ & Hrun & Hact & _).
    unfold hasStarted, isActivityScheduled_. rewrite Hrun, Hact. reflexivity.
  - split; [exact H4|]. destruct H3 as (A1 & A2 & _). auto.
Qed.

(** A runner that has just been made. *)
Definition idle (r : AnimationRunner) : Prop :=
  runner_ r = false /\ scheduledActivity_ r = None /\
  firstFrameApplied_ r = false /\ runnerReset_ r = true.

Lemma createRunner_makes el w i w' :
  createRunner_ el w = (Ok i, w') ->
  i = length (objs w) /\
  exists r, objs w' = objs w ++ [r] /\ target_ r = el /\ idle r /\ same_page w w'.
Proof.
  unfold createRunner_, getPreset_. intros H.
  destruct (PRESETS !! _) as [p|]; [|discriminate H].
  rewrite (bind_ok (ret p) _ w p) in H by reflexivity. simpl in H.
  unfold createAnimationDef in H.
  assert (exists after,
    AnimationRunner_new
      {| target := el; preset := p;
         duration := getAttribute el ANIMATE_IN_DURATION_ATTRIBUTE_NAME ≫= timeStrToMillis;
         delay := getAttribute el ANIMATE_IN_DELAY_ATTRIBUTE_NAME ≫= timeStrToMillis;
         startAfterId := after |} w = (Ok i, w')) as [after Hnew].
  { destruct (getAttribute el ANIMATE_IN_AFTER_ATTRIBUTE_NAME) as [d|].
    - unfold user_assert in H. destruct (bool_decide _).
      + exists (Some d). exact H.
      + discriminate H.
    - exists None. exact H. }
  match type of Hnew with AnimationRunner_new ?d _ = _ => set (def := d) in * end.
  split.
  - apply (AnimationRunner_new_result def w). rewrite Hnew. reflexivity.
  - destruct (AnimationRunner_new_makes def w) as (r & H1 & H2 & H3 & _).
    unfold exec in *. rewrite Hnew in *. simpl in *.
    exists r. split; [exact H1|].
    destruct H2 as (Ht & _ & _ & _ & _ & _ & Hrun & Hact & _ & Hres & Hff).
    split; [exact Ht|]. split; [repeat split; assumption|exact H3].
Qed.

Lemma mapM_createRunner_makes l : forall w rs w',
  mapM createRunner_ l w = (Ok rs, w') ->
  rs = seq (length (objs w)) (length l) /\
  exists new, objs w' = objs w ++ new /\ target_ <$> new = l /\
              Forall idle new /\ same_page w w'.
Proof.
  induction l as [|el l IH]; intros w rs w' H; simpl in H.
  - injection H as <- <-. split; [reflexivity|].
    exists []. rewrite app_nil_r. repeat split. constructor.
  - unfold bind at 1 in H.
    destruct (createRunner_ el w) as [[i|e] w1] eqn:H1; [|discriminate H].
    unfold bind at 1 in H.
    destruct (mapM createRunner_ l w1) as [[rs'|e] w2] eqn:H2; [|discriminate H].
    injection H as <- <-.
    destruct (createRunner_makes _ _ _ _ H1) as (-> & r & Ho1 & Ht & Hi & Hs1).
    destruct (IH _ _ _ H2) as (-> & new & Ho2 & Htn & Hin & Hs2).
    split.
    + simpl. rewrite Ho1, length_app. simpl. do 2 f_equal. lia.
    + exists (r :: new). split; [rewrite Ho2, Ho1, <- app_assoc; reflexivity|].
      split; [rewrite fmap_cons, Ht, Htn; reflexivity|]. split; [constructor; assumption|].
      eapply same_page_trans; eassumption.
Qed.

(** X5. When the manager creates its runners and no element is rejected,
    it makes exactly one runner for each element that carries [animate-in],
    in document order and with that element as its target, and none for
    any other element; the new runners are idle. The list is stored: a
    second call makes nothing and returns the same list, which is the list
    [getRunners_()] returns from then on. *)
Theorem manager_makes_one_runner_per_animatable_element (w w' : World)
    (rs : list nat) :
  runners_ w = None ->
  getOrCreateRunners_ w = (Ok rs, w') ->
  exists new,
    objs w' = objs w ++ new /\
    target_ <$> new = animatable /\
    rs = seq (length (objs w)) (length animatable) /\
    Forall idle new /\
    runners_ w' = Some rs /\
    sequence_ w' = sequence_ w /\
    getOrCreateRunners_ w' = (Ok rs, w') /\
    getRunners_ w' = (Ok rs, w').
Proof.
  intros Hnone H. unfold getOrCreateRunners_ in H.
  rewrite (bind_ok get _ w w) in H by reflexivity. simpl in H. rewrite Hnone in H.
  unfold bind at 1 in H.
  destruct (mapM createRunner_ animatable w) as [[rs'|e] w1] eqn:Hm; [|discriminate H].
  simpl in H. injection H as <- <-.
  destruct (mapM_createRunner_makes _ _ _ _ Hm) as (-> & new & Ho & Ht & Hi & Hs).
  exists new. split; [exact Ho|]. split; [exact Ht|]. split; [reflexivity|].
  split; [exact Hi|]. split; [reflexivity|]. split; [apply Hs|].
  split; reflexivity.
Qed.


(** ** Before the first frames are applied *)

(** The manager as its constructor leaves it, but for the builder promise,
    which may have been resolved. *)
Definition pristine (w : World) : Prop :=
  exists st, (st = Pending [] \/ st = Resolved) /\
    w = {| promises := [st]; microtasks := []; timers := []; measures := [];
           mutates := []; objs := []; sequence_ := AnimationSequence_create;
           builderPromise_ := 0%nat; runners_ := None; trace := [] |}.

Lemma pristine_new : pristine AnimationManager_new.
Proof. exists (Pending []). split; [left|]; reflexivity. Qed.

Lemma pristine_step ev w :
  ev <> CallManagerApplyFirstFrame -> pristine w -> pristine (exec (step ev) w).
Proof.
  intros Hev (st & Hst & ->).
  destruct ev; try contradiction;
    destruct Hst as [-> | ->];
    first [ exists (Pending []); split; [left; reflexivity|reflexivity]
          | exists Resolved; split; [right; reflexivity|reflexivity] ].
Qed.

Lemma pristine_run es : forall w,
  Forall (fun ev => ev <> CallManagerApplyFirstFrame) es ->
  pristine w -> pristine (run es w).
Proof.
  induction es as [|ev es IH]; intros w Hall Hw; simpl; [exact Hw|].
  apply Forall_cons in Hall as [Hev Hall].
  apply IH; [exact Hall|]. apply pristine_step; assumption.
Qed.

(** X6. As long as [applyFirstFrame()] has not been called on the manager,
    whatever else is called and whatever the environment does, there is no
    runner and nothing has been asked of vsync, the timer, the bus or a
    host runner. In that state [cancelAll()] returns and changes nothing,
    while [animateIn()], [finishAll()] and [hasAnimationStarted()] fail the
    assertion of [getRunners_()], changing nothing either. *)
Theorem nothing_happens_before_applyFirstFrame (es : list Event) :
  Forall (fun ev => ev <> CallManagerApplyFirstFrame) es ->
  let w := run es AnimationManager_new in
  objs w = [] /\ runners_ w = None /\ trace w = [] /\ microtasks w = [] /\
  cancelAll w = (Ok tt, w) /\
  animateIn w = (Throw (DevError "Executed before applyFirstFrame"), w) /\
  finishAll w = (Throw (DevError "Executed before applyFirstFrame"), w) /\
  hasAnimationStarted w =
    (Throw (DevError "Executed before applyFirstFrame"), w).
Proof.
  intros Hall w.
  destruct (pristine_run es _ Hall pristine_new) as (st & _ & Hw).
  fold w in Hw. rewrite Hw. repeat split.
Qed.

(** ** [start()] *)

(** From [w] to [w']: no call is recorded and the runners, the bus and the
    runner list are as they were. *)
Definition quiet (w w' : World) : Prop :=
  objs w' = objs w /\ trace w' = trace w /\
  sequence_ w' = sequence_ w /\ runners_ w' = runners_ w.

Lemma quiet_refl w : quiet w w.
Proof. repeat split. Qed.

Lemma quiet_trans w1 w2 w3 : quiet w1 w2 -> quiet w2 w3 -> quiet w1 w3.
Proof.
  unfold quiet. intros (A1 & A2 & A3 & A4) (B1 & B2 & B3 & B4).
  repeat split; congruence.
Qed.

Lemma then_quiet p cb w : quiet w (exec (then_ p cb) w).
Proof.
  destruct (then_frame p cb w) as (H1 & H2 & H3 & _).
  destruct (then_runners p cb w) as (H4 & _). repeat split; assumption.
Qed.

Lemma getStartWaitPromise_total i w r :
  objs w !! i = Some r ->
  exists p w', getStartWaitPromise_ i w = (Ok p, w') /\ quiet w w'.
Proof.
  intros Hr. unfold getStartWaitPromise_.
  rewrite (bind_ok _ _ _ _ (f_equal fst (getRunner_Some _ _ _ Hr))).
  rewrite (getRunner_Some _ _ _ Hr). simpl.
  rewrite (bind_ok (newPromise Resolved) _ w (length (promises w))) by reflexivity.
  simpl.
  set (w0 := set_promises (fun ps => ps ++ [Resolved]) w).
  assert (quiet w w0) as H0 by (repeat split).
  assert (exists p1 w1,
    match startAfterId (animationDef_ r) with
    | Some id => if bool_decide (id ≠ "")
                 then then_ (length (promises w)) (CbWaitFor i)
                 else ret (length (promises w))
    | None => ret (length (promises w))
    end w0 = (Ok p1, w1) /\ quiet w w1) as (p1 & w1 & H1 & Hq1).
  { destruct (startAfterId (animationDef_ r)) as [id|].
    - destruct (bool_decide (id ≠ "")).
      + rewrite then_total. do 2 eexists. split; [reflexivity|].
        eapply quiet_trans; [exact H0|apply then_quiet].
      + do 2 eexists. split; [reflexivity|exact H0].
    - do 2 eexists. split; [reflexivity|exact H0]. }
  rewrite (bind_ok _ _ _ _ (f_equal fst H1)). rewrite H1. simpl.
  destruct (bool_decide (delay_ r ≠ 0)).
  - rewrite then_total. do 2 eexists. split; [reflexivity|].
    eapply quiet_trans; [exact Hq1|apply then_quiet].
  - do 2 eexists. split; [reflexivity|exact Hq1].
Qed.

Lemma playbackWhenReady_quiet i a wait w r :
  objs w !! i = Some r -> runner_ r = true ->
  exists w', playbackWhenReady_ i a wait w = (Ok tt, w') /\ quiet w w'.
Proof.
  intros Hr Hrun. unfold playbackWhenReady_, bind.
  rewrite (getRunner_Some _ _ _ Hr), Hrun. simpl.
  destruct wait as [p|]; simpl.
  - rewrite then_total. eexists. split; [reflexivity|apply then_quiet].
  - rewrite then_total. eexists. split; [reflexivity|].
    eapply quiet_trans; [|apply then_quiet]. repeat split.
Qed.

(** What [start()] does to the runners when it schedules a START. *)
Definition start_scheduled (i p : nat) (os : list AnimationRunner)
    : list AnimationRunner :=
  alter (set_scheduledWait (Some p)) i
    (alter (set_scheduledActivity (Some START)) i os).

Lemma start_cases i w r :
  objs w !! i = Some r ->
  if hasStarted r then start i w = (Ok tt, w)
  else exists p w',
    start i w = (Ok tt, w') /\
    objs w' = start_scheduled i p (objs w) /\
    trace w' = trace w /\ sequence_ w' = sequence_ w /\
    runners_ w' = runners_ w.
Proof.
  intros Hr. unfold start.
  rewrite (bind_ok _ _ _ _ (f_equal fst (getRunner_Some _ _ _ Hr))).
  rewrite (getRunner_Some _ _ _ Hr). simpl.
  destruct (hasStarted r); [reflexivity|].
  destruct (getStartWaitPromise_total i w r Hr) as (p & w1 & H1 & Ho & Ht & Hs & Hn).
  rewrite (bind_ok _ _ _ _ (f_equal fst H1)). rewrite H1. simpl.
  exists p. unfold playback_, bind, updRunner, modify. simpl.
  assert (objs w1 !! i = Some r) as Hr1 by (rewrite Ho; exact Hr).
  erewrite getRunner_Some by (apply objs_alter, objs_alter; exact Hr1). simpl.
  destruct (runner_ r) eqn:Hrun.
  - edestruct playbackWhenReady_quiet as (w' & -> & H2 & H3 & H4 & H5);
      [apply objs_alter, objs_alter; exact Hr1|exact Hrun|].
    exists w'. split; [reflexivity|]. rewrite H2, H3, H4, H5. simpl.
    rewrite Ho. repeat split; assumption.
  - eexists. split; [reflexivity|]. simpl. rewrite Ho. repeat split; assumption.
Qed.

Lemma hasStarted_spec r :
  hasStarted r = true <-> scheduledActivity_ r <> None \/ host_running r = true.
Proof.
  unfold hasStarted, isActivityScheduled_, host_running. simpl.
  rewrite orb_true_iff, bool_decide_eq_true. reflexivity.
Qed.

(** X7. [start()] does nothing at all when [hasStarted()] holds, which is
    the case exactly when some activity is scheduled (a FINISH as well as a
    START, since START is the number 0) or the host runner is resolved and
    RUNNING. Otherwise it schedules START with a wait promise and returns:
    it never raises, it calls neither the host runner nor the bus nor the
    timer itself, it touches no other runner, and from then on the runner
    counts as started. *)
Theorem start_is_ignored_while_anything_is_scheduled (w : World) (i : nat)
    (r : AnimationRunner) :
  objs w !! i = Some r ->
  (hasStarted r = true <->
   scheduledActivity_ r <> None \/ host_running r = true) /\
  (hasStarted r = true -> start i w = (Ok tt, w)) /\
  (hasStarted r = false ->
   exists p w' r',
     start i w = (Ok tt, w') /\
     objs w' !! i = Some r' /\
     scheduledActivity_ r' = Some START /\
     scheduledWait_ r' = Some p /\
     hasStarted r' = true /\
     (forall j, j <> i -> objs w' !! j = objs w !! j) /\
     trace w' = trace w /\
     sequence_ w' = sequence_ w).
Proof.
  intros Hr. split; [apply hasStarted_spec|].
  pose proof (start_cases i w r Hr) as H.
  destruct (hasStarted r); (split; [intros Hs|intros Hs]); try discriminate Hs.
  - exact H.
  - destruct H as (p & w' & H1 & H2 & H3 & H4 & _).
    exists p, w'. eexists. split; [exact H1|]. rewrite H2. unfold start_scheduled.
    split.
    { rewrite list_lookup_alter_eq, list_lookup_alter_eq, Hr. reflexivity. }
    split; [reflexivity|]. split; [reflexivity|]. split; [reflexivity|].
    split; [|split; assumption].
    intros j Hj. rewrite !list_lookup_alter_ne by congruence. reflexivity.
Qed.

(** ** [animateIn()] and [hasAnimationStarted()] *)

Lemma forEach_cons {A} (f : A -> M unit) x l w :
  forEach f (x :: l) w =
  match f x w with
  | (Ok _, w1) => forEach f l w1
  | (Throw e, w1) => (Throw e, w1)
  end.
Proof.
  unfold forEach. simpl. unfold bind.
  destruct (f x w) as [[y|e] w1]; [|reflexivity].
  destruct (mapM f l w1) as [[ys|e] w2]; reflexivity.
Qed.

Lemma start_objs i w r :
  objs w !! i = Some r ->
  exists w',
    start i w = (Ok tt, w') /\
    trace w' = trace w /\ sequence_ w' = sequence_ w /\
    runners_ w' = runners_ w /\
    (forall j rj, objs w !! j = Some rj ->
       exists rj', objs w' !! j = Some rj' /\
                   (hasStarted rj = true -> hasStarted rj' = true) /\
                   (j = i -> hasStarted rj' = true)).
Proof.
  intros Hr. pose proof (start_cases i w r Hr) as H.
  destruct (hasStarted r) eqn:Hs.
  - exists w. split; [exact H|]. do 3 (split; [reflexivity|]).
    intros j rj Hj. exists rj. split; [exact Hj|]. split; [auto|].
    intros ->. congruence.
  - destruct H as (p & w' & H1 & H2 & H3 & H4 & H5).
    exists w'. split; [exact H1|]. do 3 (split; [assumption|]).
    intros j rj Hj. rewrite H2. unfold start_scheduled.
    destruct (decide (j = i)) as [->|Hne].
    + rewrite list_lookup_alter_eq, list_lookup_alter_eq, Hj. simpl.
      eexists. split; [reflexivity|]. split; reflexivity.
    + rewrite !list_lookup_alter_ne by congruence.
      exists rj. split; [exact Hj|]. split; [auto|]. intros; contradiction.
Qed.

Lemma forEach_start rs : forall w,
  (forall i, i ∈ rs -> is_Some (objs w !! i)) ->
  exists w',
    forEach start rs w = (Ok tt, w') /\
    trace w' = trace w /\ sequence_ w' = sequence_ w /\
    runners_ w' = runners_ w /\
    (forall j rj, objs w !! j = Some rj ->
       exists rj', objs w' !! j = Some rj' /\
                   (hasStarted rj = true -> hasStarted rj' = true) /\
                   (j ∈ rs -> hasStarted rj' = true)).
Proof.
  induction rs as [|i rs IH]; intros w Hall.
  - exists w. split; [reflexivity|]. do 3 (split; [reflexivity|]).
    intros j rj Hj. exists rj. split; [exact Hj|]. split; [auto|].
    intros H. apply elem_of_nil in H. contradiction.
  - destruct (Hall i) as [r Hr]; [left|].
    destruct (start_objs i w r Hr) as (w1 & H1 & Ht1 & Hs1 & Hn1 & Ho1).
    destruct (IH w1) as (w2 & H2 & Ht2 & Hs2 & Hn2 & Ho2).
    { intros k Hk. destruct (Hall k) as [rk Hrk]; [right; exact Hk|].
      destruct (Ho1 _ _ Hrk) as (rk' & Hrk' & _). eauto. }
    exists w2. rewrite forEach_cons, H1. split; [exact H2|].
    split; [congruence|]. split; [congruence|]. split; [congruence|].
    intros j rj Hj. destruct (Ho1 _ _ Hj) as (rj1 & Hj1 & Hk1 & Hi1).
    destruct (Ho2 _ _ Hj1) as (rj2 & Hj2 & Hk2 & Hi2).
    exists rj2. split; [exact Hj2|]. split; [auto|].
    intros Hin. apply elem_of_cons in Hin as [->|Hin]; auto.
Qed.

Lemma getRunners_ok w rs : runners_ w = Some rs -> getRunners_ w = (Ok rs, w).
Proof. intros H. unfold getRunners_, bind, get. simpl. rewrite H. reflexivity. Qed.

(** X8. Once the runners exist, [animateIn()] returns without raising and
    without calling a host runner, the bus, vsync or the timer itself; when
    it returns every runner of the manager counts as started, so that
    [hasAnimationStarted()] answers true at once (if the manager has a
    runner at all), before any host runner has been started. *)
Theorem animateIn_marks_every_runner_started (w : World) (rs : list nat) :
  runners_ w = Some rs ->
  (forall i, i ∈ rs -> is_Some (objs w !! i)) ->
  exists w',
    animateIn w = (Ok tt, w') /\
    trace w' = trace w /\
    (forall i, i ∈ rs ->
       exists r', objs w' !! i = Some r' /\ hasStarted r' = true) /\
    hasAnimationStarted w' = (Ok (bool_decide (rs <> [])), w').
Proof.
  intros Hrs Hall.
  destruct (forEach_start rs w Hall) as (w' & H1 & Ht & Hs & Hn & Ho).
  exists w'. unfold animateIn.
  rewrite (bind_ok _ _ _ _ (f_equal fst (getRunners_ok _ _ Hrs))).
  rewrite (getRunners_ok _ _ Hrs). simpl.
  split; [exact H1|]. split; [exact Ht|].
  assert (forall i, i ∈ rs ->
            exists r', objs w' !! i = Some r' /\ hasStarted r' = true) as Hst.
  { intros i Hi. destruct (Hall i Hi) as [r Hr].
    destruct (Ho _ _ Hr) as (r' & Hr' & _ & Hin). eauto. }
  split; [exact Hst|].
  assert (runners_ w' = Some rs) as Hrs' by congruence.
  unfold hasAnimationStarted.
  rewrite (bind_ok _ _ _ _ (f_equal fst (getRunners_ok _ _ Hrs'))).
  rewrite (getRunners_ok _ _ Hrs'). simpl.
  unfold bind, get, ret. simpl. do 2 f_equal.
  destruct rs as [|i rs']; [reflexivity|].
  rewrite bool_decide_eq_true_2 by discriminate. simpl.
  destruct (Hst i) as (r' & Hr' & Hs'); [left|]. rewrite Hr'. simpl.
  rewrite Hs'. reflexivity.
Qed.


(** ** Executing a scheduled activity *)

(** Every pending promise of [w] is pending in [w']. *)
Definition keeps_pending (w w' : World) : Prop :=
  forall q, is_pending w q -> is_pending w' q.

Lemma SeqWF_kept w w' :
  sequence_ w' = sequence_ w -> keeps_pending w w' -> SeqWF w -> SeqWF w'.
Proof.
  intros Hs Hp Hwf id p. unfold inflight. rewrite Hs. intros Hin.
  destruct (Hwf id p Hin) as (H1 & H2 & H3). split; [auto|]. split; [exact H2|].
  intros id' Hin'. apply H3. exact Hin'.
Qed.

Lemma then_keeps_pending p cb w : keeps_pending w (exec (then_ p cb) w).
Proof.
  intros q [rs Hq]. unfold is_pending, exec, then_, react.
  unfold bind, newPromise, get. simpl.
  assert ((promises w ++ [Pending []]) !! q = Some (Pending rs)) as Hq'
    by (apply lookup_app_l_Some; exact Hq).
  destruct ((promises w ++ [Pending []]) !! p) as [[rs'|]|] eqn:Hp; simpl; eauto.
  destruct (decide (q = p)) as [->|Hne].
  - eexists. apply list_lookup_insert_eq. eapply lookup_lt_Some; eauto.
  - exists rs. rewrite list_lookup_insert_ne by congruence. exact Hq'.
Qed.

Lemma SeqWF_then p cb w : SeqWF w -> SeqWF (exec (then_ p cb) w).
Proof.
  apply SeqWF_kept; [apply then_frame|apply then_keeps_pending].
Qed.

Lemma SeqWF_objs f w : SeqWF w -> SeqWF (set_objs f w).
Proof. apply SeqWF_kept; [reflexivity|intros q H; exact H]. Qed.

Lemma SeqWF_emit e w : SeqWF w -> SeqWF (emit e w).
Proof. apply SeqWF_kept; [reflexivity|intros q H; exact H]. Qed.

(** A computation on the bus: it returns, records calls on the bus only,
    may queue microtasks, and leaves the runners and the runner list
    alone. *)
Definition bus_only (m : M unit) (w : World) : Prop :=
  exists new added w',
    m w = (Ok tt, w') /\ trace w' = new ++ trace w /\ Forall seqE new /\
    objs w' = objs w /\ runners_ w' = runners_ w /\
    microtasks w' = microtasks w ++ added /\
    SeqWF w'.

Lemma bus_only_ret w : SeqWF w -> bus_only (ret tt) w.
Proof.
  intros Hwf. exists [], [], w. split; [reflexivity|]. split; [reflexivity|].
  split; [constructor|]. split; [reflexivity|]. split; [reflexivity|].
  split; [|exact Hwf]. rewrite app_nil_r. reflexivity.
Qed.

Lemma bus_only_notifyFinish id w : SeqWF w -> bus_only (notifyFinish id) w.
Proof.
  intros Hwf. pose proof (SeqWF_notifyFinish w id Hwf) as Hwf'. unfold exec in Hwf'.
  unfold bus_only. destruct (inflight w id) as [p|] eqn:Hin.
  - destruct (Hwf _ _ Hin) as ([rs Hp] & Hr & _).
    rewrite (notifyFinish_inflight _ _ _ _ Hin Hr Hp) in *.
    eexists [SeqResolve id; SeqNotifyFinish id], (JReact <$> rs), _.
    split; [reflexivity|]. split; [reflexivity|]. split.
    { repeat constructor; exists id; auto. }
    split; [reflexivity|]. split; [reflexivity|]. split; [reflexivity|exact Hwf'].
  - rewrite (notifyFinish_idle _ _ Hin) in *.
    eexists [SeqNotifyFinish id], [], _.
    split; [reflexivity|]. split; [reflexivity|]. split.
    { repeat constructor; exists id; auto. }
    split; [reflexivity|]. split; [reflexivity|]. split; [|exact Hwf'].
    simpl. rewrite app_nil_r. reflexivity.
Qed.

Lemma bus_only_bind (m k : M unit) w :
  bus_only m w -> (forall w1, SeqWF w1 -> objs w1 = objs w -> bus_only k w1) ->
  bus_only (m >> k) w.
Proof.
  intros (n1 & a1 & w1 & H1 & Ht1 & Hn1 & Ho1 & Hr1 & Hq1 & Hwf1) Hk.
  destruct (Hk w1 Hwf1 Ho1) as (n2 & a2 & w2 & H2 & Ht2 & Hn2 & Ho2 & Hr2 & Hq2 & Hwf2).
  exists (n2 ++ n1), (a1 ++ a2), w2. unfold bind. rewrite H1. split; [exact H2|].
  split; [rewrite Ht2, Ht1; apply app_assoc|].
  split; [apply Forall_app; auto|].
  split; [congruence|]. split; [congruence|]. split; [|exact Hwf2].
  rewrite Hq2, Hq1. symmetry. apply app_assoc.
Qed.

Lemma bus_only_notifyFinish_ i w r :
  objs w !! i = Some r -> SeqWF w -> bus_only (notifyFinish_ i) w.
Proof.
  intros Hr Hwf. unfold bus_only, notifyFinish_, bind.
  rewrite (getRunner_Some _ _ _ Hr).
  destruct (bool_decide _);
    [exact (bus_only_notifyFinish _ _ Hwf)|exact (bus_only_ret _ Hwf)].
Qed.

Lemma bus_only_fire i l : forall w r,
  objs w !! i = Some r -> SeqWF w -> bus_only (fire i l) w.
Proof.
  induction l as [|s l IH]; intros w r Hr Hwf; simpl.
  - apply bus_only_ret. exact Hwf.
  - apply bus_only_bind.
    + unfold playStateChanged. destruct (bool_decide _);
        [apply (bus_only_notifyFinish_ i w r); assumption
        |apply bus_only_ret; exact Hwf].
    + intros w1 Hwf1 Ho1. apply (IH w1 r); [rewrite Ho1; exact Hr|exact Hwf1].
Qed.

Lemma hostInvoke_spec i c w r h :
  objs w !! i = Some r -> host r = Some h -> SeqWF w ->
  exists new added w',
    hostInvoke i c w = (Ok tt, w') /\
    trace w' = new ++ effect_of c i :: trace w /\ Forall seqE new /\
    objs w' =
      alter (set_host (Some {| playState := fst (host_call c (playState h));
                               subscribed := subscribed h |})) i (objs w) /\
    runners_ w' = runners_ w /\
    microtasks w' = microtasks w ++ added /\
    SeqWF w'.
Proof.
  intros Hr Hh Hwf. unfold hostInvoke, bind.
  rewrite (getRunner_Some _ _ _ Hr), Hh. simpl.
  set (w2 := set_objs _ (emit _ w)).
  assert (bus_only (if subscribed h then fire i (snd (host_call c (playState h)))
                    else ret tt) w2) as Hb.
  { assert (SeqWF w2) as Hwf2 by (apply SeqWF_objs, SeqWF_emit, Hwf).
    destruct (subscribed h); [|apply bus_only_ret; exact Hwf2].
    eapply bus_only_fire; [|exact Hwf2]. unfold w2. apply objs_alter. exact Hr. }
  destruct Hb as (new & added & w' & H1 & H2 & H3 & H4 & H5 & H6 & H7).
  exists new, added, w'. rewrite H1. split; [reflexivity|].
  split; [exact H2|]. split; [exact H3|]. split; [exact H4|].
  split; [exact H5|]. split; [exact H6|exact H7].
Qed.

(** What executing an activity leaves of runner [r]: the fields that say
    what is scheduled and whether the host runner is resolved are as they
    were. *)
Definition executed (r r' : AnimationRunner) : Prop :=
  target_ r' = target_ r /\ animationDef_ r' = animationDef_ r /\
  delay_ r' = delay_ r /\ runner_ r' = runner_ r /\
  scheduledActivity_ r' = scheduledActivity_ r /\
  scheduledWait_ r' = scheduledWait_ r.

Lemma startWhenReady_spec i w r h :
  objs w !! i = Some r -> host r = Some h -> SeqWF w ->
  let c := if runnerReset_ r then CallStart else CallResume in
  exists new w' r',
    startWhenReady_ i w = (Ok tt, w') /\
    trace w' = new ++ effect_of c i :: trace w /\ Forall seqE new /\
    objs w' !! i = Some r' /\ executed r r' /\
    runnerReset_ r' = false /\ firstFrameApplied_ r' = false /\
    host r' = Some {| playState := fst (host_call c (playState h));
                      subscribed := subscribed h |} /\
    (forall j, j <> i -> objs w' !! j = objs w !! j) /\
    runners_ w' = runners_ w /\
    SeqWF w'.
Proof.
  intros Hr Hh Hwf c. unfold startWhenReady_, bind.
  rewrite (getRunner_Some _ _ _ Hr). simpl.
  set (w1 := set_objs (alter (set_runnerReset false) i) w).
  assert (objs w1 !! i = Some (set_runnerReset false r)) as Hr1
    by (apply objs_alter; exact Hr).
  assert (SeqWF w1) as Hwf1 by (apply SeqWF_objs, Hwf).
  assert ((if runnerReset_ r then hostInvoke i CallStart else hostInvoke i CallResume)
          = hostInvoke i c) as -> by (unfold c; destruct (runnerReset_ r); reflexivity).
  unfold resetFirstFrame_, bind. rewrite (getRunner_Some _ _ _ Hr1). simpl.
  destruct (firstFrameApplied_ r) eqn:Hff; simpl.
  - rewrite then_total. simpl.
    set (w2 := set_objs (alter (set_firstFrameApplied false) i) w1).
    set (w3 := exec (then_ (keyframes_ r) (CbResetFirstFrame i)) w2).
    assert (objs w3 !! i = Some (set_firstFrameApplied false (set_runnerReset false r)))
      as Hr3.
    { unfold w3. rewrite (proj2 (then_runners _ _ _)). apply objs_alter. exact Hr1. }
    assert (SeqWF w3) as Hwf3 by (apply SeqWF_then, SeqWF_objs, Hwf1).
    destruct (hostInvoke_spec i c w3 _ h Hr3 Hh Hwf3)
      as (new & added & w' & H1 & H2 & H3 & H4 & H5 & H6 & H7).
    exists new, w'. eexists. split; [exact H1|].
    destruct (then_frame (keyframes_ r) (CbResetFirstFrame i) w2) as (Ft & Fo & _ & _).
    destruct (then_runners (keyframes_ r) (CbResetFirstFrame i) w2) as (Fr & _).
    fold w3 in Ft, Fo, Fr.
    split; [rewrite H2, Ft; reflexivity|]. split; [exact H3|].
    split; [rewrite H4, list_lookup_alter_eq, Hr3; reflexivity|].
    split; [repeat split|]. split; [reflexivity|]. split; [reflexivity|].
    split; [reflexivity|]. split.
    { intros j Hj. rewrite H4, list_lookup_alter_ne by congruence.
      rewrite Fo. simpl. rewrite !list_lookup_alter_ne by congruence. reflexivity. }
    split; [rewrite H5, Fr; reflexivity|exact H7].
  - destruct (hostInvoke_spec i c w1 _ h Hr1 Hh Hwf1)
      as (new & added & w' & H1 & H2 & H3 & H4 & H5 & H6 & H7).
    exists new, w'. eexists. split; [exact H1|].
    split; [exact H2|]. split; [exact H3|].
    split; [rewrite H4, list_lookup_alter_eq, Hr1; reflexivity|].
    split; [repeat split|]. split; [reflexivity|]. split; [exact Hff|].
    split; [reflexivity|]. split.
    { intros j Hj. rewrite H4, list_lookup_alter_ne by congruence.
      simpl. rewrite list_lookup_alter_ne by congruence. reflexivity. }
    split; [exact H5|exact H7].
Qed.

Lemma finishWhenReady_spec i w r h :
  objs w !! i = Some r -> host r = Some h -> SeqWF w ->
  if bool_decide (playState h = RUNNING)
  then exists new w' r',
    finishWhenReady_ i w = (Ok tt, w') /\
    trace w' = new ++ HostFinish i :: trace w /\ Forall seqE new /\
    objs w' !! i = Some r' /\ executed r r' /\
    runnerReset_ r' = true /\ firstFrameApplied_ r' = firstFrameApplied_ r /\
    host r' = Some {| playState := fst (host_call CallFinish (playState h));
                      subscribed := subscribed h |} /\
    (forall j, j <> i -> objs w' !! j = objs w !! j) /\
    runners_ w' = runners_ w /\
    SeqWF w'
  else finishWhenReady_ i w = (Ok tt, w).
Proof.
  intros Hr Hh Hwf. unfold finishWhenReady_, bind.
  rewrite (getRunner_Some _ _ _ Hr), Hh.
  destruct (bool_decide (playState h = RUNNING)); [|reflexivity].
  destruct (hostInvoke_spec i CallFinish w r h Hr Hh Hwf)
    as (new & added & w1 & H1 & H2 & H3 & H4 & H5 & H6 & H7).
  exists new. rewrite H1. simpl. do 2 eexists. split; [reflexivity|]. simpl.
  split; [exact H2|]. split; [exact H3|].
  split; [rewrite H4, !list_lookup_alter_eq, Hr; reflexivity|].
  split; [repeat split|]. split; [reflexivity|]. split; [reflexivity|].
  split; [reflexivity|]. split.
  { intros j Hj. rewrite H4, !list_lookup_alter_ne by congruence. reflexivity. }
  split; [exact H5|]. apply SeqWF_objs. exact H7.
Qed.

Lemma resolvePromise_quiet p w : quiet w (exec (resolvePromise p) w).
Proof.
  unfold exec, resolvePromise. destruct (promises w !! p) as [[rs|]|]; repeat split.
Qed.

(** The microtask of a playback callback. *)
Lemma tick_playback i a out q w w' :
  microtasks w = JReact (RThen (CbPlayback i a) out) :: q ->
  playbackFire i a (set_microtasks (drop 1) w) = (Ok tt, w') ->
  exec tick w = exec (resolvePromise out) w'.
Proof.
  intros Hq Hf. unfold exec, tick, bind, get. simpl. rewrite Hq. simpl.
  unfold bind. rewrite Hf. reflexivity.
Qed.

(** The world after [start()] on a resolved runner without dependency and
    without delay. *)
Definition started_now (i : nat) (w : World) : World :=
  let n := length (promises w) in
  set_microtasks (fun q => q ++ [JReact (RThen (CbPlayback i START) (S n))])
    (set_promises (fun ps => ps ++ [Pending []])
       (set_objs (alter (set_scheduledWait (Some n)) i)
          (set_objs (alter (set_scheduledActivity (Some START)) i)
             (set_promises (fun ps => ps ++ [Resolved]) w)))).

Definition no_dependency (r : AnimationRunner) : Prop :=
  startAfterId (animationDef_ r) = None \/ startAfterId (animationDef_ r) = Some "".

Lemma start_now i w r :
  objs w !! i = Some r -> runner_ r = true -> hasStarted r = false ->
  no_dependency r -> delay_ r = 0 ->
  start i w = (Ok tt, started_now i w).
Proof.
  intros Hr Hrun Hs Hdep Hdel. unfold start, bind.
  rewrite (getRunner_Some _ _ _ Hr), Hs.
  unfold getStartWaitPromise_, bind. rewrite (getRunner_Some _ _ _ Hr). simpl.
  assert (match startAfterId (animationDef_ r) with
          | Some id => if bool_decide (id ≠ "")
                       then then_ (length (promises w)) (CbWaitFor i)
                       else ret (length (promises w))
          | None => ret (length (promises w))
          end = ret (length (promises w))) as ->.
  { destruct Hdep as [-> | ->]; reflexivity. }
  simpl. rewrite Hdel. simpl.
  unfold playback_, bind, updRunner, modify. simpl.
  erewrite getRunner_Some by (apply objs_alter, objs_alter; exact Hr). simpl.
  rewrite Hrun. unfold playbackWhenReady_, bind.
  erewrite getRunner_Some by (apply objs_alter, objs_alter; exact Hr). simpl.
  rewrite Hrun. simpl. rewrite then_resolved.
  - simpl. rewrite length_app. simpl.
    replace (length (promises w) + 1)%nat with (S (length (promises w))) by lia.
    reflexivity.
  - simpl. rewrite lookup_app_r by lia.
    replace (_ - _)%nat with 0%nat by lia. reflexivity.
Qed.

Lemma started_now_SeqWF i w f g h :
  SeqWF w -> SeqWF (set_objs f (set_objs g (set_microtasks h (started_now i w)))).
Proof.
  apply SeqWF_kept; [reflexivity|]. intros q [rs Hq]. exists rs. simpl.
  apply lookup_app_l_Some, lookup_app_l_Some. exact Hq.
Qed.

(** X9. On a runner whose host runner is resolved, that has not started,
    and that declares neither a dependency nor a delay, [start()] itself
    calls nothing, and the microtask it has queued then calls the host
    runner: [start] if the runner is reset (as it is when new, and after a
    [cancel] or an executed FINISH), [resume] otherwise. After that nothing
    is scheduled, the runner is not reset and its first frame is not
    applied. *)
Theorem start_reaches_host_in_next_microtask (w : World) (i : nat)
    (r : AnimationRunner) (h : WebAnimationRunner) :
  SeqWF w ->
  objs w !! i = Some r ->
  runner_ r = true -> host r = Some h ->
  hasStarted r = false ->
  no_dependency r -> delay_ r = 0 ->
  microtasks w = [] ->
  let c := if runnerReset_ r then CallStart else CallResume in
  let w1 := exec (start i) w in
  let w2 := exec tick w1 in
  trace w1 = trace w /\
  exists new r',
    trace w2 = new ++ effect_of c i :: trace w /\ Forall seqE new /\
    objs w2 !! i = Some r' /\
    scheduledActivity_ r' = None /\
    runnerReset_ r' = false /\ firstFrameApplied_ r' = false /\
    host r' = Some {| playState := fst (host_call c (playState h));
                      subscribed := subscribed h |}.
Proof.
  intros Hwf Hr Hrun Hh Hs Hdep Hdel Hq c w1 w2.
  assert (w1 = started_now i w) as Hw1.
  { unfold w1, exec. rewrite (start_now i w r); auto. }
  split; [rewrite Hw1; reflexivity|].
  set (n := length (promises w)).
  set (r1 := set_scheduledWait (Some n) (set_scheduledActivity (Some START) r)).
  set (wq := set_microtasks (drop 1) w1).
  assert (objs wq !! i = Some r1) as Hr1.
  { unfold wq. rewrite Hw1. simpl. rewrite !list_lookup_alter_eq, Hr. reflexivity. }
  set (wc := set_objs (alter (set_scheduledWait None) i)
               (set_objs (alter (set_scheduledActivity None) i) wq)).
  set (r2 := set_scheduledWait None (set_scheduledActivity None r1)).
  assert (objs wc !! i = Some r2) as Hr2 by (apply objs_alter, objs_alter; exact Hr1).
  assert (SeqWF wc) as Hwfc.
  { unfold wc, wq. rewrite Hw1. apply started_now_SeqWF. exact Hwf. }
  destruct (startWhenReady_spec i wc r2 h Hr2 Hh Hwfc)
    as (new & w' & r' & H1 & H2 & H3 & H4 & H5 & H6 & H7 & H8 & _).
  assert (playbackFire i START wq = (Ok tt, w')) as Hfire.
  { unfold playbackFire, bind. rewrite (getRunner_Some _ _ _ Hr1). simpl.
    unfold updRunner, modify. simpl. exact H1. }
  assert (microtasks w1 = [JReact (RThen (CbPlayback i START) (S n))]) as Hq1.
  { rewrite Hw1. simpl. rewrite Hq. reflexivity. }
  unfold w2. rewrite (tick_playback _ _ _ _ _ _ Hq1 Hfire).
  destruct (resolvePromise_quiet (S n) w') as (Qo & Qt & _).
  exists new, r'. rewrite Qt, Qo.
  split; [rewrite H2; unfold wc, wq; rewrite Hw1; reflexivity|].
  split; [exact H3|]. split; [exact H4|].
  destruct H5 as (_ & _ & _ & _ & Hact & _).
  split; [rewrite Hact; reflexivity|]. split; [exact H6|]. split; [exact H7|].
  exact H8.
Qed.

(** X10. On a runner whose host runner is resolved and whose first frame is
    not applied, [finish()] itself calls nothing, and the microtask it has
    queued then calls [finish] on the host runner if that is RUNNING, and
    marks the runner as reset so that the next START starts it afresh; if
    the host runner is not RUNNING the microtask only empties the slot. *)
Theorem finish_reaches_host_only_if_running (w : World) (i : nat)
    (r : AnimationRunner) (h : WebAnimationRunner) :
  SeqWF w ->
  objs w !! i = Some r ->
  runner_ r = true -> host r = Some h ->
  firstFrameApplied_ r = false ->
  microtasks w = [] ->
  let w1 := exec (finish i) w in
  let w2 := exec tick w1 in
  trace w1 = trace w /\
  exists r',
    objs w2 !! i = Some r' /\ scheduledActivity_ r' = None /\
    if bool_decide (playState h = RUNNING)
    then (exists new, trace w2 = new ++ HostFinish i :: trace w /\ Forall seqE new) /\
         runnerReset_ r' = true /\
         host r' = Some {| playState := fst (host_call CallFinish (playState h));
                           subscribed := subscribed h |}
    else trace w2 = trace w /\ runnerReset_ r' = runnerReset_ r /\ host r' = Some h.
Proof.
  intros Hwf Hr Hrun Hh Hff Hq w1 w2.
  set (n := length (promises w)).
  set (w1' :=
    set_microtasks (fun q => q ++ [JReact (RThen (CbPlayback i FINISH) (S n))])
      (set_promises (fun ps => ps ++ [Pending []])
         (set_promises (fun ps => ps ++ [Resolved])
            (set_objs (alter (set_scheduledWait None) i)
               (set_objs (alter (set_scheduledActivity (Some FINISH)) i) w))))).
  assert (w1 = w1') as Hw1.
  { unfold w1, exec, finish, bind. rewrite (getRunner_Some _ _ _ Hr), Hff. simpl.
    unfold resetFirstFrame_, bind. rewrite (getRunner_Some _ _ _ Hr), Hff. simpl.
    unfold playback_, bind, updRunner, modify. simpl.
    erewrite getRunner_Some by (apply objs_alter, objs_alter; exact Hr). simpl.
    rewrite Hrun. unfold playbackWhenReady_, bind.
    erewrite getRunner_Some by (apply objs_alter, objs_alter; exact Hr). simpl.
    rewrite Hrun. simpl. rewrite then_resolved.
    - simpl. rewrite length_app. simpl.
      replace (length (promises w) + 1)%nat with (S (length (promises w))) by lia.
      reflexivity.
    - simpl. rewrite lookup_app_r by lia.
      replace (_ - _)%nat with 0%nat by lia. reflexivity. }
  split; [rewrite Hw1; reflexivity|].
  set (r1 := set_scheduledWait None (set_scheduledActivity (Some FINISH) r)).
  set (wq := set_microtasks (drop 1) w1).
  assert (objs wq !! i = Some r1) as Hr1.
  { unfold wq. rewrite Hw1. simpl. rewrite !list_lookup_alter_eq, Hr. reflexivity. }
  set (wc := set_objs (alter (set_scheduledWait None) i)
               (set_objs (alter (set_scheduledActivity None) i) wq)).
  set (r2 := set_scheduledWait None (set_scheduledActivity None r1)).
  assert (objs wc !! i = Some r2) as Hr2 by (apply objs_alter, objs_alter; exact Hr1).
  assert (SeqWF wc) as Hwfc.
  { unfold wc, wq. rewrite Hw1. revert Hwf. apply SeqWF_kept; [reflexivity|].
    intros q [rs Hq']. exists rs. simpl.
    apply lookup_app_l_Some, lookup_app_l_Some. exact Hq'. }
  assert (microtasks w1 = [JReact (RThen (CbPlayback i FINISH) (S n))]) as Hq1.
  { rewrite Hw1. simpl. rewrite Hq. reflexivity. }
  pose proof (finishWhenReady_spec i wc r2 h Hr2 Hh Hwfc) as Hfin.
  assert (playbackFire i FINISH wq = finishWhenReady_ i wc) as Hfire.
  { unfold playbackFire, bind. rewrite (getRunner_Some _ _ _ Hr1). reflexivity. }
  destruct (bool_decide (playState h = RUNNING)).
  - destruct Hfin as (new & w' & r' & H1 & H2 & H3 & H4 & H5 & H6 & H7 & H8 & _).
    rewrite <- Hfire in H1. unfold w2. rewrite (tick_playback _ _ _ _ _ _ Hq1 H1).
    destruct (resolvePromise_quiet (S n) w') as (Qo & Qt & _).
    exists r'. rewrite Qt, Qo. split; [exact H4|].
    destruct H5 as (_ & _ & _ & _ & Hact & _).
    split; [rewrite Hact; reflexivity|]. split; [|split; assumption].
    exists new. split; [|exact H3]. rewrite H2. unfold wc, wq. rewrite Hw1. reflexivity.
  - rewrite <- Hfire in Hfin. unfold w2. rewrite (tick_playback _ _ _ _ _ _ Hq1 Hfin).
    destruct (resolvePromise_quiet (S n) wc) as (Qo & Qt & _).
    exists r2. rewrite Qt, Qo. split; [exact Hr2|]. split; [reflexivity|].
    split; [unfold wc, wq; rewrite Hw1; reflexivity|]. split; [reflexivity|exact Hh].
Qed.


(** ** [cancel()] and [cancelAll()] *)

Lemma host_running_host r :
  host_running r = true ->
  runner_ r = true /\ exists h, host r = Some h /\ playState h = RUNNING.
Proof.
  unfold host_running. intros H. apply andb_true_iff in H as [H1 H2].
  split; [exact H1|]. apply bool_decide_eq_true in H2.
  destruct (host r) as [h|]; [|discriminate]. exists h. split; [reflexivity|].
  simpl in H2. congruence.
Qed.

Lemma cancel_spec i w r :
  objs w !! i = Some r -> SeqWF w ->
  exists new w' r',
    cancel i w = (Ok tt, w') /\
    trace w' = new ++ (if host_running r then [HostCancel i] else []) ++ trace w /\
    Forall seqE new /\
    objs w' !! i = Some r' /\
    scheduledActivity_ r' = None /\ scheduledWait_ r' = None /\
    runnerReset_ r' = (host_running r || runnerReset_ r) /\
    (forall j, j <> i -> objs w' !! j = objs w !! j) /\
    runners_ w' = runners_ w /\
    SeqWF w'.
Proof.
  intros Hr Hwf. unfold cancel, bind, updRunner, modify. simpl.
  set (wc := set_objs (alter (set_scheduledWait None) i)
               (set_objs (alter (set_scheduledActivity None) i) w)).
  set (r2 := set_scheduledWait None (set_scheduledActivity None r)).
  assert (objs wc !! i = Some r2) as Hr2 by (apply objs_alter, objs_alter; exact Hr).
  assert (SeqWF wc) as Hwfc by (apply SeqWF_objs, SeqWF_objs, Hwf).
  rewrite (getRunner_Some _ _ _ Hr2).
  assert (hasStarted r2 = host_running r) as -> by reflexivity.
  destruct (host_running r) eqn:Hrun.
  - destruct (host_running_host r Hrun) as (Hres & h & Hh & _).
    assert (runner_ r2 = true) as -> by exact Hres. simpl.
    destruct (hostInvoke_spec i CallCancel wc r2 h Hr2 Hh Hwfc)
      as (new & added & w1 & H1 & H2 & H3 & H4 & H5 & H6 & H7).
    rewrite H1. exists new. do 2 eexists. split; [reflexivity|]. simpl.
    split; [exact H2|]. split; [exact H3|].
    split; [rewrite H4, !list_lookup_alter_eq, Hr2; reflexivity|].
    split; [reflexivity|]. split; [reflexivity|]. split; [reflexivity|].
    split.
    { intros j Hj. rewrite H4. unfold wc. simpl.
      rewrite !list_lookup_alter_ne by congruence. reflexivity. }
    split; [exact H5|]. apply SeqWF_objs. exact H7.
  - exists [], wc, r2. split; [reflexivity|]. split; [reflexivity|].
    split; [constructor|]. split; [exact Hr2|].
    split; [reflexivity|]. split; [reflexivity|]. split; [reflexivity|].
    split; [|split; [reflexivity|exact Hwfc]].
    intros j Hj. unfold wc. simpl.
    rewrite !list_lookup_alter_ne by congruence. reflexivity.
Qed.

(** The calls [cancelAll()] may make from [w] on the runners [rs]. *)
Definition cancelE (w : World) (rs : list nat) (e : Effect) : Prop :=
  seqE e \/
  exists i r, i ∈ rs /\ objs w !! i = Some r /\ host_running r = true /\
              e = HostCancel i.

Lemma forEach_cancel rs : forall w,
  NoDup rs ->
  (forall i, i ∈ rs -> is_Some (objs w !! i)) ->
  SeqWF w ->
  exists new w',
    forEach cancel rs w = (Ok tt, w') /\
    trace w' = new ++ trace w /\
    Forall (cancelE w rs) new /\
    (forall i r, i ∈ rs -> objs w !! i = Some r -> host_running r = true ->
       HostCancel i ∈ new) /\
    (forall i, i ∈ rs ->
       exists r', objs w' !! i = Some r' /\
                  scheduledActivity_ r' = None /\ scheduledWait_ r' = None) /\
    (forall j, j ∉ rs -> objs w' !! j = objs w !! j) /\
    runners_ w' = runners_ w /\
    SeqWF w'.
Proof.
  induction rs as [|i rs IH]; intros w Hnd Hall Hwf.
  - exists [], w. split; [reflexivity|]. split; [reflexivity|].
    split; [constructor|]. split.
    { intros i r Hi. apply elem_of_nil in Hi. contradiction. }
    split.
    { intros i Hi. apply elem_of_nil in Hi. contradiction. }
    split; [reflexivity|]. split; [reflexivity|exact Hwf].
  - apply NoDup_cons in Hnd as [Hi Hnd].
    destruct (Hall i (list_elem_of_here _ _)) as [r Hr].
    destruct (cancel_spec i w r Hr Hwf)
      as (n1 & w1 & r1 & H1 & Ht1 & Hs1 & Ho1 & Ha1 & Hw1 & _ & Hf1 & Hn1 & Hwf1).
    assert (forall k, k ∈ rs -> objs w1 !! k = objs w !! k) as Hsame.
    { intros k Hk. apply Hf1. intros ->. contradiction. }
    destruct (IH w1 Hnd) as (n2 & w2 & H2 & Ht2 & Hs2 & Hc2 & Ho2 & Hf2 & Hn2 & Hwf2).
    { intros k Hk. rewrite Hsame by exact Hk. apply Hall. right. exact Hk. }
    { exact Hwf1. }
    exists (n2 ++ n1 ++ (if host_running r then [HostCancel i] else [])), w2.
    rewrite forEach_cons, H1. split; [exact H2|].
    split; [rewrite Ht2, Ht1, <- !app_assoc; reflexivity|].
    split.
    { apply Forall_app. split; [|apply Forall_app; split].
      - eapply Forall_impl; [exact Hs2|]. intros e [He|(k & rk & Hk & Hrk & Hrun & ->)].
        + left. exact He.
        + right. exists k, rk. split; [apply list_elem_of_further; exact Hk|].
          split; [rewrite <- Hsame by exact Hk; exact Hrk|]. auto.
      - eapply Forall_impl; [exact Hs1|]. intros e He. left. exact He.
      - destruct (host_running r) eqn:Hrun; [|constructor].
        constructor; [|constructor].
        right. exists i, r. split; [apply list_elem_of_here|]. auto. }
    split.
    { intros k rk Hk Hrk Hrun. apply elem_of_cons in Hk as [->|Hk].
      - rewrite Hr in Hrk. injection Hrk as <-. rewrite Hrun.
        apply elem_of_app. right. apply elem_of_app. right.
        apply list_elem_of_here.
      - apply elem_of_app. left. apply (Hc2 k rk Hk); [|exact Hrun].
        rewrite Hsame by exact Hk. exact Hrk. }
    split.
    { intros k Hk. apply elem_of_cons in Hk as [->|Hk]; [|apply Ho2; exact Hk].
      exists r1. rewrite Hf2 by exact Hi. auto. }
    split.
    { intros j Hj. apply not_elem_of_cons in Hj as [Hji Hj].
      rewrite Hf2 by exact Hj. apply Hf1. exact Hji. }
    split; [congruence|exact Hwf2].
Qed.

(** X11. Once the runners exist (and the bus is in order), [cancelAll()]
    does not raise; when it returns no runner of the manager has an
    activity or a wait scheduled; it has called [cancel] on the host runner
    of exactly those runners whose host runner was resolved and RUNNING,
    and has made no other call but on the bus, from the handlers of the
    host runners. *)
Theorem cancelAll_clears_every_runner (w : World) (rs : list nat) :
  runners_ w = Some rs ->
  NoDup rs ->
  (forall i, i ∈ rs -> is_Some (objs w !! i)) ->
  SeqWF w ->
  exists new w',
    cancelAll w = (Ok tt, w') /\
    trace w' = new ++ trace w /\
    (forall i, i ∈ rs ->
       exists r', objs w' !! i = Some r' /\
                  scheduledActivity_ r' = None /\ scheduledWait_ r' = None) /\
    (forall i, HostCancel i ∈ new <->
       exists r, i ∈ rs /\ objs w !! i = Some r /\ host_running r = true) /\
    Forall (fun e => seqE e \/ exists i, e = HostCancel i) new.
Proof.
  intros Hrs Hnd Hall Hwf.
  destruct (forEach_cancel rs w Hnd Hall Hwf)
    as (new & w' & H1 & Ht & Hs & Hc & Ho & _ & _ & _).
  exists new, w'. unfold cancelAll.
  rewrite (bind_ok get _ w w) by reflexivity. simpl. rewrite Hrs.
  rewrite (bind_ok _ _ _ _ (f_equal fst (getRunners_ok _ _ Hrs))).
  rewrite (getRunners_ok _ _ Hrs). simpl.
  split; [exact H1|]. split; [exact Ht|]. split; [exact Ho|]. split.
  - intros i. split.
    + intros Hin. rewrite Forall_forall in Hs. destruct (Hs _ Hin) as [He|He].
      * destruct He as [id [He|He]]; discriminate He.
      * destruct He as (k & rk & Hk & Hrk & Hrun & [= ->]). eauto.
    + intros (r & Hi & Hr & Hrun). eapply Hc; eauto.
  - eapply Forall_impl; [exact Hs|].
    intros e [He|(k & rk & _ & _ & _ & ->)]; eauto.
Qed.


(** ** Where the calls come from *)

(** The callback of the microtask that is next in the queue. *)
Definition next_callback (w : World) : option Callback :=
  match microtasks w with
  | JReact (RThen cb _) :: _ => Some cb
  | _ => None
  end.

(** What must be the case for event [ev] in world [w] to make call [e]. *)
Definition origin (w : World) (ev : Event) (e : Effect) : Prop :=
  match e with
  | HostStart i | HostResume i =>
      ev = Tick /\ next_callback w = Some (CbPlayback i START)
  | HostFinish i =>
      ev = Tick /\ next_callback w = Some (CbPlayback i FINISH)
  | HostCancel i => ev = CallCancel_ i \/ ev = CallCancelAll
  | TimerPromise i _ => ev = Tick /\ next_callback w = Some (CbTimer i)
  | VsyncMeasure _ => ev = CallManagerApplyFirstFrame
  | VsyncMutate i _ =>
      ev = Tick /\
      (next_callback w = Some (CbApplyFirstFrame i) \/
       next_callback w = Some (CbResetFirstFrame i))
  | SeqNotifyFinish _ | SeqResolve _ =>
      match ev with
      | Tick => exists i a, next_callback w = Some (CbPlayback i a)
      | PlayStateChanges _ _ | CallFinish_ _ | CallFinishAll
      | CallCancel_ _ | CallCancelAll => True
      | _ => False
      end
  end.

(** X12. Whatever happens, a host runner is started, resumed or finished
    only by the microtask of the playback callback of its runner, for a
    START and a FINISH respectively: never inside [start()], [finish()],
    [animateIn()] or [finishAll()], nor when the builder or a promise
    resolves. A host runner is cancelled only inside [cancel()] or
    [cancelAll()]; timers are started and styles written only by the
    microtasks of the callbacks registered for it; layout is measured only
    while the manager applies the first frames; and the bus is notified
    only by [finish()], [finishAll()], a change of play state or a host
    call. *)
Theorem calls_come_from_their_callbacks (w : World) (ev : Event) :
  exists new,
    trace (exec (step ev) w) = new ++ trace w /\ Forall (origin w ev) new.
Proof.
  destruct (emits_step_event w ev) as (new & Ht & Hall).
  exists new. split; [exact Ht|]. eapply Forall_impl; [exact Hall|].
  intros e He. destruct ev; simpl in He; try contradiction.
  - assert (match next_callback w with
            | Some cb => callbackE cb e
            | None => False
            end) as Hcb.
    { unfold next_callback. destruct (microtasks w) as [|j q]; [contradiction|].
      destruct j as [[cb out|out]|p out]; simpl in He; try contradiction.
      exact He. }
    unfold origin. destruct (next_callback w) as [cb|]; [|contradiction].
    destruct cb as [j|j|j|j|j|j|j|j|j|j|j a]; simpl in Hcb; try contradiction.
    + destruct Hcb as [m ->]. simpl. auto.
    + destruct Hcb as [m ->]. simpl. auto.
    + destruct Hcb as [ms ->]. simpl. auto.
    + destruct Hcb as [Hcb|[id [-> | ->]]]; simpl; eauto.
      destruct a; [destruct Hcb as [-> | ->]|subst e]; simpl; auto.
  - destruct He as [id [-> | ->]]; exact I.
  - destruct He as [id [-> | ->]]; exact I.
  - destruct He as [->|[id [-> | ->]]]; simpl; auto.
  - destruct He as [j ->]. reflexivity.
  - destruct He as [id [-> | ->]]; exact I.
  - destruct He as [[j ->]|[id [-> | ->]]]; simpl; auto.
Qed.

(** ** What a run keeps of a runner *)

(** X13. In every run, from any state, a runner that exists goes on
    existing under the same index, with the same target element and the
    same animation definition, and once its host runner is resolved
    ([runner_] is set) it stays resolved. *)
Theorem run_keeps_runner_identity (es : list Event) (w : World) (j : nat)
    (r : AnimationRunner) :
  objs w !! j = Some r ->
  exists r',
    objs (run es w) !! j = Some r' /\
    animationDef_ r' = animationDef_ r /\
    target_ r' = target_ r /\
    (runner_ r = true -> runner_ r' = true).
Proof.
  intros Hr. exact (ext_objs _ _ (extends_run es w) j r Hr).
Qed.


(** ** When the host runner resolves *)

(** The runner once [onRunnerReady_] has stored the host runner and
    subscribed to its play state. *)
Definition made_ready (r : AnimationRunner) : AnimationRunner :=
  set_host ((fun h => {| playState := playState h; subscribed := true |})
              <$> host (set_runner true r))
    (set_runner true r).

(** X14. [onRunnerReady_] stores the host runner, subscribes to its play
    state and registers the playback callback of the activity that is
    scheduled at that moment, once, on the wait of that activity; with
    nothing scheduled it registers nothing. It does not raise and calls
    nothing. So a START that was asked for before the host runner resolved,
    with a wait that has resolved by then, is executed by the next
    microtask: the host runner is started (or resumed, if the runner is not
    reset). *)
Theorem onRunnerReady_executes_what_is_scheduled (w : World) (i : nat)
    (r : AnimationRunner) :
  SeqWF w ->
  objs w !! i = Some r ->
  (forall p, scheduledWait_ r = Some p -> is_Some (promises w !! p)) ->
  let w1 := exec (onRunnerReady_ i) w in
  throws (onRunnerReady_ i) w = false /\
  objs w1 = alter made_ready i (objs w) /\
  trace w1 = trace w /\
  (forall a, registered (CbPlayback i a) w1 =
             (registered (CbPlayback i a) w +
              if decide (scheduledActivity_ r = Some a) then 1 else 0)%nat) /\
  (forall h p,
     scheduledActivity_ r = Some START -> scheduledWait_ r = Some p ->
     promises w !! p = Some Resolved -> host r = Some h ->
     microtasks w = [] ->
     let c := if runnerReset_ r then CallStart else CallResume in
     exists new r',
       trace (exec tick w1) = new ++ effect_of c i :: trace w /\
       Forall seqE new /\
       objs (exec tick w1) !! i = Some r' /\
       scheduledActivity_ r' = None /\ runnerReset_ r' = false).
Proof.
  intros Hwf Hr Hwait w1.
  set (wa := set_objs (alter (fun r => set_host
                 ((fun h => {| playState := playState h; subscribed := true |})
                    <$> host r) r) i)
               (set_objs (alter (set_runner true) i) w)).
  assert (objs wa !! i = Some (made_ready r)) as Hra.
  { exact (objs_alter _ _ _ _ (objs_alter _ _ _ _ Hr)). }
  assert (objs wa = alter made_ready i (objs w)) as Hoa.
  { unfold wa. simpl. rewrite list_alter_alter_eq.
    apply list_alter_ext; [|reflexivity]. intros x _. reflexivity. }
  assert (onRunnerReady_ i w =
          match scheduledActivity_ r with
          | Some a => playbackWhenReady_ i a (scheduledWait_ r) wa
          | None => (Ok tt, wa)
          end) as Hdef.
  { unfold onRunnerReady_, bind, updRunner, modify. simpl. fold wa.
    rewrite (getRunner_Some _ _ _ Hra). unfold isActivityScheduled_. simpl.
    destruct (scheduledActivity_ r); reflexivity. }
  assert (forall a, scheduledActivity_ r = Some a ->
            exists p w0,
              is_Some (promises w0 !! p) /\ quiet wa w0 /\
              microtasks w0 = microtasks w /\
              (forall q, promises w !! q = Some Resolved ->
                         promises w0 !! q = Some Resolved) /\
              (forall cb, registered cb w0 = registered cb w) /\
              (scheduledWait_ r = Some p -> w0 = wa) /\
              playbackWhenReady_ i a (scheduledWait_ r) wa =
                (Ok tt, exec (then_ p (CbPlayback i a)) w0)) as Hpw.
  { intros a Ha. unfold playbackWhenReady_, bind.
    rewrite (getRunner_Some _ _ _ Hra). simpl.
    destruct (scheduledWait_ r) as [p|] eqn:Hsw; simpl.
    - exists p, wa. rewrite then_total. simpl.
      split; [apply Hwait; reflexivity|]. split; [apply quiet_refl|].
      repeat split; auto.
    - exists (length (promises w)), (set_promises (fun ps => ps ++ [Resolved]) wa).
      rewrite then_total. simpl. split.
      { rewrite lookup_app_r by lia. replace (_ - _)%nat with 0%nat by lia. eauto. }
      split; [repeat split|]. split; [reflexivity|]. split.
      { intros q Hq. apply lookup_app_l_Some. exact Hq. }
      split; [|split; [discriminate|reflexivity]].
      intros cb. unfold registered, all_jobs. simpl.
      rewrite bind_app. simpl. rewrite app_nil_r. reflexivity. }
  assert (forall cb, registered cb wa = registered cb w) as Hrega by reflexivity.
  split; [|split; [|split; [|split]]].
  - unfold throws. rewrite Hdef. destruct (scheduledActivity_ r) as [a|] eqn:Ha;
      [|reflexivity].
    destruct (Hpw a eq_refl) as (p & w0 & _ & _ & _ & _ & _ & _ & ->). reflexivity.
  - unfold w1, exec. rewrite Hdef. destruct (scheduledActivity_ r) as [a|] eqn:Ha;
      [|exact Hoa].
    destruct (Hpw a eq_refl) as (p & w0 & _ & (Ho & _) & _ & _ & _ & _ & ->). simpl.
    rewrite (proj2 (then_runners _ _ _)), Ho. exact Hoa.
  - unfold w1, exec. rewrite Hdef. destruct (scheduledActivity_ r) as [a|] eqn:Ha;
      [|reflexivity].
    destruct (Hpw a eq_refl) as (p & w0 & _ & (_ & Ht & _) & _ & _ & _ & _ & ->). simpl.
    rewrite (proj1 (then_frame _ _ _)), Ht. reflexivity.
  - intros a. unfold w1, exec. rewrite Hdef.
    destruct (scheduledActivity_ r) as [a'|] eqn:Ha.
    + destruct (Hpw a' eq_refl) as (p & w0 & Hp & _ & _ & _ & Hreg & _ & ->). simpl.
      fold (exec (then_ p (CbPlayback i a')) w0).
      rewrite (registered_then _ _ _ _ Hp), Hreg. f_equal.
      destruct (decide (CbPlayback i a' = CbPlayback i a)) as [E|E];
        destruct (decide (Some a' = Some a)) as [E'|E']; congruence.
    + cbn [snd]. rewrite Hrega.
      destruct (decide (None = Some a)) as [E|_]; [discriminate E|lia].
  - intros h p Ha Hsw Hp Hh Hq c.
    destruct (Hpw START Ha) as (p' & w0 & _ & _ & _ & _ & _ & Hw0 & Hpb).
    assert (w1 = set_microtasks
                   (fun q => q ++ [JReact (RThen (CbPlayback i START)
                                            (length (promises w)))])
                   (set_promises (fun ps => ps ++ [Pending []]) wa)) as Hw1.
    { unfold w1, exec. rewrite Hdef, Ha. unfold playbackWhenReady_, bind.
      rewrite (getRunner_Some _ _ _ Hra). simpl. rewrite Hsw. simpl.
      rewrite then_resolved by exact Hp. reflexivity. }
    set (n := length (promises w)) in *.
    set (wq := set_microtasks (drop 1) w1).
    assert (objs wq !! i = Some (made_ready r)) as Hrq.
    { unfold wq. rewrite Hw1. simpl. exact Hra. }
    set (wc := set_objs (alter (set_scheduledWait None) i)
                 (set_objs (alter (set_scheduledActivity None) i) wq)).
    set (r2 := set_scheduledWait None (set_scheduledActivity None (made_ready r))).
    assert (objs wc !! i = Some r2) as Hr2
      by (apply objs_alter, objs_alter; exact Hrq).
    assert (SeqWF wc) as Hwfc.
    { unfold wc, wq. rewrite Hw1. revert Hwf. apply SeqWF_kept; [reflexivity|].
      intros q [rs Hq']. exists rs. simpl. apply lookup_app_l_Some. exact Hq'. }
    assert (host r2 = Some {| playState := playState h; subscribed := true |}) as Hh2.
    { unfold r2, made_ready. simpl. rewrite Hh. reflexivity. }
    destruct (startWhenReady_spec i wc r2 _ Hr2 Hh2 Hwfc)
      as (new & w' & r' & H1 & H2 & H3 & H4 & H5 & H6 & _).
    assert (playbackFire i START wq = (Ok tt, w')) as Hfire.
    { unfold playbackFire, bind. rewrite (getRunner_Some _ _ _ Hrq).
      unfold isActivityScheduled_. simpl. rewrite Ha. simpl.
      unfold updRunner, modify. simpl. exact H1. }
    assert (microtasks w1 = [JReact (RThen (CbPlayback i START) n)]) as Hq1.
    { rewrite Hw1. simpl. unfold wa. simpl. rewrite Hq. reflexivity. }
    rewrite (tick_playback _ _ _ _ _ _ Hq1 Hfire).
    destruct (resolvePromise_quiet n w') as (Qo & Qt & _).
    exists new, r'. rewrite Qt, Qo.
    split; [rewrite H2; unfold wc, wq; rewrite Hw1; reflexivity|].
    split; [exact H3|]. split; [exact H4|].
    destruct H5 as (_ & _ & _ & _ & Hact & _).
    split; [rewrite Hact; reflexivity|exact H6].
Qed.


(** ** [applyFirstFrame()] of the manager *)

Lemma mapM_cons {A B} (f : A -> M B) x l w :
  mapM f (x :: l) w =
  match f x w with
  | (Ok y, w1) =>
      match mapM f l w1 with
      | (Ok ys, w2) => (Ok (y :: ys), w2)
      | (Throw e, w2) => (Throw e, w2)
      end
  | (Throw e, w1) => (Throw e, w1)
  end.
Proof.
  simpl. unfold bind. destruct (f x w) as [[y|e] w1]; [|reflexivity].
  destruct (mapM f l w1) as [[ys|e] w2]; reflexivity.
Qed.

Lemma applyFirstFrame_objs i w r :
  objs w !! i = Some r ->
  exists w',
    applyFirstFrame i w = (Ok (length (promises w)), w') /\
    trace w' = trace w /\ sequence_ w' = sequence_ w /\
    runners_ w' = runners_ w /\
    (forall j rj, objs w !! j = Some rj ->
       exists rj', objs w' !! j = Some rj' /\
                   (firstFrameApplied_ rj = true -> firstFrameApplied_ rj' = true) /\
                   (j = i -> firstFrameApplied_ rj' = true)).
Proof.
  intros Hr. unfold applyFirstFrame, bind. rewrite (getRunner_Some _ _ _ Hr).
  destruct (firstFrameApplied_ r) eqn:Hff.
  - eexists. split; [reflexivity|]. do 3 (split; [reflexivity|]).
    intros j rj Hj. exists rj. split; [exact Hj|]. split; [auto|].
    intros ->. congruence.
  - unfold updRunner, modify. simpl. rewrite then_total. simpl.
    eexists. split; [reflexivity|].
    match goal with |- context [exec (then_ ?p ?cb) ?w0] =>
      destruct (then_quiet p cb w0) as (Ho & Ht & Hs & Hn) end.
    rewrite Ho, Ht, Hs, Hn. do 3 (split; [reflexivity|]).
    intros j rj Hj. simpl. destruct (decide (j = i)) as [->|Hne].
    + rewrite list_lookup_alter_eq, Hj. simpl. eexists. split; [reflexivity|].
      split; reflexivity.
    + rewrite list_lookup_alter_ne by congruence. exists rj.
      split; [exact Hj|]. split; [auto|]. intros; contradiction.
Qed.

Lemma mapM_applyFirstFrame rs : forall w,
  (forall i, i ∈ rs -> is_Some (objs w !! i)) ->
  exists ps w',
    mapM applyFirstFrame rs w = (Ok ps, w') /\
    length ps = length rs /\
    trace w' = trace w /\ sequence_ w' = sequence_ w /\
    runners_ w' = runners_ w /\
    (forall j rj, objs w !! j = Some rj ->
       exists rj', objs w' !! j = Some rj' /\
                   (firstFrameApplied_ rj = true -> firstFrameApplied_ rj' = true) /\
                   (j ∈ rs -> firstFrameApplied_ rj' = true)).
Proof.
  induction rs as [|i rs IH]; intros w Hall.
  - exists [], w. split; [reflexivity|]. do 4 (split; [reflexivity|]).
    intros j rj Hj. exists rj. split; [exact Hj|]. split; [auto|].
    intros H. apply elem_of_nil in H. contradiction.
  - destruct (Hall i (list_elem_of_here _ _)) as [r Hr].
    destruct (applyFirstFrame_objs i w r Hr) as (w1 & H1 & Ht1 & Hs1 & Hn1 & Ho1).
    destruct (IH w1) as (ps & w2 & H2 & Hl2 & Ht2 & Hs2 & Hn2 & Ho2).
    { intros k Hk. destruct (Hall k (list_elem_of_further _ _ _ Hk)) as [rk Hrk].
      destruct (Ho1 _ _ Hrk) as (rk' & Hrk' & _). eauto. }
    exists (length (promises w) :: ps), w2. rewrite mapM_cons, H1, H2.
    split; [reflexivity|]. split; [simpl; congruence|].
    split; [congruence|]. split; [congruence|]. split; [congruence|].
    intros j rj Hj. destruct (Ho1 _ _ Hj) as (rj1 & Hj1 & Hk1 & Hi1).
    destruct (Ho2 _ _ Hj1) as (rj2 & Hj2 & Hk2 & Hi2).
    exists rj2. split; [exact Hj2|]. split; [auto|].
    intros Hin. apply elem_of_cons in Hin as [->|Hin]; auto.
Qed.

Lemma mapM_applyFirstFrame_again rs : forall w,
  (forall i, i ∈ rs ->
     exists r, objs w !! i = Some r /\ firstFrameApplied_ r = true) ->
  mapM applyFirstFrame rs w =
    (Ok (seq (length (promises w)) (length rs)),
     set_promises (fun ps => ps ++ replicate (length rs) Resolved) w).
Proof.
  induction rs as [|i rs IH]; intros w Hall.
  - simpl. unfold ret. f_equal. destruct w; unfold set_promises; simpl.
    rewrite app_nil_r. reflexivity.
  - destruct (Hall i (list_elem_of_here _ _)) as (r & Hr & Hff).
    rewrite mapM_cons. unfold applyFirstFrame at 1. unfold bind.
    rewrite (getRunner_Some _ _ _ Hr), Hff. simpl.
    rewrite IH.
    + simpl. rewrite length_app. simpl.
      replace (length (promises w) + 1)%nat with (S (length (promises w))) by lia.
      f_equal. unfold set_promises. simpl. rewrite <- app_assoc. reflexivity.
    + intros k Hk. simpl. apply Hall. right. exact Hk.
Qed.

Lemma getOrCreateRunners_cached w rs :
  runners_ w = Some rs -> getOrCreateRunners_ w = (Ok rs, w).
Proof.
  intros H. unfold getOrCreateRunners_, bind, get. simpl. rewrite H. reflexivity.
Qed.

(** X15. When [applyFirstFrame()] of the manager returns, the runners exist,
    one for each animatable element, and the first frame of every one of
    them is applied; nothing has been called but vsync, for measurements.
    A second call then makes no runner, registers no callback, calls
    nothing and changes no runner: it only makes one promise for each
    runner, which is resolved already. *)
Theorem manager_applyFirstFrame_applies_once (w w' : World) (ps : list nat) :
  runners_ w = None ->
  Manager_applyFirstFrame w = (Ok ps, w') ->
  exists rs,
    runners_ w' = Some rs /\
    length rs = length animatable /\ length ps = length rs /\
    (forall i, i ∈ rs ->
       exists r', objs w' !! i = Some r' /\ firstFrameApplied_ r' = true) /\
    (exists new, trace w' = new ++ trace w /\ Forall measureE new) /\
    let w'' := set_promises (fun qs => qs ++ replicate (length rs) Resolved) w' in
    Manager_applyFirstFrame w' =
      (Ok (seq (length (promises w')) (length rs)), w'') /\
    (forall cb, registered cb w'' = registered cb w').
Proof.
  intros Hnone H. unfold Manager_applyFirstFrame in H. unfold bind at 1 in H.
  destruct (getOrCreateRunners_ w) as [[rs|e] w1] eqn:Hg; [|discriminate H].
  assert (runners_ w1 = Some rs /\
          rs = seq (length (objs w)) (length animatable) /\
          (forall i, i ∈ rs -> is_Some (objs w1 !! i)) /\
          exists new, trace w1 = new ++ trace w /\ Forall measureE new)
    as (Hrs1 & Hseq & Hex1 & Htr1).
  { destruct (emits_run _ _ w emits_getOrCreateRunners_) as (new & Htn & Hmn).
    rewrite Hg in Htn. simpl in Htn.
    unfold getOrCreateRunners_ in Hg.
    rewrite (bind_ok get _ w w) in Hg by reflexivity. simpl in Hg.
    rewrite Hnone in Hg. unfold bind at 1 in Hg.
    destruct (mapM createRunner_ animatable w) as [[rs'|e] w0] eqn:Hm;
      [|discriminate Hg].
    simpl in Hg. injection Hg as <- <-.
    destruct (mapM_createRunner_makes _ _ _ _ Hm) as (-> & made & Ho & Ht & _ & _).
    split; [reflexivity|]. split; [reflexivity|]. split; [|eauto].
    intros i Hi. simpl. rewrite Ho. apply lookup_lt_is_Some.
    apply elem_of_seq in Hi. rewrite length_app.
    rewrite <- Ht, length_fmap in Hi. lia. }
  destruct (mapM_applyFirstFrame rs w1 Hex1)
    as (ps' & w2 & H2 & Hl2 & Ht2 & Hs2 & Hn2 & Ho2).
  rewrite H2 in H. injection H as <- <-.
  exists rs. split; [congruence|].
  split; [rewrite Hseq; apply length_seq|]. split; [exact Hl2|].
  assert (forall i, i ∈ rs ->
            exists r', objs w2 !! i = Some r' /\ firstFrameApplied_ r' = true)
    as Hall2.
  { intros i Hi. destruct (Hex1 i Hi) as [r Hr].
    destruct (Ho2 _ _ Hr) as (r' & Hr' & _ & Hin). eauto. }
  split; [exact Hall2|]. split.
  { destruct Htr1 as (new & Htn & Hmn). exists new. split; [congruence|exact Hmn]. }
  simpl. split.
  - assert (runners_ w2 = Some rs) as Hrs2 by congruence.
    unfold Manager_applyFirstFrame.
    rewrite (bind_ok _ _ _ _ (f_equal fst (getOrCreateRunners_cached _ _ Hrs2))).
    rewrite (getOrCreateRunners_cached _ _ Hrs2). simpl.
    apply mapM_applyFirstFrame_again. exact Hall2.
  - intros cb. unfold registered, all_jobs. simpl. rewrite bind_app.
    assert (forall k, replicate k Resolved ≫= waiting = []) as Hrep.
    { induction k as [|k IHk]; [reflexivity|]. simpl. exact IHk. }
    rewrite Hrep, app_nil_r. reflexivity.
Qed.


(** ** [finish()] *)

Lemma resetFirstFrame_objs i w r :
  objs w !! i = Some r ->
  exists w' r',
    resetFirstFrame_ i w = (Ok tt, w') /\
    trace w' = trace w /\
    objs w' !! i = Some r' /\ firstFrameApplied_ r' = false /\
    runner_ r' = runner_ r /\
    (forall j, j <> i -> objs w' !! j = objs w !! j).
Proof.
  intros Hr. unfold resetFirstFrame_, bind, updRunner, modify.
  rewrite (getRunner_Some _ _ _ Hr). destruct (firstFrameApplied_ r) eqn:Hff; simpl.
  - rewrite then_total. simpl. do 2 eexists. split; [reflexivity|].
    match goal with |- context [exec (then_ ?p ?cb) ?w0] =>
      destruct (then_quiet p cb w0) as (Ho & Ht & _) end.
    rewrite Ho, Ht. simpl. split; [reflexivity|].
    split; [rewrite list_lookup_alter_eq, Hr; reflexivity|].
    split; [reflexivity|]. split; [reflexivity|].
    intros j Hj. rewrite list_lookup_alter_ne by congruence. reflexivity.
  - exists w, r. split; [reflexivity|]. split; [reflexivity|].
    split; [exact Hr|]. split; [exact Hff|]. split; reflexivity.
Qed.

(** X16. [finish()] does not raise (the bus being in order) and calls
    nothing but the bus. It leaves FINISH in the slot, with no wait,
    whatever was scheduled before, and the first frame not applied. From
    then on, until the FINISH has fired or [cancel()] is called,
    [hasStarted()] holds although nothing has started, and [start()] is
    ignored. No other runner is touched. *)
Theorem finish_overwrites_the_slot (w : World) (i : nat) (r : AnimationRunner) :
  SeqWF w ->
  objs w !! i = Some r ->
  exists new w' r',
    finish i w = (Ok tt, w') /\
    trace w' = new ++ trace w /\ Forall seqE new /\
    objs w' !! i = Some r' /\
    scheduledActivity_ r' = Some FINISH /\ scheduledWait_ r' = None /\
    firstFrameApplied_ r' = false /\
    hasStarted r' = true /\
    start i w' = (Ok tt, w') /\
    (forall j, j <> i -> objs w' !! j = objs w !! j).
Proof.
  intros Hwf Hr. unfold finish.
  rewrite (bind_ok _ _ _ _ (f_equal fst (getRunner_Some _ _ _ Hr))).
  rewrite (getRunner_Some _ _ _ Hr). simpl.
  assert (bus_only (when (firstFrameApplied_ r) (notifyFinish_ i)) w) as Hb.
  { unfold when. destruct (firstFrameApplied_ r);
      [eapply bus_only_notifyFinish_; eassumption|apply bus_only_ret; exact Hwf]. }
  destruct Hb as (new & added & w1 & H1 & Ht1 & Hn1 & Ho1 & _ & _ & _).
  rewrite (bind_ok _ _ _ _ (f_equal fst H1)). rewrite H1. simpl.
  assert (objs w1 !! i = Some r) as Hr1 by (rewrite Ho1; exact Hr).
  destruct (resetFirstFrame_objs i w1 r Hr1)
    as (w2 & r2 & H2 & Ht2 & Hr2 & Hff2 & Hrun2 & Hf2).
  rewrite (bind_ok _ _ _ _ (f_equal fst H2)). rewrite H2. simpl.
  unfold playback_, bind, updRunner, modify. simpl.
  set (r3 := set_scheduledWait None (set_scheduledActivity (Some FINISH) r2)).
  set (w3 := set_objs (alter (set_scheduledWait None) i)
               (set_objs (alter (set_scheduledActivity (Some FINISH)) i) w2)).
  assert (objs w3 !! i = Some r3) as Hr3 by (apply objs_alter, objs_alter; exact Hr2).
  rewrite (getRunner_Some _ _ _ Hr3).
  assert (exists w',
    (if runner_ r3 then playbackWhenReady_ i FINISH None else ret tt) w3 =
      (Ok tt, w') /\ quiet w3 w') as (w' & H3 & Ho3 & Ht3 & _).
  { destruct (runner_ r3) eqn:Hrun3.
    - eapply playbackWhenReady_quiet; eassumption.
    - exists w3. split; [reflexivity|apply quiet_refl]. }
  exists new, w', r3. split; [exact H3|].
  split; [rewrite Ht3; simpl; rewrite Ht2; exact Ht1|]. split; [exact Hn1|].
  assert (objs w' !! i = Some r3) as Hr' by (rewrite Ho3; exact Hr3).
  split; [exact Hr'|]. split; [reflexivity|]. split; [reflexivity|].
  split; [exact Hff2|].
  assert (hasStarted r3 = true) as Hs3 by reflexivity.
  split; [exact Hs3|]. split.
  - pose proof (start_cases i w' r3 Hr') as Hst. rewrite Hs3 in Hst. exact Hst.
  - intros j Hj. rewrite Ho3. unfold w3. simpl.
    rewrite !list_lookup_alter_ne by congruence.
    rewrite Hf2 by exact Hj. rewrite Ho1. reflexivity.
Qed.


(** ** A START that waits *)

Lemma lookup_app_plus {A} (l1 l2 : list A) k :
  (l1 ++ l2) !! (length l1 + k)%nat = l2 !! k.
Proof.
  rewrite lookup_app_r by lia. f_equal. lia.
Qed.

Lemma SeqWF_settle p w :
  (forall id, inflight w id <> Some p) ->
  SeqWF w -> SeqWF (set_promises (<[p := Resolved]>) w).
Proof.
  intros Hp Hwf id q Hin. destruct (Hwf id q Hin) as ([rs Hq] & H2 & H3).
  split; [|split; [exact H2|exact H3]].
  exists rs. simpl. rewrite list_lookup_insert_ne; [exact Hq|].
  intros ->. exact (Hp id Hin).
Qed.

Lemma SeqWF_microtasks f w : SeqWF w -> SeqWF (set_microtasks f w).
Proof. apply SeqWF_kept; [reflexivity|intros q H; exact H]. Qed.

(** The wait [p1] of a scheduled START has been adopted by a promise that
    has just resolved: two microtasks later the host runner is called. *)
Lemma adopted_wait_fires (w : World) (i : nat) (r : AnimationRunner)
    (h : WebAnimationRunner) (p1 out : nat) :
  SeqWF w -> (forall id, inflight w id <> Some p1) ->
  objs w !! i = Some r -> scheduledActivity_ r = Some START ->
  host r = Some h ->
  promises w !! p1 = Some (Pending [RThen (CbPlayback i START) out]) ->
  microtasks w = [JReact (RAdopt p1)] ->
  let c := if runnerReset_ r then CallStart else CallResume in
  exists new r',
    trace (exec tick (exec tick w)) = new ++ effect_of c i :: trace w /\
    Forall seqE new /\
    objs (exec tick (exec tick w)) !! i = Some r' /\
    scheduledActivity_ r' = None /\ runnerReset_ r' = false.
Proof.
  intros Hwf Hnot Hr Ha Hh Hp Hq c.
  set (wa := set_microtasks
               (fun q => q ++ [JReact (RThen (CbPlayback i START) out)])
               (set_promises (<[p1 := Resolved]>) (set_microtasks (drop 1) w))).
  assert (exec tick w = wa) as Hwa.
  { unfold exec, tick, bind, get. simpl. rewrite Hq. simpl.
    unfold resolvePromise. simpl. rewrite Hp. reflexivity. }
  rewrite Hwa.
  set (wq := set_microtasks (drop 1) wa).
  assert (objs wq !! i = Some r) as Hrq by exact Hr.
  set (wc := set_objs (alter (set_scheduledWait None) i)
               (set_objs (alter (set_scheduledActivity None) i) wq)).
  set (r2 := set_scheduledWait None (set_scheduledActivity None r)).
  assert (objs wc !! i = Some r2) as Hr2 by (apply objs_alter, objs_alter; exact Hrq).
  assert (SeqWF wc) as Hwfc.
  { unfold wc, wq, wa. apply SeqWF_objs, SeqWF_objs.
    do 2 apply SeqWF_microtasks. apply SeqWF_settle; [exact Hnot|].
    apply SeqWF_microtasks. exact Hwf. }
  destruct (startWhenReady_spec i wc r2 h Hr2 Hh Hwfc)
    as (new & w' & r' & H1 & H2 & H3 & H4 & H5 & H6 & _).
  assert (playbackFire i START wq = (Ok tt, w')) as Hfire.
  { unfold playbackFire, bind. rewrite (getRunner_Some _ _ _ Hrq).
    unfold isActivityScheduled_. simpl. rewrite Ha. simpl.
    unfold updRunner, modify. simpl. exact H1. }
  assert (microtasks wa = [JReact (RThen (CbPlayback i START) out)]) as Hqa.
  { unfold wa. simpl. rewrite Hq. reflexivity. }
  rewrite (tick_playback _ _ _ _ _ _ Hqa Hfire).
  destruct (resolvePromise_quiet out w') as (Qo & Qt & _).
  exists new, r'. rewrite Qt, Qo. split; [exact H2|].
  split; [exact H3|]. split; [exact H4|].
  destruct H5 as (_ & _ & _ & _ & Hact & _).
  split; [rewrite Hact; reflexivity|exact H6].
Qed.


Lemma length_snoc {A} (l : list A) x : length (l ++ [x]) = S (length l).
Proof. rewrite length_app. simpl. lia. Qed.

Lemma lookup_snoc {A} (l : list A) x : (l ++ [x]) !! length l = Some x.
Proof. rewrite lookup_app_r by lia. replace (_ - _)%nat with 0%nat by lia. reflexivity. Qed.

(** The world after [start()] on a resolved runner whose wait is the one
    callback [cb] (the timer or the wait for the dependency) chained on a
    resolved promise. *)
Definition started_waiting (i : nat) (cb : Callback) (w : World) : World :=
  let n := length (promises w) in
  set_promises (<[S n := Pending [RThen (CbPlayback i START) (S (S n))]]>)
    (set_promises (fun l => l ++ [Pending []])
       (set_objs (alter (set_scheduledWait (Some (S n))) i)
          (set_objs (alter (set_scheduledActivity (Some START)) i)
             (set_microtasks (fun q => q ++ [JReact (RThen cb (S n))])
                (set_promises (fun l => l ++ [Pending []])
                   (set_promises (fun l => l ++ [Resolved]) w)))))).

Lemma start_waiting i w r cb :
  objs w !! i = Some r -> runner_ r = true -> hasStarted r = false ->
  getStartWaitPromise_ i w =
    then_ (length (promises w)) cb
      (set_promises (fun l => l ++ [Resolved]) w) ->
  start i w = (Ok tt, started_waiting i cb w).
Proof.
  intros Hr Hrun Hs Hg. unfold start, bind.
  rewrite (getRunner_Some _ _ _ Hr), Hs, Hg.
  rewrite then_resolved by (simpl; apply lookup_snoc).
  simpl. rewrite length_snoc.
  unfold playback_, bind, updRunner, modify. simpl.
  erewrite getRunner_Some by (apply objs_alter, objs_alter; exact Hr). simpl.
  rewrite Hrun. unfold playbackWhenReady_, bind.
  erewrite getRunner_Some by (apply objs_alter, objs_alter; exact Hr). simpl.
  rewrite Hrun. simpl.
  rewrite (then_pending _ _ _ []).
  - simpl. rewrite !length_snoc. reflexivity.
  - simpl. rewrite <- (length_snoc (promises w) Resolved). apply lookup_snoc.
Qed.

Lemma getStartWaitPromise_delay i w r :
  objs w !! i = Some r -> no_dependency r -> delay_ r <> 0 ->
  getStartWaitPromise_ i w =
    then_ (length (promises w)) (CbTimer i)
      (set_promises (fun l => l ++ [Resolved]) w).
Proof.
  intros Hr Hdep Hdel. unfold getStartWaitPromise_, bind.
  rewrite (getRunner_Some _ _ _ Hr). simpl.
  assert (match startAfterId (animationDef_ r) with
          | Some id => if bool_decide (id ≠ "")
                       then then_ (length (promises w)) (CbWaitFor i)
                       else ret (length (promises w))
          | None => ret (length (promises w))
          end = ret (length (promises w))) as ->.
  { destruct Hdep as [-> | ->]; reflexivity. }
  simpl. rewrite bool_decide_eq_true_2 by exact Hdel. reflexivity.
Qed.

Lemma getStartWaitPromise_dependency i w r dep :
  objs w !! i = Some r -> startAfterId (animationDef_ r) = Some dep ->
  dep <> "" -> delay_ r = 0 ->
  getStartWaitPromise_ i w =
    then_ (length (promises w)) (CbWaitFor i)
      (set_promises (fun l => l ++ [Resolved]) w).
Proof.
  intros Hr Hdep Hne Hdel. unfold getStartWaitPromise_, bind, newPromise.
  rewrite (getRunner_Some _ _ _ Hr). cbv beta iota. rewrite Hdep.
  rewrite bool_decide_eq_true_2 by exact Hne.
  rewrite !then_total. cbv beta iota. rewrite Hdel. reflexivity.
Qed.

(** Facts about [started_waiting]. *)
Lemma started_waiting_facts i cb w r :
  objs w !! i = Some r ->
  let n := length (promises w) in
  let ws := started_waiting i cb w in
  microtasks ws = microtasks w ++ [JReact (RThen cb (S n))] /\
  length (promises ws) = S (S (S n)) /\
  promises ws !! S n = Some (Pending [RThen (CbPlayback i START) (S (S n))]) /\
  (forall q, (q < n)%nat -> promises ws !! q = promises w !! q) /\
  objs ws !! i =
    Some (set_scheduledWait (Some (S n)) (set_scheduledActivity (Some START) r)) /\
  trace ws = trace w /\ sequence_ ws = sequence_ w /\ timers ws = timers w.
Proof.
  intros Hr n ws. unfold ws, started_waiting. simpl. fold n.
  assert (length ((promises w ++ [Resolved]) ++ [Pending []]) = S (S n)) as Hl2
    by (rewrite !length_snoc; reflexivity).
  split; [reflexivity|]. split.
  { rewrite length_insert, length_snoc, Hl2. reflexivity. }
  split.
  { apply list_lookup_insert_eq. rewrite length_snoc, Hl2. lia. }
  split.
  { intros q Hq. rewrite list_lookup_insert_ne by lia.
    rewrite !lookup_app_l by (rewrite ?length_app; simpl; lia). reflexivity. }
  split; [rewrite !list_lookup_alter_eq, Hr; reflexivity|]. repeat split.
Qed.


Lemma tick_job j q w :
  microtasks w = j :: q -> exec tick w = exec (runJob j) (set_microtasks (drop 1) w).
Proof.
  intros Hq. unfold exec, tick, bind, get. simpl. rewrite Hq. reflexivity.
Qed.

Lemma tick_idle w : microtasks w = [] -> exec tick w = w.
Proof. intros Hq. unfold exec, tick, bind, get. simpl. rewrite Hq. reflexivity. Qed.

Lemma exec_react_pending w q rs rn :
  promises w !! q = Some (Pending rs) ->
  exec (react q rn) w = set_promises (<[q := Pending (rs ++ [rn])]>) w.
Proof. intros Hp. unfold exec, react, bind, get. simpl. rewrite Hp. reflexivity. Qed.

Lemma exec_resolve_pending w q rs :
  promises w !! q = Some (Pending rs) ->
  exec (resolvePromise q) w =
    set_microtasks (fun l => l ++ (JReact <$> rs)) (set_promises (<[q := Resolved]>) w).
Proof. intros Hp. unfold exec, resolvePromise. rewrite Hp. reflexivity. Qed.

Lemma exec_timerFires w q rs :
  q ∈ timers w -> promises w !! q = Some (Pending rs) ->
  exec (timerFires q) w =
    set_microtasks (fun l => l ++ (JReact <$> rs))
      (set_promises (<[q := Resolved]>) (set_timers (filter (fun x => x ≠ q)) w)).
Proof.
  intros Hin Hp. unfold exec, timerFires, bind, get. simpl.
  rewrite bool_decide_eq_true_2 by exact Hin. simpl.
  unfold resolvePromise. simpl. rewrite Hp. reflexivity.
Qed.

Lemma inflight_below w id p : SeqWF w -> inflight w id = Some p ->
  (p < length (promises w))%nat.
Proof. intros Hwf Hin. apply is_pending_lt. apply (Hwf id p Hin). Qed.

(** X17. On a runner whose host runner is resolved, that has not started
    and that declares a delay and no dependency, [start()] and the
    microtasks that follow ask the timer for a promise with exactly that
    delay and then stop: the queue is empty and the host runner has not
    been called. When the timer fires, two microtasks later the host runner
    is started (or resumed, if the runner is not reset). *)
Theorem delayed_start_waits_for_the_timer (w : World) (i : nat)
    (r : AnimationRunner) (h : WebAnimationRunner) :
  SeqWF w ->
  objs w !! i = Some r ->
  runner_ r = true -> host r = Some h ->
  hasStarted r = false ->
  no_dependency r -> delay_ r <> 0 ->
  microtasks w = [] ->
  let pt := S (S (S (length (promises w)))) in
  let c := if runnerReset_ r then CallStart else CallResume in
  let w1 := run [CallStart_ i; Tick; Tick] w in
  let w2 := run [TimerFires pt; Tick; Tick] w1 in
  trace w1 = TimerPromise i (delay_ r) :: trace w /\
  timers w1 = timers w ++ [pt] /\
  microtasks w1 = [] /\
  exists new r',
    trace w2 = new ++ effect_of c i :: TimerPromise i (delay_ r) :: trace w /\
    Forall seqE new /\
    objs w2 !! i = Some r' /\
    scheduledActivity_ r' = None /\ runnerReset_ r' = false.
Proof.
  intros Hwf Hr Hrun Hh Hs Hdep Hdel Hq pt c w1 w2.
  set (n := length (promises w)) in *.
  pose proof (start_waiting i w r (CbTimer i) Hr Hrun Hs
                (getStartWaitPromise_delay i w r Hr Hdep Hdel)) as Hstart.
  destruct (started_waiting_facts i (CbTimer i) w r Hr)
    as (Fq & Fl & Fp & Fold & Fo & Ft & Fs & Fti).
  fold n in Fq, Fl, Fp, Fold, Fo.
  remember (started_waiting i (CbTimer i) w) as ws eqn:Ews. clear Ews.
  rewrite Hq, app_nil_l in Fq.
  set (r1 := set_scheduledWait (Some (S n)) (set_scheduledActivity (Some START) r)) in *.
  (* first microtask: the timer is asked *)
  set (wt1 := set_microtasks (fun q => q ++ [JThenable pt (S n)])
                (set_timers (fun l => l ++ [pt])
                   (set_promises (fun l => l ++ [Pending []])
                      (emit (TimerPromise i (delay_ r))
                         (set_microtasks (drop 1) ws))))).
  assert (exec tick ws = wt1) as H1.
  { rewrite (tick_job _ _ _ Fq). unfold exec, runJob, runCallback, bind.
    erewrite getRunner_Some by exact Fo. simpl. rewrite Fl. reflexivity. }
  (* second microtask: the wait adopts the promise of the timer *)
  set (wt2 := set_promises (<[pt := Pending [RAdopt (S n)]]>)
                (set_microtasks (drop 1) wt1)).
  assert (microtasks wt1 = [JThenable pt (S n)]) as Hq1.
  { unfold wt1. simpl. rewrite Fq. reflexivity. }
  assert (promises wt1 !! pt = Some (Pending [])) as Hpt1.
  { unfold wt1, pt. simpl. rewrite <- Fl. apply lookup_snoc. }
  assert (exec tick wt1 = wt2) as H2.
  { rewrite (tick_job _ _ _ Hq1). unfold runJob.
    rewrite (exec_react_pending _ pt [] _) by exact Hpt1. reflexivity. }
  assert (w1 = wt2) as Hw1.
  { assert (exec (start i) w = ws) as H0 by (unfold exec; rewrite Hstart; reflexivity).
    unfold w1, run. cbn [foldl step]. rewrite H0, H1. exact H2. }
  split; [rewrite Hw1; unfold wt2, wt1; simpl; rewrite Ft; reflexivity|].
  split; [rewrite Hw1; unfold wt2, wt1; simpl; rewrite Fti; reflexivity|].
  split; [rewrite Hw1; change (drop 1 (microtasks wt1) = []); rewrite Hq1; reflexivity|].
  (* the timer fires *)
  set (wt3 := set_microtasks (fun q => q ++ [JReact (RAdopt (S n))])
                (set_promises (<[pt := Resolved]>)
                   (set_timers (filter (fun q => q ≠ pt)) wt2))).
  assert (exec (timerFires pt) wt2 = wt3) as H3.
  { rewrite (exec_timerFires _ pt [RAdopt (S n)]); [reflexivity| |].
    - unfold wt2, wt1. simpl. rewrite Fti. apply elem_of_app. right.
      apply list_elem_of_here.
    - unfold wt2. simpl. apply list_lookup_insert_eq.
      eapply lookup_lt_Some. exact Hpt1. }
  assert (microtasks wt3 = [JReact (RAdopt (S n))]) as Hq3.
  { change (drop 1 (microtasks wt1) ++ [JReact (RAdopt (S n))] = [JReact (RAdopt (S n))]).
    rewrite Hq1. reflexivity. }
  assert (promises wt3 !! S n =
            Some (Pending [RThen (CbPlayback i START) (S (S n))])) as Hp3.
  { unfold wt3, wt2, wt1, pt. simpl.
    rewrite !list_lookup_insert_ne by lia.
    apply lookup_app_l_Some. exact Fp. }
  assert (SeqWF wt3) as Hwf3.
  { revert Hwf. apply SeqWF_kept; [unfold wt3, wt2, wt1; simpl; exact Fs|].
    intros q [rs Hq']. exists rs.
    assert (q < n)%nat as Hlt by (eapply lookup_lt_Some; exact Hq').
    unfold wt3, wt2, wt1, pt. simpl.
    rewrite !list_lookup_insert_ne by lia.
    apply lookup_app_l_Some. rewrite Fold by exact Hlt. exact Hq'. }
  assert (forall id, inflight wt3 id <> Some (S n)) as Hnot.
  { intros id Hin. assert (inflight w id = Some (S n)) as Hin'.
    { unfold inflight in Hin |- *. unfold wt3, wt2, wt1 in Hin. simpl in Hin. rewrite Fs in Hin. exact Hin. }
    apply (inflight_below _ _ _ Hwf) in Hin'. fold n in Hin'. lia. }
  assert (objs wt3 !! i = Some r1) as Hr3 by exact Fo.
  destruct (adopted_wait_fires wt3 i r1 h (S n) (S (S n)) Hwf3 Hnot Hr3
              eq_refl Hh Hp3 Hq3) as (new & r' & G1 & G2 & G3 & G4 & G5).
  exists new, r'.
  assert (w2 = exec tick (exec tick wt3)) as Hw2.
  { unfold w2. rewrite Hw1. unfold run. cbn [foldl step].
    rewrite H3. reflexivity. }
  rewrite Hw2. split.
  { rewrite G1. unfold wt3, wt2, wt1. simpl. rewrite Ft. reflexivity. }
  split; [exact G2|]. split; [exact G3|]. split; [exact G4|exact G5].
Qed.


Lemma started_waiting_other i cb w j :
  j <> i -> objs (started_waiting i cb w) !! j = objs w !! j.
Proof.
  intros Hne. unfold started_waiting. simpl.
  rewrite !list_lookup_alter_ne by congruence. reflexivity.
Qed.

(** X18. On a runner whose host runner is resolved, that has not started
    and that declares a dependency and no delay, [start()] and the
    microtasks that follow leave the runner waiting on the bus for the
    dependency: nothing is called and the queue is empty. When the host
    runner of the element with that id reports FINISHED, the bus is notified
    and two microtasks later the host runner of the waiting runner is
    started (or resumed, if the runner is not reset). *)
Theorem dependent_start_follows_the_notification (w : World) (i j : nat)
    (r rj : AnimationRunner) (h hj : WebAnimationRunner) (dep : string) :
  SeqWF w ->
  objs w !! i = Some r ->
  runner_ r = true -> host r = Some h ->
  hasStarted r = false ->
  startAfterId (animationDef_ r) = Some dep -> dep <> "" -> delay_ r = 0 ->
  inflight w dep = None ->
  microtasks w = [] ->
  j <> i -> objs w !! j = Some rj ->
  el_id (target_ rj) = dep -> host rj = Some hj -> subscribed hj = true ->
  let pt := S (S (S (length (promises w)))) in
  let c := if runnerReset_ r then CallStart else CallResume in
  let w1 := run [CallStart_ i; Tick; Tick] w in
  let w2 := run [PlayStateChanges j FINISHED; Tick; Tick] w1 in
  trace w1 = trace w /\
  inflight w1 dep = Some pt /\
  microtasks w1 = [] /\
  exists new r',
    trace w2 = new ++ effect_of c i :: SeqResolve dep :: SeqNotifyFinish dep
                 :: trace w /\
    Forall seqE new /\
    objs w2 !! i = Some r' /\
    scheduledActivity_ r' = None /\ runnerReset_ r' = false.
Proof.
  intros Hwf Hr Hrun Hh Hs Hdep Hne Hdel Hin Hq Hji Hrj Hid Hhj Hsub pt c w1 w2.
  set (n := length (promises w)) in *.
  pose proof (start_waiting i w r (CbWaitFor i) Hr Hrun Hs
                (getStartWaitPromise_dependency i w r dep Hr Hdep Hne Hdel))
    as Hstart.
  destruct (started_waiting_facts i (CbWaitFor i) w r Hr)
    as (Fq & Fl & Fp & Fold & Fo & Ft & Fs & Fti).
  pose proof (started_waiting_other i (CbWaitFor i) w j Hji) as Fj.
  rewrite Hrj in Fj.
  fold n in Fq, Fl, Fp, Fold, Fo.
  remember (started_waiting i (CbWaitFor i) w) as ws eqn:Ews. clear Ews.
  rewrite Hq, app_nil_l in Fq.
  set (r1 := set_scheduledWait (Some (S n)) (set_scheduledActivity (Some START) r)) in *.
  assert (inflight ws dep = None) as Hin1 by (unfold inflight; rewrite Fs; exact Hin).
  (* first microtask: the bus is asked *)
  set (wt1 := set_microtasks (fun q => q ++ [JThenable pt (S n)])
                (set_sequence (set_subscriptionPromises (<[dep := pt]>))
                   (set_sequence (set_subscriptionResolvers (<[dep := pt]>))
                      (set_promises (fun l => l ++ [Pending []])
                         (set_microtasks (drop 1) ws))))).
  assert (exec tick ws = wt1) as H1.
  { rewrite (tick_job _ _ _ Fq). unfold exec, runJob, runCallback, bind.
    erewrite getRunner_Some by exact Fo.
    change (animationDef_ r1) with (animationDef_ r). rewrite Hdep.
    rewrite waitFor_fresh by exact Hin1.
    change (length (promises (set_microtasks (drop 1) ws)))
      with (length (promises ws)). rewrite Fl. reflexivity. }
  assert (microtasks wt1 = [JThenable pt (S n)]) as Hq1.
  { change (drop 1 (microtasks ws) ++ [JThenable pt (S n)] = [JThenable pt (S n)]).
    rewrite Fq. reflexivity. }
  assert (promises wt1 !! pt = Some (Pending [])) as Hpt1.
  { change ((promises ws ++ [Pending []]) !! pt = Some (Pending [])).
    unfold pt. rewrite <- Fl. apply lookup_snoc. }
  (* second microtask: the wait adopts the promise of the bus *)
  set (wt2 := set_promises (<[pt := Pending [RAdopt (S n)]]>)
                (set_microtasks (drop 1) wt1)).
  assert (exec tick wt1 = wt2) as H2.
  { rewrite (tick_job _ _ _ Hq1). unfold runJob.
    rewrite (exec_react_pending _ pt [] _) by exact Hpt1. reflexivity. }
  assert (w1 = wt2) as Hw1.
  { assert (exec (start i) w = ws) as H0 by (unfold exec; rewrite Hstart; reflexivity).
    unfold w1, run. cbn [foldl step]. rewrite H0, H1. exact H2. }
  split; [rewrite Hw1; change (trace ws = trace w); exact Ft|].
  split.
  { rewrite Hw1. unfold inflight.
    change ((<[dep := pt]> (subscriptionPromises_ (sequence_ ws))) !! dep = Some pt).
    apply lookup_insert_eq. }
  split; [rewrite Hw1; change (drop 1 (microtasks wt1) = []); rewrite Hq1; reflexivity|].
  (* the dependency reports FINISHED *)
  set (hj' := {| playState := FINISHED; subscribed := subscribed hj |}).
  set (wu := set_objs (alter (set_host (Some hj')) j) wt2).
  set (wt3 := set_sequence (set_subscriptionPromises (delete dep))
                (set_microtasks (fun q => q ++ (JReact <$> [RAdopt (S n)]))
                   (set_promises (<[pt := Resolved]>)
                      (emit (SeqResolve dep) (emit (SeqNotifyFinish dep) wu))))).
  assert (objs wt2 !! j = Some rj) as Hrj2 by exact Fj.
  assert (exec (playStateChanges j FINISHED) wt2 = wt3) as H3.
  { unfold exec, playStateChanges, bind.
    rewrite (getRunner_Some _ _ _ Hrj2). rewrite Hhj. fold hj'.
    unfold updRunner, modify. cbv beta iota. fold wu. rewrite Hsub.
    unfold playStateChanged. rewrite bool_decide_eq_true_2 by reflexivity.
    unfold notifyFinish_, bind.
    assert (objs wu !! j = Some (set_host (Some hj') rj)) as Hju.
    { unfold wu. simpl. rewrite list_lookup_alter_eq.
      change (objs ws !! j) with (objs ws !! j). rewrite Fj. reflexivity. }
    rewrite (getRunner_Some _ _ _ Hju).
    change (target_ (set_host (Some hj') rj)) with (target_ rj). rewrite Hid.
    rewrite bool_decide_eq_true_2 by exact Hne.
    rewrite (notifyFinish_inflight wu dep pt [RAdopt (S n)]); [reflexivity| | |].
    - unfold inflight.
      change ((<[dep := pt]> (subscriptionPromises_ (sequence_ ws))) !! dep = Some pt).
      apply lookup_insert_eq.
    - change ((<[dep := pt]> (subscriptionResolvers_ (sequence_ ws))) !! dep = Some pt).
      apply lookup_insert_eq.
    - change ((<[pt := Pending [RAdopt (S n)]]> (promises wt1)) !! pt
              = Some (Pending [RAdopt (S n)])).
      apply list_lookup_insert_eq. eapply lookup_lt_Some. exact Hpt1. }
  assert (microtasks wt3 = [JReact (RAdopt (S n))]) as Hq3.
  { change (drop 1 (microtasks wt1) ++ [JReact (RAdopt (S n))] = [JReact (RAdopt (S n))]).
    rewrite Hq1. reflexivity. }
  assert (forall q, q <> pt ->
            promises wt3 !! q = (promises ws ++ [Pending []]) !! q) as Hold3.
  { intros q Hqp.
    change ((<[pt := Resolved]> (<[pt := Pending [RAdopt (S n)]]>
               (promises ws ++ [Pending []]))) !! q
            = (promises ws ++ [Pending []]) !! q).
    rewrite !list_lookup_insert_ne by congruence. reflexivity. }
  assert (promises wt3 !! S n =
            Some (Pending [RThen (CbPlayback i START) (S (S n))])) as Hp3.
  { rewrite Hold3 by (unfold pt; lia). apply lookup_app_l_Some. exact Fp. }
  assert (forall id, inflight wt3 id =
            if decide (id = dep) then None else inflight w id) as Hin3.
  { intros id. unfold inflight.
    change ((delete dep (<[dep := pt]> (subscriptionPromises_ (sequence_ ws)))) !! id
            = if decide (id = dep) then None
              else subscriptionPromises_ (sequence_ w) !! id).
    rewrite Fs. destruct (decide (id = dep)) as [->|Hd].
    - apply lookup_delete_eq.
    - rewrite lookup_delete_ne, lookup_insert_ne by congruence. reflexivity. }
  assert (SeqWF wt3) as Hwf3.
  { intros id p Hip. rewrite Hin3 in Hip.
    destruct (decide (id = dep)) as [->|Hd]; [discriminate|].
    destruct (Hwf id p Hip) as ([rs Hp] & Hres & Hinj).
    assert (p < n)%nat as Hlt by (eapply lookup_lt_Some; exact Hp).
    split; [|split].
    - exists rs. rewrite Hold3 by (unfold pt; lia).
      apply lookup_app_l_Some. rewrite Fold by exact Hlt. exact Hp.
    - change ((<[dep := pt]> (subscriptionResolvers_ (sequence_ ws))) !! id = Some p).
      rewrite lookup_insert_ne by congruence. rewrite Fs. exact Hres.
    - intros id' Hip'. rewrite Hin3 in Hip'.
      destruct (decide (id' = dep)); [discriminate|]. apply Hinj. exact Hip'. }
  assert (forall id, inflight wt3 id <> Some (S n)) as Hnot.
  { intros id Hip. rewrite Hin3 in Hip.
    destruct (decide (id = dep)); [discriminate|].
    apply (inflight_below _ _ _ Hwf) in Hip. fold n in Hip. lia. }
  assert (objs wt3 !! i = Some r1) as Hr3.
  { change (alter (set_host (Some hj')) j (objs ws) !! i = Some r1).
    rewrite list_lookup_alter_ne by congruence. exact Fo. }
  destruct (adopted_wait_fires wt3 i r1 h (S n) (S (S n)) Hwf3 Hnot Hr3
              eq_refl Hh Hp3 Hq3) as (new & r' & G1 & G2 & G3 & G4 & G5).
  exists new, r'.
  assert (w2 = exec tick (exec tick wt3)) as Hw2.
  { unfold w2. rewrite Hw1. unfold run. cbn [foldl step].
    rewrite H3. reflexivity. }
  rewrite Hw2. split.
  { rewrite G1. change (trace wt3) with (SeqResolve dep :: SeqNotifyFinish dep :: trace ws).
    rewrite Ft. reflexivity. }
  split; [exact G2|]. split; [exact G3|]. split; [exact G4|exact G5].
Qed.


(** C9. The delay and the duration that the constructor stores in the runner
    fall back by truthiness. A declared value other than 0 is taken as it
    is. A declared 0, like an absent value, gives way to the default of the
    preset when that is not 0. When neither the declaration nor the preset
    gives a value other than 0, the result is 0. The runner holds these
    values whether or not the constructor then rejects the delay. *)
Theorem delay_duration_fall_back_by_truthiness (animationDef : StoryAnimationDef)
    (w : World) :
  let p := preset animationDef in
  let w' := exec (AnimationRunner_new animationDef) w in
  exists r,
    objs w' !! length (objs w) = Some r /\
    (forall d, delay animationDef = Some d -> d <> 0 -> delay_ r = d) /\
    (forall d, delay animationDef = Some 0 \/ delay animationDef = None ->
       preset_delay p = Some d -> d <> 0 -> delay_ r = d) /\
    (delay animationDef = Some 0 \/ delay animationDef = None ->
     preset_delay p = Some 0 \/ preset_delay p = None -> delay_ r = 0) /\
    (forall d, duration animationDef = Some d -> d <> 0 -> duration_ r = d) /\
    (forall d, duration animationDef = Some 0 \/ duration animationDef = None ->
       preset_duration p = Some d -> d <> 0 -> duration_ r = d) /\
    (duration animationDef = Some 0 \/ duration animationDef = None ->
     preset_duration p = Some 0 \/ preset_duration p = None -> duration_ r = 0) /\
    delay_ r = effective_delay animationDef /\
    duration_ r = effective_duration animationDef.
Proof.
  intros p w'.
  destruct (AnimationRunner_new_makes animationDef w)
    as (r & Ho & (_ & _ & _ & Hdel & Hdur & _) & _).
  exists r. split.
  { unfold w'. rewrite Ho. apply lookup_snoc. }
  rewrite Hdel, Hdur. unfold effective_delay, effective_duration, or_else.
  fold p. repeat split.
  - intros d -> Hd. rewrite bool_decide_eq_false_2 by exact Hd. reflexivity.
  - intros d [-> | ->] -> Hd; simpl;
      rewrite bool_decide_eq_false_2 by exact Hd; reflexivity.
  - intros [-> | ->] [-> | ->]; reflexivity.
  - intros d -> Hd. rewrite bool_decide_eq_false_2 by exact Hd. reflexivity.
  - intros d [-> | ->] -> Hd; simpl;
      rewrite bool_decide_eq_false_2 by exact Hd; reflexivity.
  - intros [-> | ->] [-> | ->]; reflexivity.
Qed.


(** ** A [finish()] that notifies nobody *)

Lemma keeps_pending_refl w : keeps_pending w w.
Proof. intros q H. exact H. Qed.

Lemma keeps_pending_trans w1 w2 w3 :
  keeps_pending w1 w2 -> keeps_pending w2 w3 -> keeps_pending w1 w3.
Proof. intros H1 H2 q H. apply H2, H1, H. Qed.

Lemma keeps_pending_alloc s w :
  keeps_pending w (set_promises (fun ps => ps ++ [s]) w).
Proof. intros q [rs Hq]. exists rs. simpl. apply lookup_app_l_Some. exact Hq. Qed.

Lemma resetFirstFrame_keeps_pending i w r :
  objs w !! i = Some r -> keeps_pending w (exec (resetFirstFrame_ i) w).
Proof.
  intros Hr. unfold exec, resetFirstFrame_, bind, updRunner, modify.
  rewrite (getRunner_Some _ _ _ Hr). destruct (firstFrameApplied_ r); simpl.
  - rewrite then_total. simpl.
    eapply keeps_pending_trans; [|apply then_keeps_pending].
    intros q H. exact H.
  - apply keeps_pending_refl.
Qed.

Lemma playback_keeps_pending i a wait w r :
  objs w !! i = Some r -> keeps_pending w (exec (playback_ i a wait) w).
Proof.
  intros Hr. unfold exec, playback_, bind, updRunner, modify. simpl.
  erewrite getRunner_Some by (apply objs_alter, objs_alter; exact Hr). simpl.
  destruct (runner_ r) eqn:Hrun; [|intros q H; exact H].
  unfold playbackWhenReady_, bind.
  erewrite getRunner_Some by (apply objs_alter, objs_alter; exact Hr). simpl.
  rewrite Hrun. simpl. destruct wait as [p|]; simpl.
  - rewrite then_total. simpl.
    eapply keeps_pending_trans; [|apply then_keeps_pending].
    intros q H. exact H.
  - rewrite then_total. simpl.
    eapply keeps_pending_trans; [|apply then_keeps_pending].
    intros q [rs Hq]. exists rs. simpl. apply lookup_app_l_Some. exact Hq.
Qed.

(** [finish()] on a runner whose first frame is not applied, or whose target
    has no id. *)
Lemma finish_silent (w : World) (i : nat) (r : AnimationRunner) :
  objs w !! i = Some r ->
  firstFrameApplied_ r = false \/ el_id (target_ r) = "" ->
  exists w',
    finish i w = (Ok tt, w') /\
    trace w' = trace w /\ sequence_ w' = sequence_ w /\ keeps_pending w w'.
Proof.
  intros Hr Hsil.
  assert (when (firstFrameApplied_ r) (notifyFinish_ i) w = (Ok tt, w)) as Hn.
  { unfold when. destruct (firstFrameApplied_ r) eqn:Hf; [|reflexivity].
    destruct Hsil as [Hsil|Hid]; [discriminate|].
    unfold notifyFinish_, bind. rewrite (getRunner_Some _ _ _ Hr).
    rewrite bool_decide_eq_false_2; [reflexivity|]. intros H. exact (H Hid). }
  destruct (resetFirstFrame_total i w r Hr)
    as (w2 & Hrs & Ht2 & Hs2 & (r2 & Hr2) & _).
  destruct (playback_total i FINISH None w2 r2 Hr2) as (w3 & Hpb & Ht3 & Hs3 & _).
  exists w3. split.
  { unfold finish, bind. rewrite (getRunner_Some _ _ _ Hr), Hn, Hrs. exact Hpb. }
  split; [rewrite Ht3; exact Ht2|]. split; [rewrite Hs3; exact Hs2|].
  eapply keeps_pending_trans.
  - pose proof (resetFirstFrame_keeps_pending i w r Hr) as H.
    unfold exec in H. rewrite Hrs in H. exact H.
  - pose proof (playback_keeps_pending i FINISH None w2 r2 Hr2) as H.
    unfold exec in H. rewrite Hpb in H. exact H.
Qed.

(** C6 (amended). [finish()] does not raise, whether or not [start()] was
    ever called and whether or not the host runner is resolved. When the
    first frame is applied and the target element has an id, it first of all
    notifies the bus with that id: an in-flight wait for the id is resolved
    and removed, and when [finish()] returns nothing but this notification
    has been added to the trace, so the reset of the first-frame styles
    comes later. When the first frame is not applied, or the target element
    has no id, it notifies nobody: the trace and the bus are as they were
    and every pending promise, so every in-flight wait, is still pending. *)
Theorem finish_notifies_when_first_frame_applied (w : World) (i : nat)
    (r : AnimationRunner) :
  SeqWF w ->
  objs w !! i = Some r ->
  let id := el_id (target_ r) in
  let w' := exec (finish i) w in
  throws (finish i) w = false /\
  (firstFrameApplied_ r = true -> id <> "" ->
     trace w' =
       match inflight w id with
       | Some _ => [SeqResolve id; SeqNotifyFinish id]
       | None => [SeqNotifyFinish id]
       end ++ trace w /\
     (forall p, inflight w id = Some p ->
        promises w' !! p = Some Resolved /\ inflight w' id = None)) /\
  (firstFrameApplied_ r = false \/ id = "" ->
     trace w' = trace w /\ sequence_ w' = sequence_ w /\
     keeps_pending w w' /\
     (forall id' p, inflight w id' = Some p ->
        inflight w' id' = Some p /\ is_pending w' p)).
Proof.
  intros Hwf Hr id w'. split; [|split].
  - destruct (firstFrameApplied_ r) eqn:Hf.
    + destruct (decide (id = "")) as [Hid|Hid].
      * destruct (finish_silent w i r Hr (or_intror Hid)) as (w1 & H1 & _).
        unfold throws. rewrite H1. reflexivity.
      * exact (proj1 (finish_notifying w i r Hwf Hr Hf Hid)).
    + destruct (finish_silent w i r Hr (or_introl Hf)) as (w1 & H1 & _).
      unfold throws. rewrite H1. reflexivity.
  - intros Hf Hid. exact (proj2 (finish_notifying w i r Hwf Hr Hf Hid)).
  - intros Hsil. destruct (finish_silent w i r Hr Hsil) as (w1 & H1 & Ht & Hs & Hk).
    assert (w' = w1) as -> by (unfold w', exec; rewrite H1; reflexivity).
    split; [exact Ht|]. split; [exact Hs|]. split; [exact Hk|].
    intros id' p Hin. split.
    + unfold inflight in *. rewrite Hs. exact Hin.
    + apply Hk. exact (proj1 (Hwf id' p Hin)).
Qed.

End Machine.

(** * A page with two animated elements *)

(** A host runner that does what it is asked at once, and reports a change
    of play state when there is one. *)
Definition ex_host (c : HostCall) (s : WebAnimationPlayState) :
    WebAnimationPlayState * list WebAnimationPlayState :=
  let s' := match c with
            | CallStart | CallResume => RUNNING
            | CallFinish => FINISHED
            | CallCancel => IDLE
            end in
  (s', if bool_decide (s = s') then [] else [s']).

Definition ex_fade_in : StoryAnimationPresetDef :=
  {| preset_keyframes :=
       KeyframesArray [[("opacity", VNumber 0 1)]; [("opacity", VNumber 1 1)]];
     preset_duration := Some 500; preset_delay := None;
     preset_easing := "ease-in" |}.

Definition ex_presets : gmap string StoryAnimationPresetDef :=
  {[ "fade-in" := ex_fade_in ]}.

Definition ex_time (s : string) : option Z := None.

(** Element A fades in; element B fades in after A; element Z names a
    preset that does not exist. *)
Definition ex_A : Element :=
  {| tagName := "DIV"; el_id := "A";
     attributes := [("animate-in", "fade-in")] |}.
Definition ex_B : Element :=
  {| tagName := "DIV"; el_id := "B";
     attributes := [("animate-in", "fade-in"); ("animate-in-after", "A")] |}.
Definition ex_Z : Element :=
  {| tagName := "DIV"; el_id := "Z";
     attributes := [("animate-in", "zoooom")] |}.

Definition ex_root : list Element := [ex_A; ex_B].
Definition ex_root_bad : list Element := [ex_A; ex_Z; ex_B].

Definition ex_run : list Event -> World -> World :=
  run ex_host ex_presets IDLE ex_time ex_root.

Definition ticks (n : nat) : list Event := replicate n Tick.

(** The page applies the first frames; the builder is still loading. *)
Definition ex_loading : list Event := CallManagerApplyFirstFrame :: ticks 10.

(** The builder has arrived and every host runner is resolved. *)
Definition ex_ready : list Event := ex_loading ++ BuilderReady :: ticks 10.

(** The page animates in, and the animation of A finishes. *)
Definition ex_played : list Event :=
  ex_ready ++ CallAnimateIn :: ticks 10 ++ PlayStateChanges 0 FINISHED :: ticks 10.

(** ** The properties on the example page *)

(** The contract of the bus on a new page, for the id of A. *)
Lemma waitFor_notifyFinish_contract_witness :
  exists p w1,
    waitFor "A" AnimationManager_new = (Ok p, w1) /\
    is_pending w1 p /\
    waitFor "A" w1 = (Ok p, w1) /\
    (forall ops, BusNotifyFinish "A" ∉ ops ->
       let w2 := runBus ops w1 in
       let w3 := exec (notifyFinish "A") w2 in
       is_pending w2 p /\
       waitFor "A" w2 = (Ok p, w2) /\
       throws (notifyFinish "A") w2 = false /\
       promises w3 !! p = Some Resolved /\
       inflight w3 "A" = None /\
       (exists p', fst (waitFor "A" w3) = Ok p' /\ p' <> p /\
                   is_pending (exec (waitFor "A") w3) p')) /\
    (forall w0 id0, inflight w0 id0 = None ->
       notifyFinish id0 w0 = (Ok tt, emit (SeqNotifyFinish id0) w0)).
Proof.
  apply (waitFor_notifyFinish_contract AnimationManager_new "A").
  intros id p. unfold inflight. simpl. rewrite lookup_empty. discriminate.
Defined.

(** A is started while the builder is loading and cancelled at once: when
    the builder arrives nothing reaches the host runner of A. *)
Lemma cancel_before_ready_suppresses_witness :
  let w := ex_run (ex_loading ++ [CallStart_ 0]) AnimationManager_new in
  throws (cancel ex_host 0) w = false /\
  forall e, e ∈ trace (ex_run (BuilderReady :: ticks 10)
                         (exec (cancel ex_host 0) w)) ->
    e <> HostStart 0 /\ e <> HostResume 0 /\ e <> HostFinish 0.
Proof.
  eapply (cancel_before_ready_suppresses ex_host ex_presets IDLE ex_time
            ex_root (ex_loading ++ [CallStart_ 0]) (BuilderReady :: ticks 10)
            0%nat).
  - vm_compute. reflexivity.
  - reflexivity.
  - vm_compute. repeat constructor.
Defined.

(** One element of the page names an unknown preset: no runner list. *)
Lemma unknown_preset_aborts_runner_creation_witness :
  exists e w',
    getOrCreateRunners_ ex_presets ex_time ex_root_bad AnimationManager_new =
      (Throw e, w') /\
    runners_ w' = None /\
    (length (objs w') <= length (objs AnimationManager_new) + length [ex_A])%nat /\
    ((forall w0 x, x ∈ [ex_A] ->
        throws (createRunner_ ex_presets ex_time ex_root_bad x) w0 = false) ->
     e = UserError (invalid_preset_msg (preset_name ex_Z) ex_Z)).
Proof.
  apply (unknown_preset_aborts_runner_creation ex_presets ex_time ex_root_bad
           AnimationManager_new [ex_A] [ex_B] ex_Z).
  - reflexivity.
  - reflexivity.
  - vm_compute. reflexivity.
Defined.

Lemma SeqWF_no_wait (w : World) :
  subscriptionPromises_ (sequence_ w) = ∅ -> SeqWF w.
Proof.
  intros H id p. unfold inflight. rewrite H, lookup_empty. discriminate.
Qed.

(** Somebody waits for A on the ready page, and A, which was never started,
    is finished. *)
Lemma finish_notifies_when_first_frame_applied_witness :
  let w := exec (waitFor "A") (ex_run ex_ready AnimationManager_new) in
  let w' := exec (finish 0) w in
  throws (finish 0) w = false /\
  trace w' = [SeqResolve "A"; SeqNotifyFinish "A"] ++ trace w /\
  (forall p, inflight w "A" = Some p ->
     promises w' !! p = Some Resolved /\ inflight w' "A" = None).
Proof.
  intros w w'.
  assert (SeqWF w) as Hwf.
  { apply SeqWF_waitFor, SeqWF_no_wait. vm_compute. reflexivity. }
  assert (exists r, objs w !! 0%nat = Some r /\ firstFrameApplied_ r = true /\
                    el_id (target_ r) = "A") as (r & Hr & Hf & Hid).
  { eexists. split; [vm_compute; reflexivity|]. split; reflexivity. }
  assert (exists p, inflight w "A" = Some p) as [p Hp].
  { eexists. vm_compute. reflexivity. }
  pose proof (finish_notifies_when_first_frame_applied w 0 r Hwf Hr) as H.
  cbv zeta in H. destruct H as (H1 & H2 & _).
  rewrite Hid in H2. specialize (H2 Hf ltac:(discriminate)).
  destruct H2 as (H2 & H3). rewrite Hp in H2.
  exact (conj H1 (conj H2 H3)).
Defined.

(** The runners of the page are made, and the first frame of A is applied
    twice. *)
Lemma applyFirstFrame_idempotent_witness :
  let w := exec (getOrCreateRunners_ ex_presets ex_time ex_root)
             AnimationManager_new in
  let w1 := exec (applyFirstFrame 0) w in
  let w2 := exec (applyFirstFrame 0) w1 in
  firstFrameApplied_ <$> objs w1 !! 0%nat = Some true /\
  registered (CbApplyFirstFrame 0) w1 =
    (registered (CbApplyFirstFrame 0) w + 1)%nat /\
  applyFirstFrame 0 w1 =
    (Ok (length (promises w1)), set_promises (fun ps => ps ++ [Resolved]) w1) /\
  registered (CbApplyFirstFrame 0) w2 = registered (CbApplyFirstFrame 0) w1 /\
  trace w2 = trace w1 /\
  firstFrameApplied_ <$> objs w2 !! 0%nat = Some true.
Proof.
  intros w w1 w2.
  assert (exists r, objs w !! 0%nat = Some r /\ firstFrameApplied_ r = false /\
                    is_Some (promises w !! keyframes_ r)) as (r & Hr & Hf & Hk).
  { eexists. split; [vm_compute; reflexivity|]. split; [reflexivity|].
    vm_compute. eexists. reflexivity. }
  pose proof (applyFirstFrame_idempotent w 0 r Hr Hk) as H.
  cbv zeta in H. rewrite Hf in H. exact H.
Defined.

(** A is started while the builder is loading, and cancelled. *)
Lemma cancel_reaches_host_only_when_running_witness :
  let w := ex_run (ex_loading ++ [CallStart_ 0]) AnimationManager_new in
  scheduledActivity_ <$> objs w !! 0%nat = Some (Some START) /\
  cancel ex_host 0 w = (Ok tt, slot_cleared 0 w) /\
  trace (slot_cleared 0 w) = trace w /\
  runnerReset_ <$> objs (slot_cleared 0 w) !! 0%nat = Some true /\
  scheduledActivity_ <$> objs (slot_cleared 0 w) !! 0%nat = Some None.
Proof.
  intros w.
  assert (exists r, objs w !! 0%nat = Some r /\ host_running r = false /\
                    scheduledActivity_ r = Some START /\
                    runnerReset_ r = true) as (r & Hr & Hh & Hs & Hn).
  { eexists. split; [vm_compute; reflexivity|]. repeat split; reflexivity. }
  pose proof (cancel_reaches_host_only_when_running ex_host w 0 r Hr) as H.
  rewrite Hh, Hn in H. split; [|exact H].
  rewrite Hr. simpl. rewrite Hs. reflexivity.
Defined.

(** A is started on the ready page: its callback waits in the queue. *)
Lemma playback_fires_by_kind_of_slot_witness :
  let w := ex_run (ex_ready ++ [CallStart_ 0]) AnimationManager_new in
  playbackFire ex_host 0 FINISH w = (Ok tt, w) /\
  playbackFire ex_host 0 START w = execute ex_host 0 START (slot_cleared 0 w) /\
  slot_empty 0 tt (exec (playbackFire ex_host 0 START) w) /\
  playbackFire ex_host 0 START (exec (cancel ex_host 0) w) =
    (Ok tt, exec (cancel ex_host 0) w).
Proof.
  intros w.
  assert (exists r, objs w !! 0%nat = Some r /\
                    scheduledActivity_ r = Some START) as (r & Hr & Hs).
  { eexists. split; vm_compute; reflexivity. }
  assert (exists r, objs (exec (cancel ex_host 0) w) !! 0%nat = Some r /\
                    scheduledActivity_ r = None) as (r' & Hr' & Hs').
  { eexists. split; vm_compute; reflexivity. }
  destruct (playback_fires_by_kind_of_slot ex_host w 0 r START Hr)
    as (_ & _ & _ & H4 & H5).
  destruct (playback_fires_by_kind_of_slot ex_host _ 0 r' START Hr')
    as (_ & _ & H3 & _).
  destruct (H5 Hs) as [H5a H5b].
  split; [exact (H4 Hs)|]. split; [exact H5a|]. split; [exact H5b|].
  exact (H3 Hs').
Defined.

(** ** Where the page behaves otherwise *)

(** On the ready page [start()] and then [finish()] are called on A before
    any callback has run. The FINISH is in the slot when the callback of
    the START fires; that callback takes the slot for its own, starts the
    host runner, and the callback of the FINISH then finds the slot empty:
    the older activity has executed and the newer one has not. *)
Lemma older_start_executes_newer_finish_is_dropped :
  let w := ex_run (ex_ready ++ [CallStart_ 0; CallFinish_ 0])
             AnimationManager_new in
  let w' := ex_run (ticks 10) w in
  scheduledActivity_ <$> objs w !! 0%nat = Some (Some FINISH) /\
  registered (CbPlayback 0 START) w = 1%nat /\
  registered (CbPlayback 0 FINISH) w = 1%nat /\
  (HostStart 0 ∉ trace w) /\
  (HostStart 0 ∈ trace w') /\
  (HostFinish 0 ∉ trace w') /\
  microtasks w' = [] /\
  scheduledActivity_ <$> objs w' !! 0%nat = Some None.
Proof.
  vm_compute. repeat split; try reflexivity.
  - intros H. repeat (apply elem_of_cons in H as [H|H]; [discriminate|]).
    apply elem_of_nil in H. exact H.
  - repeat first [apply list_elem_of_here | apply list_elem_of_further].
  - intros H. repeat (apply elem_of_cons in H as [H|H]; [discriminate|]).
    apply elem_of_nil in H. exact H.
Qed.

(** The same with two activities of one kind: of two [finish()] calls on
    the running A, the callback of the first one finishes the host runner
    and that of the second one finds the slot empty. *)
Lemma older_finish_executes_first :
  let w0 := ex_run (ex_ready ++ CallStart_ 0 :: ticks 10)
              AnimationManager_new in
  let w := ex_run [CallFinish_ 0; CallFinish_ 0] w0 in
  registered (CbPlayback 0 FINISH) w = 2%nat /\
  trace (ex_run [Tick] w) = SeqNotifyFinish "A" :: HostFinish 0 :: trace w /\
  scheduledActivity_ <$> objs (ex_run [Tick] w) !! 0%nat = Some None /\
  registered (CbPlayback 0 FINISH) (ex_run [Tick] w) = 1%nat /\
  trace (ex_run (ticks 10) w) = trace (ex_run [Tick] w).
Proof. vm_compute. repeat split. Qed.

(** With the element of the unknown preset between A and B, no runner list
    is stored and B gets no runner; every later access to the runners
    fails. *)
Lemma unknown_preset_leaves_siblings_without_runner :
  let res := getOrCreateRunners_ ex_presets ex_time ex_root_bad
               AnimationManager_new in
  fst res = Throw (UserError (invalid_preset_msg "zoooom" ex_Z)) /\
  runners_ (snd res) = None /\
  length (objs (snd res)) = 1%nat /\
  (forall r, r ∈ objs (snd res) -> target_ r <> ex_B) /\
  throws (getRunners_) (snd res) = true.
Proof.
  vm_compute. repeat split.
  intros r H. apply list_elem_of_singleton in H. subst. discriminate.
Qed.

(** A is finished once on the ready page, which clears its first-frame
    flag; B is then started and waits for A. A second [finish()] on A,
    which was never started, notifies nobody: B goes on waiting. *)
Lemma finish_without_first_frame_is_silent :
  let w := ex_run (ex_ready ++ CallFinish_ 0 :: ticks 10 ++
                   CallStart_ 1 :: ticks 10) AnimationManager_new in
  let w' := ex_run (CallFinish_ 0 :: ticks 10) w in
  firstFrameApplied_ <$> objs w !! 0%nat = Some false /\
  (HostStart 0 ∉ trace w) /\
  (exists p, inflight w "A" = Some p /\
             promises w !! p = Some (Pending [RAdopt (p - 2)]) /\
             inflight w' "A" = Some p /\
             promises w' !! p = Some (Pending [RAdopt (p - 2)])) /\
  throws (finish 0) w = false /\
  trace w' = trace w /\
  scheduledActivity_ <$> objs w' !! 1%nat = Some (Some START).
Proof.
  vm_compute. repeat split.
  - intros H. repeat (apply elem_of_cons in H as [H|H]; [discriminate|]).
    apply elem_of_nil in H. exact H.
  - exists 23%nat. repeat split.
Qed.

(** ** The further properties on the example page *)

(** The ready page, and the page when A is running. *)
Definition ex_w_ready : World := ex_run ex_ready AnimationManager_new.
Definition ex_w_running : World :=
  ex_run (ex_ready ++ CallStart_ 0 :: ticks 10) AnimationManager_new.

(** A page with A alone, where A was started while the builder was loading
    and the callback that makes A ready is running. *)
Definition ex_w_resolving : World :=
  set_microtasks (drop 1)
    (run ex_host ex_presets IDLE ex_time [ex_A]
       (ex_loading ++ [CallStart_ 0; BuilderReady] ++ ticks 2)
       AnimationManager_new).

Lemma ex_w_ready_SeqWF : SeqWF ex_w_ready.
Proof. apply SeqWF_no_wait. vm_compute. reflexivity. Qed.

Lemma ex_w_running_SeqWF : SeqWF ex_w_running.
Proof. apply SeqWF_no_wait. vm_compute. reflexivity. Qed.

Lemma ex_w_resolving_SeqWF : SeqWF ex_w_resolving.
Proof. apply SeqWF_no_wait. vm_compute. reflexivity. Qed.

Lemma ex_runners_exist (w : World) :
  length (objs w) = 2%nat ->
  forall i : nat, i ∈ [0%nat; 1%nat] -> is_Some (objs w !! i).
Proof.
  intros Hlen i Hi. apply lookup_lt_is_Some. rewrite Hlen.
  apply elem_of_cons in Hi as [->|Hi]; [lia|].
  apply list_elem_of_singleton in Hi as ->. lia.
Qed.

Lemma play_state_handler_notifies_on_finished_witness :
  let w := exec (waitFor "A") ex_w_ready in
  throws (playStateChanged 0 FINISHED) w = false /\
  inflight (exec (playStateChanged 0 FINISHED) w) "A" = None.
Proof.
  intros w.
  assert (SeqWF w) as Hwf by (apply SeqWF_waitFor, ex_w_ready_SeqWF).
  assert (exists r, objs w !! 0%nat = Some r /\ el_id (target_ r) = "A")
    as (r & Hr & Hid).
  { eexists. split; [vm_compute; reflexivity|reflexivity]. }
  destruct (play_state_handler_notifies_on_finished w 0 r FINISHED Hwf Hr)
    as (H1 & H2 & _).
  split; [exact H1|]. rewrite Hid in H2.
  destruct (H2 eq_refl) as (_ & Hin & _); [discriminate|exact Hin].
Defined.

Lemma first_frame_styles_set_and_reset_witness :
  exists s,
    trace (exec (runCallback ex_host IDLE (CbApplyFirstFrame 0)) ex_w_ready) =
      VsyncMutate 0 (SetStyles s) :: trace ex_w_ready /\
    trace (exec (runCallback ex_host IDLE (CbResetFirstFrame 0)) ex_w_ready) =
      VsyncMutate 0 (ResetStyles (fst <$> s)) :: trace ex_w_ready /\
    fst <$> s = ["opacity"].
Proof.
  assert (exists r, objs ex_w_ready !! 0%nat = Some r /\
            keyframes_value r =
              Some [[("opacity", VNumber 0 1)]; [("opacity", VNumber 1 1)]])
    as (r & Hr & Hk).
  { eexists. split; [vm_compute; reflexivity|reflexivity]. }
  destruct (first_frame_styles_set_and_reset ex_host IDLE ex_time
              ex_w_ready 0 r _ Hr Hk) as (s & H1 & H2 & H3 & _).
  exists s. split; [exact H1|]. split; [exact H2|exact H3].
Defined.

Lemma manager_makes_one_runner_per_animatable_element_witness :
  exists rs w',
    getOrCreateRunners_ ex_presets ex_time ex_root AnimationManager_new =
      (Ok rs, w') /\
    target_ <$> objs w' = [ex_A; ex_B] /\ rs = [0%nat; 1%nat] /\
    getRunners_ w' = (Ok rs, w').
Proof.
  assert (exists rs w',
            getOrCreateRunners_ ex_presets ex_time ex_root AnimationManager_new =
              (Ok rs, w')) as (rs & w' & Hg).
  { do 2 eexists. vm_compute. reflexivity. }
  destruct (manager_makes_one_runner_per_animatable_element ex_presets ex_time
              ex_root AnimationManager_new w' rs eq_refl Hg)
    as (new & Ho & Ht & Hrs & _ & _ & _ & _ & Hget).
  exists rs, w'. split; [exact Hg|]. split; [rewrite Ho; exact Ht|].
  split; [exact Hrs|exact Hget].
Defined.

Lemma nothing_happens_before_applyFirstFrame_witness :
  let w := ex_run [CallCancelAll; BuilderReady; CallAnimateIn; Tick; CallStart_ 0]
             AnimationManager_new in
  objs w = [] /\ trace w = [].
Proof.
  destruct (nothing_happens_before_applyFirstFrame ex_host ex_presets IDLE ex_time
              ex_root [CallCancelAll; BuilderReady; CallAnimateIn; Tick; CallStart_ 0])
    as (H1 & _ & H3 & _).
  - repeat constructor; discriminate.
  - split; [exact H1|exact H3].
Defined.

Lemma start_is_ignored_while_anything_is_scheduled_witness :
  exists p w' r',
    start 0 ex_w_ready = (Ok tt, w') /\
    objs w' !! 0%nat = Some r' /\
    scheduledActivity_ r' = Some START /\ scheduledWait_ r' = Some p /\
    trace w' = trace ex_w_ready.
Proof.
  assert (exists r, objs ex_w_ready !! 0%nat = Some r /\ hasStarted r = false)
    as (r & Hr & Hs).
  { eexists. split; [vm_compute; reflexivity|reflexivity]. }
  destruct (start_is_ignored_while_anything_is_scheduled ex_w_ready 0 r Hr)
    as (_ & _ & H).
  destruct (H Hs) as (p & w' & r' & H1 & H2 & H3 & H4 & _ & _ & H7 & _).
  exists p, w', r'. repeat split; assumption.
Defined.

Lemma animateIn_marks_every_runner_started_witness :
  exists w',
    animateIn ex_w_ready = (Ok tt, w') /\
    trace w' = trace ex_w_ready /\
    hasAnimationStarted w' = (Ok true, w').
Proof.
  destruct (animateIn_marks_every_runner_started ex_w_ready [0%nat; 1%nat])
    as (w' & H1 & H2 & _ & H4).
  - vm_compute. reflexivity.
  - apply ex_runners_exist. vm_compute. reflexivity.
  - exists w'. split; [exact H1|]. split; [exact H2|exact H4].
Defined.

Lemma start_reaches_host_in_next_microtask_witness :
  exists new,
    trace (exec (tick ex_host IDLE) (exec (start 0) ex_w_ready)) =
      new ++ HostStart 0 :: trace ex_w_ready.
Proof.
  assert (exists r h, objs ex_w_ready !! 0%nat = Some r /\ runner_ r = true /\
            host r = Some h /\ hasStarted r = false /\ no_dependency r /\
            delay_ r = 0 /\ runnerReset_ r = true)
    as (r & h & Hr & Hrun & Hh & Hs & Hdep & Hdel & Hres).
  { do 2 eexists. split; [vm_compute; reflexivity|].
    repeat split; try reflexivity. left. reflexivity. }
  assert (microtasks ex_w_ready = []) as Hq by (vm_compute; reflexivity).
  destruct (start_reaches_host_in_next_microtask ex_host IDLE ex_w_ready 0 r h
              ex_w_ready_SeqWF Hr Hrun Hh Hs Hdep Hdel Hq)
    as (_ & new & r' & H1 & _).
  exists new. rewrite Hres in H1. exact H1.
Defined.

Lemma finish_reaches_host_only_if_running_witness :
  exists new,
    trace (exec (tick ex_host IDLE) (exec (finish 0) ex_w_running)) =
      new ++ HostFinish 0 :: trace ex_w_running.
Proof.
  assert (exists r h, objs ex_w_running !! 0%nat = Some r /\ runner_ r = true /\
            host r = Some h /\ firstFrameApplied_ r = false /\
            playState h = RUNNING)
    as (r & h & Hr & Hrun & Hh & Hff & Hps).
  { do 2 eexists. split; [vm_compute; reflexivity|]. repeat split; reflexivity. }
  assert (microtasks ex_w_running = []) as Hq by (vm_compute; reflexivity).
  destruct (finish_reaches_host_only_if_running ex_host IDLE ex_w_running 0 r h
              ex_w_running_SeqWF Hr Hrun Hh Hff Hq)
    as (_ & r' & _ & _ & H).
  rewrite Hps in H. destruct H as ((new & H1 & _) & _).
  exists new. exact H1.
Defined.

Lemma cancelAll_clears_every_runner_witness :
  exists new w',
    cancelAll ex_host ex_w_running = (Ok tt, w') /\
    trace w' = new ++ trace ex_w_running /\
    HostCancel 0 ∈ new /\
    (HostCancel 1 ∉ new).
Proof.
  destruct (cancelAll_clears_every_runner ex_host ex_w_running [0%nat; 1%nat])
    as (new & w' & H1 & H2 & _ & H4 & _).
  - vm_compute. reflexivity.
  - apply NoDup_cons. split; [|apply NoDup_singleton].
    intros H0. apply list_elem_of_singleton in H0. discriminate H0.
  - apply ex_runners_exist. vm_compute. reflexivity.
  - exact ex_w_running_SeqWF.
  - exists new, w'. split; [exact H1|]. split; [exact H2|]. split.
    + apply H4. eexists. split; [apply list_elem_of_here|].
      split; [vm_compute; reflexivity|reflexivity].
    + intros Hin. apply H4 in Hin as (r & _ & Hr & Hrun).
      vm_compute in Hr. injection Hr as <-. discriminate Hrun.
Defined.

Lemma run_keeps_runner_identity_witness :
  exists r',
    objs (ex_run [CallAnimateIn; Tick; Tick; CallCancelAll] ex_w_ready) !! 1%nat =
      Some r' /\
    target_ r' = ex_B.
Proof.
  assert (exists r, objs ex_w_ready !! 1%nat = Some r /\ target_ r = ex_B)
    as (r & Hr & Ht).
  { eexists. split; [vm_compute; reflexivity|reflexivity]. }
  destruct (run_keeps_runner_identity ex_host ex_presets IDLE ex_time ex_root
              [CallAnimateIn; Tick; Tick; CallCancelAll] ex_w_ready 1 r Hr)
    as (r' & Hr' & _ & Ht' & _).
  exists r'. split; [exact Hr'|congruence].
Defined.

Lemma onRunnerReady_executes_what_is_scheduled_witness :
  exists new,
    trace (exec (tick ex_host IDLE) (exec (onRunnerReady_ 0) ex_w_resolving)) =
      new ++ HostStart 0 :: trace ex_w_resolving.
Proof.
  assert (exists r h p, objs ex_w_resolving !! 0%nat = Some r /\
            scheduledActivity_ r = Some START /\ scheduledWait_ r = Some p /\
            promises ex_w_resolving !! p = Some Resolved /\
            host r = Some h /\ runnerReset_ r = true)
    as (r & h & p & Hr & Ha & Hw & Hp & Hh & Hres).
  { do 3 eexists. split; [vm_compute; reflexivity|].
    split; [reflexivity|]. split; [reflexivity|].
    split; [vm_compute; reflexivity|]. split; reflexivity. }
  assert (microtasks ex_w_resolving = []) as Hq by (vm_compute; reflexivity).
  destruct (onRunnerReady_executes_what_is_scheduled ex_host IDLE
              ex_w_resolving 0 r ex_w_resolving_SeqWF Hr)
    as (_ & _ & _ & _ & H).
  - intros p' Hp'. rewrite Hw in Hp'. injection Hp' as <-. rewrite Hp. eauto.
  - destruct (H h p Ha Hw Hp Hh Hq) as (new & r' & H1 & _).
    exists new. rewrite Hres in H1. exact H1.
Defined.

Lemma manager_applyFirstFrame_applies_once_witness :
  exists ps w',
    Manager_applyFirstFrame ex_presets ex_time ex_root AnimationManager_new =
      (Ok ps, w') /\
    fst (Manager_applyFirstFrame ex_presets ex_time ex_root w') =
      Ok (seq (length (promises w')) 2) /\
    forall cb,
      registered cb (exec (Manager_applyFirstFrame ex_presets ex_time ex_root) w') =
      registered cb w'.
Proof.
  assert (exists ps w',
            Manager_applyFirstFrame ex_presets ex_time ex_root
              AnimationManager_new = (Ok ps, w')) as (ps & w' & Hm).
  { do 2 eexists. vm_compute. reflexivity. }
  destruct (manager_applyFirstFrame_applies_once ex_presets ex_time ex_root
              AnimationManager_new w' ps eq_refl Hm)
    as (rs & _ & Hl & _ & _ & _ & H6 & H7).
  exists ps, w'. split; [exact Hm|]. unfold exec. rewrite H6. simpl.
  split; [rewrite Hl; reflexivity|exact H7].
Defined.

Lemma finish_overwrites_the_slot_witness :
  exists new w',
    finish 0 ex_w_ready = (Ok tt, w') /\
    trace w' = new ++ trace ex_w_ready /\
    start 0 w' = (Ok tt, w').
Proof.
  assert (exists r, objs ex_w_ready !! 0%nat = Some r) as (r & Hr).
  { eexists. vm_compute. reflexivity. }
  destruct (finish_overwrites_the_slot ex_w_ready 0 r ex_w_ready_SeqWF Hr)
    as (new & w' & r' & H1 & H2 & _ & _ & _ & _ & _ & _ & H9 & _).
  exists new, w'. split; [exact H1|]. split; [exact H2|exact H9].
Defined.

(** A page with one element whose preset declares a delay, ready to play. *)
Definition ex_fade_late : StoryAnimationPresetDef :=
  {| preset_keyframes :=
       KeyframesArray [[("opacity", VNumber 0 1)]; [("opacity", VNumber 1 1)]];
     preset_duration := Some 500; preset_delay := Some 200;
     preset_easing := "ease-in" |}.

Definition ex_D : Element :=
  {| tagName := "DIV"; el_id := "D";
     attributes := [("animate-in", "fade-late")] |}.

Definition ex_run_late : list Event -> World -> World :=
  run ex_host {[ "fade-late" := ex_fade_late ]} IDLE ex_time [ex_D].

Definition ex_w_late : World := ex_run_late ex_ready AnimationManager_new.

Lemma ex_w_late_SeqWF : SeqWF ex_w_late.
Proof. apply SeqWF_no_wait. vm_compute. reflexivity. Qed.

Lemma delayed_start_waits_for_the_timer_witness :
  let w1 := ex_run_late [CallStart_ 0; Tick; Tick] ex_w_late in
  trace w1 = TimerPromise 0 200 :: trace ex_w_late /\
  timers w1 = timers ex_w_late ++ [12%nat] /\
  exists new,
    trace (ex_run_late [TimerFires 12; Tick; Tick] w1) =
      new ++ HostStart 0 :: TimerPromise 0 200 :: trace ex_w_late.
Proof.
  assert (exists r h, objs ex_w_late !! 0%nat = Some r /\ runner_ r = true /\
            host r = Some h /\ hasStarted r = false /\ no_dependency r /\
            delay_ r = 200 /\ runnerReset_ r = true)
    as (r & h & Hr & Hrun & Hh & Hs & Hdep & Hdel & Hres).
  { do 2 eexists. split; [vm_compute; reflexivity|].
    repeat split; try reflexivity. left. reflexivity. }
  assert (delay_ r <> 0) as Hnz by (rewrite Hdel; lia).
  assert (microtasks ex_w_late = []) as Hq by (vm_compute; reflexivity).
  assert (length (promises ex_w_late) = 9%nat) as Hlen by (vm_compute; reflexivity).
  pose proof (delayed_start_waits_for_the_timer ex_host
                {[ "fade-late" := ex_fade_late ]} IDLE ex_time [ex_D]
                ex_w_late 0 r h ex_w_late_SeqWF Hr Hrun Hh Hs Hdep Hnz Hq) as H.
  cbv zeta in H. rewrite Hlen, Hdel, Hres in H.
  destruct H as (H1 & H2 & _ & new & r' & H3 & _).
  intros w1. split; [exact H1|]. split; [exact H2|]. exists new. exact H3.
Defined.

Lemma dependent_start_follows_the_notification_witness :
  let w1 := ex_run [CallStart_ 1; Tick; Tick] ex_w_ready in
  trace w1 = trace ex_w_ready /\
  inflight w1 "A" = Some 20%nat /\
  exists new,
    trace (ex_run [PlayStateChanges 0 FINISHED; Tick; Tick] w1) =
      new ++ HostStart 1 :: SeqResolve "A" :: SeqNotifyFinish "A"
        :: trace ex_w_ready.
Proof.
  assert (exists r h, objs ex_w_ready !! 1%nat = Some r /\ runner_ r = true /\
            host r = Some h /\ hasStarted r = false /\
            startAfterId (animationDef_ r) = Some "A" /\
            delay_ r = 0 /\ runnerReset_ r = true)
    as (r & h & Hr & Hrun & Hh & Hs & Hdep & Hdel & Hres).
  { do 2 eexists. split; [vm_compute; reflexivity|]. repeat split; reflexivity. }
  assert (exists rj hj, objs ex_w_ready !! 0%nat = Some rj /\
            el_id (target_ rj) = "A" /\ host rj = Some hj /\
            subscribed hj = true)
    as (rj & hj & Hrj & Hid & Hhj & Hsub).
  { do 2 eexists. split; [vm_compute; reflexivity|]. repeat split; reflexivity. }
  assert (inflight ex_w_ready "A" = None) as Hin by (vm_compute; reflexivity).
  assert (microtasks ex_w_ready = []) as Hq by (vm_compute; reflexivity).
  assert (length (promises ex_w_ready) = 17%nat) as Hlen by (vm_compute; reflexivity).
  assert ("A" <> "") as Hne by discriminate.
  assert (0%nat <> 1%nat) as Hji by lia.
  pose proof (dependent_start_follows_the_notification ex_host ex_presets IDLE
                ex_time ex_root ex_w_ready 1 0 r rj h hj "A"
                ex_w_ready_SeqWF Hr Hrun Hh Hs Hdep Hne Hdel Hin Hq Hji Hrj
                Hid Hhj Hsub) as H.
  cbv zeta in H. rewrite Hlen, Hres in H.
  destruct H as (H1 & H2 & _ & new & r' & H3 & _).
  intros w1. split; [exact H1|]. split; [exact H2|]. exists new. exact H3.
Defined.

(** A declares no delay and no duration and its preset gives 200 and 500:
    the runner takes those of the preset. *)
Lemma delay_duration_fall_back_by_truthiness_witness :
  let animationDef :=
    {| target := ex_D; preset := ex_fade_late;
       duration := None; delay := Some 0; startAfterId := None |} in
  exists r,
    objs (exec (AnimationRunner_new animationDef) AnimationManager_new) !! 0%nat
      = Some r /\
    delay_ r = 200 /\ duration_ r = 500.
Proof.
  intros animationDef.
  destruct (delay_duration_fall_back_by_truthiness animationDef
              AnimationManager_new) as (r & Hr & _ & Hd & _ & _ & Hu & _).
  exists r. split; [exact Hr|]. split.
  - apply Hd; [left; reflexivity|reflexivity|discriminate].
  - apply Hu; [right; reflexivity|reflexivity|discriminate].
Defined.

(** ** A page where B starts after A, with a delay *)

Definition ex_presets_late : gmap string StoryAnimationPresetDef :=
  {[ "fade-in" := ex_fade_in; "fade-late" := ex_fade_late ]}.

Definition ex_B_late : Element :=
  {| tagName := "DIV"; el_id := "B";
     attributes := [("animate-in", "fade-late"); ("animate-in-after", "A")] |}.

Definition ex_run_chain : list Event -> World -> World :=
  run ex_host ex_presets_late IDLE ex_time [ex_A; ex_B_late].

(** The ready page; its first play up to the moment the delay timer of B is
    running; and the play called off, with the first frames applied again. *)
Definition ex_w_chain : World := ex_run_chain ex_ready AnimationManager_new.

Definition ex_first_play : list Event :=
  CallAnimateIn :: ticks 10 ++ PlayStateChanges 0 FINISHED :: ticks 10.

Definition ex_called_off : list Event :=
  ex_first_play ++ [CallCancelAll; CallManagerApplyFirstFrame] ++ ticks 10.


